(** * OpenPowderGame: the simulation core, embedded and verified

    The development follows the JavaScript sources:
    - [Utils]        (js/utils.js): random integers and elements;
    - [Particles]    (particles module): the element table, the particle
                     factory and the per-element [update] behaviours;
    - [Engine]       (engine module): the grid, the mutation primitives, the
                     history stacks, the snapshot export and import and the
                     tick scheduler [update];
    - [Interactions] (interactions module): the reaction table and the
                     neighbour scan.

    JavaScript numbers are IEEE 754 binary64 values: they are Rocq's primitive
    floats here, so that [corrosion += 0.1] rounds as it does in a browser.
    Grid coordinates and counters only ever hold integers; they are [Z].
    [Math.random()] is an oracle: the sequence of values it will return,
    together with the number of calls made so far.  A method is a function of
    the world (the engine object and the oracle) that either returns a value
    and the next world or throws. *)

From Stdlib Require Import ZArith List Ascii String Bool Lia Permutation.
From Stdlib Require Import PrimFloat FloatOps FloatAxioms SpecFloat Uint63.
From stdpp Require Import base tactics option list strings.

(** Decimal literals stand for the nearest binary64 value, as they do in
    JavaScript. *)
#[local] Set Warnings "-inexact-float".

Local Open Scope string_scope.
Local Open Scope list_scope.
Local Open Scope Z_scope.

(** ** JavaScript numbers *)

Module Js.

(** The integer [z] as a number; exact for |z| < 2^53, which covers every
    array length and grid size the program can hold. *)
Definition of_Z (z : Z) : float :=
  if z <? 0 then PrimFloat.opp (PrimFloat.of_uint63 (Uint63.of_Z (- z)))
  else PrimFloat.of_uint63 (Uint63.of_Z z).

Definition is_nan (f : float) : bool := negb (PrimFloat.eqb f f).

(** [!v] for a property that is either missing ([undefined]) or a number:
    true for [undefined], [0], [-0] and [NaN]. *)
Definition falsy (v : option float) : bool :=
  match v with
  | None => true
  | Some f => PrimFloat.eqb f 0 || is_nan f
  end.

(** [a < b] where [b] is a property that may be missing: [undefined]
    converts to [NaN] and the comparison is false. *)
Definition lt_prop (a : float) (b : option float) : bool :=
  match b with
  | Some v => PrimFloat.ltb a v
  | None => false
  end.

(** The integer part [Math.floor] keeps, when the number is finite. *)
Definition floor_Z (f : float) : option Z :=
  match Prim2SF f with
  | S754_zero _ => Some 0
  | S754_finite s m e =>
      let q := if 0 <=? e then Z.shiftl (Z.pos m) e
               else Z.shiftr (Z.pos m) (- e) in
      let exact := if 0 <=? e then true
                   else Z.shiftl q (- e) =? Z.pos m in
      Some (if s then (if exact then - q else - q - 1) else q)
  | _ => None
  end.

(** [Math.floor]: numbers of magnitude 2^52 and above, zeros, infinities
    and [NaN] are their own floor. *)
Definition floor (f : float) : float :=
  match Prim2SF f with
  | S754_finite _ _ e =>
      if 0 <=? e then f
      else match floor_Z f with Some z => of_Z z | None => f end
  | _ => f
  end.

(** The array index a number names: a non-negative integer; any other
    number is an ordinary property key, not an element. *)
Definition to_index (f : float) : option nat :=
  match Prim2SF f with
  | S754_zero _ => Some 0%nat
  | S754_finite false m e =>
      if 0 <=? e then Some (Z.to_nat (Z.shiftl (Z.pos m) e))
      else let q := Z.shiftr (Z.pos m) (- e) in
           if Z.shiftl q (- e) =? Z.pos m then Some (Z.to_nat q) else None
  | _ => None
  end.

(** [array[f]]; [None] is [undefined]. *)
Definition index {A} (l : list A) (f : float) : option A :=
  match to_index f with
  | Some i => l !! i
  | None => None
  end.

(** [Math.max(a, b)] and [Math.min(a, b)] of two numbers: [NaN] when either
    is; of the two zeros [max] prefers [+0] and [min] prefers [-0]. *)
Definition is_neg_zero (f : float) : bool :=
  match PrimFloat.classify f with
  | FloatClass.NZero => true
  | _ => false
  end.

Definition max (a b : float) : float :=
  if is_nan a || is_nan b then PrimFloat.nan
  else if PrimFloat.ltb a b then b
  else if PrimFloat.ltb b a then a
  else if is_neg_zero a then b else a.

Definition min (a b : float) : float :=
  if is_nan a || is_nan b then PrimFloat.nan
  else if PrimFloat.ltb a b then a
  else if PrimFloat.ltb b a then b
  else if is_neg_zero a then a else b.

End Js.

(** ** Particles, cells and snapshots *)

(** The [burning] property holds a number on wood (the fire+wood reaction
    counts contact ticks in it) and the string ['wood'] on a fire particle
    that the fire behaviour lit from wood.  [BText k] is the string ['wood']
    followed by [k] characters ['1'], which is what [+= 1] makes of it; such a
    string converts to [NaN] in a comparison. *)
Inductive Burning :=
| BNum (n : float)
| BText (ones : nat).

Record Particle := mkParticle {
  type : string;
  x : Z;
  y : Z;
  vx : option float;
  vy : option float;
  updated : bool;
  colorVariation : option float;
  life : option float;
  burning : option Burning;
  corrosion : option float
}.

Definition with_pos (nx ny : Z) (p : Particle) : Particle :=
  mkParticle (type p) nx ny (vx p) (vy p) (updated p) (colorVariation p)
             (life p) (burning p) (corrosion p).
Definition with_updated (b : bool) (p : Particle) : Particle :=
  mkParticle (type p) (x p) (y p) (vx p) (vy p) b (colorVariation p)
             (life p) (burning p) (corrosion p).
Definition with_colorVariation (v : option float) (p : Particle) : Particle :=
  mkParticle (type p) (x p) (y p) (vx p) (vy p) (updated p) v
             (life p) (burning p) (corrosion p).
Definition with_life (v : option float) (p : Particle) : Particle :=
  mkParticle (type p) (x p) (y p) (vx p) (vy p) (updated p) (colorVariation p)
             v (burning p) (corrosion p).
Definition with_burning (v : option Burning) (p : Particle) : Particle :=
  mkParticle (type p) (x p) (y p) (vx p) (vy p) (updated p) (colorVariation p)
             (life p) v (corrosion p).
Definition with_corrosion (v : option float) (p : Particle) : Particle :=
  mkParticle (type p) (x p) (y p) (vx p) (vy p) (updated p) (colorVariation p)
             (life p) (burning p) v.

(** What [grid[y][x]] can evaluate to: [undefined] (a column outside the row),
    [null] (an empty cell) or a particle object. *)
Inductive Cell :=
| Undefined
| Null
| Obj (p : Particle).

(** [if (cell)] *)
Definition truthy (c : Cell) : bool :=
  match c with Obj _ => true | _ => false end.

(** [cell !== null] *)
Definition not_null (c : Cell) : bool :=
  match c with Null => false | _ => true end.

(** One entry of a snapshot's particle list. *)
Record SnapParticle := mkSnap {
  sx : Z;
  sy : Z;
  stype : string;
  slife : option float;
  sburning : option Burning;
  scorrosion : option float
}.

Record Snapshot := mkSnapshot {
  particles : list SnapParticle;
  swidth : Z;
  sheight : Z;
  count : Z
}.

(** ** The engine object and the world *)

(** The active-region set is a JavaScript [Set] of keys ["x,y"]: insertion
    ordered, no duplicates.  A key is kept as the pair of integers it
    spells. *)
Abbreviation Coord := (Z * Z)%type.
Abbreviation ActiveSet := (list (Z * Z)).

Definition set_add (k : Coord) (s : ActiveSet) : ActiveSet :=
  if bool_decide (k ∈ s) then s else s ++ [k].
Definition set_has (k : Coord) (s : ActiveSet) : bool := bool_decide (k ∈ s).
Definition set_delete (k : Coord) (s : ActiveSet) : ActiveSet :=
  filter (λ k', k' ≠ k) s.

Record Engine := mkEngine {
  width : Z;
  height : Z;
  grid : list (list Cell);
  active : bool;
  gravity : string;
  speed : float;
  updateCount : Z;
  undoStack : list Snapshot;
  redoStack : list Snapshot;
  maxUndoSteps : Z;
  particleCount : Z;
  activeRegions : ActiveSet;
  _skipNextUndo : bool
}.

Definition with_grid (g : list (list Cell)) (e : Engine) : Engine :=
  mkEngine (width e) (height e) g (active e) (gravity e) (speed e)
    (updateCount e) (undoStack e) (redoStack e) (maxUndoSteps e)
    (particleCount e) (activeRegions e) (_skipNextUndo e).
Definition with_updateCount (n : Z) (e : Engine) : Engine :=
  mkEngine (width e) (height e) (grid e) (active e) (gravity e) (speed e)
    n (undoStack e) (redoStack e) (maxUndoSteps e)
    (particleCount e) (activeRegions e) (_skipNextUndo e).
Definition with_undoStack (s : list Snapshot) (e : Engine) : Engine :=
  mkEngine (width e) (height e) (grid e) (active e) (gravity e) (speed e)
    (updateCount e) s (redoStack e) (maxUndoSteps e)
    (particleCount e) (activeRegions e) (_skipNextUndo e).
Definition with_redoStack (s : list Snapshot) (e : Engine) : Engine :=
  mkEngine (width e) (height e) (grid e) (active e) (gravity e) (speed e)
    (updateCount e) (undoStack e) s (maxUndoSteps e)
    (particleCount e) (activeRegions e) (_skipNextUndo e).
Definition with_particleCount (n : Z) (e : Engine) : Engine :=
  mkEngine (width e) (height e) (grid e) (active e) (gravity e) (speed e)
    (updateCount e) (undoStack e) (redoStack e) (maxUndoSteps e)
    n (activeRegions e) (_skipNextUndo e).
Definition with_activeRegions (s : ActiveSet) (e : Engine) : Engine :=
  mkEngine (width e) (height e) (grid e) (active e) (gravity e) (speed e)
    (updateCount e) (undoStack e) (redoStack e) (maxUndoSteps e)
    (particleCount e) s (_skipNextUndo e).
Definition with_skipNextUndo (b : bool) (e : Engine) : Engine :=
  mkEngine (width e) (height e) (grid e) (active e) (gravity e) (speed e)
    (updateCount e) (undoStack e) (redoStack e) (maxUndoSteps e)
    (particleCount e) (activeRegions e) b.

(** The state of [Math.random]: the values it returns, in order, and how many
    have been handed out. *)
Record Rng := mkRng {
  source : nat -> float;
  calls : nat
}.

Record World := mkWorld {
  engine : Engine;
  rng : Rng
}.

(** ** Methods: state, randomness and exceptions *)

Inductive Res (A : Type) :=
| Ok (a : A) (w : World)
| Throw.
Arguments Ok {A} a w.
Arguments Throw {A}.

Definition M (A : Type) : Type := World -> Res A.

Definition ret {A} (a : A) : M A := λ w, Ok a w.

Definition bind {A B} (m : M A) (k : A -> M B) : M B := λ w,
  match m w with
  | Ok a w' => k a w'
  | Throw => Throw
  end.

Declare Scope js_scope.
Delimit Scope js_scope with js.
Notation "x ← y ; z" := (bind y (λ x : _, z))
  (at level 20, y at level 100, z at level 200, only parsing) : js_scope.
Notation "' x ← y ; z" := (bind y (λ x : _, z))
  (at level 20, x pattern, y at level 100, z at level 200, only parsing) : js_scope.
Notation "x ;; z" := (bind x (λ _, z))
  (at level 100, z at level 200, only parsing, right associativity) : js_scope.
Local Open Scope js_scope.

Definition throw {A} : M A := λ _, Throw.

(** [this] *)
Definition this : M Engine := λ w, Ok (engine w) w.

Definition modify (f : Engine -> Engine) : M unit :=
  λ w, Ok tt (mkWorld (f (engine w)) (rng w)).

(** [Math.random()] *)
Definition Math_random : M float :=
  λ w, Ok (source (rng w) (calls (rng w)))
          (mkWorld (engine w) (mkRng (source (rng w)) (S (calls (rng w))))).

(** [for (const v of l) body(v)] *)
Fixpoint for_each {A} (l : list A) (body : A -> M unit) : M unit :=
  match l with
  | [] => ret tt
  | v :: rest => body v;; for_each rest body
  end.

(** The integers [lo, lo+1, ..., hi-1], the values of a counter in
    [for (let i = lo; i < hi; i++)]. *)
Definition range (lo hi : Z) : list Z := seqZ lo (hi - lo).

(** ** The grid: a JavaScript array of row arrays *)

(** [grid[y]]: [undefined] for an index outside the array. *)
Definition grid_row (g : list (list Cell)) (y : Z) : option (list Cell) :=
  if y <? 0 then None else g !! Z.to_nat y.

(** [row[x]] *)
Definition row_get (r : list Cell) (x : Z) : Cell :=
  if x <? 0 then Undefined else default Undefined (r !! Z.to_nat x).

(** [row[x] = c].  Inside the row the element is replaced.  At or past the
    end JavaScript lengthens the array, leaving holes that read [undefined].
    A negative [x] names an ordinary property, not an element: the elements
    stay as they are. *)
Definition row_set (r : list Cell) (x : Z) (c : Cell) : list Cell :=
  if x <? 0 then r
  else if x <? Z.of_nat (length r) then <[Z.to_nat x := c]> r
  else r ++ replicate (Z.to_nat x - length r) Undefined ++ [c].

(** [this.grid[y][x]]; reading a column of a missing row is a TypeError. *)
Definition grid_get (x y : Z) : M Cell := λ w,
  match grid_row (grid (engine w)) y with
  | Some r => Ok (row_get r x) w
  | None => Throw
  end.

(** [this.grid[y][x] = c] *)
Definition grid_set (x y : Z) (c : Cell) : M unit := λ w,
  match grid_row (grid (engine w)) y with
  | Some r =>
      Ok tt (mkWorld (with_grid (<[Z.to_nat y := row_set r x c]> (grid (engine w)))
                                (engine w)) (rng w))
  | None => Throw
  end.

(** [this.grid[y][x]] used as an object: a property access on [null] or
    [undefined] is a TypeError. *)
Definition grid_obj (x y : Z) : M Particle :=
  c ← grid_get x y;
  match c with
  | Obj p => ret p
  | _ => throw
  end.

(** [this.grid[y][x].prop = v] and the like: the object in the cell is
    changed in place. *)
Definition grid_mutate (x y : Z) (f : Particle -> Particle) : M unit :=
  p ← grid_obj x y;
  grid_set x y (Obj (f p)).

(** ** Utils (js/utils.js) *)

Module Utils.

(** [Math.floor(Math.random() * (max - min + 1)) + min] *)
Definition randomInt (min max : float) : M float :=
  r ← Math_random;
  ret (Js.floor (r * (max - min + 1)) + min)%float.

(** [array[Math.floor(Math.random() * array.length)]] *)
Definition randomElement {A} (array : list A) : M (option A) :=
  r ← Math_random;
  ret (Js.index array (Js.floor (r * Js.of_Z (Z.of_nat (length array))))%float).

(** [Math.max(min, Math.min(max, value))] *)
Definition clamp (value min max : float) : float :=
  Js.max min (Js.min max value).

(** [x >= 0 && x < width && y >= 0 && y < height] *)
Definition inBounds (x y width height : Z) : bool :=
  (x >=? 0) && (x <? width) && (y >=? 0) && (y <? height).

(** The [while (true)] loop of [getLine] on integer coordinates, as long as
    they and the error term stay below 2^53 in magnitude, where the binary64
    arithmetic of the source is exact.  [fuel] bounds the number of
    iterations: [None] says the loop was still running when the fuel ran
    out. *)
Fixpoint getLine_loop (fuel : nat) (x1 y1 dx dy sx sy : Z) (x0 y0 err : Z)
         (points : list (Z * Z)) : option (list (Z * Z)) :=
  match fuel with
  | O => None
  | S fuel =>
      let points := points ++ [(x0, y0)] in
      if (x0 =? x1) && (y0 =? y1) then Some points else
      let e2 := 2 * err in
      let '(err, x0) := if e2 >? - dy then (err - dy, x0 + sx) else (err, x0) in
      let '(err, y0) := if e2 <? dx then (err + dx, y0 + sy) else (err, y0) in
      getLine_loop fuel x1 y1 dx dy sx sy x0 y0 err points
  end.

Definition getLine (fuel : nat) (x0 y0 x1 y1 : Z) : option (list (Z * Z)) :=
  let dx := Z.abs (x1 - x0) in
  let dy := Z.abs (y1 - y0) in
  let sx := if x0 <? x1 then 1 else -1 in
  let sy := if y0 <? y1 then 1 else -1 in
  getLine_loop fuel x1 y1 dx dy sx sy x0 y0 (dx - dy) [].

(** [getRectangle(x0, y0, x1, y1, filled)] on integer corners below 2^53
    in magnitude, where the counters [x++] and [y++] are exact. *)
Definition getRectangle (x0 y0 x1 y1 : Z) (filled : bool) : list (Z * Z) :=
  let startX := Z.min x0 x1 in
  let startY := Z.min y0 y1 in
  let endX := Z.max x0 x1 in
  let endY := Z.max y0 y1 in
  if filled then
    flat_map (λ y, map (λ x, (x, y)) (range startX (endX + 1)))
             (range startY (endY + 1))
  else
    flat_map (λ x, [(x, startY); (x, endY)]) (range startX (endX + 1))
    ++ flat_map (λ y, [(startX, y); (endX, y)]) (range (startY + 1) endY).

(** [Math.pow(v, 2)]; the square of an integer below 2^26 is exact. *)
Definition pow2 (v : float) : float := (v * v)%float.

(** The membership test of the filled ellipse, on the offsets [x - x0] and
    [y - y0]:
    [Math.pow(x - x0, 2) / Math.pow(radiusX, 2)
     + Math.pow(y - y0, 2) / Math.pow(radiusY, 2) <= 1]. *)
Definition in_ellipse (dx dy radiusX radiusY : Z) : bool :=
  (pow2 (Js.of_Z dx) / pow2 (Js.of_Z radiusX)
   + pow2 (Js.of_Z dy) / pow2 (Js.of_Z radiusY) <=? 1)%float.

(** [getEllipse(x0, y0, radiusX, radiusY, true)] on an integer centre
    and integer radii with [x0 + radiusX] and [y0 + radiusY] below 2^53 in
    magnitude, where the counters [x++] and [y++] and the offsets [x - x0]
    and [y - y0] are exact.  (The outline branch walks the parametric curve
    with [Math.cos] and [Math.sin].) *)
Definition getEllipse_filled (x0 y0 radiusX radiusY : Z) : list (Z * Z) :=
  flat_map
    (λ y, flat_map
            (λ x, if in_ellipse (x - x0) (y - y0) radiusX radiusY
                  then [(x, y)] else [])
            (range (x0 - radiusX) (x0 + radiusX + 1)))
    (range (y0 - radiusY) (y0 + radiusY + 1)).

Definition getBrushPoints (x y radius : Z) : list (Z * Z) :=
  let rx := radius in
  let ry := radius in
  getEllipse_filled x y rx ry.

Definition getElementColors : list (string * string) :=
  [ ("sand", "#e8d16f"); ("wall", "#808080"); ("water", "#4d97ff");
    ("oil", "#704214"); ("wood", "#945c31"); ("metal", "#b8b8b8");
    ("fire", "#ff6422"); ("steam", "#dce6f5"); ("smoke", "#555555");
    ("spark", "#ffff00"); ("acid", "#00ff00");
    ("source-water", "#0077be"); ("source-sand", "#d9b166");
    ("void", "#222222") ].

(** The value of a character the class [[a-f\d]] matches under the [i]
    flag. *)
Definition hex_digit (c : Ascii.ascii) : option Z :=
  let n := Z.of_N (Ascii.N_of_ascii c) in
  if (48 <=? n) && (n <=? 57) then Some (n - 48)
  else if (97 <=? n) && (n <=? 102) then Some (n - 87)
  else if (65 <=? n) && (n <=? 70) then Some (n - 55)
  else None.

(** [parseInt(s, 16)] of a group of two hexadecimal digits. *)
Definition hex_pair (a b : Ascii.ascii) : option Z :=
  match hex_digit a, hex_digit b with
  | Some h, Some l => Some (16 * h + l)
  | _, _ => None
  end.

(** [hexToRgb(hex)]: the pattern [/^#?([a-f\d]{2})([a-f\d]{2})([a-f\d]{2})$/i]
    on a string, [[0, 0, 0]] when it does not match. *)
Definition hexToRgb (hex : string) : Z * Z * Z :=
  let digits := match hex with
                | String "#"%char rest => rest
                | _ => hex
                end in
  match digits with
  | String r1 (String r2 (String g1 (String g2 (String b1 (String b2 EmptyString))))) =>
      match hex_pair r1 r2, hex_pair g1 g2, hex_pair b1 b2 with
      | Some r, Some g, Some b => (r, g, b)
      | _, _, _ => (0, 0, 0)
      end
  | _ => (0, 0, 0)
  end.

End Utils.

(** ** Particles: the element table and the particle factory *)

Module Particles.

Inductive Lifespan :=
| Ticks (n : float)
| Between (min max : float).

(** The properties of an element definition that the simulation reads.
    (Density, gravity, inertia, friction, burn time, temperatures,
    viscosity, heat and conductivity are declared in the source and read
    nowhere in the engine; the [color] is kept in [COLORS] and the [update]
    function in [Behaviors.UPDATES].)  A property an element does not
    declare is [None], or [false] for a flag. *)
Record Element := mkElement {
  el_colorVariation : option float;
  el_state : option string;
  el_flammable : bool;
  el_flammability : option float;
  el_conductive : bool;
  el_static : bool;
  el_spreadChance : option float;
  el_dispersion : option float;
  el_corrosionRate : option float;
  el_lifespan : option Lifespan;
  el_emitRate : option float;
  el_emitType : option string;
  el_voidRadius : option Z
}.

Definition sand : Element :=
  mkElement (Some 0.1%float) (Some "solid") false None false false (Some 0.8%float) None None
            None None None None.
Definition wall : Element :=
  mkElement (Some 0.05%float) (Some "solid") false None false true None None None
            None None None None.
Definition wood : Element :=
  mkElement (Some 0.1%float) (Some "solid") true (Some 0.05%float) false true None None None
            None None None None.
Definition metal : Element :=
  mkElement (Some 0.05%float) (Some "solid") false None true true None None None
            None None None None.
Definition water : Element :=
  mkElement (Some 0.1%float) (Some "liquid") false None false false None (Some 0.8%float) None
            None None None None.
Definition oil : Element :=
  mkElement (Some 0.15%float) (Some "liquid") true (Some 0.2%float) false false None
            (Some 0.7%float) None None None None None.
Definition acid : Element :=
  mkElement (Some 0.1%float) (Some "liquid") false None false false None (Some 0.75%float)
            (Some 0.1%float) (Some (Ticks 200)) None None None.
Definition steam : Element :=
  mkElement (Some 0.2%float) (Some "gas") false None false false None (Some 0.9%float) None
            (Some (Ticks 300)) None None None.
Definition smoke : Element :=
  mkElement (Some 0.2%float) (Some "gas") false None false false None (Some 0.95%float) None
            (Some (Ticks 400)) None None None.
Definition fire : Element :=
  mkElement (Some 0.3%float) (Some "energy") false None false false (Some 0.3%float) None None
            (Some (Between 40 100)) None None None.
Definition spark : Element :=
  mkElement (Some 0.2%float) (Some "energy") false None false false None None None
            (Some (Between 5 20)) None None None.
Definition source_water : Element :=
  mkElement (Some 0.05%float) (Some "special") false None false true None None None
            None (Some 0.2%float) (Some "water") None.
Definition source_sand : Element :=
  mkElement (Some 0.05%float) (Some "special") false None false true None None None
            None (Some 0.15%float) (Some "sand") None.
Definition void : Element :=
  mkElement (Some 0%float) (Some "special") false None false true None None None
            None None None (Some 1).

(** The object literal [Particles.ELEMENTS], in source order. *)
Definition ELEMENTS : list (string * Element) :=
  [ ("sand", sand); ("wall", wall); ("wood", wood); ("metal", metal);
    ("water", water); ("oil", oil); ("acid", acid);
    ("steam", steam); ("smoke", smoke);
    ("fire", fire); ("spark", spark);
    ("source-water", source_water); ("source-sand", source_sand);
    ("void", void) ].

(** [table[key]] on an object literal's own properties.  (The keys of
    [REACTIONS] hold a '+', and [COLORS] and [Behaviors.UPDATES] are read
    through an element definition, so for them no inherited name is in
    play; [ELEMENTS] is read through [element] below.) *)
Fixpoint lookup {A} (table : list (string * A)) (key : string) : option A :=
  match table with
  | [] => None
  | (k, v) :: rest => if String.eqb k key then Some v else lookup rest key
  end.

(** The property names an object literal inherits from [Object.prototype].
    Reading one of them off [ELEMENTS] yields a built-in function (for
    [__proto__], the prototype object itself). *)
Definition Object_prototype : list string :=
  [ "constructor"; "__defineGetter__"; "__defineSetter__"; "hasOwnProperty";
    "__lookupGetter__"; "__lookupSetter__"; "isPrototypeOf";
    "propertyIsEnumerable"; "toString"; "valueOf"; "__proto__";
    "toLocaleString" ].

(** Such a value read as an element definition: it is truthy and has none
    of the properties of [Element]. *)
Definition inherited : Element :=
  mkElement None None false None false false None None None
            None None None None.

(** [Particles.ELEMENTS[type]]: the own property of that name, else the
    inherited one, else [undefined]. *)
Definition element (type : string) : option Element :=
  match lookup ELEMENTS type with
  | Some elementType => Some elementType
  | None =>
      if existsb (String.eqb type) Object_prototype then Some inherited
      else None
  end.

(** [elementType.lifespan.min] and [.max]: a range has them, a plain number
    has neither ([undefined], [NaN] in arithmetic), and reading them off a
    missing [lifespan] is a TypeError. *)
Definition lifespan_bounds (el : Element) : M (float * float) :=
  match el_lifespan el with
  | Some (Between lo hi) => ret (lo, hi)
  | Some (Ticks _) => ret (PrimFloat.nan, PrimFloat.nan)
  | None => throw
  end.

(** [Particles.createParticle(type, x, y)]; [None] is [null]. *)
Definition createParticle (type : string) (x y : Z) : M (option Particle) :=
  match element type with
  | None => ret None
  | Some elementType =>
      let particle :=
        mkParticle type x y (Some 0%float) (Some 0%float) false
                   None None None None in
      particle ←
        (match el_colorVariation elementType with
         | Some variation =>
             if PrimFloat.ltb 0 variation then
               r ← Math_random;
               ret (with_colorVariation
                       (Some (r * variation * 2 - variation)%float)
                       particle)
             else ret particle
         | None => ret particle
         end);
      particle ←
        (if String.eqb type "fire" || String.eqb type "spark" then
           '(lo, hi) ← lifespan_bounds elementType;
           n ← Utils.randomInt lo hi;
           ret (with_life (Some n) particle)
         else ret particle);
      ret (Some particle)
  end.

(** The [color] property of each element definition, in source order. *)
Definition COLORS : list (string * string) :=
  [ ("sand", "#e8d16f"); ("wall", "#808080"); ("wood", "#945c31");
    ("metal", "#b8b8b8"); ("water", "#4d97ff"); ("oil", "#704214");
    ("acid", "#00ff00"); ("steam", "#dce6f5"); ("smoke", "#555555");
    ("fire", "#ff6422"); ("spark", "#ffff00");
    ("source-water", "#0077be"); ("source-sand", "#d9b166");
    ("void", "#222222") ].

(** [Particles.getCategorizedElements()] *)
Definition getCategorizedElements : list (string * list string) :=
  [ ("solids", ["sand"; "wall"; "wood"; "metal"]);
    ("liquids", ["water"; "oil"; "acid"]);
    ("gases", ["steam"; "smoke"]);
    ("energy", ["fire"; "spark"]);
    ("special", ["source-water"; "source-sand"; "void"]) ].

End Particles.

(** ** Engine: construction and the mutation primitives *)

(** [Array(this.height).fill().map(() => Array(this.width).fill(null))] *)
Definition _createGrid (width height : Z) : list (list Cell) :=
  replicate (Z.to_nat height) (replicate (Z.to_nat width) Null).

(** [new Engine(width, height)] *)
Definition new_Engine (width height : Z) : Engine :=
  mkEngine width height (_createGrid width height) true "down" 1 0
           [] [] 10 0 [] false.

(** The pairs [(dx, dy)] of [for dy in -1..1, for dx in -1..1], in loop
    order. *)
Definition offsets (r : Z) : list (Z * Z) :=
  flat_map (λ dy, map (λ dx, (dx, dy)) (range (- r) (r + 1))) (range (- r) (r + 1)).

(** [x >= 0 && x < width && y >= 0 && y < height] *)
Definition inBounds (x y width height : Z) : bool :=
  (x >=? 0) && (x <? width) && (y >=? 0) && (y <? height).

(** [_markRegionActive(x, y, targetSet)] on the set it is handed. *)
Definition markRegion (width height x y : Z) (targetSet : ActiveSet) : ActiveSet :=
  fold_left
    (λ s '(dx, dy),
       let nx := x + dx in
       let ny := y + dy in
       if inBounds nx ny width height then set_add (nx, ny) s else s)
    (offsets 1)
    (set_add (x, y) targetSet).

(** [this._markRegionActive(x, y)], the target defaulting to
    [this.activeRegions]. *)
Definition _markRegionActive (x y : Z) : M unit :=
  modify (λ e, with_activeRegions
                 (markRegion (width e) (height e) x y (activeRegions e)) e).

(** [x < 0 || x >= this.width || y < 0 || y >= this.height] *)
Definition outside (e : Engine) (x y : Z) : bool :=
  (x <? 0) || (x >=? width e) || (y <? 0) || (y >=? height e).

Definition createParticle (x y : Z) (type : string) : M bool :=
  e ← this;
  if outside e x y then ret false else
  c ← grid_get x y;
  if not_null c then ret false else
  particle ← Particles.createParticle type x y;
  match particle with
  | Some p =>
      grid_set x y (Obj p);;
      modify (λ e, with_particleCount (particleCount e + 1) e);;
      _markRegionActive x y;;
      ret true
  | None => ret false
  end.

Definition removeParticle (x y : Z) : M bool :=
  e ← this;
  if outside e x y then ret false else
  c ← grid_get x y;
  if not_null c then
    grid_set x y Null;;
    modify (λ e, with_particleCount (particleCount e - 1) e);;
    _markRegionActive x y;;
    ret true
  else ret false.

Definition moveParticle (fromX fromY toX toY : Z) : M bool :=
  e ← this;
  if outside e fromX fromY || outside e toX toY then ret false else
  src ← grid_get fromX fromY;
  dst ← grid_get toX toY;
  if not_null src && negb (not_null dst) then
    grid_set toX toY src;;
    grid_mutate toX toY (with_pos toX toY);;
    grid_mutate toX toY (with_updated true);;
    grid_set fromX fromY Null;;
    _markRegionActive fromX fromY;;
    _markRegionActive toX toY;;
    ret true
  else ret false.

Definition swapParticles (x1 y1 x2 y2 : Z) : M bool :=
  e ← this;
  if outside e x1 y1 || outside e x2 y2 then ret false else
  c1 ← grid_get x1 y1;
  c2 ← grid_get x2 y2;
  if not_null c1 && not_null c2 then
    grid_set x1 y1 c2;;
    grid_set x2 y2 c1;;
    grid_mutate x1 y1 (λ p, with_updated true (with_pos x1 y1 p));;
    grid_mutate x2 y2 (λ p, with_updated true (with_pos x2 y2 p));;
    _markRegionActive x1 y1;;
    _markRegionActive x2 y2;;
    ret true
  else ret false.

Definition changeParticleType (x y : Z) (newType : string) : M bool :=
  e ← this;
  if outside e x y then ret false else
  c ← grid_get x y;
  if not_null c then
    newParticle ← Particles.createParticle newType x y;
    match newParticle with
    | Some p =>
        grid_set x y (Obj p);;
        grid_mutate x y (with_updated true);;
        _markRegionActive x y;;
        ret true
    | None => ret false
    end
  else ret false.

(** ** Control flow shared by the behaviours *)

(** The empty statement. *)
Definition skip : M unit := ret tt.

(** A loop whose body may [return r] from the enclosing function
    ([Some r]) or fall through to the next iteration ([None]). *)
Fixpoint for_return {A R} (l : list A) (body : A -> M (option R)) : M (option R) :=
  match l with
  | [] => ret None
  | v :: rest =>
      r ← body v;
      match r with
      | Some _ => ret r
      | None => for_return rest body
      end
  end.

(** A loop that updates a local variable. *)
Fixpoint for_acc {A S} (l : list A) (s : S) (body : S -> A -> M S) : M S :=
  match l with
  | [] => ret s
  | v :: rest => s' ← body s v; for_acc rest s' body
  end.

(** [Math.random() < 0.5 ? 1 : -1] *)
Definition random_direction : M Z :=
  r ← Math_random;
  ret (if (r <? 0.5)%float then 1 else -1).

(** [tx >= 0 && tx < width && !grid[ty][tx]] *)
Definition column_free (tx ty : Z) : M bool :=
  e ← this;
  if (tx >=? 0) && (tx <? width e) then
    c ← grid_get tx ty;
    ret (negb (truthy c))
  else ret false.

(** [nx >= 0 && nx < width && ny >= 0 && ny < height && grid[ny][nx]]:
    the neighbour, when the cell is inside the grid and holds one. *)
Definition neighbor_at (nx ny : Z) : M (option Particle) :=
  e ← this;
  if inBounds nx ny (width e) (height e) then
    c ← grid_get nx ny;
    ret (match c with Obj p => Some p | _ => None end)
  else ret None.

(** [nx >= 0 && nx < width && ny >= 0 && ny < height && !grid[ny][nx]] *)
Definition empty_at (nx ny : Z) : M bool :=
  e ← this;
  if inBounds nx ny (width e) (height e) then
    c ← grid_get nx ny;
    ret (negb (truthy c))
  else ret false.

(** [undefined] converts to [NaN] in arithmetic. *)
Definition num (v : option float) : float := default PrimFloat.nan v.

(** [type.startsWith('source')] *)
Definition is_source (type : string) : bool := String.prefix "source" type.

(** ** The element behaviours ([update] of each element definition)

    A behaviour shared through [.call(this, ...)] takes the element it is
    called on as [self]. *)

Module Behaviors.

(** One diagonal attempt of sand: the cell below at column [tx]. *)
Definition sand_diagonal (self : Particles.Element) (x y tx : Z) : M bool :=
  free ← column_free tx (y + 1);
  if free then
    r ← Math_random;
    if Js.lt_prop r (Particles.el_spreadChance self) then
      moveParticle x y tx (y + 1);; ret true
    else ret false
  else ret false.

Definition sand_update (self : Particles.Element) (x y : Z) : M bool :=
  e ← this;
  if y >=? height e - 1 then ret false else
  below ← grid_get x (y + 1);
  if negb (truthy below) then moveParticle x y x (y + 1);; ret true else
  direction ← random_direction;
  moved ← sand_diagonal self x y (x + direction);
  if moved then ret true else
  moved ← sand_diagonal self x y (x - direction);
  if moved then ret true else
  ret false.

(** Walls, wood and metal. *)
Definition static_update (x y : Z) : M bool := ret false.

Definition water_update (self : Particles.Element) (x y : Z) : M bool :=
  e ← this;
  if y >=? height e - 1 then ret false else
  below ← grid_get x (y + 1);
  if negb (truthy below) then moveParticle x y x (y + 1);; ret true else
  flowDirection ← random_direction;
  free ← column_free (x + flowDirection) (y + 1);
  if free then moveParticle x y (x + flowDirection) (y + 1);; ret true else
  free ← column_free (x - flowDirection) (y + 1);
  if free then moveParticle x y (x - flowDirection) (y + 1);; ret true else
  r ← Math_random;
  if Js.lt_prop r (Particles.el_dispersion self) then
    free ← column_free (x + flowDirection) y;
    if free then moveParticle x y (x + flowDirection) y;; ret true else
    free ← column_free (x - flowDirection) y;
    if free then moveParticle x y (x - flowDirection) y;; ret true else
    ret false
  else ret false.

(** Oil: [Particles.ELEMENTS['water'].update.call(this, engine, x, y)] *)
Definition oil_update (self : Particles.Element) (x y : Z) : M bool :=
  water_update self x y.

(** The body of acid's neighbour loop; [Some true] is [return true]. *)
Definition acid_dissolve (self : Particles.Element) (x y : Z) (d : Z * Z) : M (option bool) :=
  let '(dx, dy) := d in
  if (dx =? 0) && (dy =? 0) then ret None else
  let nx := x + dx in
  let ny := y + dy in
  n ← neighbor_at nx ny;
  match n with
  | None => ret None
  | Some neighbor =>
      if String.eqb (type neighbor) "wall" || String.eqb (type neighbor) "acid"
         || String.eqb (type neighbor) "void" || is_source (type neighbor)
      then ret None
      else
        r ← Math_random;
        if Js.lt_prop r (Particles.el_corrosionRate self) then
          removeParticle nx ny;;
          r ← Math_random;
          if (r <? 0.3)%float then removeParticle x y;; ret (Some true)
          else ret None
        else ret None
  end.

Definition acid_update (self : Particles.Element) (x y : Z) : M bool :=
  r ← for_return (offsets 1) (acid_dissolve self x y);
  match r with
  | Some b => ret b
  | None => water_update self x y
  end.

(** One gated attempt of steam: move to [(tx, ty)] when it is free and the
    dispersion roll succeeds. *)
Definition steam_attempt (self : Particles.Element) (x y tx ty : Z) (free : bool) : M bool :=
  if free then
    r ← Math_random;
    if Js.lt_prop r (Particles.el_dispersion self) then
      moveParticle x y tx ty;; ret true
    else ret false
  else ret false.

Definition steam_update (self : Particles.Element) (x y : Z) : M bool :=
  r ← Math_random;
  if (r <? 0.01)%float then removeParticle x y;; ret true else
  if y <=? 0 then ret false else
  above ← grid_get x (y - 1);
  if negb (truthy above) then moveParticle x y x (y - 1);; ret true else
  direction ← random_direction;
  e ← this;
  free ← (if (x + direction >=? 0) && (x + direction <? width e) && (y - 1 >=? 0)
          then c ← grid_get (x + direction) (y - 1); ret (negb (truthy c))
          else ret false);
  moved ← steam_attempt self x y (x + direction) (y - 1) free;
  if moved then ret true else
  free ← (if (x - direction >=? 0) && (x - direction <? width e) && (y - 1 >=? 0)
          then c ← grid_get (x - direction) (y - 1); ret (negb (truthy c))
          else ret false);
  moved ← steam_attempt self x y (x - direction) (y - 1) free;
  if moved then ret true else
  free ← column_free (x + direction) y;
  moved ← steam_attempt self x y (x + direction) y free;
  if moved then ret true else
  ret false.

(** [this.lifespan] where it is a number. *)
Definition lifespan_ticks (el : Particles.Element) : float :=
  match Particles.el_lifespan el with
  | Some (Particles.Ticks n) => n
  | _ => PrimFloat.nan
  end.

Definition smoke_update (self : Particles.Element) (x y : Z) : M bool :=
  particle ← grid_obj x y;
  (if Js.falsy (life particle)
   then grid_mutate x y (with_life (Some (lifespan_ticks self)))
   else skip);;
  grid_mutate x y (λ p, with_life (Some (num (life p) - 1)%float) p);;
  particle ← grid_obj x y;
  gone ← (if (num (life particle) <=? 0)%float then ret true
          else r ← Math_random;
               ret (r <? (1 - num (life particle) / lifespan_ticks self) * 0.05)%float);
  if gone then removeParticle x y;; ret true else
  steam_update self x y.

(** The body of fire's neighbour loop, which does not skip the centre. *)
Definition fire_spread (self : Particles.Element) (x y : Z) (d : Z * Z) : M (option bool) :=
  let '(dx, dy) := d in
  let nx := x + dx in
  let ny := y + dy in
  n ← neighbor_at nx ny;
  match n with
  | None => ret None
  | Some neighbor =>
      (match Particles.element (type neighbor) with
       | Some elemType =>
           if Particles.el_flammable elemType then
             r ← Math_random;
             if Js.lt_prop r (Particles.el_flammability elemType) then
               changeParticleType nx ny "fire";;
               '(lo, hi) ← Particles.lifespan_bounds self;
               n ← Utils.randomInt lo hi;
               grid_mutate nx ny (with_life (Some n));;
               if String.eqb (type neighbor) "wood"
               then grid_mutate nx ny (with_burning (Some (BText 0)))
               else skip
             else skip
           else skip
       | None => skip
       end);;
      if String.eqb (type neighbor) "water" then
        r ← Math_random;
        (if (r <? 0.7)%float then changeParticleType nx ny "steam"
         else removeParticle nx ny);;
        removeParticle x y;;
        ret (Some true)
      else ret None
  end.

Definition fire_update (self : Particles.Element) (x y : Z) : M bool :=
  particle ← grid_obj x y;
  (if Js.falsy (life particle) then
     '(lo, hi) ← Particles.lifespan_bounds self;
     n ← Utils.randomInt lo hi;
     grid_mutate x y (with_life (Some n))
   else skip);;
  grid_mutate x y (λ p, with_life (Some (num (life p) - 1)%float) p);;
  particle ← grid_obj x y;
  if (num (life particle) <=? 0)%float then
    r ← Math_random;
    (if (r <? 0.5)%float then changeParticleType x y "smoke"
     else removeParticle x y);;
    ret true
  else
  r ← for_return (offsets 1) (fire_spread self x y);
  match r with
  | Some b => ret b
  | None =>
      rise ← (if y >? 0 then
                above ← grid_get x (y - 1);
                if negb (truthy above) then
                  r ← Math_random; ret (r <? 0.4)%float
                else ret false
              else ret false);
      if rise then moveParticle x y x (y - 1);; ret true else
      direction ← random_direction;
      let moveX := x + direction in
      free ← column_free moveX y;
      drift ← (if free then r ← Math_random; ret (r <? 0.3)%float
               else ret false);
      if drift then moveParticle x y moveX y;; ret true else
      ret false
  end.

(** The body of spark's neighbour loop: collects the conductive
    neighbours and may ignite the flammable ones. *)
Definition spark_scan (x y : Z) (conductiveNeighbors : list (Z * Z)) (d : Z * Z)
  : M (list (Z * Z)) :=
  let '(dx, dy) := d in
  if (dx =? 0) && (dy =? 0) then ret conductiveNeighbors else
  let nx := x + dx in
  let ny := y + dy in
  n ← neighbor_at nx ny;
  match n with
  | None => ret conductiveNeighbors
  | Some neighbor =>
      match Particles.element (type neighbor) with
      | Some elemType =>
          let found := if Particles.el_conductive elemType
                       then conductiveNeighbors ++ [(nx, ny)]
                       else conductiveNeighbors in
          (if Particles.el_flammable elemType then
             r ← Math_random;
             if (r <? num (Particles.el_flammability elemType) * 2)%float
             then changeParticleType nx ny "fire";; skip
             else skip
           else skip);;
          ret found
      | None => ret conductiveNeighbors
      end
  end.

Definition spark_update (self : Particles.Element) (x y : Z) : M bool :=
  particle ← grid_obj x y;
  (if Js.falsy (life particle) then
     '(lo, hi) ← Particles.lifespan_bounds self;
     n ← Utils.randomInt lo hi;
     grid_mutate x y (with_life (Some n))
   else skip);;
  grid_mutate x y (λ p, with_life (Some (num (life p) - 1)%float) p);;
  particle ← grid_obj x y;
  if (num (life particle) <=? 0)%float then removeParticle x y;; ret true else
  conductiveNeighbors ← for_acc (offsets 1) [] (spark_scan x y);
  jump ← (if 0 <? Z.of_nat (length conductiveNeighbors)
          then r ← Math_random; ret (r <? 0.7)%float
          else ret false);
  if jump then
    target ← Utils.randomElement conductiveNeighbors;
    match target with
    | Some (nx, ny) => moveParticle x y nx ny;; ret true
    | None => throw
    end
  else
  dir ← Utils.randomInt 0 7;
  match Js.index [0; 1; 1; 1; 0; -1; -1; -1] dir,
        Js.index [-1; -1; 0; 1; 1; 1; 0; -1] dir with
  | Some dx, Some dy =>
      let nx := x + dx in
      let ny := y + dy in
      free ← empty_at nx ny;
      if free then moveParticle x y nx ny;; ret true else ret false
  | _, _ => ret false
  end.

Definition void_update (self : Particles.Element) (x y : Z) : M bool :=
  match Particles.el_voidRadius self with
  | None => ret false
  | Some r =>
      for_acc (offsets r) false
        (λ deleted '(dx, dy),
           if (dx =? 0) && (dy =? 0) then ret deleted else
           let nx := x + dx in
           let ny := y + dy in
           n ← neighbor_at nx ny;
           match n with
           | None => ret deleted
           | Some target =>
               if String.eqb (type target) "void" || is_source (type target)
               then ret deleted
               else removeParticle nx ny;; ret true
           end)
  end.

Section HostSort.

(** [directions.sort(() => Math.random() - 0.5)]: with a comparator that
    answers at random the language leaves both the resulting order and
    the number of comparisons to the host. *)
Variable sort_at_random : list (Z * Z) -> M (list (Z * Z)).

Definition source_update (self : Particles.Element) (x y : Z) : M bool :=
  r ← Math_random;
  if Js.lt_prop r (Particles.el_emitRate self) then
    directions ← sort_at_random [(0, 1); (1, 0); (0, -1); (-1, 0)];
    r ← for_return directions
          (λ '(dx, dy),
             let nx := x + dx in
             let ny := y + dy in
             free ← empty_at nx ny;
             if free then
               createParticle nx ny (default "undefined" (Particles.el_emitType self));;
               ret (Some true)
             else ret None);
    match r with
    | Some b => ret b
    | None => ret false
    end
  else ret false.

(** The [update] property of each element, called as
    [elementType.update(engine, x, y)], so with [this] the element
    itself. *)
Definition UPDATES : list (string * (Z -> Z -> M bool)) :=
  [ ("sand", sand_update Particles.sand); ("wall", static_update);
    ("wood", static_update); ("metal", static_update);
    ("water", water_update Particles.water); ("oil", oil_update Particles.oil);
    ("acid", acid_update Particles.acid);
    ("steam", steam_update Particles.steam); ("smoke", smoke_update Particles.smoke);
    ("fire", fire_update Particles.fire); ("spark", spark_update Particles.spark);
    ("source-water", source_update Particles.source_water);
    ("source-sand", source_update Particles.source_sand);
    ("void", void_update Particles.void) ].

End HostSort.

End Behaviors.

(** ** Interactions: the reaction table and the neighbour scan *)

Module Interactions.

(** [Utils.randomInt(Particles.ELEMENTS.fire.lifespan.min,
                     Particles.ELEMENTS.fire.lifespan.max)] *)
Definition fire_life : M float :=
  '(lo, hi) ← Particles.lifespan_bounds Particles.fire;
  Utils.randomInt lo hi.

Definition water_fire (waterX waterY fireX fireY : Z) : M bool :=
  r ← Math_random;
  (if (r <? 0.7)%float then changeParticleType waterX waterY "steam";; skip
   else skip);;
  removeParticle fireX fireY;;
  ret true.

Definition oil_fire (oilX oilY fireX fireY : Z) : M bool :=
  changeParticleType oilX oilY "fire";;
  fireLife ← fire_life;
  grid_mutate oilX oilY (with_life (Some fireLife));;
  ret true.

Definition water_acid (waterX waterY acidX acidY : Z) : M bool :=
  r ← Math_random;
  if (r <? 0.25)%float then removeParticle acidX acidY;; ret true
  else ret false.

Definition acid_metal (acidX acidY metalX metalY : Z) : M bool :=
  metal ← grid_obj metalX metalY;
  (if Js.falsy (corrosion metal)
   then grid_mutate metalX metalY (with_corrosion (Some 0%float))
   else skip);;
  grid_mutate metalX metalY
    (λ p, with_corrosion (Some (num (corrosion p) + 0.1)%float) p);;
  metal ← grid_obj metalX metalY;
  if (1 <=? num (corrosion metal))%float then
    removeParticle metalX metalY;;
    r ← Math_random;
    (if (r <? 0.3)%float then removeParticle acidX acidY;; skip else skip);;
    ret true
  else ret false.

Definition acid_sand (acidX acidY sandX sandY : Z) : M bool :=
  r ← Math_random;
  if (r <? 0.04)%float then
    removeParticle sandX sandY;;
    r ← Math_random;
    (if (r <? 0.2)%float then removeParticle acidX acidY;; skip else skip);;
    ret true
  else ret false.

Definition water_steam (waterX waterY steamX steamY : Z) : M bool :=
  r ← Math_random;
  if (r <? 0.3)%float then removeParticle steamX steamY;; ret true
  else ret false.

Definition water_oil (waterX waterY oilX oilY : Z) : M bool :=
  if waterY <? oilY then swapParticles waterX waterY oilX oilY;; ret true
  else ret false.

(** [!burning], [burning += 1] and [burning >= 100] on a property that is
    missing, a number or a string. *)
Definition burning_falsy (b : option Burning) : bool :=
  match b with
  | None => true
  | Some (BNum n) => Js.falsy (Some n)
  | Some (BText _) => false
  end.
Definition burning_incr (b : option Burning) : option Burning :=
  match b with
  | None => Some (BNum PrimFloat.nan)
  | Some (BNum n) => Some (BNum (n + 1)%float)
  | Some (BText k) => Some (BText (S k))
  end.
Definition burning_ge (b : option Burning) (limit : float) : bool :=
  match b with
  | Some (BNum n) => (limit <=? n)%float
  | _ => false
  end.

(** [Math.random() < p && woodY > 0 && !engine.grid[woodY-1][woodX]] *)
Definition roll_above_free (p : float) (woodX woodY : Z) : M bool :=
  r ← Math_random;
  if (r <? p)%float && (woodY >? 0) then
    above ← grid_get woodX (woodY - 1);
    ret (negb (truthy above))
  else ret false.

Definition fire_wood (fireX fireY woodX woodY : Z) : M bool :=
  wood ← grid_obj woodX woodY;
  (if burning_falsy (burning wood)
   then grid_mutate woodX woodY (with_burning (Some (BNum 0)))
   else skip);;
  grid_mutate woodX woodY (λ p, with_burning (burning_incr (burning p)) p);;
  wood ← grid_obj woodX woodY;
  if burning_ge (burning wood) 100 then
    changeParticleType woodX woodY "fire";;
    n ← fire_life;
    grid_mutate woodX woodY (with_life (Some n));;
    smoke ← roll_above_free 0.4 woodX woodY;
    (if smoke then createParticle woodX (woodY - 1) "smoke";; skip else skip);;
    ret true
  else
    flame ← roll_above_free 0.05 woodX woodY;
    if flame then createParticle woodX (woodY - 1) "fire";; ret true
    else ret false.

Definition spark_metal (sparkX sparkY metalX metalY : Z) : M bool :=
  exitPoints ←
    for_acc (offsets 1) []
      (λ exitPoints '(dx, dy),
         if (dx =? 0) && (dy =? 0) then ret exitPoints else
         let nx := metalX + dx in
         let ny := metalY + dy in
         free ← empty_at nx ny;
         ret (if free then exitPoints ++ [(nx, ny)] else exitPoints));
  travel ← (if 0 <? Z.of_nat (length exitPoints)
            then r ← Math_random; ret (r <? 0.7)%float
            else ret false);
  if travel then
    target ← Utils.randomElement exitPoints;
    match target with
    | Some (newX, newY) =>
        removeParticle sparkX sparkY;;
        createParticle newX newY "spark";;
        ret true
    | None => throw
    end
  else
    spark ← grid_obj sparkX sparkY;
    (if negb (Js.falsy (life spark))
     then grid_mutate sparkX sparkY
            (λ p, with_life (Some (num (life p) - 1)%float) p)
     else skip);;
    ret false.

Definition spark_oil (sparkX sparkY oilX oilY : Z) : M bool :=
  r ← Math_random;
  if (r <? 0.8)%float then
    changeParticleType oilX oilY "fire";;
    n ← fire_life;
    grid_mutate oilX oilY (with_life (Some n));;
    ret true
  else ret false.

Definition fire_oil (fireX fireY oilX oilY : Z) : M bool :=
  spark_oil fireX fireY oilX oilY.

Definition acid_wall (acidX acidY wallX wallY : Z) : M bool := ret false.

Definition steam_fire (steamX steamY fireX fireY : Z) : M bool :=
  r ← Math_random;
  if (r <? 0.4)%float then removeParticle steamX steamY;; ret true
  else ret false.

Definition Reaction : Type := Z -> Z -> Z -> Z -> M bool.

(** The object literal [Interactions.REACTIONS], in source order. *)
Definition REACTIONS : list (string * Reaction) :=
  [ ("water+fire", water_fire); ("oil+fire", oil_fire);
    ("water+acid", water_acid); ("acid+metal", acid_metal);
    ("acid+sand", acid_sand); ("water+steam", water_steam);
    ("water+oil", water_oil); ("fire+wood", fire_wood);
    ("spark+metal", spark_metal); ("spark+oil", spark_oil);
    ("fire+oil", fire_oil); ("acid+wall", acid_wall);
    ("steam+fire", steam_fire) ].

(** [`${type1}+${type2}`] *)
Definition key (type1 type2 : string) : string :=
  String.append type1 (String.append "+" type2).

Definition processInteraction (x1 y1 x2 y2 : Z) : M bool :=
  c1 ← grid_get x1 y1;
  match c1 with
  | Obj p1 =>
      c2 ← grid_get x2 y2;
      match c2 with
      | Obj p2 =>
          let type1 := type p1 in
          let type2 := type p2 in
          match Particles.lookup REACTIONS (key type1 type2),
                Particles.lookup REACTIONS (key type2 type1) with
          | Some reaction1, _ => reaction1 x1 y1 x2 y2
          | None, Some reaction2 => reaction2 x2 y2 x1 y1
          | None, None => ret false
          end
      | _ => ret false
      end
  | _ => ret false
  end.

(** The body of the neighbour loop of [processParticleInteractions];
    [Some true] is [return true]. *)
Definition interact (x y : Z) (d : Z * Z) : M (option bool) :=
  let '(dx, dy) := d in
  if (dx =? 0) && (dy =? 0) then ret None else
  let nx := x + dx in
  let ny := y + dy in
  e ← this;
  if inBounds nx ny (width e) (height e) then
    c ← grid_get nx ny;
    if truthy c then
      fired ← processInteraction x y nx ny;
      if fired then ret (Some true) else ret None
    else ret None
  else ret None.

Definition processParticleInteractions (x y : Z) : M bool :=
  c ← grid_get x y;
  if negb (truthy c) then ret false else
  r ← for_return (offsets 1) (interact x y);
  match r with
  | Some b => ret b
  | None => ret false
  end.

End Interactions.

(** ** Engine: snapshots and history *)

Definition exportCompressedState : M Snapshot :=
  e ← this;
  particles ←
    for_acc (range 0 (height e)) []
      (λ particles y,
         for_acc (range 0 (width e)) particles
           (λ particles x,
              c ← grid_get x y;
              match c with
              | Obj particle =>
                  ret (particles ++
                       [mkSnap x y (type particle) (life particle)
                               (burning particle) (corrosion particle)])
              | _ => ret particles
              end));
  e ← this;
  ret (mkSnapshot particles (width e) (height e) (particleCount e)).

(** The particle object [importCompressedState] builds from an entry. *)
Definition restored (p : SnapParticle) : Particle :=
  mkParticle (stype p) (sx p) (sy p) None None false None
             (slife p) (sburning p) (scorrosion p).

Definition importCompressedState (state : Snapshot) : M unit :=
  modify (λ e, with_grid (_createGrid (width e) (height e)) e);;
  modify (with_particleCount (count state));;
  modify (with_activeRegions []);;
  for_each (particles state)
    (λ p, grid_set (sx p) (sy p) (Obj (restored p));;
          _markRegionActive (sx p) (sy p)).

(** [array.push(v)], [array.shift()] and [array.pop()] on the history
    stacks: the newest entry is the last one. *)
Definition push {A} (v : A) (l : list A) : list A := l ++ [v].
Definition shift {A} (l : list A) : list A := tail l.
Definition pop {A} (l : list A) : option (A * list A) :=
  match last l with
  | Some v => Some (v, removelast l)
  | None => None
  end.

Definition _saveUndoState : M unit :=
  e ← this;
  if _skipNextUndo e then modify (with_skipNextUndo false) else
  compressedGrid ← exportCompressedState;
  modify (λ e, with_undoStack (push compressedGrid (undoStack e)) e);;
  e ← this;
  (if Z.of_nat (length (undoStack e)) >? maxUndoSteps e
   then modify (λ e, with_undoStack (shift (undoStack e)) e)
   else skip);;
  modify (with_redoStack []).

(** [undo]: popping an empty stack yields [undefined], and importing
    [undefined] is a TypeError; the length test keeps that out of reach. *)
Definition undo : M bool :=
  e ← this;
  if Z.of_nat (length (undoStack e)) =? 0 then ret false else
  currentState ← exportCompressedState;
  modify (λ e, with_redoStack (push currentState (redoStack e)) e);;
  e ← this;
  match pop (undoStack e) with
  | Some (previousState, rest) =>
      modify (with_undoStack rest);;
      modify (with_skipNextUndo true);;
      importCompressedState previousState;;
      ret true
  | None => throw
  end.

Definition redo : M bool :=
  e ← this;
  if Z.of_nat (length (redoStack e)) =? 0 then ret false else
  currentState ← exportCompressedState;
  modify (λ e, with_undoStack (push currentState (undoStack e)) e);;
  e ← this;
  match pop (redoStack e) with
  | Some (nextState, rest) =>
      modify (with_redoStack rest);;
      modify (with_skipNextUndo true);;
      importCompressedState nextState;;
      ret true
  | None => throw
  end.

Definition reset : M unit :=
  _saveUndoState;;
  modify (λ e, with_grid (_createGrid (width e) (height e)) e);;
  modify (with_particleCount 0);;
  modify (with_activeRegions []).

(** [drawElements(type, points)].  [drawLine], [drawRectangle],
    [drawEllipse] and [drawBrush] do nothing but compute a point list with
    [Utils] and hand it to [drawElements] (the brush with type ['eraser'] to
    [eraseElements]). *)
Definition drawElements (type : string) (points : list (Z * Z)) : M Z :=
  _saveUndoState;;
  for_acc points 0
    (λ count '(x, y),
       created ← createParticle x y type;
       ret (if created then count + 1 else count)).

Definition eraseElements (points : list (Z * Z)) : M Z :=
  _saveUndoState;;
  for_acc points 0
    (λ count '(x, y),
       removed ← removeParticle x y;
       ret (if removed then count + 1 else count)).

(** ** Engine: the drawing tools and the settings *)

(** [drawLine(type, x1, y1, x2, y2)]; [None] while the loop of [getLine] has
    not finished within [fuel] iterations. *)
Definition drawLine (fuel : nat) (type : string) (x1 y1 x2 y2 : Z) : option (M Z) :=
  match Utils.getLine fuel x1 y1 x2 y2 with
  | Some points => Some (drawElements type points)
  | None => None
  end.

Definition drawRectangle (type : string) (x1 y1 x2 y2 : Z) (filled : bool) : M Z :=
  let points := Utils.getRectangle x1 y1 x2 y2 filled in
  drawElements type points.

(** [drawEllipse(type, x, y, radiusX, radiusY, true)] *)
Definition drawEllipse_filled (type : string) (x y radiusX radiusY : Z) : M Z :=
  let points := Utils.getEllipse_filled x y radiusX radiusY in
  drawElements type points.

Definition drawBrush (type : string) (x y radius : Z) : M Z :=
  let points := Utils.getBrushPoints x y radius in
  if String.eqb type "eraser" then eraseElements points
  else drawElements type points.

Definition with_gravity (direction : string) (e : Engine) : Engine :=
  mkEngine (width e) (height e) (grid e) (active e) direction (speed e)
    (updateCount e) (undoStack e) (redoStack e) (maxUndoSteps e)
    (particleCount e) (activeRegions e) (_skipNextUndo e).
Definition with_speed (s : float) (e : Engine) : Engine :=
  mkEngine (width e) (height e) (grid e) (active e) (gravity e) s
    (updateCount e) (undoStack e) (redoStack e) (maxUndoSteps e)
    (particleCount e) (activeRegions e) (_skipNextUndo e).

Definition setGravity (direction : string) : M unit :=
  modify (with_gravity direction).

Definition setSpeed (speed : float) : M unit :=
  modify (with_speed (Utils.clamp speed 1 10)).

(** [particle.burning / 100]: the string a fire particle carries there
    converts to [NaN]. *)
Definition burning_num (b : option Burning) : float :=
  match b with
  | Some (BNum n) => n
  | _ => PrimFloat.nan
  end.

(** An [[r, g, b]] array of numbers. *)
Definition Rgb : Type := (float * float * float)%type.

Definition rgb_of (c : Z * Z * Z) : Rgb :=
  let '(r, g, b) := c in (Js.of_Z r, Js.of_Z g, Js.of_Z b).

(** [getPixelColor(x, y)]; [None] is [null].  The [color] of a value
    inherited from [Object.prototype] is [undefined], which the pattern of
    [hexToRgb] reads as the string "undefined". *)
Definition getPixelColor (x y : Z) : M (option Rgb) :=
  c ← grid_get x y;
  match c with
  | Obj particle =>
      match Particles.element (type particle) with
      | Some elementType =>
          let baseColor :=
            default "undefined"
                    (Particles.lookup Particles.COLORS (type particle)) in
          let '(r0, g0, b0) := rgb_of (Utils.hexToRgb baseColor) in
          if negb (Js.falsy (colorVariation particle)) then
            let variation := Js.floor (255 * num (colorVariation particle))%float in
            let r := Utils.clamp (r0 + variation)%float 0 255 in
            let g := Utils.clamp (g0 + variation)%float 0 255 in
            let b := Utils.clamp (b0 + variation)%float 0 255 in
            ret (Some (r, g, b))
          else if String.eqb (type particle) "fire" then
            if negb (Js.falsy (life particle)) then
              '(lo, hi) ← Particles.lifespan_bounds Particles.fire;
              let lifeRatio := (num (life particle) / hi)%float in
              if (0.7 <? lifeRatio)%float then
                n ← Utils.randomInt 0 100; ret (Some (255, 255, n)%float)
              else if (0.3 <? lifeRatio)%float then
                n ← Utils.randomInt 100 200; ret (Some (255, n, 0)%float)
              else
                n ← Utils.randomInt 0 100; ret (Some (255, n, 0)%float)
            else ret (Some (r0, g0, b0))
          else if String.eqb (type particle) "wood"
                  && negb (Interactions.burning_falsy (burning particle)) then
            let burnRatio := (burning_num (burning particle) / 100)%float in
            let darkenFactor := (1 - burnRatio * 0.5)%float in
            ret (Some (Js.floor (r0 * darkenFactor),
                       Js.floor (g0 * darkenFactor),
                       Js.floor (b0 * darkenFactor))%float)
          else if String.eqb (type particle) "metal"
                  && negb (Js.falsy (corrosion particle)) then
            let corrosionRatio := num (corrosion particle) in
            ret (Some (Js.floor (r0 * (1 - corrosionRatio * 0.3)),
                       Js.floor (g0 * (1 + corrosionRatio * 0.5)),
                       Js.floor (b0 * (1 - corrosionRatio * 0.3)))%float)
          else ret (Some (r0, g0, b0))
      | None => ret None
      end
  | _ => ret None
  end.

(** ** Storage: the run-length encoding of a grid (js/storage.js) *)

Module Storage.

(** One run [[type, count]]; the type of an empty cell is [null]. *)
Definition Run : Type := (option string * Z)%type.

(** The local variables of [_encodeGrid]. *)
Record Encoder := mkEncoder {
  encoded : list Run;
  currentType : option string;
  count : Z
}.

(** The body of the inner loop of [_encodeGrid]. *)
Definition encode_cell (s : Encoder) (cell : Cell) : Encoder :=
  let type := match cell with
              | Obj p => Some (type p)
              | _ => None
              end in
  if bool_decide (type = currentType s) then
    mkEncoder (encoded s) (currentType s) (count s + 1)
  else
    mkEncoder (match currentType s with
               | Some _ => encoded s ++ [(currentType s, count s)]
               | None => encoded s
               end)
              type 1.

Definition _encodeGrid (grid : list (list Cell)) : list Run :=
  let s := fold_left (λ s row, fold_left encode_cell row s) grid
                     (mkEncoder [] None 0) in
  if count s >? 0 then encoded s ++ [(currentType s, count s)]
  else encoded s.

(** A cell of a decoded grid: [null] or the object [{ type }]. *)
Definition Basic : Type := option string.

(** [if (type) { grid[y][x] = { type } } else { grid[y][x] = null }]: the
    empty string is falsy. *)
Definition basic_of (type : option string) : Basic :=
  match type with
  | Some "" => None
  | _ => type
  end.

(** One pass of the inner loop of [_decodeGrid].  With [width] zero the
    division and the remainder are not numbers and the test fails; otherwise
    the test keeps the write inside the grid. *)
Definition decode_cell (width height : Z) (type : option string)
           (s : list (list Basic) * Z) : list (list Basic) * Z :=
  let '(grid, index) := s in
  let y := index / width in
  let x := Z.rem index width in
  (if negb (width =? 0) && (y <? height) && (x <? width)
   then alter (λ row, <[Z.to_nat x := basic_of type]> row) (Z.to_nat y) grid
   else grid,
   index + 1).

(** [_decodeGrid(encoded, width, height)]; [None] is the RangeError of
    [Array(n)] for a length that is negative or above 2^32 - 1. *)
Definition _decodeGrid (encoded : list Run) (width height : Z)
  : option (list (list Basic)) :=
  if (height <? 0) || (2 ^ 32 <=? height) then None
  else if (0 <? height) && ((width <? 0) || (2 ^ 32 <=? width)) then None
  else
    let grid := replicate (Z.to_nat height) (replicate (Z.to_nat width) None) in
    Some (fst (fold_left
                 (λ s '(type, count),
                    fold_left (λ s _, decode_cell width height type s)
                              (range 0 count) s)
                 encoded (grid, 0))).

End Storage.

(** ** Engine: the tick scheduler *)

(** [this.activeRegions.size > 0 && this.updateCount % 5 !== 0] *)
Definition active_only (e : Engine) : bool :=
  (Z.of_nat (length (activeRegions e)) >? 0)
  && negb (Z.rem (updateCount e) 5 =? 0).

(** The rows [lo .. hi-1] counted downwards:
    [for (let i = hi - 1; i >= lo; i--)]. *)
Definition range_down (lo hi : Z) : list Z := reverse (range lo hi).

(** The full scans: the outer loop runs over [outer], the inner over
    [inner]; [by_rows] pushes [[x, y]] with [y] the outer counter, [by_columns]
    with [x] the outer counter. *)
Definition by_rows (ys xs : list Z) : list Coord :=
  flat_map (λ y, map (λ x, (x, y)) xs) ys.
Definition by_columns (xs ys : list Z) : list Coord :=
  flat_map (λ x, map (λ y, (x, y)) ys) xs.

Definition _getBottomToTopOrder : M (list Coord) :=
  e ← this;
  if active_only e then ret (activeRegions e)
  else ret (by_rows (range_down 0 (height e)) (range 0 (width e))).

Definition _getTopToBottomOrder : M (list Coord) :=
  e ← this;
  if active_only e then ret (activeRegions e)
  else ret (by_rows (range 0 (height e)) (range 0 (width e))).

Definition _getLeftToRightOrder : M (list Coord) :=
  e ← this;
  if active_only e then ret (activeRegions e)
  else ret (by_columns (range 0 (width e)) (range 0 (height e))).

Definition _getRightToLeftOrder : M (list Coord) :=
  e ← this;
  if active_only e then ret (activeRegions e)
  else ret (by_columns (range_down 0 (width e)) (range 0 (height e))).

(** One step of the shuffle:
    [j = Math.floor(Math.random() * (i + 1));
     [coords[i], coords[j]] = [coords[j], coords[i]]].
    [Math.random()] is below 1, so [j] is at most [i].  Were [j] outside the
    array, [coords[i]] would become [undefined] and stay in the array, and
    the scheduler's [for (const [x, y] of updateOrder)] would throw on it;
    the step throws at once in that case. *)
Definition shuffle_step (coords : list Coord) (i : Z) : M (list Coord) :=
  r ← Math_random;
  let j := Js.floor (r * Js.of_Z (i + 1))%float in
  match coords !! Z.to_nat i, Js.to_index j with
  | Some ci, Some jn =>
      match coords !! jn with
      | Some cj => ret (<[jn := ci]> (<[Z.to_nat i := cj]> coords))
      | None => throw
      end
  | _, _ => throw
  end.

(** [for (let i = coords.length - 1; i > 0; i--) ...] *)
Definition shuffle (coords : list Coord) : M (list Coord) :=
  for_acc (range_down 1 (Z.of_nat (length coords))) coords shuffle_step.

Definition _getRandomOrder : M (list Coord) :=
  e ← this;
  if active_only e then shuffle (activeRegions e)
  else shuffle (by_rows (range 0 (height e)) (range 0 (width e))).

(** The visit order of a tick, chosen by the gravity direction. *)
Definition updateOrder : M (list Coord) :=
  e ← this;
  if String.eqb (gravity e) "down" then _getBottomToTopOrder
  else if String.eqb (gravity e) "up" then _getTopToBottomOrder
  else if String.eqb (gravity e) "left" then _getLeftToRightOrder
  else if String.eqb (gravity e) "right" then _getRightToLeftOrder
  else _getRandomOrder.

(** The first loop of [update]: every particle's [updated] flag is cleared. *)
Definition reset_flags : M unit :=
  e ← this;
  for_each (range 0 (height e))
    (λ y, for_each (range 0 (width e))
            (λ x, c ← grid_get x y;
                  if truthy c then grid_mutate x y (with_updated false)
                  else skip)).

Section Scheduler.

Variable sort_at_random : list (Z * Z) -> M (list (Z * Z)).

(** [elementType.update && elementType.update(this, x, y)] *)
Definition behave (type : string) (x y : Z) : M bool :=
  match Particles.lookup (Behaviors.UPDATES sort_at_random) type with
  | Some update => update x y
  | None => ret false
  end.

(** The local variables of the main loop. *)
Record Tick := mkTick {
  newActiveRegions : ActiveSet;
  updatedCount : Z
}.

(** What the main loop does with a particle it has decided to process. *)
Definition process (elementType : Particles.Element) (particle : Particle)
           (x y : Z) (t : Tick) : M Tick :=
  grid_mutate x y (with_updated true);;
  let updatedCount := updatedCount t + 1 in
  reacted ← Interactions.processParticleInteractions x y;
  if reacted then
    e ← this;
    ret (mkTick (markRegion (width e) (height e) x y (newActiveRegions t))
                updatedCount)
  else
    changed ← behave (type particle) x y;
    e ← this;
    let newActiveRegions :=
      if changed
      then markRegion (width e) (height e) x y (newActiveRegions t)
      else newActiveRegions t in
    (if Particles.el_static elementType && set_has (x, y) (activeRegions e)
     then if negb (bool_decide (Particles.el_state elementType = Some "special"))
          then modify (λ e, with_activeRegions
                              (set_delete (x, y) (activeRegions e)) e)
          else skip
     else skip);;
    ret (mkTick newActiveRegions updatedCount).

(** The body of [for (const [x, y] of updateOrder)]. *)
Definition visit (t : Tick) (c : Coord) : M Tick :=
  let '(x, y) := c in
  cell ← grid_get x y;
  match cell with
  | Obj particle =>
      if updated particle then ret t else
      match Particles.element (type particle) with
      | Some elementType => process elementType particle x y t
      | None => ret t
      end
  | _ => ret t
  end.

(** [Engine.update()] *)
Definition update : M Z :=
  e ← this;
  if negb (active e) then ret 0 else
  reset_flags;;
  order ← updateOrder;
  t ← for_acc order (mkTick [] 0) visit;
  modify (λ e, with_activeRegions
                 (fold_left (λ s region, set_add region s)
                            (newActiveRegions t) (activeRegions e)) e);;
  modify (λ e, with_updateCount (updateCount e + 1) e);;
  ret (updatedCount t).

End Scheduler.

(** ** Vocabulary of the specification *)

(** The cell at [(x, y)] as a value; [Undefined] outside the arrays. *)
Definition cell_at (g : list (list Cell)) (x y : Z) : Cell :=
  match grid_row g y with
  | Some r => row_get r x
  | None => Undefined
  end.

(** The grid after [grid[y][x] = c], when row [y] exists. *)
Definition put (g : list (list Cell)) (x y : Z) (c : Cell) : list (list Cell) :=
  match grid_row g y with
  | Some r => <[Z.to_nat y := row_set r x c]> g
  | None => g
  end.

Definition with_cell (x y : Z) (c : Cell) (w : World) : World :=
  mkWorld (with_grid (put (grid (engine w)) x y c) (engine w)) (rng w).

(** [0 <= x < width] and [0 <= y < height]. *)
Definition inside (e : Engine) (x y : Z) : Prop :=
  0 <= x < width e /\ 0 <= y < height e.

(** The grid is the rectangle the constructor built: [height] rows of
    [width] cells, each [null] or a particle. *)
Definition rectangular (e : Engine) : Prop :=
  length (grid e) = Z.to_nat (height e)
  /\ Forall (λ r, length r = Z.to_nat (width e) /\ Forall (λ c, c ≠ Undefined) r)
            (grid e).

(** The number of cells that hold a particle. *)
Definition occupied (c : Cell) : Z := if truthy c then 1 else 0.
Definition count_row (r : list Cell) : Z := foldr (λ c n, occupied c + n) 0 r.
Definition count_cells (g : list (list Cell)) : Z :=
  foldr (λ r n, count_row r + n) 0 g.

Definition count_agrees (w : World) : Prop :=
  particleCount (engine w) = count_cells (grid (engine w)).

(** A change to the engine object alone. *)
Definition on_engine (f : Engine -> Engine) (w : World) : World :=
  mkWorld (f (engine w)) (rng w).

(** The engine after [this._markRegionActive(x, y)]. *)
Definition mark (x y : Z) (e : Engine) : Engine :=
  with_activeRegions (markRegion (width e) (height e) x y (activeRegions e)) e.

(** [this.particleCount += d] *)
Definition counted (d : Z) (e : Engine) : Engine :=
  with_particleCount (particleCount e + d) e.

(** The engine invariant the primitives maintain. *)
Definition sound (w : World) : Prop :=
  rectangular (engine w) /\ count_agrees w.

(** The snapshot entry a cell contributes. *)
Definition snap_of (x y : Z) (c : Cell) : list SnapParticle :=
  match c with
  | Obj p => [mkSnap x y (type p) (life p) (burning p) (corrosion p)]
  | _ => []
  end.

(** The particle list of a snapshot: the occupied cells in row-major
    order. *)
Definition snapshot_list (width height : Z) (g : list (list Cell))
  : list SnapParticle :=
  flat_map (λ y, flat_map (λ x, snap_of x y (cell_at g x y)) (range 0 width))
           (range 0 height).

(** The last entry of a particle list that names the cell [(x, y)]. *)
Fixpoint placed (l : list SnapParticle) (x y : Z) : option SnapParticle :=
  match l with
  | [] => None
  | p :: rest =>
      match placed rest x y with
      | Some q => Some q
      | None => if (sx p =? x) && (sy p =? y) then Some p else None
      end
  end.

(** The snapshot entry of a cell, if it holds a particle. *)
Definition snap_at (g : list (list Cell)) (x y : Z) : option SnapParticle :=
  match cell_at g x y with
  | Obj p => Some (mkSnap x y (type p) (life p) (burning p) (corrosion p))
  | _ => None
  end.

(** A cell after its particle went through a snapshot: the type, the place
    and the life, burning and corrosion properties are kept; the velocity and
    the colour variation are gone and the [updated] flag is cleared. *)
Definition round_trip_cell (x y : Z) (c : Cell) : Cell :=
  match c with
  | Obj p => Obj (mkParticle (type p) x y None None false None
                             (life p) (burning p) (corrosion p))
  | _ => c
  end.

(** One call of a mutation primitive that returns normally. *)
Inductive primitive_step (w w' : World) : Prop :=
| step_create x y type b :
    createParticle x y type w = Ok b w' -> primitive_step w w'
| step_remove x y b :
    removeParticle x y w = Ok b w' -> primitive_step w w'
| step_move fromX fromY toX toY b :
    moveParticle fromX fromY toX toY w = Ok b w' -> primitive_step w w'
| step_swap x1 y1 x2 y2 b :
    swapParticles x1 y1 x2 y2 w = Ok b w' -> primitive_step w w'
| step_change x y newType b :
    changeParticleType x y newType w = Ok b w' -> primitive_step w w'.

(** The worlds the primitives can produce from a freshly built engine. *)
Inductive reachable : World -> Prop :=
| reach_new width height r :
    0 <= width -> 0 <= height ->
    reachable (mkWorld (new_Engine width height) r)
| reach_step w w' :
    reachable w -> primitive_step w w' -> reachable w'.

(** ** Vocabulary of the scheduler's visit order *)

(** A tick on which the specification asks for the full scan. *)
Definition full_scan_tick (e : Engine) : Prop :=
  Z.rem (updateCount e) 5 = 0 \/ activeRegions e = [].

(** The four gravity directions that have a raster order. *)
Definition directional (gravity : string) : Prop :=
  gravity = "down" \/ gravity = "up" \/ gravity = "left" \/ gravity = "right".

(** The raster scans in the specification's words.  Down: bottom row to top
    row, left to right within a row; up: top row to bottom row; left: column
    by column from the left, top to bottom within a column; right: column by
    column from the right.  [outer] counts the rows (columns) already
    finished, [inner] the cells already visited in the current one. *)
Definition raster_cell (gravity : string) (width height outer inner : Z) : Coord :=
  if String.eqb gravity "down" then (inner, height - 1 - outer)
  else if String.eqb gravity "up" then (inner, outer)
  else if String.eqb gravity "left" then (outer, inner)
  else (width - 1 - outer, inner).

(** The number of rows (columns) of a scan and the length of each. *)
Definition raster_outer (gravity : string) (width height : Z) : Z :=
  if String.eqb gravity "down" || String.eqb gravity "up" then height else width.
Definition raster_inner (gravity : string) (width height : Z) : Z :=
  if String.eqb gravity "down" || String.eqb gravity "up" then width else height.

(** [order] is the full raster scan of the grid for [gravity]. *)
Definition raster_scan (gravity : string) (width height : Z) (order : list Coord)
  : Prop :=
  length order = Z.to_nat (width * height)
  /\ forall outer inner,
       0 <= outer < raster_outer gravity width height ->
       0 <= inner < raster_inner gravity width height ->
       order !! Z.to_nat (outer * raster_inner gravity width height + inner)
       = Some (raster_cell gravity width height outer inner).

(** [order] visits every cell of the grid exactly once. *)
Definition every_cell_once (e : Engine) (order : list Coord) : Prop :=
  NoDup order /\ forall x y, (x, y) ∈ order <-> inside e x y.

(** The values [Math.random()] is about to return keep the shuffle of [n]
    coordinates inside the array: the [t]-th step swaps position [n - 1 - t]
    with position [floor(random * (n - t))]. *)
Definition draws_fit (r : Rng) (n : nat) : Prop :=
  forall t, (t < n - 1)%nat ->
    exists j, Js.to_index (Js.floor (source r (calls r + t)
                                     * Js.of_Z (Z.of_nat n - Z.of_nat t))%float)
              = Some j
              /\ (j < n)%nat.

(** ** Sample worlds *)

Module Sample.

(** A particle as the factory makes it for an element without colour
    variation draw. *)
Definition plain (type : string) (x y : Z) : Particle :=
  mkParticle type x y (Some 0%float) (Some 0%float) false None None None None.

(** An oracle that returns the listed values, then 0.5 for ever. *)
Definition oracle (values : list float) : Rng :=
  mkRng (λ n, nth n values 0.5%float) 0.

(** A host whose sort leaves the array as it is and asks nothing. *)
Definition keep_order (l : list (Z * Z)) : M (list (Z * Z)) := ret l.

Definition world (width height : Z) (g : list (list Cell)) (n : Z)
           (values : list float) : World :=
  mkWorld (with_particleCount n (with_grid g (new_Engine width height)))
          (oracle values).

(** The world a method returned, or the start world if it threw. *)
Definition after {A} (m : M A) (w : World) : World :=
  match m w with
  | Ok _ w' => w'
  | Throw => w
  end.

(** An acid particle between two metal particles, free to fall. *)
Definition acid_two_metals : World :=
  world 3 3
    [ [Obj (plain "metal" 0 0); Null; Obj (plain "metal" 2 0)];
      [Null; Obj (plain "acid" 1 1); Null];
      [Null; Null; Null] ] 3 [].

(** Metal above acid that rests on the floor. *)
Definition acid_under_metal : World :=
  world 1 2 [ [Obj (plain "metal" 0 0)]; [Obj (plain "acid" 0 1)] ] 2 [].

(** A spark with ten ticks to live, diagonally below a metal particle. *)
Definition spark_by_metal : World :=
  world 3 3
    [ [Obj (plain "metal" 0 0); Null; Null];
      [Null; Obj (with_life (Some 10%float) (plain "spark" 1 1)); Null];
      [Null; Null; Null] ] 2 [].

(** Water beside fire. *)
Definition water_by_fire : World :=
  world 2 1
    [ [Obj (plain "water" 0 0);
       Obj (with_life (Some 50%float) (plain "fire" 1 0))] ] 2 [].

(** A fresh two-cell engine. *)
Definition fresh : World := mkWorld (new_Engine 2 1) (oracle []).

(** A new engine, a sand particle created at (0,0), then moved to (0,1). *)
Definition sand_created : World :=
  after (createParticle 0 0 "sand") (mkWorld (new_Engine 2 2) (oracle [])).
Definition sand_moved : World := after (moveParticle 0 0 0 1) sand_created.

(** One wall drawn on a fresh engine, the stroke undone, a second wall
    drawn. *)
Definition drawn : World := after (drawElements "wall" [(0, 0)]) fresh.
Definition undone : World := after undo drawn.
Definition drawn_again : World := after (drawElements "wall" [(1, 0)]) undone.

(** The spark after its behaviour ran once. *)
Definition spark_jumped : World :=
  after (Behaviors.spark_update Particles.spark 1 1) spark_by_metal.

(** A paused engine holding one sand particle. *)
Definition paused : World :=
  mkWorld (mkEngine 1 2 [ [Obj (plain "sand" 0 0)]; [Null] ] false "down" 1 3
                    [] [] 10 1 [(0, 0)] false)
          (oracle []).

(** A running engine without gravity, on a tick that is not a multiple of
    five, with two active coordinates. *)
Definition weightless : World :=
  mkWorld (mkEngine 2 1 [ [Obj (plain "sand" 0 0); Null] ] true "none" 1 3
                    [] [] 10 1 [(0, 0); (1, 0)] false)
          (oracle [0.25%float]).

(** The same engine with gravity pointing down. *)
Definition falling : World :=
  mkWorld (mkEngine 2 1 [ [Obj (plain "sand" 0 0); Null] ] true "down" 1 3
                    [] [] 10 1 [(1, 0); (0, 0)] false)
          (oracle []).


(** The acid between the two metals after one tick. *)
Definition ticked : World := after (update keep_order) acid_two_metals.

(** The drawn wall undone and redone. *)
Definition redone : World := after redo undone.

(** Sand over a gap and water over oil, on a floor of wall. *)
Definition sand_water_oil : World :=
  world 2 3
    [ [Obj (plain "sand" 0 0); Obj (plain "water" 1 0)];
      [Null; Obj (plain "oil" 1 1)];
      [Obj (plain "wall" 0 2); Obj (plain "wall" 1 2)] ] 5 [].
Definition settled : World := after (update keep_order) sand_water_oil.

(** A wall particle on a grid of two cells, nothing undone yet. *)
Definition drawn_once : World :=
  world 2 1 [ [Obj (plain "wall" 0 0); Null] ] 1 [].

(** A void among a wall, a source, sand, another void, water and metal. *)
Definition around_void : World :=
  world 3 3
    [ [Obj (plain "wall" 0 0); Obj (plain "source-water" 1 0); Null];
      [Obj (plain "sand" 0 1); Obj (plain "void" 1 1); Obj (plain "void" 2 1)];
      [Null; Obj (plain "water" 1 2); Obj (plain "metal" 2 2)] ] 7 [].
Definition devoured_around : World :=
  after (behave keep_order "void" 1 1) around_void.

(** One grain of sand a little lighter than the base colour. *)
Definition light_sand : World :=
  world 1 1
    [ [Obj (mkParticle "sand" 0 0 (Some 0%float) (Some 0%float) false
                       (Some 0.05%float) None None None)] ] 1 [].

(** A water source in the corner of an empty grid, with a draw that lets it
    emit. *)
Definition spring : World :=
  world 2 2 [ [Obj (plain "source-water" 0 0); Null]; [Null; Null] ] 1
        [0.1%float].
Definition spring_flowing : World :=
  after (behave keep_order "source-water" 0 0) spring.

End Sample.

(** ** Vocabulary of the neighbour scan *)

(** The particle at (x, y) has a neighbour at the offset [d]: the offset is
    not the centre and the cell it points at is inside the grid and holds a
    particle. *)
Definition neighbour (x y : Z) (d : Z * Z) (w : World) : Prop :=
  d ≠ (0, 0)
  /\ inside (engine w) (x + d.1) (y + d.2)
  /\ truthy (cell_at (grid (engine w)) (x + d.1) (y + d.2)) = true.


(** ** Vocabulary of the tick invariant *)

(** What the simulation leaves alone: the size of the grid, the settings,
    the tick counter and the history. *)
Definition frame (e e' : Engine) : Prop :=
  width e' = width e /\ height e' = height e /\ active e' = active e
  /\ gravity e' = gravity e /\ speed e' = speed e
  /\ updateCount e' = updateCount e
  /\ undoStack e' = undoStack e /\ redoStack e' = redoStack e
  /\ maxUndoSteps e' = maxUndoSteps e
  /\ _skipNextUndo e' = _skipNextUndo e.

(** The engine invariant together with the frame of a start engine. *)
Definition kept (e0 : Engine) (w : World) : Prop :=
  sound w /\ frame e0 (engine w).

(** A method keeps a property of the world whenever it returns. *)
Definition preserves (I : World -> Prop) {A} (m : M A) : Prop :=
  forall w a w', I w -> m w = Ok a w' -> I w'.

(** A host function that leaves the engine object alone (it may draw
    random numbers). *)
Definition engine_only {A B} (f : A -> M B) : Prop :=
  forall a w b w', f a w = Ok b w' -> engine w' = engine w.

(** The frame of a start engine alone. *)
Definition framed (e0 : Engine) (w : World) : Prop := frame e0 (engine w).

(** ** Vocabulary of the history *)

(** The two history stacks together hold at most [maxUndoSteps]
    snapshots. *)
Definition history_bounded (e : Engine) : Prop :=
  Z.of_nat (length (undoStack e) + length (redoStack e)) <= maxUndoSteps e.

(** The snapshot [exportCompressedState] takes of a grid [g] of the engine's
    size whose counter is [n]. *)
Definition snapshot_of (e : Engine) (g : list (list Cell)) (n : Z) : Snapshot :=
  mkSnapshot (snapshot_list (width e) (height e) g) (width e) (height e) n.

(** A snapshot taken of some grid of the engine's size at a moment when the
    counter was exact. *)
Definition snapshot_ok (e : Engine) (s : Snapshot) : Prop :=
  exists g, rectangular (with_grid g e)
            /\ s = snapshot_of e g (count_cells g).

(** One call of a public operation of the engine that returns normally. *)
Inductive operation (w w' : World) : Prop :=
| op_primitive :
    primitive_step w w' -> operation w w'
| op_drawElements type points n :
    drawElements type points w = Ok n w' -> operation w w'
| op_eraseElements points n :
    eraseElements points w = Ok n w' -> operation w w'
| op_reset :
    reset w = Ok tt w' -> operation w w'
| op_undo b :
    undo w = Ok b w' -> operation w w'
| op_redo b :
    redo w = Ok b w' -> operation w w'
| op_update sort_at_random n :
    engine_only sort_at_random ->
    update sort_at_random w = Ok n w' -> operation w w'
| op_setGravity direction :
    setGravity direction w = Ok tt w' -> operation w w'
| op_setSpeed speed :
    setSpeed speed w = Ok tt w' -> operation w w'.

(** The worlds a session can reach: a new engine, then any operations. *)
Inductive session : World -> Prop :=
| session_new width height r :
    0 <= width -> 0 <= height ->
    session (mkWorld (new_Engine width height) r)
| session_step w w' :
    session w -> operation w w' -> session w'.

(** The invariant of a session: the engine invariant, the bound on the
    history, and every stored snapshot taken of a grid of the engine's
    size with an exact counter. *)
Definition healthy (w : World) : Prop :=
  sound w
  /\ history_bounded (engine w)
  /\ Forall (snapshot_ok (engine w)) (undoStack (engine w) ++ redoStack (engine w)).

(** [w2] holds what [w] held: the same counter and, cell by cell, the same
    particles as far as a snapshot keeps them. *)
Definition brought_back (w w2 : World) : Prop :=
  particleCount (engine w2) = particleCount (engine w)
  /\ forall x y, inside (engine w) x y ->
       cell_at (grid (engine w2)) x y
       = round_trip_cell x y (cell_at (grid (engine w)) x y).

(** ** Vocabulary of the drawing tools *)

(** A coordinate small enough for the integer model of the shape functions
    of [Utils] to be exact: at this magnitude every sum, difference and
    comparison their loops make is exact in binary64 (the steps of
    [getLine] stay below 2^53), so a counter stepped by one does advance. *)
Definition small_integer (z : Z) : Prop := Z.abs z <= 2 ^ 50.

(** One step of a path toward its end point: a move of one cell along [x] in
    the direction [sx], along [y] in the direction [sy], or along both. *)
Definition step_toward (sx sy : Z) (p q : Z * Z) : Prop :=
  (q.1 = p.1 \/ q.1 = p.1 + sx) /\ (q.2 = p.2 \/ q.2 = p.2 + sy) /\ q ≠ p.

(** Every two consecutive points of a path are such a step apart. *)
Fixpoint stepwise (sx sy : Z) (pts : list (Z * Z)) : Prop :=
  match pts with
  | p :: rest =>
      match rest with
      | q :: _ => step_toward sx sy p q /\ stepwise sx sy rest
      | [] => True
      end
  | [] => True
  end.

(** The rectangle spanned by two corners. *)
Definition in_box (x0 y0 x1 y1 : Z) (p : Z * Z) : Prop :=
  Z.min x0 x1 <= p.1 <= Z.max x0 x1 /\ Z.min y0 y1 <= p.2 <= Z.max y0 y1.

(** ** Vocabulary of the run-length encoding *)

(** The type a cell contributes to the encoding: [null] for an empty
    cell. *)
Definition cell_type (c : Cell) : option string :=
  match c with
  | Obj p => Some (type p)
  | _ => None
  end.

(** The types of the cells of a grid in row-major order. *)
Definition types (g : list (list Cell)) : list (option string) :=
  map cell_type (concat g).

(** The cells a list of runs stands for. *)
Definition expand (runs : list Storage.Run) : list (option string) :=
  flat_map (λ r, replicate (Z.to_nat r.2) r.1) runs.

(** The entries of a list of types that name a particle. *)
Definition named (ts : list (option string)) : list (option string) :=
  filter (λ t, is_Some t) ts.

(** The cell [(x, y)] of a decoded grid; [None] outside the arrays. *)
Definition basic_at (g : list (list Storage.Basic)) (x y : Z) : option Storage.Basic :=
  match g !! Z.to_nat y with
  | Some row => row !! Z.to_nat x
  | None => None
  end.

(** The [i]-th entry of a list of types, [null] past its end. *)
Definition entry (ts : list (option string)) (i : Z) : option string :=
  match ts !! Z.to_nat i with
  | Some t => t
  | None => None
  end.

(** The grid under construction of [_decodeGrid], with the running index,
    after the cells [done] have been laid out. *)
Definition laid_out (width height : Z) (s : list (list Storage.Basic) * Z)
           (done : list (option string)) : Prop :=
  s.2 = Z.of_nat (length done)
  /\ length s.1 = Z.to_nat height
  /\ Forall (λ row, length row = Z.to_nat width) s.1
  /\ forall x y, 0 <= x < width -> 0 <= y < height ->
       basic_at s.1 x y = Some (Storage.basic_of (entry done (y * width + x))).

(** ** Vocabulary of conservation *)

(** One when the cell holds a particle of type [t]. *)
Definition has_type (t : string) (c : Cell) : Z :=
  match c with
  | Obj p => if String.eqb (type p) t then 1 else 0
  | _ => 0
  end.

(** The number of particles of type [t] in a row and in a grid. *)
Definition census_row (t : string) (r : list Cell) : Z :=
  foldr (λ c n, has_type t c + n) 0 r.
Definition census (t : string) (g : list (list Cell)) : Z :=
  foldr (λ r n, census_row t r + n) 0 g.

(** The elements that neither burn, dissolve, spawn nor vanish by
    themselves: the solids and the two liquids that only flow. *)
Definition inert_or_flowing : list string :=
  ["sand"; "wall"; "wood"; "metal"; "water"; "oil"]%string.

(** Every particle of the grid has a type of the list. *)
Definition only_holds (kinds : list string) (g : list (list Cell)) : Prop :=
  forall px py p, cell_at g px py = Obj p -> type p ∈ kinds.

(** The world [w] holds the particles of [w0], type by type, and only inert
    or flowing ones. *)
Definition conserved (w0 w : World) : Prop :=
  sound w
  /\ only_holds inert_or_flowing (grid (engine w))
  /\ particleCount (engine w) = particleCount (engine w0)
  /\ forall t, census t (grid (engine w)) = census t (grid (engine w0)).

(** Every active region names a cell of the grid. *)
Definition active_inside (e : Engine) : Prop :=
  Forall (λ c, inside e c.1 c.2) (activeRegions e).

(** A method returns a value with the property [Q], and keeps a property of
    the world: it throws in no world that has the property. *)
Definition returns_with (I : World -> Prop) {A} (Q : A -> Prop) (m : M A) : Prop :=
  forall w, I w -> exists a w', m w = Ok a w' /\ I w' /\ Q a.
Definition returns (I : World -> Prop) {A} (m : M A) : Prop :=
  forall w, I w -> exists a w', m w = Ok a w' /\ I w'.

(** The world [w] holds the particles of [w0] in a grid of the same size,
    under the same settings, and its active regions are cells of the
    grid. *)
Definition steady (w0 w : World) : Prop :=
  conserved w0 w /\ framed (engine w0) w /\ active_inside (engine w).

(** The regions a tick has collected so far are cells of the grid. *)
Definition regions_inside (w0 : World) (t : Tick) : Prop :=
  Forall (λ c, 0 <= c.1 < width (engine w0) /\ 0 <= c.2 < height (engine w0))
         (newActiveRegions t).

(** [n] ticks in a row. *)
Fixpoint ticks (sort_at_random : list (Z * Z) -> M (list (Z * Z))) (n : nat) : M unit :=
  match n with
  | O => ret tt
  | S n => update sort_at_random;; ticks sort_at_random n
  end.

(** A world of inert and flowing elements, ready for a tick: the engine
    invariant holds, the gravity has one of the four directions and the
    active regions are cells of the grid. *)
Definition calm (w : World) : Prop :=
  sound w
  /\ only_holds inert_or_flowing (grid (engine w))
  /\ directional (gravity (engine w))
  /\ active_inside (engine w).

(** ** Vocabulary of the void *)

(** What the void deletes: a particle that is neither a void nor a
    source. *)
Definition devoured (c : Cell) : bool :=
  match c with
  | Obj p => negb (String.eqb (type p) "void" || is_source (type p))
  | _ => false
  end.

(** [(px, py)] is one of the eight cells around [(x, y)]. *)
Definition adjacent (x y px py : Z) : Prop :=
  (px, py) ≠ (x, y) /\ x - 1 <= px <= x + 1 /\ y - 1 <= py <= y + 1.

(** ** Vocabulary of the colours *)

(** A colour channel a canvas accepts, or the [NaN] that arithmetic on a
    missing number leaves. *)
Definition channel_ok (v : float) : Prop :=
  Js.is_nan v = true
  \/ (PrimFloat.leb 0 v = true /\ PrimFloat.leb v 255 = true).

(** ** Vocabulary of the sources *)

(** A host sort: it returns some rearrangement of the array and leaves the
    engine alone, whatever its comparator answers. *)
Definition sorts (f : list (Z * Z) -> M (list (Z * Z))) : Prop :=
  forall l w, exists l' w', f l w = Ok l' w' /\ engine w' = engine w /\ l' ≡ₚ l.

(** [(px, py)] is one of the four cells next to [(x, y)]. *)
Definition beside (x y px py : Z) : Prop :=
  Z.abs (px - x) + Z.abs (py - y) = 1.

(** The grids of two worlds hold the same cells, but for one cell. *)
Definition same_cells_but (w w' : World) (skip : option (Z * Z)) : Prop :=
  forall px py, Some (px, py) ≠ skip ->
    cell_at (grid (engine w')) px py = cell_at (grid (engine w)) px py.

(** ** Ground facts about the grid *)

Section GridFacts.

Implicit Types (e : Engine) (w : World) (g : list (list Cell)) (c : Cell).

Lemma outside_false e x y : inside e x y -> outside e x y = false.
Proof. unfold inside, outside. intros. repeat (apply orb_false_intro); lia. Qed.

Lemma outside_true e x y : ~ inside e x y -> outside e x y = true.
Proof.
  unfold inside, outside. intros H.
  destruct (x <? 0) eqn:E1; [done|].
  destruct (x >=? width e) eqn:E2; [done|].
  destruct (y <? 0) eqn:E3; [done|].
  destruct (y >=? height e) eqn:E4; [done|].
  exfalso. apply H. lia.
Qed.

Lemma inBounds_inside e x y :
  inBounds x y (width e) (height e) = true <-> inside e x y.
Proof. unfold inBounds, inside. rewrite !andb_true_iff. lia. Qed.

Lemma row_inside e x y :
  rectangular e -> inside e x y ->
  exists r, grid e !! Z.to_nat y = Some r
            /\ grid_row (grid e) y = Some r
            /\ length r = Z.to_nat (width e)
            /\ Forall (λ c, c ≠ Undefined) r.
Proof.
  intros [Hlen Hrows] [Hx Hy].
  destruct (lookup_lt_is_Some_2 (grid e) (Z.to_nat y)) as [r Hr]; [lia|].
  exists r. split; [done|]. split.
  - unfold grid_row. destruct (y <? 0) eqn:E; [lia|done].
  - rewrite Forall_lookup in Hrows. apply (Hrows _ _ Hr).
Qed.

Lemma grid_get_inside w x y :
  rectangular (engine w) -> inside (engine w) x y ->
  grid_get x y w = Ok (cell_at (grid (engine w)) x y) w.
Proof.
  intros Hr Hi. destruct (row_inside _ _ _ Hr Hi) as (r & _ & Hrow & _).
  unfold grid_get, cell_at. by rewrite Hrow.
Qed.

Lemma grid_set_inside w x y c :
  rectangular (engine w) -> inside (engine w) x y ->
  grid_set x y c w = Ok tt (with_cell x y c w).
Proof.
  intros Hr Hi. destruct (row_inside _ _ _ Hr Hi) as (r & _ & Hrow & _).
  unfold grid_set, with_cell, put. by rewrite Hrow.
Qed.

Lemma cell_at_defined e x y :
  rectangular e -> inside e x y -> cell_at (grid e) x y ≠ Undefined.
Proof.
  intros Hr Hi. destruct (row_inside _ _ _ Hr Hi) as (r & _ & Hrow & Hlen & Hdef).
  unfold cell_at, row_get. rewrite Hrow. destruct Hi as [Hx _].
  destruct (x <? 0) eqn:E; [lia|].
  destruct (lookup_lt_is_Some_2 r (Z.to_nat x)) as [c Hc]; [lia|].
  rewrite Hc. simpl. rewrite Forall_lookup in Hdef. by apply (Hdef _ _ Hc).
Qed.

Lemma row_set_inside r x c :
  0 <= x < Z.of_nat (length r) -> row_set r x c = <[Z.to_nat x := c]> r.
Proof.
  intros. unfold row_set.
  destruct (x <? 0) eqn:E1; [lia|]. destruct (x <? Z.of_nat (length r)) eqn:E2; [done|lia].
Qed.

Lemma put_inside e x y c :
  rectangular e -> inside e x y ->
  exists r, grid e !! Z.to_nat y = Some r
            /\ length r = Z.to_nat (width e)
            /\ put (grid e) x y c = <[Z.to_nat y := <[Z.to_nat x := c]> r]> (grid e).
Proof.
  intros Hr Hi. destruct (row_inside _ _ _ Hr Hi) as (r & Hlook & Hrow & Hlen & _).
  exists r. split; [done|]. split; [done|].
  unfold put. rewrite Hrow, row_set_inside; [done|]. destruct Hi. lia.
Qed.

Lemma rectangular_put e x y c :
  rectangular e -> inside e x y -> c ≠ Undefined ->
  rectangular (with_grid (put (grid e) x y c) e).
Proof.
  intros Hr Hi Hc. destruct (put_inside e x y c Hr Hi) as (r & Hlook & Hlen & ->).
  destruct Hr as [Hh Hrows]. split; simpl.
  - by rewrite length_insert.
  - apply Forall_insert; [done|]. rewrite Forall_lookup in Hrows.
    destruct (Hrows _ _ Hlook) as [? Hdef]. split.
    + by rewrite length_insert.
    + by apply Forall_insert.
Qed.

Lemma cell_at_put_same e x y c :
  rectangular e -> inside e x y -> cell_at (put (grid e) x y c) x y = c.
Proof.
  intros Hr Hi. destruct (put_inside e x y c Hr Hi) as (r & Hlook & Hlen & ->).
  destruct Hi as [Hx Hy]. unfold cell_at, grid_row, row_get.
  destruct (y <? 0) eqn:E1; [lia|]. destruct (x <? 0) eqn:E2; [lia|].
  rewrite list_lookup_insert_eq by (apply lookup_lt_Some in Hlook; lia).
  rewrite list_lookup_insert_eq by lia. done.
Qed.

Lemma cell_at_put_other e x y c x' y' :
  rectangular e -> inside e x y -> (x', y') ≠ (x, y) ->
  cell_at (put (grid e) x y c) x' y' = cell_at (grid e) x' y'.
Proof.
  intros Hr Hi Hne. destruct (put_inside e x y c Hr Hi) as (r & Hlook & Hlen & ->).
  destruct Hi as [Hx Hy]. unfold cell_at, grid_row.
  destruct (y' <? 0) eqn:E1; [done|].
  destruct (decide (y' = y)) as [->|Hy'].
  - rewrite list_lookup_insert_eq by (apply lookup_lt_Some in Hlook; lia).
    rewrite Hlook. unfold row_get. destruct (x' <? 0) eqn:E2; [done|].
    rewrite list_lookup_insert_ne; [done|]. intros Heq. apply Hne. f_equal. lia.
  - rewrite list_lookup_insert_ne; [done|]. lia.
Qed.

Lemma count_row_insert r i c c0 :
  r !! i = Some c0 ->
  count_row (<[i := c]> r) = count_row r - occupied c0 + occupied c.
Proof.
  revert i. induction r as [|a r IH]; intros [|i] H; simplify_eq/=; [lia|].
  rewrite (IH _ H). lia.
Qed.

Lemma count_cells_insert g i r r0 :
  g !! i = Some r0 ->
  count_cells (<[i := r]> g) = count_cells g - count_row r0 + count_row r.
Proof.
  revert i. induction g as [|a g IH]; intros [|i] H; simplify_eq/=; [lia|].
  rewrite (IH _ H). lia.
Qed.

Lemma count_cells_put e x y c :
  rectangular e -> inside e x y ->
  count_cells (put (grid e) x y c)
  = count_cells (grid e) - occupied (cell_at (grid e) x y) + occupied c.
Proof.
  intros Hr Hi. destruct (put_inside e x y c Hr Hi) as (r & Hlook & Hlen & ->).
  destruct Hi as [Hx Hy].
  destruct (lookup_lt_is_Some_2 r (Z.to_nat x)) as [c0 Hc0]; [lia|].
  rewrite (count_cells_insert _ _ _ _ Hlook), (count_row_insert _ _ _ _ Hc0).
  unfold cell_at, grid_row, row_get.
  destruct (y <? 0) eqn:E1; [lia|]. destruct (x <? 0) eqn:E2; [lia|].
  rewrite Hlook, Hc0. simpl. lia.
Qed.

Lemma count_cells_createGrid width height :
  count_cells (_createGrid width height) = 0.
Proof.
  unfold _createGrid.
  assert (Hrow : forall n, count_row (replicate n Null) = 0).
  { induction n; simpl; [done|]. rewrite IHn. done. }
  induction (Z.to_nat height); simpl; [done|]. rewrite Hrow, IHn. done.
Qed.

Lemma rectangular_createGrid e :
  rectangular (with_grid (_createGrid (width e) (height e)) e).
Proof.
  split; simpl; unfold _createGrid.
  - by rewrite length_replicate.
  - apply Forall_replicate. split; [by rewrite length_replicate|].
    by apply Forall_replicate.
Qed.

Lemma rectangular_new width height : rectangular (new_Engine width height).
Proof.
  split; simpl; unfold _createGrid.
  - by rewrite length_replicate.
  - apply Forall_replicate. split; [by rewrite length_replicate|].
    by apply Forall_replicate.
Qed.

End GridFacts.

Section PrimitiveFacts.

Implicit Types (e : Engine) (w : World).

(** The world after one call of [Math.random()]. *)
Lemma Math_random_runs w :
  Math_random w
  = Ok (source (rng w) (calls (rng w)))
       (mkWorld (engine w) (mkRng (source (rng w)) (S (calls (rng w))))).
Proof. reflexivity. Qed.

Lemma randomInt_runs lo hi w :
  exists n, Utils.randomInt lo hi w
            = Ok n (mkWorld (engine w) (mkRng (source (rng w)) (S (calls (rng w))))).
Proof. eexists. reflexivity. Qed.

(** An element of the table is what [ELEMENTS[type]] yields for its name. *)
Lemma element_own type el :
  Particles.lookup Particles.ELEMENTS type = Some el ->
  Particles.element type = Some el.
Proof. unfold Particles.element. by intros ->. Qed.

Lemma element_known type :
  is_Some (Particles.lookup Particles.ELEMENTS type) ->
  is_Some (Particles.element type).
Proof. intros [el Hel]. exists el. by apply element_own. Qed.

Lemma lookup_fire_or_spark type el :
  Particles.element type = Some el ->
  String.eqb type "fire" || String.eqb type "spark" = true ->
  exists lo hi, Particles.el_lifespan el = Some (Particles.Between lo hi).
Proof.
  intros Hl Ht. apply orb_true_iff in Ht as [Ht|Ht]; apply String.eqb_eq in Ht; subst type;
    vm_compute in Hl; simplify_eq; simpl; eauto.
Qed.

(** The factory reads the element table and the oracle and leaves the
    engine alone; it yields a particle of the requested type at the
    requested place exactly when [ELEMENTS[type]] is truthy. *)
Lemma factory_runs type x y w :
  exists o r,
    Particles.createParticle type x y w = Ok o (mkWorld (engine w) r)
    /\ (Particles.element type = None -> o = None /\ r = rng w)
    /\ (is_Some (Particles.element type) -> is_Some o).
Proof.
  destruct w as [e r0]. unfold Particles.createParticle.
  destruct (Particles.element type) as [el|] eqn:Hl.
  - destruct (String.eqb type "fire" || String.eqb type "spark") eqn:Ht.
    + destruct (lookup_fire_or_spark _ _ Hl Ht) as (lo & hi & Hspan).
      unfold bind, Particles.lifespan_bounds. rewrite Hspan.
      destruct (Particles.el_colorVariation el) as [v|];
        [destruct (0 <? v)%float|];
        simpl; do 2 eexists; (split; [reflexivity|]); split; (done || eauto).
    + unfold bind.
      destruct (Particles.el_colorVariation el) as [v|];
        [destruct (0 <? v)%float|];
        simpl; do 2 eexists; (split; [reflexivity|]); split; (done || eauto).
  - exists None, r0. by repeat split.
Qed.



Lemma inside_or_outside e x y :
  outside e x y = false -> inside e x y.
Proof.
  intros Ho. destruct (decide (inside e x y)) as [|Hn]; [done|].
  apply outside_true in Hn. congruence.
Qed.

Lemma with_cell_rectangular w x y c :
  rectangular (engine w) -> inside (engine w) x y -> c ≠ Undefined ->
  rectangular (engine (with_cell x y c w)).
Proof. intros. by apply rectangular_put. Qed.

Lemma put_twice e x y c c' :
  rectangular e -> inside e x y ->
  put (put (grid e) x y c) x y c' = put (grid e) x y c'.
Proof.
  intros Hr Hi.
  destruct (put_inside e x y c' Hr Hi) as (r & Hlook & Hlen & ->).
  destruct (put_inside e x y c Hr Hi) as (r' & Hlook' & _ & ->).
  simplify_eq. destruct Hi as [Hx Hy].
  assert (Hy' : (Z.to_nat y < length (grid e))%nat) by (by eapply lookup_lt_Some).
  unfold put, grid_row. destruct (y <? 0) eqn:E; [lia|].
  rewrite list_lookup_insert_eq by done.
  rewrite row_set_inside by (rewrite length_insert; lia).
  by rewrite !list_insert_insert_eq.
Qed.

Lemma with_cell_twice w x y c c' :
  rectangular (engine w) -> inside (engine w) x y ->
  with_cell x y c' (with_cell x y c w) = with_cell x y c' w.
Proof.
  intros Hr Hi. unfold with_cell. simpl. by rewrite put_twice.
Qed.

Lemma grid_mutate_inside w x y f p :
  rectangular (engine w) -> inside (engine w) x y ->
  cell_at (grid (engine w)) x y = Obj p ->
  grid_mutate x y f w = Ok tt (with_cell x y (Obj (f p)) w).
Proof.
  intros Hr Hi Hc. unfold grid_mutate, grid_obj, bind.
  rewrite grid_get_inside, Hc by done. simpl.
  by rewrite grid_set_inside.
Qed.

Lemma with_cell_at_same w x y c :
  rectangular (engine w) -> inside (engine w) x y ->
  cell_at (grid (engine (with_cell x y c w))) x y = c.
Proof. intros. by apply cell_at_put_same. Qed.

Lemma with_cell_at_other w x y c x' y' :
  rectangular (engine w) -> inside (engine w) x y -> (x', y') ≠ (x, y) ->
  cell_at (grid (engine (with_cell x y c w))) x' y'
  = cell_at (grid (engine w)) x' y'.
Proof. intros. by apply cell_at_put_other. Qed.

Lemma with_cell_count w x y c :
  rectangular (engine w) -> inside (engine w) x y ->
  count_cells (grid (engine (with_cell x y c w)))
  = count_cells (grid (engine w))
    - occupied (cell_at (grid (engine w)) x y) + occupied c.
Proof. intros. by apply count_cells_put. Qed.

(** Overwriting a particle with a particle keeps the invariant. *)
Lemma with_cell_sound w x y p :
  sound w -> inside (engine w) x y ->
  truthy (cell_at (grid (engine w)) x y) = true ->
  sound (with_cell x y (Obj p) w).
Proof.
  intros [Hr Hc] Hi Ht. split; [by apply with_cell_rectangular|].
  unfold count_agrees in *. rewrite with_cell_count by done.
  unfold occupied. rewrite Ht. simpl. lia.
Qed.

Lemma mark_sound w x y : sound w -> sound (on_engine (mark x y) w).
Proof. intros [[Hl Hrows] Hc]. by repeat split. Qed.

Lemma _markRegionActive_runs x y w :
  _markRegionActive x y w = Ok tt (on_engine (mark x y) w).
Proof. reflexivity. Qed.

Lemma removeParticle_inside w x y :
  rectangular (engine w) -> inside (engine w) x y ->
  removeParticle x y w =
    if truthy (cell_at (grid (engine w)) x y)
    then Ok true (on_engine (mark x y)
                    (on_engine (counted (-1)) (with_cell x y Null w)))
    else Ok false w.
Proof.
  intros Hr Hi. unfold removeParticle, bind at 1, this.
  rewrite (outside_false _ _ _ Hi). unfold bind at 1.
  rewrite grid_get_inside by done.
  pose proof (cell_at_defined _ _ _ Hr Hi) as Hdef.
  destruct (cell_at (grid (engine w)) x y) as [| |p] eqn:Hcell; simpl; [done..|].
  unfold bind at 1. rewrite grid_set_inside by done. reflexivity.
Qed.

Lemma createParticle_inside w x y type :
  rectangular (engine w) -> inside (engine w) x y ->
  createParticle x y type w =
    if truthy (cell_at (grid (engine w)) x y) then Ok false w else
    match Particles.createParticle type x y w with
    | Ok (Some p) w1 =>
        Ok true (on_engine (mark x y)
                   (on_engine (counted 1) (with_cell x y (Obj p) w1)))
    | Ok None w1 => Ok false w1
    | Throw => Throw
    end.
Proof.
  intros Hr Hi. unfold createParticle, bind at 1, this.
  rewrite (outside_false _ _ _ Hi). unfold bind at 1.
  rewrite grid_get_inside by done.
  pose proof (cell_at_defined _ _ _ Hr Hi) as Hdef.
  destruct (cell_at (grid (engine w)) x y) as [| |p] eqn:Hcell; simpl; [done| |done].
  unfold bind at 1.
  destruct (factory_runs type x y w) as (o & r & -> & _).
  destruct o as [p|]; [|done].
  unfold bind at 1. rewrite grid_set_inside by done. reflexivity.
Qed.

Lemma changeParticleType_inside w x y newType :
  rectangular (engine w) -> inside (engine w) x y ->
  changeParticleType x y newType w =
    if truthy (cell_at (grid (engine w)) x y) then
      match Particles.createParticle newType x y w with
      | Ok (Some p) w1 =>
          Ok true (on_engine (mark x y)
                     (with_cell x y (Obj (with_updated true p)) w1))
      | Ok None w1 => Ok false w1
      | Throw => Throw
      end
    else Ok false w.
Proof.
  intros Hr Hi. unfold changeParticleType, bind at 1, this.
  rewrite (outside_false _ _ _ Hi). unfold bind at 1.
  rewrite grid_get_inside by done.
  pose proof (cell_at_defined _ _ _ Hr Hi) as Hdef.
  destruct (cell_at (grid (engine w)) x y) as [| |p0] eqn:Hcell; simpl; [done..|].
  unfold bind at 1.
  destruct (factory_runs newType x y w) as (o & r & -> & _).
  destruct o as [p|]; [|done].
  unfold bind at 1. rewrite grid_set_inside by done.
  unfold bind at 1.
  rewrite (grid_mutate_inside _ _ _ _ p); [| by apply with_cell_rectangular | done
    | by apply (with_cell_at_same (mkWorld (engine w) r))].
  rewrite with_cell_twice by done. reflexivity.
Qed.

Lemma moveParticle_inside w fromX fromY toX toY :
  rectangular (engine w) ->
  inside (engine w) fromX fromY -> inside (engine w) toX toY ->
  moveParticle fromX fromY toX toY w =
    match cell_at (grid (engine w)) fromX fromY,
          cell_at (grid (engine w)) toX toY with
    | Obj p, Null =>
        Ok true
           (on_engine (mark toX toY)
              (on_engine (mark fromX fromY)
                 (with_cell fromX fromY Null
                    (with_cell toX toY
                       (Obj (with_updated true (with_pos toX toY p))) w))))
    | _, _ => Ok false w
    end.
Proof.
  intros Hr Hf Ht. unfold moveParticle, bind at 1, this.
  rewrite (outside_false _ _ _ Hf), (outside_false _ _ _ Ht). simpl.
  unfold bind at 1. rewrite grid_get_inside by done.
  unfold bind at 1. rewrite grid_get_inside by done.
  pose proof (cell_at_defined _ _ _ Hr Hf) as Hdf.
  pose proof (cell_at_defined _ _ _ Hr Ht) as Hdt.
  destruct (cell_at (grid (engine w)) fromX fromY) as [| |p] eqn:Hcf; simpl; [done..|].
  destruct (cell_at (grid (engine w)) toX toY) as [| |q] eqn:Hct; simpl; [done| |done].
  unfold bind at 1. rewrite grid_set_inside by done.
  unfold bind at 1.
  rewrite (grid_mutate_inside _ _ _ _ p);
    [| by apply with_cell_rectangular | done | by apply with_cell_at_same].
  rewrite with_cell_twice by done.
  unfold bind at 1.
  rewrite (grid_mutate_inside _ _ _ _ (with_pos toX toY p));
    [| by apply with_cell_rectangular | done | by apply with_cell_at_same].
  rewrite with_cell_twice by done.
  unfold bind at 1.
  rewrite grid_set_inside; [| by apply with_cell_rectangular | done].
  reflexivity.
Qed.


Lemma with_cell_still_occupied w x y p x' y' :
  rectangular (engine w) -> inside (engine w) x y ->
  truthy (cell_at (grid (engine w)) x' y') = true ->
  truthy (cell_at (grid (engine (with_cell x y (Obj p) w))) x' y') = true.
Proof.
  intros Hr Hi Ht. destruct (decide ((x', y') = (x, y))) as [Heq|Hne].
  - simplify_eq. by rewrite with_cell_at_same.
  - by rewrite with_cell_at_other.
Qed.

Lemma grid_mutate_sound w x y f :
  sound w -> inside (engine w) x y ->
  truthy (cell_at (grid (engine w)) x y) = true ->
  exists p, grid_mutate x y f w = Ok tt (with_cell x y (Obj p) w)
            /\ sound (with_cell x y (Obj p) w).
Proof.
  intros Hs Hi Ht.
  destruct (cell_at (grid (engine w)) x y) as [| |p] eqn:Hc; [done..|].
  exists (f p). split.
  - apply grid_mutate_inside; [apply Hs|done..].
  - apply with_cell_sound; [done..|]. by rewrite Hc.
Qed.

Lemma createParticle_sound x y type w b w' :
  sound w -> createParticle x y type w = Ok b w' -> sound w'.
Proof.
  intros [Hr Hc] H. destruct (outside (engine w) x y) eqn:Ho.
  - unfold createParticle, bind, this in H. rewrite Ho in H.
    unfold ret in H. by simplify_eq.
  - apply inside_or_outside in Ho.
    rewrite createParticle_inside in H by done.
    destruct (truthy (cell_at (grid (engine w)) x y)) eqn:Ht; [by simplify_eq|].
    destruct (factory_runs type x y w) as (o & r & Hf & _). rewrite Hf in H.
    destruct o as [p|]; simplify_eq; [|done].
    split; [by apply (with_cell_rectangular (mkWorld (engine w) r))|].
    unfold count_agrees in *. simpl. rewrite count_cells_put by done.
    unfold occupied. rewrite Ht. simpl. lia.
Qed.

Lemma removeParticle_sound x y w b w' :
  sound w -> removeParticle x y w = Ok b w' -> sound w'.
Proof.
  intros [Hr Hc] H. destruct (outside (engine w) x y) eqn:Ho.
  - unfold removeParticle, bind, this in H. rewrite Ho in H.
    unfold ret in H. by simplify_eq.
  - apply inside_or_outside in Ho.
    rewrite removeParticle_inside in H by done.
    destruct (truthy (cell_at (grid (engine w)) x y)) eqn:Ht; simplify_eq; [|done].
    split; [by apply with_cell_rectangular|].
    unfold count_agrees in *. simpl. rewrite count_cells_put by done.
    unfold occupied. rewrite Ht. simpl. lia.
Qed.

Lemma changeParticleType_sound x y newType w b w' :
  sound w -> changeParticleType x y newType w = Ok b w' -> sound w'.
Proof.
  intros Hs H. pose proof Hs as [Hr Hc]. destruct (outside (engine w) x y) eqn:Ho.
  - unfold changeParticleType, bind, this in H. rewrite Ho in H.
    unfold ret in H. by simplify_eq.
  - apply inside_or_outside in Ho.
    rewrite changeParticleType_inside in H by done.
    destruct (truthy (cell_at (grid (engine w)) x y)) eqn:Ht; [|by simplify_eq].
    destruct (factory_runs newType x y w) as (o & r & Hf & _). rewrite Hf in H.
    destruct o as [p|]; simplify_eq; [|done].
    apply mark_sound. by apply (with_cell_sound (mkWorld (engine w) r)).
Qed.

Lemma moveParticle_sound fromX fromY toX toY w b w' :
  sound w -> moveParticle fromX fromY toX toY w = Ok b w' -> sound w'.
Proof.
  intros [Hr Hc] H.
  destruct (outside (engine w) fromX fromY || outside (engine w) toX toY) eqn:Ho.
  - unfold moveParticle, bind, this in H. rewrite Ho in H.
    unfold ret in H. by simplify_eq.
  - apply orb_false_elim in Ho as [Hf Ht].
    apply inside_or_outside in Hf, Ht.
    rewrite moveParticle_inside in H by done.
    destruct (cell_at (grid (engine w)) fromX fromY) as [| |p] eqn:Hcf;
      [by simplify_eq..|].
    destruct (cell_at (grid (engine w)) toX toY) as [| |q] eqn:Hct;
      simplify_eq; [done| |done].
    assert (Hne : (fromX, fromY) ≠ (toX, toY)) by (intros [= -> ->]; congruence).
    do 2 apply mark_sound.
    split.
    + apply with_cell_rectangular; [by apply with_cell_rectangular|done..].
    + unfold count_agrees in *.
      rewrite with_cell_count; [|by apply with_cell_rectangular|done].
      rewrite with_cell_at_other, with_cell_count, Hcf, Hct by done.
      simpl. unfold occupied. simpl. lia.
Qed.

Lemma swapParticles_outcome x1 y1 x2 y2 w :
  sound w -> exists b w', swapParticles x1 y1 x2 y2 w = Ok b w' /\ sound w'.
Proof.
  intros Hs. pose proof Hs as [Hr Hc].
  unfold swapParticles, bind at 1, this.
  destruct (outside (engine w) x1 y1 || outside (engine w) x2 y2) eqn:Ho.
  - by exists false, w.
  - apply orb_false_elim in Ho as [H1 H2].
    apply inside_or_outside in H1, H2.
    unfold bind at 1. rewrite grid_get_inside by done.
    unfold bind at 1. rewrite grid_get_inside by done.
    pose proof (cell_at_defined _ _ _ Hr H1) as Hd1.
    pose proof (cell_at_defined _ _ _ Hr H2) as Hd2.
    destruct (cell_at (grid (engine w)) x1 y1) as [| |p1] eqn:Hc1;
      [done|by exists false, w|].
    destruct (cell_at (grid (engine w)) x2 y2) as [| |p2] eqn:Hc2;
      [done|by exists false, w|].
    simpl.
    unfold bind at 1. rewrite grid_set_inside by done.
    assert (Hs1 : sound (with_cell x1 y1 (Obj p2) w))
      by (apply with_cell_sound; [done..|by rewrite Hc1]).
    unfold bind at 1. rewrite grid_set_inside; [|apply Hs1|done].
    assert (Hs2 : sound (with_cell x2 y2 (Obj p1) (with_cell x1 y1 (Obj p2) w))).
    { apply with_cell_sound; [done..|].
      apply with_cell_still_occupied; [done..|by rewrite Hc2]. }
    unfold bind at 1.
    destruct (grid_mutate_sound
                (with_cell x2 y2 (Obj p1) (with_cell x1 y1 (Obj p2) w)) x1 y1
                (λ p, with_updated true (with_pos x1 y1 p)))
      as (q1 & Hm1 & Hs3); [done..| |].
    { apply with_cell_still_occupied; [apply Hs1|done|].
      by rewrite with_cell_at_same. }
    rewrite Hm1. unfold bind at 1.
    destruct (grid_mutate_sound
                (with_cell x1 y1 (Obj q1)
                   (with_cell x2 y2 (Obj p1) (with_cell x1 y1 (Obj p2) w))) x2 y2
                (λ p, with_updated true (with_pos x2 y2 p)))
      as (q2 & Hm2 & Hs4); [done..| |].
    { apply with_cell_still_occupied; [apply Hs2|done|].
      by rewrite with_cell_at_same; [|apply Hs1|]. }
    rewrite Hm2.
    unfold bind at 1. rewrite _markRegionActive_runs.
    unfold bind at 1. rewrite _markRegionActive_runs.
    eexists _, _. split; [reflexivity|].
    by do 2 apply mark_sound.
Qed.

Lemma swapParticles_sound x1 y1 x2 y2 w b w' :
  sound w -> swapParticles x1 y1 x2 y2 w = Ok b w' -> sound w'.
Proof.
  intros Hs H.
  destruct (swapParticles_outcome x1 y1 x2 y2 w Hs) as (b0 & w0 & Hrun & Hs0).
  rewrite Hrun in H. by simplify_eq.
Qed.

Lemma primitive_step_sound w w' : sound w -> primitive_step w w' -> sound w'.
Proof.
  intros Hs [x y type b H|x y b H|fx fy tx ty b H|x1 y1 x2 y2 b H|x y t b H].
  - by eapply createParticle_sound.
  - by eapply removeParticle_sound.
  - by eapply moveParticle_sound.
  - by eapply swapParticles_sound.
  - by eapply changeParticleType_sound.
Qed.

Lemma new_Engine_sound width height r :
  sound (mkWorld (new_Engine width height) r).
Proof.
  split; [apply rectangular_new|].
  unfold count_agrees. simpl. by rewrite count_cells_createGrid.
Qed.

Lemma reachable_sound w : reachable w -> sound w.
Proof.
  induction 1 as [width height r _ _|w w' _ IH Hstep].
  - apply new_Engine_sound.
  - by eapply primitive_step_sound.
Qed.

End PrimitiveFacts.

(** ** The primitives: particle count, bounds and unknown types *)

Section PrimitiveRuns.

Implicit Types (e : Engine) (w : World).

Lemma createParticle_runs x y type w :
  sound w -> exists b w', createParticle x y type w = Ok b w'.
Proof.
  intros [Hr _]. destruct (outside (engine w) x y) eqn:Ho.
  - exists false, w. unfold createParticle, bind, this. by rewrite Ho.
  - apply inside_or_outside in Ho. rewrite createParticle_inside by done.
    destruct (truthy _); [by eauto|].
    destruct (factory_runs type x y w) as (o & r & -> & _).
    destruct o; eauto.
Qed.

Lemma removeParticle_runs x y w :
  sound w -> exists b w', removeParticle x y w = Ok b w'.
Proof.
  intros [Hr _]. destruct (outside (engine w) x y) eqn:Ho.
  - exists false, w. unfold removeParticle, bind, this. by rewrite Ho.
  - apply inside_or_outside in Ho. rewrite removeParticle_inside by done.
    destruct (truthy _); eauto.
Qed.

Lemma changeParticleType_runs x y newType w :
  sound w -> exists b w', changeParticleType x y newType w = Ok b w'.
Proof.
  intros [Hr _]. destruct (outside (engine w) x y) eqn:Ho.
  - exists false, w. unfold changeParticleType, bind, this. by rewrite Ho.
  - apply inside_or_outside in Ho. rewrite changeParticleType_inside by done.
    destruct (truthy _); [|by eauto].
    destruct (factory_runs newType x y w) as (o & r & -> & _).
    destruct o; eauto.
Qed.

Lemma moveParticle_runs fromX fromY toX toY w :
  sound w -> exists b w', moveParticle fromX fromY toX toY w = Ok b w'.
Proof.
  intros [Hr _].
  destruct (outside (engine w) fromX fromY || outside (engine w) toX toY) eqn:Ho.
  - exists false, w. unfold moveParticle, bind, this. by rewrite Ho.
  - apply orb_false_elim in Ho as [Hf Ht]. apply inside_or_outside in Hf, Ht.
    rewrite moveParticle_inside by done.
    destruct (cell_at _ fromX fromY); eauto. destruct (cell_at _ toX toY); eauto.
Qed.

Lemma swapParticles_runs x1 y1 x2 y2 w :
  sound w -> exists b w', swapParticles x1 y1 x2 y2 w = Ok b w'.
Proof.
  intros Hs. destruct (swapParticles_outcome x1 y1 x2 y2 w Hs) as (b & w' & H & _).
  eauto.
Qed.

(** In a world the primitives keep sound, no primitive throws. *)
Lemma primitives_return w :
  sound w ->
  (forall x y type, exists b w', createParticle x y type w = Ok b w')
  /\ (forall x y, exists b w', removeParticle x y w = Ok b w')
  /\ (forall fromX fromY toX toY,
        exists b w', moveParticle fromX fromY toX toY w = Ok b w')
  /\ (forall x1 y1 x2 y2, exists b w', swapParticles x1 y1 x2 y2 w = Ok b w')
  /\ (forall x y newType, exists b w', changeParticleType x y newType w = Ok b w').
Proof.
  intros Hs. repeat split; intros.
  - by apply createParticle_runs.
  - by apply removeParticle_runs.
  - by apply moveParticle_runs.
  - by apply swapParticles_runs.
  - by apply changeParticleType_runs.
Qed.

End PrimitiveRuns.

(** C4. In every world the mutation primitives can reach from a new engine,
    [particleCount] is the number of cells that hold a particle, and every
    further call of createParticle, removeParticle, moveParticle,
    swapParticles or changeParticleType keeps it so. *)
Theorem particleCount_counts_cells w :
  reachable w ->
  count_agrees w /\ forall w', primitive_step w w' -> count_agrees w'.
Proof.
  intros Hreach. pose proof (reachable_sound _ Hreach) as Hs. split.
  - apply Hs.
  - intros w' Hstep. by apply (primitive_step_sound w w').
Qed.

Lemma particleCount_counts_cells_witness :
  reachable Sample.sand_moved
  /\ count_agrees Sample.sand_moved
  /\ forall w', primitive_step Sample.sand_moved w' -> count_agrees w'.
Proof.
  assert (Hreach : reachable Sample.sand_moved).
  { apply (reach_step Sample.sand_created).
    - apply (reach_step (mkWorld (new_Engine 2 2) (Sample.oracle []))).
      + apply reach_new; lia.
      + apply (step_create _ Sample.sand_created 0 0 "sand" true).
        vm_compute. reflexivity.
    - apply (step_move _ Sample.sand_moved 0 0 0 1 true). vm_compute. reflexivity. }
  split; [exact Hreach|].
  exact (particleCount_counts_cells Sample.sand_moved Hreach).
Defined.

(** C6. A coordinate outside [0,width) x [0,height) makes each mutation
    primitive return false, without an exception, and leave the whole world
    (grid, particleCount, active regions and all the rest) as it was; for
    moveParticle and swapParticles it is enough that either of the two
    coordinates is outside. *)
Theorem out_of_bounds_rejected w x y :
  ~ inside (engine w) x y ->
  (forall type, createParticle x y type w = Ok false w)
  /\ removeParticle x y w = Ok false w
  /\ (forall newType, changeParticleType x y newType w = Ok false w)
  /\ (forall x' y',
        moveParticle x y x' y' w = Ok false w
        /\ moveParticle x' y' x y w = Ok false w
        /\ swapParticles x y x' y' w = Ok false w
        /\ swapParticles x' y' x y w = Ok false w).
Proof.
  intros Hout. apply outside_true in Hout.
  repeat split; intros;
    unfold createParticle, removeParticle, changeParticleType,
           moveParticle, swapParticles, bind, this;
    rewrite Hout, ?orb_true_r; reflexivity.
Qed.

Lemma out_of_bounds_rejected_witness :
  ~ inside (engine Sample.acid_two_metals) 3 (-1)
  /\ (forall type, createParticle 3 (-1) type Sample.acid_two_metals
                   = Ok false Sample.acid_two_metals)
  /\ removeParticle 3 (-1) Sample.acid_two_metals = Ok false Sample.acid_two_metals.
Proof.
  assert (Hout : ~ inside (engine Sample.acid_two_metals) 3 (-1)).
  { unfold inside. simpl. lia. }
  split; [exact Hout|].
  destruct (out_of_bounds_rejected Sample.acid_two_metals 3 (-1) Hout)
    as (Hc & Hr & _).
  split; [exact Hc|exact Hr].
Defined.

(** When [ELEMENTS[type]] is [undefined] (the name is neither an element of
    the table nor inherited), the factory returns null, createParticle
    returns false and changeParticleType returns false, and the world, the
    target cell with it, is left as it was. *)
Lemma undefined_type_rejected w x y type :
  Particles.element type = None ->
  rectangular (engine w) ->
  Particles.createParticle type x y w = Ok None w
  /\ createParticle x y type w = Ok false w
  /\ changeParticleType x y type w = Ok false w.
Proof.
  intros Hunknown Hr.
  assert (Hfactory : Particles.createParticle type x y w = Ok None w).
  { unfold Particles.createParticle. by rewrite Hunknown. }
  split; [exact Hfactory|].
  destruct (outside (engine w) x y) eqn:Ho.
  - unfold createParticle, changeParticleType, bind, this. by rewrite Ho.
  - apply inside_or_outside in Ho.
    rewrite createParticle_inside, changeParticleType_inside, Hfactory by done.
    by destruct (truthy _).
Qed.

(** For each of the inherited names the factory builds a particle of that
    type, without a random draw. *)
Lemma inherited_type_built type x y w :
  In type Particles.Object_prototype ->
  Particles.lookup Particles.ELEMENTS type = None
  /\ Particles.createParticle type x y w
     = Ok (Some (mkParticle type x y (Some 0%float) (Some 0%float) false
                            None None None None)) w.
Proof.
  intros Hin. simpl in Hin.
  repeat (destruct Hin as [<-|Hin]; [by split|]). done.
Qed.

(** C7 fails on the code for the names [ELEMENTS] inherits.  'constructor'
    is not an element of the table, yet [ELEMENTS['constructor']] is a
    built-in function, which is truthy: the factory builds a particle of that
    type, createParticle puts it into the empty cell (1,2), raises the
    counter and returns true, and changeParticleType turns the acid at (1,1)
    into such a particle and returns true. *)
Theorem inherited_name_accepted :
  Particles.lookup Particles.ELEMENTS "constructor" = None
  /\ Particles.createParticle "constructor" 1 2 Sample.acid_two_metals
     = Ok (Some (Sample.plain "constructor" 1 2)) Sample.acid_two_metals
  /\ cell_at (grid (engine Sample.acid_two_metals)) 1 2 = Null
  /\ createParticle 1 2 "constructor" Sample.acid_two_metals
     = Ok true (Sample.after (createParticle 1 2 "constructor")
                             Sample.acid_two_metals)
  /\ cell_at (grid (engine (Sample.after (createParticle 1 2 "constructor")
                                         Sample.acid_two_metals))) 1 2
     = Obj (Sample.plain "constructor" 1 2)
  /\ particleCount (engine (Sample.after (createParticle 1 2 "constructor")
                                         Sample.acid_two_metals))
     = particleCount (engine Sample.acid_two_metals) + 1
  /\ cell_at (grid (engine Sample.acid_two_metals)) 1 1
     = Obj (Sample.plain "acid" 1 1)
  /\ changeParticleType 1 1 "constructor" Sample.acid_two_metals
     = Ok true (Sample.after (changeParticleType 1 1 "constructor")
                             Sample.acid_two_metals)
  /\ cell_at (grid (engine (Sample.after (changeParticleType 1 1 "constructor")
                                         Sample.acid_two_metals))) 1 1
     = Obj (with_updated true (Sample.plain "constructor" 1 1)).
Proof. vm_compute. repeat split; reflexivity. Qed.

(** A name that [ELEMENTS] neither holds nor inherits is rejected. *)
Example lava_rejected :
  Particles.element "lava" = None
  /\ createParticle 1 2 "lava" Sample.acid_two_metals
     = Ok false Sample.acid_two_metals
  /\ changeParticleType 1 1 "lava" Sample.acid_two_metals
     = Ok false Sample.acid_two_metals.
Proof. vm_compute. repeat split; reflexivity. Qed.

(** C10. While the engine's [active] flag is false, [update] returns 0 and
    the world is exactly as before: grid, particles' fields, particleCount,
    active regions and updateCount. *)
Theorem update_while_paused sort_at_random w :
  active (engine w) = false -> update sort_at_random w = Ok 0 w.
Proof.
  intros Hpaused. unfold update, bind, this. by rewrite Hpaused.
Qed.

Lemma update_while_paused_witness :
  active (engine Sample.paused) = false
  /\ update Sample.keep_order Sample.paused = Ok 0 Sample.paused.
Proof.
  split; [reflexivity|].
  exact (update_while_paused Sample.keep_order Sample.paused eq_refl).
Defined.

(** ** Snapshots: export, import and the round trip *)

Section SnapshotFacts.

Implicit Types (e : Engine) (w : World) (l : list SnapParticle).

(** A loop whose body only computes runs to the end and leaves the world
    alone. *)
Lemma for_acc_pure {A S} (items : list A) (f : S -> A -> S) body w :
  (forall s v, v ∈ items -> body s v w = Ok (f s v) w) ->
  forall s, for_acc items s body w = Ok (fold_left f items s) w.
Proof.
  induction items as [|v items IH]; intros Hbody s; simpl; [done|].
  unfold bind. rewrite Hbody by left.
  apply IH. intros s' v' Hin. apply Hbody. by right.
Qed.

Lemma fold_left_collect {A B} (f : A -> list B) (items : list A) (acc : list B) :
  fold_left (λ acc v, acc ++ f v) items acc = acc ++ flat_map f items.
Proof.
  revert acc. induction items as [|v items IH]; intros acc; simpl.
  - by rewrite app_nil_r.
  - by rewrite IH, app_assoc.
Qed.

Lemma elem_of_range lo hi v : v ∈ range lo hi <-> lo <= v < hi.
Proof. unfold range. rewrite elem_of_seqZ. lia. Qed.

Lemma exportCompressedState_runs w :
  rectangular (engine w) ->
  exportCompressedState w
  = Ok (mkSnapshot (snapshot_list (width (engine w)) (height (engine w))
                                  (grid (engine w)))
                   (width (engine w)) (height (engine w))
                   (particleCount (engine w))) w.
Proof.
  intros Hr. unfold exportCompressedState, bind at 1, this. unfold bind at 1.
  rewrite (for_acc_pure _
             (λ acc y, acc ++ flat_map (λ x, snap_of x y (cell_at (grid (engine w)) x y))
                                       (range 0 (width (engine w))))).
  - unfold bind, this, ret, snapshot_list. by rewrite fold_left_collect.
  - intros acc y Hy. apply elem_of_range in Hy.
    rewrite (for_acc_pure _ (λ acc x, acc ++ snap_of x y (cell_at (grid (engine w)) x y))).
    + by rewrite fold_left_collect.
    + intros acc' x Hx. apply elem_of_range in Hx. unfold bind.
      rewrite grid_get_inside by done.
      destruct (cell_at (grid (engine w)) x y); simpl; unfold ret;
        by rewrite ?app_nil_r.
Qed.

(** The loop of [importCompressedState]: every entry lands in its cell, a
    later entry for the same cell replacing an earlier one. *)
Lemma import_loop l :
  forall w,
    rectangular (engine w) ->
    Forall (λ p, inside (engine w) (sx p) (sy p)) l ->
    exists w',
      for_each l (λ p, grid_set (sx p) (sy p) (Obj (restored p));;
                       _markRegionActive (sx p) (sy p)) w = Ok tt w'
      /\ rectangular (engine w')
      /\ width (engine w') = width (engine w)
      /\ height (engine w') = height (engine w)
      /\ particleCount (engine w') = particleCount (engine w)
      /\ forall x y,
           cell_at (grid (engine w')) x y
           = match placed l x y with
             | Some q => Obj (restored q)
             | None => cell_at (grid (engine w)) x y
             end.
Proof.
  induction l as [|p l IH]; intros w Hr Hin.
  - exists w. repeat (split; [done|]). done.
  - apply Forall_cons in Hin as [Hp Hl].
    simpl. unfold bind at 1. unfold bind at 1.
    rewrite grid_set_inside by done. rewrite _markRegionActive_runs.
    set (w1 := on_engine (mark (sx p) (sy p))
                 (with_cell (sx p) (sy p) (Obj (restored p)) w)).
    assert (Hr1 : rectangular (engine w1)).
    { apply (with_cell_rectangular w (sx p) (sy p) (Obj (restored p))); done. }
    destruct (IH w1 Hr1 Hl) as (w' & Hrun & Hr' & Hw & Hh & Hn & Hcells).
    exists w'. split; [done|]. split; [done|]. split; [done|].
    split; [done|]. split; [done|].
    intros x y. rewrite Hcells. destruct (placed l x y) as [q|]; [done|].
    destruct ((sx p =? x) && (sy p =? y)) eqn:Hxy.
    + apply andb_true_iff in Hxy as [Hx Hy].
      apply Z.eqb_eq in Hx, Hy. subst x y.
      by apply (with_cell_at_same w).
    + apply (with_cell_at_other w (sx p) (sy p)); [done..|].
      intros [= -> ->]. by rewrite !Z.eqb_refl in Hxy.
Qed.

Lemma placed_app l1 l2 x y :
  placed (l1 ++ l2) x y
  = match placed l2 x y with
    | Some q => Some q
    | None => placed l1 x y
    end.
Proof.
  induction l1 as [|p l1 IH]; simpl.
  - by destruct (placed l2 x y).
  - rewrite IH. by destruct (placed l2 x y).
Qed.

Lemma placed_snap_of_other x' y' c x y :
  (x', y') ≠ (x, y) -> placed (snap_of x' y' c) x y = None.
Proof.
  intros Hne. destruct c; simpl; [done..|].
  destruct ((x' =? x) && (y' =? y)) eqn:E; [|done].
  apply andb_true_iff in E as [Ex Ey]. apply Z.eqb_eq in Ex, Ey. by subst.
Qed.

Lemma placed_snap_of_same g x y :
  placed (snap_of x y (cell_at g x y)) x y = snap_at g x y.
Proof.
  unfold snap_at. destruct (cell_at g x y); simpl; [done..|].
  by rewrite !Z.eqb_refl.
Qed.

Lemma placed_row g (xs : list Z) y' x y :
  NoDup xs ->
  placed (flat_map (λ x', snap_of x' y' (cell_at g x' y')) xs) x y
  = if bool_decide (y' = y /\ x ∈ xs) then snap_at g x y else None.
Proof.
  induction xs as [|x' xs IH]; intros Hnd; simpl.
  - case_bool_decide as H; [|done]. destruct H as [_ H]. by apply elem_of_nil in H.
  - apply NoDup_cons in Hnd as [Hx' Hnd]. rewrite placed_app, IH by done.
    case_bool_decide as H1.
    + destruct H1 as [-> Hin].
      rewrite bool_decide_true by (split; [done|by right]).
      destruct (snap_at g x y); [done|].
      apply placed_snap_of_other. intros [= -> ]. done.
    + case_bool_decide as H2.
      * destruct H2 as [-> Hin]. apply elem_of_cons in Hin as [->|Hin].
        -- apply placed_snap_of_same.
        -- exfalso. apply H1. done.
      * apply placed_snap_of_other. intros [= -> ->].
        apply H2. split; [done|by left].
Qed.

Lemma placed_snapshot_list width height g x y :
  placed (snapshot_list width height g) x y
  = if bool_decide (0 <= x < width /\ 0 <= y < height) then snap_at g x y else None.
Proof.
  unfold snapshot_list.
  assert (Hrows : forall ys : list Z, NoDup ys ->
            placed (flat_map (λ y', flat_map (λ x', snap_of x' y' (cell_at g x' y'))
                                             (range 0 width)) ys) x y
            = if bool_decide (0 <= x < width /\ y ∈ ys) then snap_at g x y else None).
  { induction ys as [|y' ys IH]; intros Hnd; simpl.
    - case_bool_decide as H; [|done]. destruct H as [_ H]. by apply elem_of_nil in H.
    - apply NoDup_cons in Hnd as [Hy' Hnd].
      rewrite placed_app, IH, placed_row by (done || apply NoDup_seqZ).
      pose proof (elem_of_range 0 width x) as Hxr.
      pose proof (elem_of_cons ys y y') as Hyc.
      repeat case_bool_decide; try (by destruct (snap_at g x y));
        exfalso; intuition (subst; auto with lia). }
  rewrite Hrows by apply NoDup_seqZ.
  pose proof (elem_of_range 0 height y) as Hyr.
  repeat case_bool_decide; try done; exfalso; intuition (subst; auto with lia).
Qed.

Lemma snapshot_list_inside e :
  Forall (λ p, inside e (sx p) (sy p))
         (snapshot_list (width e) (height e) (grid e)).
Proof.
  unfold snapshot_list. apply Forall_forall. intros p Hin.
  apply list_elem_of_In, in_flat_map in Hin as (y & Hy & Hin).
  apply in_flat_map in Hin as (x & Hx & Hin).
  apply list_elem_of_In, elem_of_range in Hy, Hx.
  destruct (cell_at (grid e) x y); simpl in Hin; try done.
  destruct Hin as [<-|[]]. done.
Qed.

Lemma snapshot_list_ext width height g g' :
  (forall x y, 0 <= x < width -> 0 <= y < height ->
               snap_of x y (cell_at g' x y) = snap_of x y (cell_at g x y)) ->
  snapshot_list width height g' = snapshot_list width height g.
Proof.
  intros Hcells. unfold snapshot_list.
  assert (Hflat : forall {A B} (f f' : A -> list B) (items : list A),
            (forall v, v ∈ items -> f v = f' v) -> flat_map f items = flat_map f' items).
  { intros A B f f' items. induction items as [|v items IH]; intros Hf; simpl; [done|].
    rewrite Hf by left. rewrite IH; [done|]. intros v' Hv'. apply Hf. by right. }
  apply Hflat. intros y Hy%elem_of_range.
  apply Hflat. intros x Hx%elem_of_range. apply Hcells; lia.
Qed.

Lemma cell_at_createGrid width height x y :
  0 <= x < width -> 0 <= y < height ->
  cell_at (_createGrid width height) x y = Null.
Proof.
  intros Hx Hy. unfold cell_at, grid_row, row_get, _createGrid.
  destruct (y <? 0) eqn:E1; [lia|]. destruct (x <? 0) eqn:E2; [lia|].
  rewrite lookup_replicate_2 by lia. by rewrite lookup_replicate_2 by lia.
Qed.

Lemma snap_of_round_trip x y c :
  snap_of x y (round_trip_cell x y c) = snap_of x y c.
Proof. by destruct c. Qed.

Lemma importCompressedState_exported w :
  rectangular (engine w) ->
  exists w',
    importCompressedState
      (mkSnapshot (snapshot_list (width (engine w)) (height (engine w))
                                 (grid (engine w)))
                  (width (engine w)) (height (engine w))
                  (particleCount (engine w))) w = Ok tt w'
    /\ rectangular (engine w')
    /\ width (engine w') = width (engine w)
    /\ height (engine w') = height (engine w)
    /\ particleCount (engine w') = particleCount (engine w)
    /\ forall x y, inside (engine w) x y ->
         cell_at (grid (engine w')) x y
         = round_trip_cell x y (cell_at (grid (engine w)) x y).
Proof.
  intros Hr.
  pose (w0 := on_engine (with_activeRegions [])
                (on_engine (with_particleCount (particleCount (engine w)))
                   (on_engine (with_grid (_createGrid (width (engine w))
                                                      (height (engine w)))) w))).
  assert (Himport : forall state,
            count state = particleCount (engine w) ->
            importCompressedState state w
            = for_each (particles state)
                (λ p, grid_set (sx p) (sy p) (Obj (restored p));;
                      _markRegionActive (sx p) (sy p)) w0).
  { intros state Hcount. unfold importCompressedState, bind, modify, w0, on_engine.
    by rewrite Hcount. }
  rewrite Himport by done. simpl.
  destruct (import_loop
              (snapshot_list (width (engine w)) (height (engine w)) (grid (engine w)))
              w0) as (w' & Hrun & Hr' & Hw & Hh & Hn & Hcells).
  { apply (rectangular_createGrid (engine w)). }
  { apply (snapshot_list_inside (engine w)). }
  exists w'. split; [exact Hrun|]. split; [done|]. split; [done|].
  split; [done|]. split; [done|].
  intros x y Hi. rewrite Hcells, placed_snapshot_list.
  rewrite bool_decide_true by exact Hi.
  pose proof (cell_at_defined _ _ _ Hr Hi) as Hdef.
  unfold snap_at. destruct (cell_at (grid (engine w)) x y) as [| |p]; [done| |done].
  simpl. apply cell_at_createGrid; apply Hi.
Qed.

End SnapshotFacts.

(** C5. Exporting a grid and importing the snapshot gives a grid that holds,
    in every cell, a particle of the same type with the same life, burning
    and corrosion properties (or no particle where there was none), so the
    set of (x, y, type) triples and those properties are the same:
    exporting again yields the same particle list. *)
Theorem export_import_round_trip w :
  rectangular (engine w) ->
  exists state w',
    exportCompressedState w = Ok state w
    /\ importCompressedState state w = Ok tt w'
    /\ (forall x y, inside (engine w) x y ->
          cell_at (grid (engine w')) x y
          = round_trip_cell x y (cell_at (grid (engine w)) x y))
    /\ exists state',
         exportCompressedState w' = Ok state' w'
         /\ particles state' = particles state.
Proof.
  intros Hr.
  destruct (importCompressedState_exported w Hr)
    as (w' & Hrun & Hr' & Hw & Hh & Hn & Hcells).
  eexists _, w'. split; [by apply exportCompressedState_runs|].
  split; [exact Hrun|]. split; [exact Hcells|].
  eexists. split; [by apply exportCompressedState_runs|].
  simpl. rewrite Hw, Hh. apply snapshot_list_ext.
  intros x y Hx Hy. rewrite Hcells by done. apply snap_of_round_trip.
Qed.

Lemma export_import_round_trip_witness :
  rectangular (engine Sample.acid_two_metals)
  /\ exists state w',
       exportCompressedState Sample.acid_two_metals
       = Ok state Sample.acid_two_metals
       /\ importCompressedState state Sample.acid_two_metals = Ok tt w'
       /\ (forall x y, inside (engine Sample.acid_two_metals) x y ->
             cell_at (grid (engine w')) x y
             = round_trip_cell x y
                 (cell_at (grid (engine Sample.acid_two_metals)) x y))
       /\ exists state',
            exportCompressedState w' = Ok state' w'
            /\ particles state' = particles state.
Proof.
  assert (Hr : rectangular (engine Sample.acid_two_metals)).
  { split; [reflexivity|]. simpl. repeat constructor; discriminate. }
  split; [exact Hr|].
  exact (export_import_round_trip Sample.acid_two_metals Hr).
Defined.

(** ** The visit order of a tick *)

Section OrderFacts.

Implicit Types (e : Engine) (w : World) (xs ys : list Z).

Lemma lookup_map {A B} (f : A -> B) (l : list A) i :
  map f l !! i = f <$> l !! i.
Proof. revert i. induction l as [|a l IH]; intros [|i]; simpl; auto. Qed.

Lemma lookup_by_rows ys xs i j y x :
  ys !! i = Some y -> xs !! j = Some x ->
  by_rows ys xs !! (i * length xs + j)%nat = Some (x, y).
Proof.
  revert i. induction ys as [|y0 ys IH]; intros i Hy Hx; [done|].
  unfold by_rows. simpl. destruct i as [|i]; simpl in *.
  - simplify_eq. rewrite lookup_app_l.
    + by rewrite lookup_map, Hx.
    + rewrite length_map. by eapply lookup_lt_Some.
  - rewrite lookup_app_r by (rewrite length_map; lia).
    rewrite length_map.
    replace (length xs + i * length xs + j - length xs)%nat
      with (i * length xs + j)%nat by lia.
    by apply IH.
Qed.

Lemma length_by_rows ys xs :
  length (by_rows ys xs) = (length ys * length xs)%nat.
Proof.
  unfold by_rows. induction ys as [|y ys IH]; cbn [flat_map]; [done|].
  rewrite length_app, length_map, IH. done.
Qed.

Lemma lookup_by_columns xs ys i j x y :
  xs !! i = Some x -> ys !! j = Some y ->
  by_columns xs ys !! (i * length ys + j)%nat = Some (x, y).
Proof.
  revert i. induction xs as [|x0 xs IH]; intros i Hx Hy; [done|].
  unfold by_columns. simpl. destruct i as [|i]; simpl in *.
  - simplify_eq. rewrite lookup_app_l.
    + by rewrite lookup_map, Hy.
    + rewrite length_map. by eapply lookup_lt_Some.
  - rewrite lookup_app_r by (rewrite length_map; lia).
    rewrite length_map.
    replace (length ys + i * length ys + j - length ys)%nat
      with (i * length ys + j)%nat by lia.
    by apply IH.
Qed.

Lemma length_by_columns xs ys :
  length (by_columns xs ys) = (length xs * length ys)%nat.
Proof.
  unfold by_columns. induction xs as [|x xs IH]; cbn [flat_map]; [done|].
  rewrite length_app, length_map, IH. done.
Qed.

Lemma length_range n : length (range 0 n) = Z.to_nat n.
Proof. unfold range. rewrite length_seqZ. f_equal. lia. Qed.

Lemma lookup_range n k : 0 <= k < n -> range 0 n !! Z.to_nat k = Some k.
Proof.
  intros Hk. unfold range. rewrite lookup_seqZ_lt by lia. f_equal. lia.
Qed.

Lemma lookup_range_down_from lo hi (k : nat) :
  Z.of_nat k < hi - lo ->
  range_down lo hi !! k = Some (hi - 1 - Z.of_nat k).
Proof.
  intros Hk. unfold range_down, range.
  rewrite reverse_lookup by (rewrite length_seqZ; lia).
  rewrite length_seqZ, lookup_seqZ_lt by lia. f_equal. lia.
Qed.

Lemma length_range_down n : length (range_down 0 n) = Z.to_nat n.
Proof. unfold range_down. by rewrite length_reverse, length_range. Qed.

Lemma lookup_range_down n k :
  0 <= k < n -> range_down 0 n !! Z.to_nat k = Some (n - 1 - k).
Proof.
  intros Hk. unfold range_down.
  rewrite reverse_lookup by (rewrite length_range; lia).
  rewrite length_range.
  replace (Z.to_nat n - S (Z.to_nat k))%nat with (Z.to_nat (n - 1 - k)) by lia.
  apply lookup_range. lia.
Qed.

Lemma elem_of_by_rows ys xs x y :
  (x, y) ∈ by_rows ys xs <-> y ∈ ys /\ x ∈ xs.
Proof.
  unfold by_rows. rewrite list_elem_of_In, in_flat_map. split.
  - intros (y' & Hy & Hin). apply in_map_iff in Hin as (x' & [= -> ->] & Hx).
    by rewrite !list_elem_of_In.
  - intros [Hy Hx]. exists y. rewrite <- list_elem_of_In. split; [done|].
    apply in_map_iff. exists x. by rewrite <- list_elem_of_In.
Qed.

Lemma NoDup_by_rows ys xs : NoDup ys -> NoDup xs -> NoDup (by_rows ys xs).
Proof.
  intros Hys Hxs. unfold by_rows.
  induction Hys as [|y ys Hy Hys IH]; simpl; [constructor|].
  apply NoDup_app. split; [|split; [|exact IH]].
  - rewrite <- (list_fmap_id xs) in Hxs.
    clear -Hxs. induction xs as [|x xs IHx]; simpl; [constructor|].
    simpl in Hxs. apply NoDup_cons in Hxs as [Hx Hxs]. rewrite list_fmap_id in Hx.
    apply NoDup_cons. split; [|by apply IHx].
    rewrite list_elem_of_In, in_map_iff. intros (x' & [= ->] & Hin).
    by apply list_elem_of_In in Hin.
  - intros [x' y'] Hin1 Hin2.
    apply list_elem_of_In, in_map_iff in Hin1 as (x0 & [= -> ->] & _).
    apply (elem_of_by_rows ys xs) in Hin2 as [Hin2 _]. done.
Qed.

Lemma active_only_false e : active_only e = false <-> full_scan_tick e.
Proof.
  unfold active_only, full_scan_tick. rewrite andb_false_iff, negb_false_iff.
  rewrite Z.eqb_eq. split; intros [H|H]; auto.
  - right. destruct (activeRegions e); [done|].
    rewrite Z.gtb_ltb, Z.ltb_ge in H. simpl in H. lia.
  - left. by rewrite H.
Qed.

(** One step of the shuffle under a draw that stays inside the array. *)
Lemma shuffle_step_runs (coords : list (Z * Z)) i w j :
  0 <= i -> (Z.to_nat i < length coords)%nat ->
  Js.to_index (Js.floor (source (rng w) (calls (rng w)) * Js.of_Z (i + 1))%float)
  = Some j ->
  (j < length coords)%nat ->
  exists coords',
    shuffle_step coords i w
    = Ok coords' (mkWorld (engine w) (mkRng (source (rng w)) (S (calls (rng w)))))
    /\ coords' ≡ₚ coords.
Proof.
  intros Hi Hlen Hj Hjlen. unfold shuffle_step, bind, Math_random.
  destruct (lookup_lt_is_Some_2 coords (Z.to_nat i) Hlen) as [ci Hci].
  destruct (lookup_lt_is_Some_2 coords j Hjlen) as [cj Hcj].
  rewrite Hci, Hj, Hcj. eexists. split; [reflexivity|].
  by apply Permutation_insert_swap.
Qed.

Lemma shuffle_step_permutes (coords : list (Z * Z)) i w coords' w' :
  shuffle_step coords i w = Ok coords' w' ->
  coords' ≡ₚ coords
  /\ w' = mkWorld (engine w) (mkRng (source (rng w)) (S (calls (rng w)))).
Proof.
  unfold shuffle_step, bind, Math_random. intros H.
  destruct (coords !! Z.to_nat i) as [ci|] eqn:Hci; [|done].
  destruct (Js.to_index _) as [j|]; [|done].
  destruct (coords !! j) as [cj|] eqn:Hcj; [|done].
  unfold ret in H. simplify_eq. split; [|done].
  by apply Permutation_insert_swap.
Qed.

Lemma shuffle_loop_permutes (steps : list Z) :
  forall (coords : list (Z * Z)) w order w',
    for_acc steps coords shuffle_step w = Ok order w' -> order ≡ₚ coords.
Proof.
  induction steps as [|i steps IH]; intros coords w order w' H; simpl in H.
  - unfold ret in H. by simplify_eq.
  - unfold bind in H.
    destruct (shuffle_step coords i w) as [coords1 w1|] eqn:Hstep; [|done].
    apply shuffle_step_permutes in Hstep as [Hperm _].
    rewrite <- Hperm. by eapply IH.
Qed.

Lemma shuffle_loop_runs (steps : list Z) :
  forall (coords : list (Z * Z)) w,
    (forall k i, steps !! k = Some i ->
       0 <= i /\ (Z.to_nat i < length coords)%nat
       /\ exists j,
            Js.to_index (Js.floor (source (rng w) (calls (rng w) + k)
                                   * Js.of_Z (i + 1))%float) = Some j
            /\ (j < length coords)%nat) ->
    exists order w', for_acc steps coords shuffle_step w = Ok order w'.
Proof.
  induction steps as [|i steps IH]; intros coords w Hfit; simpl.
  - by eexists _, _.
  - destruct (Hfit 0%nat i eq_refl) as (Hi & Hlen & j & Hj & Hjlen).
    rewrite Nat.add_0_r in Hj.
    destruct (shuffle_step_runs coords i w j Hi Hlen Hj Hjlen)
      as (coords1 & Hstep & Hperm).
    unfold bind. rewrite Hstep. apply IH.
    intros k i' Hk. simpl.
    destruct (Hfit (S k) i' Hk) as (Hi' & Hlen' & j' & Hj' & Hjlen').
    rewrite (Permutation_length Hperm).
    rewrite <- Nat.add_succ_r.
    split; [done|]. split; [done|]. by exists j'.
Qed.

Lemma shuffle_permutes (coords : list (Z * Z)) w order w' :
  shuffle coords w = Ok order w' -> order ≡ₚ coords.
Proof. apply shuffle_loop_permutes. Qed.

Lemma shuffle_runs (coords : list (Z * Z)) w :
  draws_fit (rng w) (length coords) ->
  exists order w', shuffle coords w = Ok order w'.
Proof.
  intros Hfit. apply shuffle_loop_runs. intros k i Hk.
  assert (Hlt : (k < length coords - 1)%nat).
  { apply lookup_lt_Some in Hk. unfold range_down, range in Hk.
    rewrite length_reverse, length_seqZ in Hk. lia. }
  rewrite lookup_range_down_from in Hk by lia. simplify_eq.
  split; [lia|]. split; [lia|].
  destruct (Hfit k Hlt) as (j & Hj & Hjlen). exists j. split; [|done].
  rewrite <- Hj. do 4 f_equal. lia.
Qed.

Lemma raster_down width height :
  0 <= width -> 0 <= height ->
  raster_scan "down" width height
              (by_rows (range_down 0 height) (range 0 width)).
Proof.
  intros Hw Hh. split.
  - rewrite length_by_rows, length_range_down, length_range. lia.
  - intros outer inner Ho Hi. change (raster_outer "down" width height) with height in Ho.
    change (raster_inner "down" width height) with width in *.
    replace (Z.to_nat (outer * width + inner))
      with (Z.to_nat outer * length (range 0 width) + Z.to_nat inner)%nat
      by (rewrite length_range; lia).
    apply lookup_by_rows; [by apply lookup_range_down|by apply lookup_range].
Qed.

Lemma raster_up width height :
  0 <= width -> 0 <= height ->
  raster_scan "up" width height (by_rows (range 0 height) (range 0 width)).
Proof.
  intros Hw Hh. split.
  - rewrite length_by_rows, !length_range. lia.
  - intros outer inner Ho Hi. change (raster_outer "up" width height) with height in Ho.
    change (raster_inner "up" width height) with width in *.
    replace (Z.to_nat (outer * width + inner))
      with (Z.to_nat outer * length (range 0 width) + Z.to_nat inner)%nat
      by (rewrite length_range; lia).
    apply lookup_by_rows; by apply lookup_range.
Qed.

Lemma raster_left width height :
  0 <= width -> 0 <= height ->
  raster_scan "left" width height (by_columns (range 0 width) (range 0 height)).
Proof.
  intros Hw Hh. split.
  - rewrite length_by_columns, !length_range. lia.
  - intros outer inner Ho Hi. change (raster_outer "left" width height) with width in Ho.
    change (raster_inner "left" width height) with height in *.
    replace (Z.to_nat (outer * height + inner))
      with (Z.to_nat outer * length (range 0 height) + Z.to_nat inner)%nat
      by (rewrite length_range; lia).
    apply lookup_by_columns; by apply lookup_range.
Qed.

Lemma raster_right width height :
  0 <= width -> 0 <= height ->
  raster_scan "right" width height
              (by_columns (range_down 0 width) (range 0 height)).
Proof.
  intros Hw Hh. split.
  - rewrite length_by_columns, length_range_down, length_range. lia.
  - intros outer inner Ho Hi. change (raster_outer "right" width height) with width in Ho.
    change (raster_inner "right" width height) with height in *.
    replace (Z.to_nat (outer * height + inner))
      with (Z.to_nat outer * length (range 0 height) + Z.to_nat inner)%nat
      by (rewrite length_range; lia).
    apply lookup_by_columns; [by apply lookup_range_down|by apply lookup_range].
Qed.

Lemma every_cell_once_permutation e (order : list (Z * Z)) :
  order ≡ₚ by_rows (range 0 (height e)) (range 0 (width e)) ->
  every_cell_once e order.
Proof.
  intros Hperm. split.
  - rewrite Hperm. apply NoDup_by_rows; apply NoDup_seqZ.
  - intros x y. rewrite Hperm, elem_of_by_rows, !elem_of_range.
    unfold inside. lia.
Qed.

End OrderFacts.

Lemma updateOrder_directional w :
  directional (gravity (engine w)) ->
  0 <= width (engine w) -> 0 <= height (engine w) ->
  exists order,
    updateOrder w = Ok order w
    /\ (full_scan_tick (engine w) ->
        raster_scan (gravity (engine w)) (width (engine w)) (height (engine w))
                    order)
    /\ (~ full_scan_tick (engine w) -> order = activeRegions (engine w)).
Proof.
  intros Hdir Hw Hh.
  assert (Hfull : forall order,
            (if active_only (engine w) then ret (activeRegions (engine w))
             else ret order) w
            = Ok (if active_only (engine w) then activeRegions (engine w) else order) w)
    by (intros; by destruct (active_only _)).
  assert (Hcase : forall scan,
            raster_scan (gravity (engine w)) (width (engine w)) (height (engine w)) scan ->
            let order := if active_only (engine w)
                         then activeRegions (engine w) else scan in
            (full_scan_tick (engine w) ->
             raster_scan (gravity (engine w)) (width (engine w)) (height (engine w))
                         order)
            /\ (~ full_scan_tick (engine w) -> order = activeRegions (engine w))).
  { intros scan Hscan order. subst order. split.
    - intros Hf. apply active_only_false in Hf. by rewrite Hf.
    - intros Hf. destruct (active_only (engine w)) eqn:Ha; [done|].
      by apply active_only_false in Ha. }
  unfold updateOrder, bind, this.
  destruct Hdir as [Hg|[Hg|[Hg|Hg]]]; rewrite Hg in *; simpl.
  - unfold _getBottomToTopOrder, bind, this. rewrite Hfull.
    eexists. split; [reflexivity|]. apply Hcase. by apply raster_down.
  - unfold _getTopToBottomOrder, bind, this. rewrite Hfull.
    eexists. split; [reflexivity|]. apply Hcase. by apply raster_up.
  - unfold _getLeftToRightOrder, bind, this. rewrite Hfull.
    eexists. split; [reflexivity|]. apply Hcase. by apply raster_left.
  - unfold _getRightToLeftOrder, bind, this. rewrite Hfull.
    eexists. split; [reflexivity|]. apply Hcase. by apply raster_right.
Qed.

Lemma updateOrder_weightless w :
  ~ directional (gravity (engine w)) ->
  updateOrder w
  = shuffle (if active_only (engine w) then activeRegions (engine w)
             else by_rows (range 0 (height (engine w))) (range 0 (width (engine w))))
            w.
Proof.
  intros Hdir. unfold directional in Hdir.
  unfold updateOrder, bind, this.
  destruct (String.eqb_spec (gravity (engine w)) "down"); [tauto|].
  destruct (String.eqb_spec (gravity (engine w)) "up"); [tauto|].
  destruct (String.eqb_spec (gravity (engine w)) "left"); [tauto|].
  destruct (String.eqb_spec (gravity (engine w)) "right"); [tauto|].
  unfold _getRandomOrder, bind, this. by destruct (active_only _).
Qed.

(** C8. On a tick whose counter is a multiple of 5, or whose active-region set
    is empty, the visit order is the full scan for the gravity direction:
    the raster scan for down (bottom row to top row, left to right within a
    row), up, left and right, and a shuffle of all the cells otherwise.  On
    every other tick the visit order is made of exactly the coordinates in the
    active-region set: the set in its own order for the four directions, a
    shuffle of it otherwise.  The shuffle returns an order whenever the
    coming [Math.random()] values keep its indices inside the array. *)
Theorem visit_order w :
  0 <= width (engine w) -> 0 <= height (engine w) ->
  (full_scan_tick (engine w) ->
   (directional (gravity (engine w)) ->
    exists order,
      updateOrder w = Ok order w
      /\ raster_scan (gravity (engine w)) (width (engine w)) (height (engine w))
                     order)
   /\ (~ directional (gravity (engine w)) ->
       (forall order w',
          updateOrder w = Ok order w' -> every_cell_once (engine w) order)
       /\ (draws_fit (rng w) (Z.to_nat (width (engine w) * height (engine w))) ->
           exists order w', updateOrder w = Ok order w')))
  /\ (~ full_scan_tick (engine w) ->
      (directional (gravity (engine w)) ->
       updateOrder w = Ok (activeRegions (engine w)) w)
      /\ (~ directional (gravity (engine w)) ->
          (forall order w',
             updateOrder w = Ok order w' -> order ≡ₚ activeRegions (engine w))
          /\ (draws_fit (rng w) (length (activeRegions (engine w))) ->
              exists order w', updateOrder w = Ok order w'))).
Proof.
  intros Hw Hh. split; intros Hfull.
  - split; intros Hdir.
    + destruct (updateOrder_directional w Hdir Hw Hh) as (order & Hrun & Hscan & _).
      exists order. split; [done|]. by apply Hscan.
    + rewrite (updateOrder_weightless w Hdir).
      apply active_only_false in Hfull. rewrite Hfull. split.
      * intros order w' Hrun. apply every_cell_once_permutation.
        by eapply shuffle_permutes.
      * intros Hfit. apply shuffle_runs.
        rewrite length_by_rows, !length_range.
        by replace (Z.to_nat (height (engine w)) * Z.to_nat (width (engine w)))%nat
          with (Z.to_nat (width (engine w) * height (engine w))) by lia.
  - assert (Hactive : active_only (engine w) = true).
    { destruct (active_only (engine w)) eqn:Ha; [done|].
      by apply active_only_false in Ha. }
    split; intros Hdir.
    + destruct (updateOrder_directional w Hdir Hw Hh) as (order & Hrun & _ & Hact).
      by rewrite Hrun, Hact.
    + rewrite (updateOrder_weightless w Hdir), Hactive. split.
      * intros order w'. apply shuffle_permutes.
      * apply shuffle_runs.
Qed.

Lemma visit_order_witness :
  (0 <= width (engine Sample.falling) /\ 0 <= height (engine Sample.falling))
  /\ ~ full_scan_tick (engine Sample.falling)
  /\ directional (gravity (engine Sample.falling))
  /\ updateOrder Sample.falling = Ok [(1, 0); (0, 0)] Sample.falling.
Proof.
  assert (Hw : 0 <= width (engine Sample.falling)) by (simpl; lia).
  assert (Hh : 0 <= height (engine Sample.falling)) by (simpl; lia).
  assert (Hpart : ~ full_scan_tick (engine Sample.falling)).
  { unfold full_scan_tick. simpl. intros [H|H]; discriminate. }
  assert (Hdir : directional (gravity (engine Sample.falling))) by (by left).
  split; [by split|]. split; [exact Hpart|]. split; [exact Hdir|].
  exact (proj1 (proj2 (visit_order Sample.falling Hw Hh) Hpart) Hdir).
Defined.

(** The shuffle at work: without gravity, on a tick that is not a multiple
    of five, the two active coordinates are visited in swapped order. *)
Example shuffle_of_two_active_cells :
  draws_fit (rng Sample.weightless) 2
  /\ exists w', updateOrder Sample.weightless = Ok [(1, 0); (0, 0)] w'.
Proof.
  split.
  - intros t Ht. assert (t = 0%nat) as -> by lia.
    exists 0%nat. split; [vm_compute; reflexivity|lia].
  - eexists. vm_compute. reflexivity.
Qed.

(** ** The order is computed on the tick's own schedule *)

Section ScheduleFacts.

Implicit Types (w : World).

Lemma for_each_preserves {A} (P : World -> Prop) (items : list A) body :
  (forall v w w', P w -> body v w = Ok tt w' -> P w') ->
  forall w w', P w -> for_each items body w = Ok tt w' -> P w'.
Proof.
  intros Hbody. induction items as [|v items IH]; intros w w' HP H; simpl in H.
  - unfold ret in H. by simplify_eq.
  - unfold bind in H. destruct (body v w) as [[] w1|] eqn:Hv; [|done].
    eapply IH; [|exact H]. by eapply Hbody.
Qed.

(** Clearing the [updated] flags changes the grid only: the oracle, the
    dimensions, the gravity, the tick counter and the active-region set are
    those the tick started with. *)
Lemma reset_flags_keeps_schedule w w' :
  reset_flags w = Ok tt w' ->
  rng w' = rng w
  /\ width (engine w') = width (engine w)
  /\ height (engine w') = height (engine w)
  /\ gravity (engine w') = gravity (engine w)
  /\ updateCount (engine w') = updateCount (engine w)
  /\ activeRegions (engine w') = activeRegions (engine w).
Proof.
  unfold reset_flags, bind at 1, this.
  apply (for_each_preserves
           (λ w', rng w' = rng w
                  /\ width (engine w') = width (engine w)
                  /\ height (engine w') = height (engine w)
                  /\ gravity (engine w') = gravity (engine w)
                  /\ updateCount (engine w') = updateCount (engine w)
                  /\ activeRegions (engine w') = activeRegions (engine w)));
    [|done].
  intros y. apply for_each_preserves. intros x w1 w2 HP H.
  unfold bind, grid_get in H.
  destruct (grid_row (grid (engine w1)) y) as [r|] eqn:Hrow; [|done].
  destruct (truthy (row_get r x)); [|unfold skip, ret in H; by simplify_eq].
  unfold grid_mutate, grid_obj, bind, grid_get, grid_set in H. rewrite Hrow in H.
  destruct (row_get r x); try done. simpl in H. rewrite Hrow in H.
  by simplify_eq.
Qed.

(** A running tick clears the flags, computes the visit order in the world
    that leaves, visits the cells in that order, merges the new active
    regions and counts the tick. *)
Lemma update_running sort_at_random w w1 :
  active (engine w) = true ->
  reset_flags w = Ok tt w1 ->
  update sort_at_random w
  = (order ← updateOrder;
     t ← for_acc order (mkTick [] 0) (visit sort_at_random);
     modify (λ e, with_activeRegions
                    (fold_left (λ s region, set_add region s)
                               (newActiveRegions t) (activeRegions e)) e);;
     modify (λ e, with_updateCount (updateCount e + 1) e);;
     ret (updatedCount t)) w1.
Proof.
  intros Hactive Hreset. unfold update, bind at 1, this. rewrite Hactive. simpl.
  unfold bind at 1. by rewrite Hreset.
Qed.

End ScheduleFacts.

(** ** History: what the undo stack records *)

Section HistoryFacts.

Implicit Types (e : Engine) (w : World).

(** With the skip flag down, a mutation entry point records the grid as it
    is, drops the oldest entry above the cap and empties the redo stack. *)
Lemma _saveUndoState_records w :
  rectangular (engine w) -> _skipNextUndo (engine w) = false ->
  let snapshot :=
    mkSnapshot (snapshot_list (width (engine w)) (height (engine w))
                              (grid (engine w)))
               (width (engine w)) (height (engine w))
               (particleCount (engine w)) in
  let pushed := push snapshot (undoStack (engine w)) in
  _saveUndoState w
  = Ok tt (on_engine
             (λ e, with_redoStack []
                     (with_undoStack
                        (if Z.of_nat (length pushed) >? maxUndoSteps e
                         then shift pushed else pushed) e)) w).
Proof.
  intros Hr Hskip snapshot pushed. unfold _saveUndoState, bind at 1, this.
  rewrite Hskip. unfold bind at 1. rewrite exportCompressedState_runs by done.
  unfold bind, modify, this, skip, ret, on_engine. simpl.
  fold snapshot. fold pushed.
  by destruct (Z.of_nat (length pushed) >? maxUndoSteps (engine w)).
Qed.

(** With the skip flag up, it records nothing: the flag is lowered and both
    stacks stay as they are. *)
Lemma _saveUndoState_skips w :
  _skipNextUndo (engine w) = true ->
  _saveUndoState w = Ok tt (on_engine (with_skipNextUndo false) w).
Proof.
  intros Hskip. unfold _saveUndoState, bind, this. by rewrite Hskip.
Qed.

(** Importing a snapshot does not touch the skip flag. *)
Lemma import_loop_keeps_flag (l : list SnapParticle) :
  forall w w',
    for_each l (λ p, grid_set (sx p) (sy p) (Obj (restored p));;
                     _markRegionActive (sx p) (sy p)) w = Ok tt w' ->
    _skipNextUndo (engine w') = _skipNextUndo (engine w).
Proof.
  induction l as [|p l IH]; intros w w' H; simpl in H.
  - unfold ret in H. by simplify_eq.
  - unfold bind at 1 in H. unfold bind at 1 in H. unfold grid_set in H.
    destruct (grid_row (grid (engine w)) (sy p)); [|done].
    rewrite _markRegionActive_runs in H. by rewrite (IH _ _ H).
Qed.

(** [undo] and [redo] leave the skip flag up: nothing lowers it before the
    next mutation entry point runs. *)
Lemma undo_leaves_flag w w' :
  undo w = Ok true w' -> _skipNextUndo (engine w') = true.
Proof.
  unfold undo, bind at 1, this. intros H.
  destruct (Z.of_nat (length (undoStack (engine w))) =? 0); [done|].
  unfold bind at 1 in H.
  destruct (exportCompressedState w) as [state w1|]; [|done].
  unfold bind at 1, modify in H. unfold bind at 1, this in H. simpl in H.
  destruct (pop (undoStack (engine w1))) as [[previous rest]|]; [|done].
  unfold bind at 1, modify in H. unfold bind at 1 in H. unfold bind at 1 in H.
  unfold importCompressedState in H.
  unfold bind at 1, modify in H. unfold bind at 1 in H. unfold bind at 1 in H.
  destruct (for_each _ _ _) as [[] w2|] eqn:Hloop; [|done].
  apply import_loop_keeps_flag in Hloop. unfold ret in H. by simplify_eq.
Qed.

(** So the mutation entry point called after any [undo] goes to work
    without recording anything. *)
Lemma drawElements_after_undo w w' type points :
  undo w = Ok true w' ->
  drawElements type points w'
  = for_acc points 0
      (λ count '(x, y),
         created ← createParticle x y type;
         ret (if created then count + 1 else count))
      (on_engine (with_skipNextUndo false) w').
Proof.
  intros Hundo. unfold drawElements, bind at 1.
  by rewrite (_saveUndoState_skips w' (undo_leaves_flag w w' Hundo)).
Qed.

End HistoryFacts.

(** C2 (the code departs from it).  A fresh engine, one wall drawn, one
    undo, then a second wall drawn: the second [drawElements] creates its
    particle but pushes no snapshot and leaves the redo stack alone, because
    [undo] left [_skipNextUndo] up and [importCompressedState] never lowers
    it. *)
Theorem draw_after_undo_not_recorded :
  drawElements "wall" [(0, 0)] Sample.fresh = Ok 1 Sample.drawn
  /\ length (undoStack (engine Sample.drawn)) = 1%nat
  /\ undo Sample.drawn = Ok true Sample.undone
  /\ _skipNextUndo (engine Sample.undone) = true
  /\ undoStack (engine Sample.undone) = []
  /\ length (redoStack (engine Sample.undone)) = 1%nat
  /\ drawElements "wall" [(1, 0)] Sample.undone = Ok 1 Sample.drawn_again
  /\ truthy (cell_at (grid (engine Sample.drawn_again)) 1 0) = true
  /\ undoStack (engine Sample.drawn_again) = []
  /\ redoStack (engine Sample.drawn_again) = redoStack (engine Sample.undone).
Proof. vm_compute. repeat split; reflexivity. Qed.

(** ** The spark and its conductive neighbours *)

(** [moveParticle] refuses a destination that holds a particle. *)
Lemma moveParticle_occupied w fromX fromY toX toY :
  rectangular (engine w) ->
  inside (engine w) fromX fromY -> inside (engine w) toX toY ->
  truthy (cell_at (grid (engine w)) toX toY) = true ->
  moveParticle fromX fromY toX toY w = Ok false w.
Proof.
  intros Hr Hf Ht Hocc. rewrite moveParticle_inside by done.
  destruct (cell_at (grid (engine w)) toX toY); [done..|].
  by destruct (cell_at (grid (engine w)) fromX fromY).
Qed.

Section SparkFacts.

Implicit Types (w : World).

(** Changing a particle's type empties no cell. *)
Lemma changeParticleType_keeps_occupied w x y newType b w' :
  rectangular (engine w) ->
  changeParticleType x y newType w = Ok b w' ->
  rectangular (engine w')
  /\ width (engine w') = width (engine w)
  /\ height (engine w') = height (engine w)
  /\ forall x' y',
       truthy (cell_at (grid (engine w)) x' y') = true ->
       truthy (cell_at (grid (engine w')) x' y') = true.
Proof.
  intros Hr H. destruct (outside (engine w) x y) eqn:Ho.
  - unfold changeParticleType, bind, this in H. rewrite Ho in H.
    unfold ret in H. by simplify_eq.
  - apply inside_or_outside in Ho. rewrite changeParticleType_inside in H by done.
    destruct (truthy (cell_at (grid (engine w)) x y)); [|by simplify_eq].
    destruct (factory_runs newType x y w) as (o & r & Hf & _). rewrite Hf in H.
    destruct o as [p|]; simplify_eq; [|done].
    split; [by apply (with_cell_rectangular (mkWorld (engine w) r))|].
    split; [done|]. split; [done|]. intros x' y' Hocc.
    by apply (with_cell_still_occupied (mkWorld (engine w) r)).
Qed.

(** Every coordinate the spark's scan collects is inside the grid and still
    holds a particle when the scan ends. *)
Lemma spark_scan_targets x y (ds : list (Z * Z)) :
  forall (acc : list (Z * Z)) w ns w1,
    rectangular (engine w) ->
    (forall nx ny, (nx, ny) ∈ acc ->
       inside (engine w) nx ny
       /\ truthy (cell_at (grid (engine w)) nx ny) = true) ->
    for_acc ds acc (Behaviors.spark_scan x y) w = Ok ns w1 ->
    rectangular (engine w1)
    /\ width (engine w1) = width (engine w)
    /\ height (engine w1) = height (engine w)
    /\ forall nx ny, (nx, ny) ∈ ns ->
         inside (engine w1) nx ny
         /\ truthy (cell_at (grid (engine w1)) nx ny) = true.
Proof.
  induction ds as [|[dx dy] ds IH]; intros acc w ns w1 Hr Hacc H;
    cbn [for_acc] in H.
  - unfold ret in H. by simplify_eq.
  - unfold bind at 1 in H.
    destruct (Behaviors.spark_scan x y acc (dx, dy) w) as [acc' w'|] eqn:Hstep;
      [|done].
    assert (Hstep' : rectangular (engine w')
                     /\ width (engine w') = width (engine w)
                     /\ height (engine w') = height (engine w)
                     /\ forall nx ny, (nx, ny) ∈ acc' ->
                          inside (engine w') nx ny
                          /\ truthy (cell_at (grid (engine w')) nx ny) = true).
    { clear IH H. unfold Behaviors.spark_scan in Hstep.
      destruct ((dx =? 0) && (dy =? 0)); [unfold ret in Hstep; by simplify_eq|].
      unfold bind at 1, neighbor_at, bind at 1, this in Hstep.
      destruct (inBounds (x + dx) (y + dy) _ _) eqn:Hin;
        [|unfold ret in Hstep; by simplify_eq].
      apply inBounds_inside in Hin.
      unfold bind at 1 in Hstep. rewrite grid_get_inside in Hstep by done.
      unfold ret at 1 in Hstep.
      destruct (cell_at (grid (engine w)) (x + dx) (y + dy)) as [| |q] eqn:Hq;
        [unfold ret in Hstep; by simplify_eq..|].
      destruct (Particles.element (type q)) as [el|];
        [|unfold ret in Hstep; by simplify_eq].
      set (found := if Particles.el_conductive el
                    then acc ++ [(x + dx, y + dy)] else acc) in Hstep.
      assert (Hfound : forall nx ny, (nx, ny) ∈ found ->
                inside (engine w) nx ny
                /\ truthy (cell_at (grid (engine w)) nx ny) = true).
      { intros nx ny Hn. subst found. destruct (Particles.el_conductive el); [|by apply Hacc].
        apply elem_of_app in Hn as [Hn|Hn]; [by apply Hacc|].
        apply list_elem_of_singleton in Hn. simplify_eq. by rewrite Hq. }
      unfold bind at 1 in Hstep.
      destruct (Particles.el_flammable el);
        [|unfold skip, ret in Hstep; by simplify_eq].
      unfold bind at 1 in Hstep. rewrite Math_random_runs in Hstep.
      destruct (_ <? _)%float; [|unfold skip, ret in Hstep; by simplify_eq].
      unfold bind at 1 in Hstep.
      destruct (changeParticleType _ _ _ _) as [b w2|] eqn:Hchange; [|done].
      apply changeParticleType_keeps_occupied in Hchange as (Hr2 & Hw2 & Hh2 & Hocc);
        [|done].
      unfold skip, ret in Hstep. simplify_eq.
      split; [done|]. split; [done|]. split; [done|].
      intros nx ny Hn. destruct (Hfound nx ny Hn) as [Hi Ht]. split.
      - unfold inside in *. simpl in *. lia.
      - by apply Hocc. }
    destruct Hstep' as (Hr' & Hw' & Hh' & Hacc').
    destruct (IH acc' w' ns w1 Hr' Hacc' H) as (Hr1 & Hw1 & Hh1 & Hns).
    split; [done|]. split; [congruence|]. split; [congruence|]. done.
Qed.

(** Whatever conductive neighbour the jump picks, [moveParticle] refuses
    it and the world stays as the scan left it: the spark cannot jump. *)
Lemma spark_jump_refused x y w ns w1 nx ny :
  rectangular (engine w) -> inside (engine w) x y ->
  for_acc (offsets 1) [] (Behaviors.spark_scan x y) w = Ok ns w1 ->
  (nx, ny) ∈ ns ->
  moveParticle x y nx ny w1 = Ok false w1.
Proof.
  intros Hr Hi Hscan Hn.
  destruct (spark_scan_targets x y (offsets 1) [] w ns w1 Hr) as (Hr1 & Hw & Hh & Hns);
    [by intros ?? ?%elem_of_nil|done|].
  destruct (Hns nx ny Hn) as [Hin Hocc].
  apply moveParticle_occupied; [done| |done..].
  unfold inside in *. by rewrite Hw, Hh.
Qed.

End SparkFacts.

(** C3 (the code departs from it).  A spark at (1,1) with ten ticks to live
    and a metal particle at (0,0): the neighbour scan finds the metal, the
    0.7 roll succeeds (the draw is 0.5) and [randomElement] picks (0,0), but
    [moveParticle] refuses the occupied cell.  The behaviour returns true and
    the spark is still at (1,1), one tick older; the metal is untouched. *)
Theorem spark_jump_stays_put :
  (source (rng Sample.spark_by_metal) 0 <? 0.7)%float = true
  /\ Behaviors.spark_update Particles.spark 1 1 Sample.spark_by_metal
     = Ok true Sample.spark_jumped
  /\ cell_at (grid (engine Sample.spark_jumped)) 1 1
     = Obj (with_life (Some 9%float) (Sample.plain "spark" 1 1))
  /\ cell_at (grid (engine Sample.spark_jumped)) 0 0
     = Obj (Sample.plain "metal" 0 0)
  /\ moveParticle 1 1 0 0 Sample.spark_jumped = Ok false Sample.spark_jumped.
Proof. vm_compute. repeat split; reflexivity. Qed.

(** ** The acid+metal reaction *)

(** C9, as the code has it.  One invocation of the acid+metal reaction adds
    0.1 (in binary64 arithmetic) to the metal's corrosion, counted from 0 when
    the property is missing or zero.  If the sum is below 1 the reaction
    returns false, draws no random number and changes nothing else: the metal
    stays.  If the sum is 1 or more the metal is removed, the reaction returns
    true, and the acid is removed as well exactly when the next
    [Math.random()] value is below 0.3. *)
Theorem acid_metal_invocation w acidX acidY metalX metalY metal :
  rectangular (engine w) ->
  inside (engine w) metalX metalY ->
  cell_at (grid (engine w)) metalX metalY = Obj metal ->
  let before := if Js.falsy (corrosion metal) then 0%float
                else num (corrosion metal) in
  let sum := (before + 0.1)%float in
  let corroded := with_cell metalX metalY
                    (Obj (with_corrosion (Some sum) metal)) w in
  let dissolved := on_engine (mark metalX metalY)
                     (on_engine (counted (-1)) (with_cell metalX metalY Null w)) in
  let r := source (rng w) (calls (rng w)) in
  let drawn := mkWorld (engine dissolved)
                       (mkRng (source (rng w)) (S (calls (rng w)))) in
  if (1 <=? sum)%float then
    cell_at (grid (engine dissolved)) metalX metalY = Null
    /\ Interactions.acid_metal acidX acidY metalX metalY w
       = if (r <? 0.3)%float
         then (removeParticle acidX acidY;; ret true) drawn
         else Ok true drawn
  else
    cell_at (grid (engine corroded)) metalX metalY
    = Obj (with_corrosion (Some sum) metal)
    /\ Interactions.acid_metal acidX acidY metalX metalY w = Ok false corroded.
Proof.
  intros Hr Hi Hcell before sum corroded dissolved r drawn.
  assert (Hsame : cell_at (grid (engine corroded)) metalX metalY
                  = Obj (with_corrosion (Some sum) metal))
    by (by apply with_cell_at_same).
  assert (Hrc : rectangular (engine corroded))
    by (by apply with_cell_rectangular).
  assert (Hrun : Interactions.acid_metal acidX acidY metalX metalY w
                 = (if (1 <=? sum)%float then
                      removeParticle metalX metalY;;
                      r ← Math_random;
                      (if (r <? 0.3)%float
                       then removeParticle acidX acidY;; skip else skip);;
                      ret true
                    else ret false) corroded).
  { unfold Interactions.acid_metal.
    unfold bind at 1, grid_obj at 1, bind at 1.
    rewrite grid_get_inside, Hcell by done. simpl. unfold bind at 1.
    subst sum before. destruct (Js.falsy (corrosion metal)) eqn:Hfalsy.
    - rewrite (grid_mutate_inside _ _ _ _ metal) by done.
      unfold bind at 1.
      rewrite (grid_mutate_inside _ _ _ _ (with_corrosion (Some 0%float) metal));
        [|by apply with_cell_rectangular|done|by apply with_cell_at_same].
      rewrite with_cell_twice by done.
      change (with_cell metalX metalY _ w) with corroded.
      unfold bind at 1, grid_obj, bind at 1.
      by rewrite grid_get_inside, Hsame.
    - unfold skip, ret. unfold bind at 1.
      rewrite (grid_mutate_inside _ _ _ _ metal) by done.
      change (with_cell metalX metalY _ w) with corroded.
      unfold bind at 1, grid_obj, bind at 1.
      by rewrite grid_get_inside, Hsame. }
  rewrite Hrun. destruct (1 <=? sum)%float eqn:Hsum.
  - split; [by apply (with_cell_at_same w)|].
    unfold bind at 1.
    rewrite removeParticle_inside, Hsame by done.
    simpl. unfold corroded. rewrite with_cell_twice by done.
    unfold bind at 1. rewrite Math_random_runs. fold dissolved.
    change (source (rng dissolved) (calls (rng dissolved))) with r.
    change (mkWorld (engine dissolved) _) with drawn.
    destruct (r <? 0.3)%float; [|done].
    unfold bind, skip, ret. by destruct (removeParticle acidX acidY drawn).
  - by split.
Qed.

Lemma acid_metal_invocation_witness :
  rectangular (engine Sample.acid_under_metal)
  /\ inside (engine Sample.acid_under_metal) 0 0
  /\ cell_at (grid (engine Sample.acid_under_metal)) 0 0
     = Obj (Sample.plain "metal" 0 0)
  /\ Interactions.acid_metal 0 1 0 0 Sample.acid_under_metal
     = Ok false
          (with_cell 0 0
             (Obj (with_corrosion (Some (0 + 0.1)%float) (Sample.plain "metal" 0 0)))
             Sample.acid_under_metal).
Proof.
  assert (Hr : rectangular (engine Sample.acid_under_metal)).
  { split; [reflexivity|]. simpl. repeat constructor; discriminate. }
  assert (Hi : inside (engine Sample.acid_under_metal) 0 0).
  { unfold inside. simpl. lia. }
  assert (Hc : cell_at (grid (engine Sample.acid_under_metal)) 0 0
               = Obj (Sample.plain "metal" 0 0)) by reflexivity.
  split; [exact Hr|]. split; [exact Hi|]. split; [exact Hc|].
  exact (proj2 (acid_metal_invocation Sample.acid_under_metal 0 1 0 0
                  (Sample.plain "metal" 0 0) Hr Hi Hc)).
Defined.

(** Rounding at work: ten invocations leave the corrosion just below 1 and
    the metal in place; the eleventh removes it. *)
Example acid_metal_eleven_invocations :
  cell_at (grid (engine
             (Nat.iter 10 (Sample.after (Interactions.acid_metal 0 1 0 0))
                       Sample.acid_under_metal))) 0 0
  = Obj (with_corrosion (Some 0.99999999999999989%float)
                        (Sample.plain "metal" 0 0))
  /\ cell_at (grid (engine
                (Nat.iter 11 (Sample.after (Interactions.acid_metal 0 1 0 0))
                          Sample.acid_under_metal))) 0 0
     = Null.
Proof. vm_compute. split; reflexivity. Qed.

(** C9 as stated fails: in one tick the reaction runs once when the acid is
    processed and once more when the metal is processed (the pair is looked
    up in both orders), so the corrosion of the metal rises from nothing to
    0.1 + 0.1 in a single tick. *)
Lemma corrosion_rises_twice_in_one_tick :
  update Sample.keep_order Sample.acid_under_metal
  = Ok 2 (Sample.after (update Sample.keep_order) Sample.acid_under_metal)
  /\ cell_at (grid (engine Sample.acid_under_metal)) 0 0
     = Obj (Sample.plain "metal" 0 0)
  /\ cell_at (grid (engine (Sample.after (update Sample.keep_order)
                                         Sample.acid_under_metal))) 0 0
     = Obj (with_updated true
              (with_corrosion (Some (0.1 + 0.1)%float) (Sample.plain "metal" 0 0)))
  /\ (0.1 + 0.1 =? 0.1)%float = false.
Proof. vm_compute. repeat split; reflexivity. Qed.

(** ** Reactions before behaviour *)

Section ReactionFacts.

Implicit Types (w : World).



(** Reading a cell that [grid_get] could read. *)
Lemma grid_get_cell_at x y w c w' :
  grid_get x y w = Ok c w' -> w' = w /\ c = cell_at (grid (engine w)) x y.
Proof.
  unfold grid_get, cell_at. destruct (grid_row _ _); [|done].
  intros E. by simplify_eq.
Qed.


(** What one step of the scan does: it returns only when a reaction
    returned true, in the world that reaction left; it falls through when
    the offset has no neighbour, leaving the world alone, or when the
    reaction of the pair returned false. *)
Lemma interact_outcome x y d w r w' :
  Interactions.interact x y d w = Ok r w' ->
  match r with
  | Some b =>
      b = true /\ neighbour x y d w
      /\ Interactions.processInteraction x y (x + d.1) (y + d.2) w = Ok true w'
  | None =>
      (~ neighbour x y d w /\ w' = w)
      \/ (neighbour x y d w
          /\ Interactions.processInteraction x y (x + d.1) (y + d.2) w
             = Ok false w')
  end.
Proof.
  destruct d as [dx dy]. unfold Interactions.interact, neighbour. simpl.
  destruct ((dx =? 0) && (dy =? 0)) eqn:Hcentre.
  { unfold ret. intros E. simplify_eq. left. split; [|done].
    apply andb_true_iff in Hcentre as [Hx Hy].
    apply Z.eqb_eq in Hx, Hy. subst. by intros [? _]. }
  assert (Hoff : (dx, dy) ≠ (0, 0)).
  { intros [= -> ->]. done. }
  unfold bind at 1, this.
  destruct (inBounds _ _ _ _) eqn:Hin.
  2: { unfold ret. intros E. simplify_eq. left. split; [|done].
       intros (_ & Hi & _). apply inBounds_inside in Hi. congruence. }
  apply inBounds_inside in Hin.
  unfold bind at 1.
  destruct (grid_get (x + dx) (y + dy) w) as [c w0|] eqn:Hget; [|done].
  apply grid_get_cell_at in Hget as [-> ->].
  destruct (truthy _) eqn:Hcell.
  2: { unfold ret. intros E. simplify_eq. left. split; [|done].
       intros (_ & _ & Ht). congruence. }
  unfold bind.
  destruct (Interactions.processInteraction _ _ _ _ _) as [[|] w1|]; [| |done];
    unfold ret; intros E; simplify_eq.
  - done.
  - by right.
Qed.

Lemma interact_fired x y dx dy w b w' :
  Interactions.interact x y (dx, dy) w = Ok (Some b) w' ->
  b = true
  /\ Interactions.processInteraction x y (x + dx) (y + dy) w = Ok true w'.
Proof.
  intros H. apply interact_outcome in H as (Hb & _ & H). done.
Qed.




End ReactionFacts.




Section Preservation.

Context (I : World -> Prop).

Lemma preserves_ret {A} (a : A) : preserves I (ret a).
Proof. intros w a' w' H E. unfold ret in E. by simplify_eq. Qed.

Lemma preserves_throw {A} : preserves I (@throw A).
Proof. intros w a' w' H E. discriminate. Qed.

Lemma preserves_bind {A B} (m : M A) (k : A -> M B) :
  preserves I m -> (forall a, preserves I (k a)) -> preserves I (bind m k).
Proof.
  intros Hm Hk w b w' H E. unfold bind in E.
  destruct (m w) as [a w1|] eqn:Em; [|done].
  eapply Hk; [|exact E]. eapply Hm; [exact H|exact Em].
Qed.

Lemma preserves_for_each {A} (items : list A) body :
  (forall v, preserves I (body v)) -> preserves I (for_each items body).
Proof.
  intros Hb. induction items as [|v items IH]; simpl.
  - apply preserves_ret.
  - apply preserves_bind; [apply Hb|]. intros _. apply IH.
Qed.

Lemma preserves_for_acc {A S} (items : list A) (body : S -> A -> M S) :
  (forall s v, preserves I (body s v)) ->
  forall s, preserves I (for_acc items s body).
Proof.
  intros Hb. induction items as [|v items IH]; intros s; simpl.
  - apply preserves_ret.
  - apply preserves_bind; [apply Hb|]. intros s'. apply IH.
Qed.

Lemma preserves_for_return {A R} (items : list A) (body : A -> M (option R)) :
  (forall v, preserves I (body v)) -> preserves I (for_return items body).
Proof.
  intros Hb. induction items as [|v items IH]; simpl.
  - apply preserves_ret.
  - apply preserves_bind; [apply Hb|]. intros [r|]; [apply preserves_ret|apply IH].
Qed.

Lemma preserves_same_world {A} (m : M A) :
  (forall w a w', m w = Ok a w' -> w' = w) -> preserves I m.
Proof. intros Hm w a w' H E. by rewrite (Hm _ _ _ E). Qed.

End Preservation.

Create HintDb pres discriminated.

Ltac pres_step :=
  first
    [ solve [auto with pres nocore]
    | match goal with
      | |- preserves _ (ret _) => apply preserves_ret
      | |- preserves _ throw => apply preserves_throw
      | |- preserves _ skip => apply preserves_ret
      | |- preserves _ (bind _ _) => apply preserves_bind; [|intros ?]
      | |- preserves _ (for_each _ _) => apply preserves_for_each; intros ?
      | |- preserves _ (for_acc _ _ _) => apply preserves_for_acc; intros ? ?
      | |- preserves _ (for_return _ _) => apply preserves_for_return; intros ?
      | |- preserves _ (if ?b then _ else _) => destruct b
      | |- preserves _ (match ?x with _ => _ end) => destruct x
      end ].

Ltac pres := repeat pres_step.

Section FrameFacts.

Implicit Types (e : Engine) (w : World).

Lemma frame_refl e : frame e e.
Proof. by repeat split. Qed.

Lemma kept_engine e0 w w' : engine w' = engine w -> kept e0 w -> kept e0 w'.
Proof. unfold kept, sound, count_agrees. by intros ->. Qed.

Lemma grid_get_same x y w c w' : grid_get x y w = Ok c w' -> w' = w.
Proof. unfold grid_get. destruct (grid_row _ _); by intros; simplify_eq. Qed.

Lemma kept_this e0 : preserves (kept e0) this.
Proof. apply preserves_same_world. unfold this. by intros; simplify_eq. Qed.

Lemma kept_grid_get e0 x y : preserves (kept e0) (grid_get x y).
Proof. apply preserves_same_world, grid_get_same. Qed.

Lemma kept_Math_random e0 : preserves (kept e0) Math_random.
Proof.
  intros w a w' H E. unfold Math_random in E. simplify_eq.
  by apply (kept_engine e0 w).
Qed.

Lemma frame_with_cell e0 w x y c :
  frame e0 (engine w) -> frame e0 (engine (with_cell x y c w)).
Proof. done. Qed.

Lemma frame_mark e0 w x y :
  frame e0 (engine w) -> frame e0 (engine (on_engine (mark x y) w)).
Proof. done. Qed.

Lemma frame_counted e0 w d :
  frame e0 (engine w) -> frame e0 (engine (on_engine (counted d) w)).
Proof. done. Qed.

End FrameFacts.

Section FramedFacts.

Implicit Types (e : Engine) (w : World).

Variable e0 : Engine.

Lemma framed_this : preserves (framed e0) this.
Proof. apply preserves_same_world. unfold this. by intros; simplify_eq. Qed.

Lemma framed_grid_get x y : preserves (framed e0) (grid_get x y).
Proof. apply preserves_same_world, grid_get_same. Qed.

Lemma framed_grid_set x y c : preserves (framed e0) (grid_set x y c).
Proof.
  intros w a w' H E. unfold grid_set in E.
  destruct (grid_row _ _); by simplify_eq.
Qed.

Lemma framed_Math_random : preserves (framed e0) Math_random.
Proof. intros w a w' H E. unfold Math_random in E. by simplify_eq. Qed.

Lemma framed_markRegionActive x y : preserves (framed e0) (_markRegionActive x y).
Proof. intros w a w' H E. unfold _markRegionActive, modify in E. by simplify_eq. Qed.

Lemma framed_count d :
  preserves (framed e0) (modify (λ e, with_particleCount (particleCount e + d) e)).
Proof. intros w a w' H E. unfold modify in E. by simplify_eq. Qed.

Lemma framed_factory type x y : preserves (framed e0) (Particles.createParticle type x y).
Proof.
  intros w a w' H E.
  destruct (factory_runs type x y w) as (o & r & Hf & _).
  rewrite Hf in E. by simplify_eq.
Qed.

#[local] Hint Resolve framed_this framed_grid_get framed_grid_set
  framed_Math_random framed_markRegionActive framed_factory : pres.

Lemma framed_grid_obj x y : preserves (framed e0) (grid_obj x y).
Proof. unfold grid_obj. pres. Qed.

#[local] Hint Resolve framed_grid_obj : pres.

Lemma framed_grid_mutate x y f : preserves (framed e0) (grid_mutate x y f).
Proof. unfold grid_mutate. pres. Qed.

#[local] Hint Resolve framed_grid_mutate : pres.

Lemma framed_createParticle x y type : preserves (framed e0) (createParticle x y type).
Proof. unfold createParticle. pres; apply (framed_count 1). Qed.

Lemma framed_removeParticle x y : preserves (framed e0) (removeParticle x y).
Proof. unfold removeParticle. pres. apply (framed_count (-1)). Qed.

Lemma framed_moveParticle fromX fromY toX toY :
  preserves (framed e0) (moveParticle fromX fromY toX toY).
Proof. unfold moveParticle. pres. Qed.

Lemma framed_swapParticles x1 y1 x2 y2 :
  preserves (framed e0) (swapParticles x1 y1 x2 y2).
Proof. unfold swapParticles. pres. Qed.

Lemma framed_changeParticleType x y newType :
  preserves (framed e0) (changeParticleType x y newType).
Proof. unfold changeParticleType. pres. Qed.

End FramedFacts.

(** Whatever the grid primitives keep, the behaviours, the reactions and the
    scheduler keep: they change the engine through the primitives, through
    in-place changes of a particle and through the active-region set only. *)
Section Simulation.

Implicit Types (e : Engine) (w : World).

Variable I : World -> Prop.

Hypothesis I_engine : forall w w', engine w' = engine w -> I w -> I w'.
Hypothesis I_grid_mutate : forall x y f, preserves I (grid_mutate x y f).
Hypothesis I_active :
  forall f : Engine -> ActiveSet,
    preserves I (modify (λ e, with_activeRegions (f e) e)).
Hypothesis I_create : forall x y type, preserves I (createParticle x y type).
Hypothesis I_remove : forall x y, preserves I (removeParticle x y).
Hypothesis I_move :
  forall fromX fromY toX toY, preserves I (moveParticle fromX fromY toX toY).
Hypothesis I_swap : forall x1 y1 x2 y2, preserves I (swapParticles x1 y1 x2 y2).
Hypothesis I_change :
  forall x y newType, preserves I (changeParticleType x y newType).

Variable sort_at_random : list (Z * Z) -> M (list (Z * Z)).
Hypothesis sort_engine_only : engine_only sort_at_random.

Lemma keeps_this : preserves I this.
Proof. apply preserves_same_world. unfold this. by intros; simplify_eq. Qed.

Lemma keeps_grid_get x y : preserves I (grid_get x y).
Proof. apply preserves_same_world, grid_get_same. Qed.

Lemma keeps_Math_random : preserves I Math_random.
Proof.
  intros w a w' H E. unfold Math_random in E. simplify_eq.
  by apply (I_engine w).
Qed.

Lemma keeps_sort l : preserves I (sort_at_random l).
Proof.
  intros w a w' H E. apply (I_engine w); [|done]. by eapply sort_engine_only.
Qed.

#[local] Hint Resolve keeps_this keeps_grid_get keeps_Math_random keeps_sort
  I_grid_mutate I_active I_create I_remove I_move I_swap I_change : pres.

Lemma keeps_grid_obj x y : preserves I (grid_obj x y).
Proof. unfold grid_obj. pres. Qed.

Lemma keeps_randomInt lo hi : preserves I (Utils.randomInt lo hi).
Proof. unfold Utils.randomInt. pres. Qed.

Lemma keeps_randomElement {A} (array : list A) :
  preserves I (Utils.randomElement array).
Proof. unfold Utils.randomElement. pres. Qed.

Lemma keeps_random_direction : preserves I random_direction.
Proof. unfold random_direction. pres. Qed.

Lemma keeps_column_free tx ty : preserves I (column_free tx ty).
Proof. unfold column_free. pres. Qed.

Lemma keeps_neighbor_at nx ny : preserves I (neighbor_at nx ny).
Proof. unfold neighbor_at. pres. Qed.

Lemma keeps_empty_at nx ny : preserves I (empty_at nx ny).
Proof. unfold empty_at. pres. Qed.

Lemma keeps_lifespan_bounds el : preserves I (Particles.lifespan_bounds el).
Proof. unfold Particles.lifespan_bounds. pres. Qed.

#[local] Hint Resolve keeps_grid_obj keeps_randomInt keeps_randomElement
  keeps_random_direction keeps_column_free keeps_neighbor_at keeps_empty_at
  keeps_lifespan_bounds : pres.

Lemma keeps_fire_life : preserves I Interactions.fire_life.
Proof. unfold Interactions.fire_life. pres. Qed.

Lemma keeps_roll_above_free p x y :
  preserves I (Interactions.roll_above_free p x y).
Proof. unfold Interactions.roll_above_free. pres. Qed.

#[local] Hint Resolve keeps_fire_life keeps_roll_above_free : pres.

Lemma keeps_sand_diagonal self x y tx :
  preserves I (Behaviors.sand_diagonal self x y tx).
Proof. unfold Behaviors.sand_diagonal. pres. Qed.

#[local] Hint Resolve keeps_sand_diagonal : pres.

Lemma keeps_sand_update self x y : preserves I (Behaviors.sand_update self x y).
Proof. unfold Behaviors.sand_update. pres. Qed.

Lemma keeps_static_update x y : preserves I (Behaviors.static_update x y).
Proof. unfold Behaviors.static_update. pres. Qed.

Lemma keeps_water_update self x y : preserves I (Behaviors.water_update self x y).
Proof. unfold Behaviors.water_update. pres. Qed.

#[local] Hint Resolve keeps_water_update : pres.

Lemma keeps_oil_update self x y : preserves I (Behaviors.oil_update self x y).
Proof. unfold Behaviors.oil_update. pres. Qed.

Lemma keeps_acid_update self x y : preserves I (Behaviors.acid_update self x y).
Proof. unfold Behaviors.acid_update, Behaviors.acid_dissolve. pres. Qed.

Lemma keeps_steam_attempt self x y tx ty free :
  preserves I (Behaviors.steam_attempt self x y tx ty free).
Proof. unfold Behaviors.steam_attempt. pres. Qed.

#[local] Hint Resolve keeps_steam_attempt : pres.

Lemma keeps_steam_update self x y : preserves I (Behaviors.steam_update self x y).
Proof. unfold Behaviors.steam_update. pres. Qed.

#[local] Hint Resolve keeps_steam_update : pres.

Lemma keeps_smoke_update self x y : preserves I (Behaviors.smoke_update self x y).
Proof. unfold Behaviors.smoke_update. pres. Qed.

Lemma keeps_fire_update self x y : preserves I (Behaviors.fire_update self x y).
Proof. unfold Behaviors.fire_update, Behaviors.fire_spread. pres. Qed.

Lemma keeps_spark_update self x y : preserves I (Behaviors.spark_update self x y).
Proof. unfold Behaviors.spark_update, Behaviors.spark_scan. pres. Qed.

Lemma keeps_void_update self x y : preserves I (Behaviors.void_update self x y).
Proof. unfold Behaviors.void_update. pres. Qed.

Lemma keeps_source_update self x y :
  preserves I (Behaviors.source_update sort_at_random self x y).
Proof. unfold Behaviors.source_update. pres. Qed.

Lemma keeps_behave type x y : preserves I (behave sort_at_random type x y).
Proof.
  unfold behave, Behaviors.UPDATES. cbn [Particles.lookup].
  repeat (destruct (String.eqb _ type);
          [auto using keeps_sand_update, keeps_static_update, keeps_water_update,
             keeps_oil_update, keeps_acid_update, keeps_steam_update,
             keeps_smoke_update, keeps_fire_update, keeps_spark_update,
             keeps_void_update, keeps_source_update|]).
  apply preserves_ret.
Qed.

Lemma keeps_reaction name reaction x1 y1 x2 y2 :
  Particles.lookup Interactions.REACTIONS name = Some reaction ->
  preserves I (reaction x1 y1 x2 y2).
Proof.
  unfold Interactions.REACTIONS. cbn [Particles.lookup].
  repeat (destruct (String.eqb _ name);
          [intros; simplify_eq;
           unfold Interactions.water_fire, Interactions.oil_fire,
             Interactions.water_acid, Interactions.acid_metal,
             Interactions.acid_sand, Interactions.water_steam,
             Interactions.water_oil, Interactions.fire_wood,
             Interactions.spark_metal, Interactions.fire_oil,
             Interactions.spark_oil, Interactions.acid_wall,
             Interactions.steam_fire; by pres|]).
  done.
Qed.

Lemma keeps_processInteraction x1 y1 x2 y2 :
  preserves I (Interactions.processInteraction x1 y1 x2 y2).
Proof.
  unfold Interactions.processInteraction.
  apply preserves_bind; [auto with pres|].
  intros [| |p1]; try apply preserves_ret.
  apply preserves_bind; [auto with pres|].
  intros [| |p2]; try apply preserves_ret.
  cbv zeta.
  destruct (Particles.lookup Interactions.REACTIONS
              (Interactions.key (type p1) (type p2))) eqn:E1;
    [by eapply keeps_reaction|].
  destruct (Particles.lookup Interactions.REACTIONS
              (Interactions.key (type p2) (type p1))) eqn:E2;
    [by eapply keeps_reaction|].
  apply preserves_ret.
Qed.

#[local] Hint Resolve keeps_processInteraction : pres.

Lemma keeps_processParticleInteractions x y :
  preserves I (Interactions.processParticleInteractions x y).
Proof.
  unfold Interactions.processParticleInteractions, Interactions.interact. pres.
Qed.

#[local] Hint Resolve keeps_processParticleInteractions keeps_behave : pres.

Lemma keeps_process elementType particle x y t :
  preserves I (process sort_at_random elementType particle x y t).
Proof. unfold process. pres. Qed.

#[local] Hint Resolve keeps_process : pres.

Lemma keeps_visit t c : preserves I (visit sort_at_random t c).
Proof. unfold visit. pres. Qed.

Lemma keeps_reset_flags : preserves I reset_flags.
Proof. unfold reset_flags. pres. Qed.

Lemma keeps_shuffle coords : preserves I (shuffle coords).
Proof. unfold shuffle, shuffle_step. pres. Qed.

#[local] Hint Resolve keeps_shuffle keeps_visit keeps_reset_flags : pres.

Lemma keeps_updateOrder : preserves I updateOrder.
Proof.
  unfold updateOrder, _getBottomToTopOrder, _getTopToBottomOrder,
    _getLeftToRightOrder, _getRightToLeftOrder, _getRandomOrder.
  pres.
Qed.

#[local] Hint Resolve keeps_updateOrder : pres.

(** The tick up to the increment of the counter. *)
Lemma keeps_tick :
  preserves I
    (reset_flags;;
     order ← updateOrder;
     t ← for_acc order (mkTick [] 0) (visit sort_at_random);
     modify (λ e, with_activeRegions
                    (fold_left (λ s region, set_add region s)
                               (newActiveRegions t) (activeRegions e)) e);;
     ret t).
Proof. pres. Qed.

End Simulation.

Section KeptFacts.

Implicit Types (e : Engine) (w : World).

Variable e0 : Engine.

Lemma grid_get_obj_inside w x y p w' :
  rectangular (engine w) -> grid_get x y w = Ok (Obj p) w' ->
  inside (engine w) x y /\ cell_at (grid (engine w)) x y = Obj p.
Proof.
  intros [Hl Hrows] E. unfold grid_get in E. unfold cell_at.
  destruct (grid_row (grid (engine w)) y) as [r|] eqn:Er; [|done].
  simplify_eq. unfold grid_row in Er.
  destruct (y <? 0) eqn:Ey; [done|]. apply Z.ltb_ge in Ey.
  pose proof (lookup_lt_Some _ _ _ Er) as Hy.
  rewrite Forall_lookup in Hrows.
  destruct (Hrows _ _ Er) as [Hw _].
  unfold row_get in *. destruct (x <? 0) eqn:Ex; [done|]. apply Z.ltb_ge in Ex.
  destruct (r !! Z.to_nat x) as [c|] eqn:Ec; [|done].
  pose proof (lookup_lt_Some _ _ _ Ec) as Hx.
  split; [|done]. unfold inside. lia.
Qed.

Lemma kept_grid_mutate x y f : preserves (kept e0) (grid_mutate x y f).
Proof.
  intros w a w' [Hs Hf] E. pose proof Hs as [Hr _].
  unfold grid_mutate, grid_obj, bind in E.
  destruct (grid_get x y w) as [c w1|] eqn:Eg; [|done].
  pose proof (grid_get_same _ _ _ _ _ Eg) as ->.
  destruct c as [| |p]; try done. unfold ret in E.
  destruct (grid_get_obj_inside _ _ _ _ _ Hr Eg) as [Hin Hc].
  rewrite grid_set_inside in E by done. simplify_eq.
  split; [|done]. apply with_cell_sound; [done..|by rewrite Hc].
Qed.

Lemma kept_markRegionActive x y : preserves (kept e0) (_markRegionActive x y).
Proof.
  intros w a w' [Hs Hf] E. rewrite _markRegionActive_runs in E. simplify_eq.
  split; [by apply mark_sound|done].
Qed.

Lemma kept_createParticle x y type : preserves (kept e0) (createParticle x y type).
Proof.
  intros w a w' [Hs Hf] E. split.
  - by eapply createParticle_sound.
  - by eapply (framed_createParticle e0).
Qed.

Lemma kept_removeParticle x y : preserves (kept e0) (removeParticle x y).
Proof.
  intros w a w' [Hs Hf] E. split.
  - by eapply removeParticle_sound.
  - by eapply (framed_removeParticle e0).
Qed.

Lemma kept_moveParticle fromX fromY toX toY :
  preserves (kept e0) (moveParticle fromX fromY toX toY).
Proof.
  intros w a w' [Hs Hf] E. split.
  - by eapply moveParticle_sound.
  - by eapply (framed_moveParticle e0).
Qed.

Lemma kept_swapParticles x1 y1 x2 y2 :
  preserves (kept e0) (swapParticles x1 y1 x2 y2).
Proof.
  intros w a w' [Hs Hf] E. split.
  - by eapply swapParticles_sound.
  - by eapply (framed_swapParticles e0).
Qed.

Lemma kept_changeParticleType x y newType :
  preserves (kept e0) (changeParticleType x y newType).
Proof.
  intros w a w' [Hs Hf] E. split.
  - by eapply changeParticleType_sound.
  - by eapply (framed_changeParticleType e0).
Qed.

Lemma kept_activeRegions (f : Engine -> ActiveSet) :
  preserves (kept e0) (modify (λ e, with_activeRegions (f e) e)).
Proof.
  intros w a w' [[[Hl Hrows] Hc] Hf] E. unfold modify in E. simplify_eq.
  exact (conj (conj (conj Hl Hrows) Hc) Hf).
Qed.

Lemma framed_activeRegions (f : Engine -> ActiveSet) :
  preserves (framed e0) (modify (λ e, with_activeRegions (f e) e)).
Proof. intros w a w' H E. unfold modify in E. by simplify_eq. Qed.

Lemma framed_engine w w' : engine w' = engine w -> framed e0 w -> framed e0 w'.
Proof. unfold framed. by intros ->. Qed.

(** A tick, up to the increment of its counter, keeps the engine invariant
    and the frame. *)
Lemma tick_kept sort_at_random :
  engine_only sort_at_random ->
  preserves (kept e0)
    (reset_flags;;
     order ← updateOrder;
     t ← for_acc order (mkTick [] 0) (visit sort_at_random);
     modify (λ e, with_activeRegions
                    (fold_left (λ s region, set_add region s)
                               (newActiveRegions t) (activeRegions e)) e);;
     ret t).
Proof.
  intros Hsort.
  apply keeps_tick;
    [ apply kept_engine | apply kept_grid_mutate | apply kept_activeRegions
    | apply kept_createParticle | apply kept_removeParticle
    | apply kept_moveParticle | apply kept_swapParticles
    | apply kept_changeParticleType | exact Hsort ].
Qed.

Lemma tick_framed sort_at_random :
  engine_only sort_at_random ->
  preserves (framed e0)
    (reset_flags;;
     order ← updateOrder;
     t ← for_acc order (mkTick [] 0) (visit sort_at_random);
     modify (λ e, with_activeRegions
                    (fold_left (λ s region, set_add region s)
                               (newActiveRegions t) (activeRegions e)) e);;
     ret t).
Proof.
  intros Hsort.
  apply keeps_tick;
    [ apply framed_engine | apply framed_grid_mutate | apply framed_activeRegions
    | apply framed_createParticle | apply framed_removeParticle
    | apply framed_moveParticle | apply framed_swapParticles
    | apply framed_changeParticleType | exact Hsort ].
Qed.

End KeptFacts.

(** [update] is the tick followed by the increment of the counter. *)
Lemma update_tick sort_at_random w :
  active (engine w) = true ->
  update sort_at_random w
  = (t ← (reset_flags;;
          order ← updateOrder;
          t ← for_acc order (mkTick [] 0) (visit sort_at_random);
          modify (λ e, with_activeRegions
                         (fold_left (λ s region, set_add region s)
                                    (newActiveRegions t) (activeRegions e)) e);;
          ret t);
     modify (λ e, with_updateCount (updateCount e + 1) e);;
     ret (updatedCount t)) w.
Proof.
  intros Ha. unfold update, bind at 1, this. rewrite Ha. simpl.
  unfold bind. destruct (reset_flags w) as [[] w1|]; [|done].
  destruct (updateOrder w1) as [order w2|]; [|done].
  by destruct (for_acc order _ _ w2) as [t w3|].
Qed.

Section TickOutcome.

Implicit Types (e : Engine) (w : World).

Lemma update_paused sort_at_random w n w' :
  active (engine w) = false -> update sort_at_random w = Ok n w' -> w' = w.
Proof.
  intros Ha E. unfold update, bind, this in E. rewrite Ha in E.
  unfold ret in E. simpl in E. by simplify_eq.
Qed.

Lemma update_sound sort_at_random w n w' :
  engine_only sort_at_random ->
  sound w ->
  update sort_at_random w = Ok n w' ->
  sound w'.
Proof.
  intros Hsort Hs E. destruct (active (engine w)) eqn:Ha.
  - rewrite update_tick in E by done. unfold bind at 1 in E.
    match type of E with
    | match ?m w with _ => _ end = _ => destruct (m w) as [t w1|] eqn:Et; [|done]
    end.
    destruct (tick_kept (engine w) _ Hsort w t w1) as [[[Hl Hrows] Hc] _];
      [split; [done|apply frame_refl]|exact Et|].
    unfold bind, modify, ret in E. simplify_eq.
    exact (conj (conj Hl Hrows) Hc).
  - by rewrite (update_paused _ _ _ _ Ha E).
Qed.

Lemma update_frame sort_at_random w n w' :
  engine_only sort_at_random ->
  update sort_at_random w = Ok n w' ->
  frame (with_updateCount
           (updateCount (engine w) + (if active (engine w) then 1 else 0))
           (engine w))
        (engine w').
Proof.
  intros Hsort E. destruct (active (engine w)) eqn:Ha.
  - rewrite update_tick in E by done. unfold bind at 1 in E.
    match type of E with
    | match ?m w with _ => _ end = _ => destruct (m w) as [t w1|] eqn:Et; [|done]
    end.
    pose proof (tick_framed (engine w) _ Hsort w t w1 (frame_refl _) Et) as Hf.
    unfold framed, frame in Hf.
    unfold bind, modify, ret in E. simplify_eq. unfold frame. simpl.
    destruct Hf as (-> & -> & -> & -> & -> & -> & -> & -> & -> & ->).
    by rewrite Ha.
  - rewrite (update_paused _ _ _ _ Ha E). unfold frame. simpl.
    rewrite Ha. repeat split; lia.
Qed.

End TickOutcome.

Section HistorySteps.

Implicit Types (e : Engine) (w : World) (s : Snapshot).

Lemma this_same w e w' : this w = Ok e w' -> w' = w.
Proof. unfold this. by intros; simplify_eq. Qed.

Lemma exportCompressedState_same w s w' :
  exportCompressedState w = Ok s w' -> w' = w.
Proof.
  assert (H : preserves (λ w1, w1 = w) exportCompressedState).
  { unfold exportCompressedState.
    pose proof (preserves_same_world (λ w1, w1 = w) this this_same).
    pose proof (λ x y, preserves_same_world (λ w1, w1 = w)
                         (grid_get x y) (grid_get_same x y)).
    pres. }
  intros E. by apply (H w s w').
Qed.

Lemma frame_trans e1 e2 e3 : frame e1 e2 -> frame e2 e3 -> frame e1 e3.
Proof.
  unfold frame.
  intros (-> & -> & -> & -> & -> & -> & -> & -> & -> & ->); done.
Qed.

Lemma framed_modify e0 (f : Engine -> Engine) :
  (forall e, frame e (f e)) -> preserves (framed e0) (modify f).
Proof.
  intros Hf w a w' H E. unfold modify in E. simplify_eq.
  by eapply frame_trans.
Qed.

Lemma framed_importCompressedState e0 s :
  preserves (framed e0) (importCompressedState s).
Proof.
  unfold importCompressedState.
  pose proof (framed_grid_set e0). pose proof (framed_markRegionActive e0).
  pres; by apply framed_modify.
Qed.

(** What [createParticle] and [removeParticle] do to the counter. *)
Lemma createParticle_count x y type w b w' :
  sound w -> createParticle x y type w = Ok b w' ->
  particleCount (engine w')
  = particleCount (engine w) + (if b then 1 else 0).
Proof.
  intros [Hr Hc] H. destruct (outside (engine w) x y) eqn:Ho.
  - unfold createParticle, bind, this in H. rewrite Ho in H.
    unfold ret in H. simplify_eq. lia.
  - apply inside_or_outside in Ho.
    rewrite createParticle_inside in H by done.
    destruct (truthy (cell_at (grid (engine w)) x y)) eqn:Ht;
      [simplify_eq; lia|].
    destruct (factory_runs type x y w) as (o & r & Hf & _). rewrite Hf in H.
    destruct o as [p|]; simplify_eq; simpl; lia.
Qed.

Lemma removeParticle_count x y w b w' :
  sound w -> removeParticle x y w = Ok b w' ->
  particleCount (engine w')
  = particleCount (engine w) - (if b then 1 else 0).
Proof.
  intros [Hr Hc] H. destruct (outside (engine w) x y) eqn:Ho.
  - unfold removeParticle, bind, this in H. rewrite Ho in H.
    unfold ret in H. simplify_eq. lia.
  - apply inside_or_outside in Ho.
    rewrite removeParticle_inside in H by done.
    destruct (truthy (cell_at (grid (engine w)) x y)) eqn:Ht;
      simplify_eq; simpl; lia.
Qed.

(** The loops of [drawElements] and [eraseElements] run to their end, keep
    the engine invariant and the frame, and count what they did. *)
Lemma draw_loop type (points : list (Z * Z)) :
  forall count w,
    sound w ->
    exists n w',
      for_acc points count
        (λ count '(x, y),
           created ← createParticle x y type;
           ret (if created then count + 1 else count)) w = Ok n w'
      /\ kept (engine w) w'
      /\ particleCount (engine w') - particleCount (engine w) = n - count
      /\ count <= n <= count + Z.of_nat (length points).
Proof.
  induction points as [|[x y] points IH]; intros count w Hs.
  - exists count, w. simpl. unfold ret. split; [done|].
    split; [split; [done|apply frame_refl]|]. lia.
  - destruct (createParticle_runs x y type w Hs) as (b & w1 & E).
    pose proof (kept_createParticle (engine w) x y type w b w1
                  (conj Hs (frame_refl _)) E) as [Hs1 Hf1].
    pose proof (createParticle_count _ _ _ _ _ _ Hs E) as Hn.
    destruct (IH (if b then count + 1 else count) w1 Hs1)
      as (n & w' & E' & [Hs' Hf'] & Hd & Hb).
    exists n, w'. cbn [for_acc]. unfold bind at 1. unfold bind at 1.
    rewrite E. unfold ret at 1. split; [exact E'|].
    split; [split; [done|by eapply frame_trans]|].
    simpl length. destruct b; lia.
Qed.

Lemma erase_loop (points : list (Z * Z)) :
  forall count w,
    sound w ->
    exists n w',
      for_acc points count
        (λ count '(x, y),
           removed ← removeParticle x y;
           ret (if removed then count + 1 else count)) w = Ok n w'
      /\ kept (engine w) w'
      /\ particleCount (engine w) - particleCount (engine w') = n - count
      /\ count <= n <= count + Z.of_nat (length points).
Proof.
  induction points as [|[x y] points IH]; intros count w Hs.
  - exists count, w. simpl. unfold ret. split; [done|].
    split; [split; [done|apply frame_refl]|]. lia.
  - destruct (removeParticle_runs x y w Hs) as (b & w1 & E).
    pose proof (kept_removeParticle (engine w) x y w b w1
                  (conj Hs (frame_refl _)) E) as [Hs1 Hf1].
    pose proof (removeParticle_count _ _ _ _ _ Hs E) as Hn.
    destruct (IH (if b then count + 1 else count) w1 Hs1)
      as (n & w' & E' & [Hs' Hf'] & Hd & Hb).
    exists n, w'. cbn [for_acc]. unfold bind at 1. unfold bind at 1.
    rewrite E. unfold ret at 1. split; [exact E'|].
    split; [split; [done|by eapply frame_trans]|].
    simpl length. destruct b; lia.
Qed.

End HistorySteps.

Section SnapshotRestore.

Implicit Types (e : Engine) (w : World) (s : Snapshot) (g : list (list Cell)).

Lemma count_row_ext (r r' : list Cell) :
  length r = length r' ->
  (forall j c c', r !! j = Some c -> r' !! j = Some c' -> occupied c = occupied c') ->
  count_row r = count_row r'.
Proof.
  revert r'. induction r as [|c r IH]; intros [|c' r'] Hl Hc; try done.
  simpl in *. rewrite (Hc 0%nat c c') by done.
  rewrite (IH r'); [done|lia|]. intros j. apply (Hc (S j)).
Qed.

Lemma count_cells_ext g g' :
  length g = length g' ->
  (forall i r r', g !! i = Some r -> g' !! i = Some r' -> count_row r = count_row r') ->
  count_cells g = count_cells g'.
Proof.
  revert g'. induction g as [|r g IH]; intros [|r' g'] Hl Hc; try done.
  simpl in *. rewrite (Hc 0%nat r r') by done.
  rewrite (IH g'); [done|lia|]. intros i. apply (Hc (S i)).
Qed.

Lemma cell_at_lookup g (i j : nat) r c :
  g !! i = Some r -> r !! j = Some c ->
  cell_at g (Z.of_nat j) (Z.of_nat i) = c.
Proof.
  intros Hr Hc. unfold cell_at, grid_row, row_get.
  destruct (Z.ltb_spec (Z.of_nat i) 0); [lia|]. rewrite Nat2Z.id, Hr.
  destruct (Z.ltb_spec (Z.of_nat j) 0); [lia|]. by rewrite Nat2Z.id, Hc.
Qed.

(** Two grids of the engine's size with the same cells occupied hold the
    same number of particles. *)
Lemma count_cells_cellwise e g g' :
  rectangular (with_grid g e) -> rectangular (with_grid g' e) ->
  (forall x y, inside e x y ->
     occupied (cell_at g x y) = occupied (cell_at g' x y)) ->
  count_cells g = count_cells g'.
Proof.
  intros [Hl Hrows] [Hl' Hrows'] Hc. simpl in *.
  rewrite Forall_lookup in Hrows. rewrite Forall_lookup in Hrows'.
  apply count_cells_ext; [congruence|].
  intros i r r' Hr Hr'.
  destruct (Hrows _ _ Hr) as [Hw _]. destruct (Hrows' _ _ Hr') as [Hw' _].
  apply count_row_ext; [congruence|].
  intros j c c' Hj Hj'.
  rewrite <- (cell_at_lookup g i j r c) by done.
  rewrite <- (cell_at_lookup g' i j r' c') by done.
  apply Hc. unfold inside.
  pose proof (lookup_lt_Some _ _ _ Hr). pose proof (lookup_lt_Some _ _ _ Hj).
  lia.
Qed.

(** The cell a snapshot of [g] restores at [(x, y)]. *)
Lemma round_trip_cell_snap g x y :
  cell_at g x y ≠ Undefined ->
  match snap_at g x y with
  | Some q => Obj (restored q)
  | None => Null
  end = round_trip_cell x y (cell_at g x y).
Proof. unfold snap_at. by destruct (cell_at g x y). Qed.

Lemma rng_importCompressedState (r : Rng) s :
  preserves (λ w, rng w = r) (importCompressedState s).
Proof.
  assert (Hm : forall f, preserves (λ w, rng w = r) (modify f)).
  { intros f w a w' H E. unfold modify in E. by simplify_eq. }
  assert (Hg : forall x y c, preserves (λ w, rng w = r) (grid_set x y c)).
  { intros x y c w a w' H E. unfold grid_set in E.
    destruct (grid_row _ _); by simplify_eq. }
  unfold importCompressedState, _markRegionActive. pres.
Qed.

(** Importing a snapshot taken of a grid [g] of the engine's size: the grid
    is rebuilt cell by cell, the counter is the snapshot's, the active set is
    recomputed and nothing else changes. *)
Lemma importCompressedState_snapshot w g n :
  rectangular (with_grid g (engine w)) ->
  exists w',
    importCompressedState (snapshot_of (engine w) g n) w = Ok tt w'
    /\ rectangular (engine w')
    /\ frame (engine w) (engine w')
    /\ particleCount (engine w') = n
    /\ rng w' = rng w
    /\ forall x y, inside (engine w) x y ->
         cell_at (grid (engine w')) x y = round_trip_cell x y (cell_at g x y).
Proof.
  intros Hg.
  pose (w0 := on_engine (with_activeRegions [])
                (on_engine (with_particleCount n)
                   (on_engine (with_grid (_createGrid (width (engine w))
                                                      (height (engine w)))) w))).
  assert (Himport :
            importCompressedState (snapshot_of (engine w) g n) w
            = for_each (snapshot_list (width (engine w)) (height (engine w)) g)
                (λ p, grid_set (sx p) (sy p) (Obj (restored p));;
                      _markRegionActive (sx p) (sy p)) w0).
  { by unfold importCompressedState, bind, modify, w0, on_engine. }
  rewrite Himport.
  destruct (import_loop
              (snapshot_list (width (engine w)) (height (engine w)) g) w0)
    as (w' & Hrun & Hr' & Hw & Hh & Hn & Hcells).
  { apply (rectangular_createGrid (engine w)). }
  { apply (snapshot_list_inside (with_grid g (engine w))). }
  exists w'. split; [exact Hrun|]. split; [done|].
  assert (Hf : framed (engine w) w' /\ rng w' = rng w).
  { rewrite <- Himport in Hrun. split.
    - exact (framed_importCompressedState (engine w) _ w tt w' (frame_refl _) Hrun).
    - exact (rng_importCompressedState (rng w) _ w tt w' eq_refl Hrun). }
  destruct Hf as [Hf Hrng].
  split; [exact Hf|]. split; [exact Hn|]. split; [exact Hrng|].
  intros x y Hi. rewrite Hcells, placed_snapshot_list.
  rewrite bool_decide_true by exact Hi.
  pose proof (cell_at_defined (with_grid g (engine w)) x y Hg Hi) as Hdef.
  simpl in Hdef.
  unfold snap_at. destruct (cell_at g x y) as [| |p]; [done| |done].
  simpl. apply cell_at_createGrid; apply Hi.
Qed.

End SnapshotRestore.

Section UndoRedo.

Implicit Types (e : Engine) (w : World) (s : Snapshot) (g : list (list Cell)).

Lemma pop_push {A} (l : list A) (v : A) : pop (push v l) = Some (v, l).
Proof. unfold pop, push. by rewrite last_snoc, removelast_last. Qed.

Lemma push_nonempty {A} (l : list A) (v : A) :
  (Z.of_nat (length (l ++ [v])) =? 0) = false.
Proof. rewrite length_app. simpl. apply Z.eqb_neq. lia. Qed.

(** [undo] with a snapshot of a grid of the engine's size on top of the undo
    stack. *)
Lemma undo_runs w rest g n :
  rectangular (engine w) ->
  rectangular (with_grid g (engine w)) ->
  undoStack (engine w) = rest ++ [snapshot_of (engine w) g n] ->
  exists w',
    undo w = Ok true w'
    /\ rectangular (engine w')
    /\ width (engine w') = width (engine w)
    /\ height (engine w') = height (engine w)
    /\ maxUndoSteps (engine w') = maxUndoSteps (engine w)
    /\ undoStack (engine w') = rest
    /\ redoStack (engine w')
       = redoStack (engine w)
         ++ [snapshot_of (engine w) (grid (engine w)) (particleCount (engine w))]
    /\ particleCount (engine w') = n
    /\ forall x y, inside (engine w) x y ->
         cell_at (grid (engine w')) x y = round_trip_cell x y (cell_at g x y).
Proof.
  intros Hr Hg Hstack.
  pose (current := snapshot_of (engine w) (grid (engine w)) (particleCount (engine w))).
  pose (w2 := on_engine (λ e, with_skipNextUndo true
                                (with_undoStack rest
                                   (with_redoStack (push current (redoStack e)) e))) w).
  assert (Hundo : undo w = (importCompressedState (snapshot_of (engine w2) g n);;
                            ret true) w2).
  { unfold undo, bind at 1, this. rewrite Hstack, push_nonempty.
    unfold bind at 1. rewrite exportCompressedState_runs by done.
    unfold bind at 1, modify. unfold bind at 1, this. simpl.
    rewrite Hstack. fold (push (snapshot_of (engine w) g n) rest).
    rewrite pop_push. reflexivity. }
  destruct (importCompressedState_snapshot w2 g n) as
    (w' & Hrun & Hr' & Hf & Hn & _ & Hcells); [exact Hg|].
  exists w'. rewrite Hundo. unfold bind. rewrite Hrun. unfold ret.
  destruct Hf as (Hw & Hh & _ & _ & _ & _ & Hu & Hre & Hm & _).
  split; [done|]. split; [done|].
  repeat (split; [done|]). exact Hcells.
Qed.

(** [redo] with a snapshot of a grid of the engine's size on top of the redo
    stack. *)
Lemma redo_runs w rest g n :
  rectangular (engine w) ->
  rectangular (with_grid g (engine w)) ->
  redoStack (engine w) = rest ++ [snapshot_of (engine w) g n] ->
  exists w',
    redo w = Ok true w'
    /\ rectangular (engine w')
    /\ width (engine w') = width (engine w)
    /\ height (engine w') = height (engine w)
    /\ maxUndoSteps (engine w') = maxUndoSteps (engine w)
    /\ redoStack (engine w') = rest
    /\ undoStack (engine w')
       = undoStack (engine w)
         ++ [snapshot_of (engine w) (grid (engine w)) (particleCount (engine w))]
    /\ particleCount (engine w') = n
    /\ forall x y, inside (engine w) x y ->
         cell_at (grid (engine w')) x y = round_trip_cell x y (cell_at g x y).
Proof.
  intros Hr Hg Hstack.
  pose (current := snapshot_of (engine w) (grid (engine w)) (particleCount (engine w))).
  pose (w2 := on_engine (λ e, with_skipNextUndo true
                                (with_redoStack rest
                                   (with_undoStack (push current (undoStack e)) e))) w).
  assert (Hredo : redo w = (importCompressedState (snapshot_of (engine w2) g n);;
                            ret true) w2).
  { unfold redo, bind at 1, this. rewrite Hstack, push_nonempty.
    unfold bind at 1. rewrite exportCompressedState_runs by done.
    unfold bind at 1, modify. unfold bind at 1, this. simpl.
    rewrite Hstack. fold (push (snapshot_of (engine w) g n) rest).
    rewrite pop_push. reflexivity. }
  destruct (importCompressedState_snapshot w2 g n) as
    (w' & Hrun & Hr' & Hf & Hn & _ & Hcells); [exact Hg|].
  exists w'. rewrite Hredo. unfold bind. rewrite Hrun. unfold ret.
  destruct Hf as (Hw & Hh & _ & _ & _ & _ & Hu & Hre & Hm & _).
  split; [done|]. split; [done|].
  repeat (split; [done|]). exact Hcells.
Qed.

End UndoRedo.

Section EditFacts.

Implicit Types (e : Engine) (w : World) (s : Snapshot) (g : list (list Cell)).

Lemma rectangular_dims e e' g :
  width e' = width e -> height e' = height e ->
  rectangular (with_grid g e) -> rectangular (with_grid g e').
Proof. unfold rectangular. simpl. by intros -> ->. Qed.

Lemma rectangular_with_grid e : rectangular e -> rectangular (with_grid (grid e) e).
Proof. done. Qed.

Lemma snapshot_of_dims e e' g n :
  width e' = width e -> height e' = height e ->
  snapshot_of e' g n = snapshot_of e g n.
Proof. unfold snapshot_of. by intros -> ->. Qed.

(** The stack [_saveUndoState] leaves ends with the snapshot just taken, as
    long as the bound on the history is at least one. *)
Lemma trimmed_push (l : list Snapshot) s (limit : Z) :
  1 <= limit ->
  exists rest,
    (if Z.of_nat (length (push s l)) >? limit then shift (push s l) else push s l)
    = rest ++ [s]
    /\ (length rest <= length l)%nat.
Proof.
  intros Hlimit. unfold push, shift.
  destruct (Z.of_nat (length (l ++ [s])) >? limit) eqn:E.
  - rewrite Z.gtb_ltb in E. apply Z.ltb_lt in E.
    rewrite length_app in E. simpl in E.
    destruct l as [|a l]; [simpl in E; lia|].
    exists l. simpl. split; [done|lia].
  - by exists l.
Qed.

(** [_saveUndoState] while the skip flag is down, on a world that satisfies
    the engine invariant. *)
Lemma _saveUndoState_saves w :
  sound w -> _skipNextUndo (engine w) = false -> 1 <= maxUndoSteps (engine w) ->
  exists rest w0,
    _saveUndoState w = Ok tt w0
    /\ sound w0
    /\ width (engine w0) = width (engine w)
    /\ height (engine w0) = height (engine w)
    /\ grid (engine w0) = grid (engine w)
    /\ particleCount (engine w0) = particleCount (engine w)
    /\ maxUndoSteps (engine w0) = maxUndoSteps (engine w)
    /\ redoStack (engine w0) = []
    /\ undoStack (engine w0)
       = rest ++ [snapshot_of (engine w) (grid (engine w)) (particleCount (engine w))]
    /\ (length rest <= length (undoStack (engine w)))%nat.
Proof.
  intros [Hr Hc] Hskip Hlimit.
  rewrite _saveUndoState_records by done.
  destruct (trimmed_push (undoStack (engine w))
              (snapshot_of (engine w) (grid (engine w)) (particleCount (engine w)))
              (maxUndoSteps (engine w)) Hlimit) as (rest & Hrest & Hlen).
  exists rest. eexists. split; [reflexivity|].
  split; [exact (conj Hr Hc)|]. by repeat (split; [done|]).
Qed.

(** After an edit whose first step saved the state, [undo] brings the grid
    and the counter back. *)
Lemma undo_after_save w rest w0 w1 :
  sound w ->
  undoStack (engine w0)
  = rest ++ [snapshot_of (engine w) (grid (engine w)) (particleCount (engine w))] ->
  width (engine w0) = width (engine w) ->
  height (engine w0) = height (engine w) ->
  kept (engine w0) w1 ->
  exists w2,
    undo w1 = Ok true w2
    /\ rectangular (engine w2)
    /\ undoStack (engine w2) = rest
    /\ redoStack (engine w2)
       = redoStack (engine w0)
         ++ [snapshot_of (engine w1) (grid (engine w1)) (particleCount (engine w1))]
    /\ particleCount (engine w2) = particleCount (engine w)
    /\ forall x y, inside (engine w) x y ->
         cell_at (grid (engine w2)) x y
         = round_trip_cell x y (cell_at (grid (engine w)) x y).
Proof.
  intros [Hr Hc] Hstack Hw Hh [[Hr1 Hc1] Hf].
  destruct Hf as (Hw1 & Hh1 & _ & _ & _ & _ & Hu & Hre & _).
  destruct (undo_runs w1 rest (grid (engine w)) (particleCount (engine w)))
    as (w2 & E & Hr2 & _ & _ & _ & Hu2 & Hre2 & Hn & Hcells).
  - exact Hr1.
  - apply (rectangular_dims (engine w)); [congruence..|exact Hr].
  - rewrite Hu, Hstack. f_equal. f_equal. symmetry.
    apply snapshot_of_dims; congruence.
  - exists w2. split; [exact E|]. split; [exact Hr2|]. split; [exact Hu2|].
    split; [by rewrite Hre2, Hre|]. split; [exact Hn|].
    intros x y Hi. apply Hcells. unfold inside in *. by rewrite Hw1, Hh1, Hw, Hh.
Qed.

End EditFacts.

Section SessionFacts.

Implicit Types (e : Engine) (w : World) (s : Snapshot) (g : list (list Cell)).

Lemma snapshot_ok_dims e e' s :
  width e' = width e -> height e' = height e ->
  snapshot_ok e s -> snapshot_ok e' s.
Proof.
  intros Hw Hh (g & Hg & ->). exists g. split.
  - by apply (rectangular_dims e).
  - symmetry. by apply snapshot_of_dims.
Qed.

Lemma snapshot_ok_current w :
  sound w ->
  snapshot_ok (engine w)
    (snapshot_of (engine w) (grid (engine w)) (particleCount (engine w))).
Proof.
  intros [Hr Hc]. exists (grid (engine w)). split; [exact Hr|].
  unfold count_agrees in Hc. by rewrite Hc.
Qed.

(** A world that differs from a healthy one only inside the frame. *)
Lemma healthy_kept w w' :
  healthy w -> kept (engine w) w' -> healthy w'.
Proof.
  intros (Hs & Hb & Hok) [Hs' Hf].
  destruct Hf as (Hw & Hh & _ & _ & _ & _ & Hu & Hre & Hm & _).
  split; [exact Hs'|]. split.
  - unfold history_bounded. by rewrite Hu, Hre, Hm.
  - rewrite Hu, Hre. eapply Forall_impl; [exact Hok|].
    intros s. by apply snapshot_ok_dims.
Qed.

Lemma primitive_step_framed w w' :
  primitive_step w w' -> frame (engine w) (engine w').
Proof.
  intros [x y type b E|x y b E|fromX fromY toX toY b E|x1 y1 x2 y2 b E
          |x y newType b E].
  - exact (framed_createParticle _ _ _ _ _ _ _ (frame_refl _) E).
  - exact (framed_removeParticle _ _ _ _ _ _ (frame_refl _) E).
  - exact (framed_moveParticle _ _ _ _ _ _ _ _ (frame_refl _) E).
  - exact (framed_swapParticles _ _ _ _ _ _ _ _ (frame_refl _) E).
  - exact (framed_changeParticleType _ _ _ _ _ _ _ (frame_refl _) E).
Qed.

(** [_saveUndoState] keeps a healthy world healthy and leaves the grid, its
    size and the counter alone. *)
Lemma _saveUndoState_healthy w w0 :
  healthy w -> _saveUndoState w = Ok tt w0 ->
  healthy w0
  /\ width (engine w0) = width (engine w)
  /\ height (engine w0) = height (engine w)
  /\ grid (engine w0) = grid (engine w)
  /\ particleCount (engine w0) = particleCount (engine w)
  /\ maxUndoSteps (engine w0) = maxUndoSteps (engine w).
Proof.
  intros (Hs & Hb & Hok) E. pose proof Hs as [Hr Hc].
  destruct (_skipNextUndo (engine w)) eqn:Hskip.
  - rewrite _saveUndoState_skips in E by done. simplify_eq.
    split; [|done]. split; [exact (conj Hr Hc)|]. by split.
  - rewrite _saveUndoState_records in E by done. simplify_eq.
    split; [|done]. split; [exact (conj Hr Hc)|].
    unfold history_bounded in *. simpl.
    apply Forall_app in Hok as [Hu _].
    assert (Hpushed :
              Forall (snapshot_ok (engine w))
                (push (mkSnapshot
                         (snapshot_list (width (engine w)) (height (engine w))
                                        (grid (engine w)))
                         (width (engine w)) (height (engine w))
                         (particleCount (engine w)))
                      (undoStack (engine w)))).
    { apply Forall_app. split; [exact Hu|].
      apply Forall_cons. split; [|apply Forall_nil_2].
      by apply snapshot_ok_current. }
    unfold push in *. rewrite length_app in *. simpl length in *.
    destruct (Z.gtb_spec (Z.of_nat (length (undoStack (engine w)) + 1))
                         (maxUndoSteps (engine w))) as [Hgt|Hle].
    + rewrite app_nil_r. unfold shift.
      destruct (undoStack (engine w)) as [|a l]; simpl in *.
      * split; [lia|done].
      * apply Forall_cons in Hpushed as [_ Hpushed].
        split; [|exact Hpushed]. rewrite length_app. simpl. lia.
    + split.
      * rewrite length_app. simpl. lia.
      * by rewrite app_nil_r.
Qed.

Lemma last_split {A} (l : list A) :
  (Z.of_nat (length l) =? 0) = false -> exists rest v, l = rest ++ [v].
Proof.
  intros H. destruct l as [|a l] using rev_ind; [done|]. by exists l, a.
Qed.

Lemma occupied_round_trip x y c : occupied (round_trip_cell x y c) = occupied c.
Proof. by destruct c. Qed.

(** The world a restore leaves is sound when the snapshot was a good one. *)
Lemma restored_sound w w' g :
  rectangular (with_grid g (engine w)) ->
  rectangular (engine w') ->
  width (engine w') = width (engine w) ->
  height (engine w') = height (engine w) ->
  particleCount (engine w') = count_cells g ->
  (forall x y, inside (engine w) x y ->
     cell_at (grid (engine w')) x y = round_trip_cell x y (cell_at g x y)) ->
  sound w'.
Proof.
  intros Hg Hr' Hw Hh Hn Hcells. split; [exact Hr'|].
  unfold count_agrees. rewrite Hn.
  apply (count_cells_cellwise (engine w')).
  - by apply (rectangular_dims (engine w)).
  - exact Hr'.
  - intros x y Hi. rewrite Hcells by (unfold inside in *; by rewrite <- Hw, <- Hh).
    by rewrite occupied_round_trip.
Qed.

Lemma undo_healthy w b w' :
  healthy w -> undo w = Ok b w' ->
  healthy w' /\ maxUndoSteps (engine w') = maxUndoSteps (engine w).
Proof.
  intros (Hs & Hb & Hok) E. pose proof Hs as [Hr Hc].
  destruct (Z.of_nat (length (undoStack (engine w))) =? 0) eqn:Hempty.
  - unfold undo, bind, this in E. rewrite Hempty in E. unfold ret in E.
    simplify_eq. by split.
  - destruct (last_split _ Hempty) as (rest & s & Hstack).
    pose proof Hok as Hok'. rewrite Hstack in Hok'.
    apply Forall_app in Hok' as [Hu Hre]. apply Forall_app in Hu as [Hrest Hs'].
    apply Forall_cons in Hs' as [(g & Hg & ->) _].
    destruct (undo_runs w rest g (count_cells g) Hr Hg Hstack)
      as (w2 & E2 & Hr2 & Hw & Hh & Hm & Hu2 & Hre2 & Hn & Hcells).
    rewrite E2 in E. injection E as <- <-. split; [|exact Hm]. split; [|split].
    + by apply (restored_sound w w2 g).
    + unfold history_bounded in *. rewrite Hu2, Hre2, Hm, Hstack in *.
      rewrite !length_app in *. simpl in *. lia.
    + rewrite Hu2, Hre2. apply Forall_app. split.
      * eapply Forall_impl; [exact Hrest|]. intros s. by apply snapshot_ok_dims.
      * apply Forall_app. split.
        -- eapply Forall_impl; [exact Hre|]. intros s. by apply snapshot_ok_dims.
        -- apply Forall_cons. split; [|apply Forall_nil_2].
           apply (snapshot_ok_dims (engine w)); [done..|].
           by apply snapshot_ok_current.
Qed.

Lemma redo_healthy w b w' :
  healthy w -> redo w = Ok b w' ->
  healthy w' /\ maxUndoSteps (engine w') = maxUndoSteps (engine w).
Proof.
  intros (Hs & Hb & Hok) E. pose proof Hs as [Hr Hc].
  destruct (Z.of_nat (length (redoStack (engine w))) =? 0) eqn:Hempty.
  - unfold redo, bind, this in E. rewrite Hempty in E. unfold ret in E.
    simplify_eq. by split.
  - destruct (last_split _ Hempty) as (rest & s & Hstack).
    pose proof Hok as Hok'. rewrite Hstack in Hok'.
    apply Forall_app in Hok' as [Hu Hre]. apply Forall_app in Hre as [Hrest Hs'].
    apply Forall_cons in Hs' as [(g & Hg & ->) _].
    destruct (redo_runs w rest g (count_cells g) Hr Hg Hstack)
      as (w2 & E2 & Hr2 & Hw & Hh & Hm & Hre2 & Hu2 & Hn & Hcells).
    rewrite E2 in E. injection E as <- <-. split; [|exact Hm]. split; [|split].
    + by apply (restored_sound w w2 g).
    + unfold history_bounded in *. rewrite Hu2, Hre2, Hm, Hstack in *.
      rewrite !length_app in *. simpl in *. lia.
    + rewrite Hu2, Hre2. apply Forall_app. split.
      * apply Forall_app. split.
        -- eapply Forall_impl; [exact Hu|]. intros s. by apply snapshot_ok_dims.
        -- apply Forall_cons. split; [|apply Forall_nil_2].
           apply (snapshot_ok_dims (engine w)); [done..|].
           by apply snapshot_ok_current.
      * eapply Forall_impl; [exact Hrest|]. intros s. by apply snapshot_ok_dims.
Qed.

Lemma drawElements_healthy type points w n w' :
  healthy w -> drawElements type points w = Ok n w' ->
  healthy w' /\ maxUndoSteps (engine w') = maxUndoSteps (engine w).
Proof.
  intros Hh E. unfold drawElements in E. unfold bind at 1 in E.
  destruct (_saveUndoState w) as [[] w0|] eqn:E0; [|done].
  destruct (_saveUndoState_healthy w w0 Hh E0) as (Hh0 & _ & _ & _ & _ & Hm0).
  destruct (draw_loop type points 0 w0 (proj1 Hh0)) as (n1 & w1 & E1 & Hk & _).
  rewrite E1 in E. simplify_eq. split; [by apply (healthy_kept w0)|].
  destruct Hk as [_ (_ & _ & _ & _ & _ & _ & _ & _ & Hm & _)]. congruence.
Qed.

Lemma eraseElements_healthy points w n w' :
  healthy w -> eraseElements points w = Ok n w' ->
  healthy w' /\ maxUndoSteps (engine w') = maxUndoSteps (engine w).
Proof.
  intros Hh E. unfold eraseElements in E. unfold bind at 1 in E.
  destruct (_saveUndoState w) as [[] w0|] eqn:E0; [|done].
  destruct (_saveUndoState_healthy w w0 Hh E0) as (Hh0 & _ & _ & _ & _ & Hm0).
  destruct (erase_loop points 0 w0 (proj1 Hh0)) as (n1 & w1 & E1 & Hk & _).
  rewrite E1 in E. simplify_eq. split; [by apply (healthy_kept w0)|].
  destruct Hk as [_ (_ & _ & _ & _ & _ & _ & _ & _ & Hm & _)]. congruence.
Qed.

Lemma reset_healthy w w' :
  healthy w -> reset w = Ok tt w' ->
  healthy w' /\ maxUndoSteps (engine w') = maxUndoSteps (engine w).
Proof.
  intros Hh E. unfold reset, bind in E.
  destruct (_saveUndoState w) as [[] w0|] eqn:E0; [|done].
  destruct (_saveUndoState_healthy w w0 Hh E0)
    as ((Hs0 & Hb0 & Hok0) & _ & _ & _ & _ & Hm0).
  unfold modify in E. simplify_eq. split; [|exact Hm0]. split; [|split].
  - split; [apply (rectangular_createGrid (engine w0))|].
    unfold count_agrees. simpl. by rewrite count_cells_createGrid.
  - exact Hb0.
  - exact Hok0.
Qed.

Lemma healthy_operation w w' :
  healthy w -> operation w w' ->
  healthy w' /\ maxUndoSteps (engine w') = maxUndoSteps (engine w).
Proof.
  intros Hh [Hp|type points n E|points n E|E|b E|b E|sort n Hsort E|d E|s E].
  - pose proof (primitive_step_framed _ _ Hp) as Hf. split.
    + apply (healthy_kept w); [exact Hh|]. split; [|exact Hf].
      by apply (primitive_step_sound w); [apply Hh|].
    + by destruct Hf as (_ & _ & _ & _ & _ & _ & _ & _ & ? & _).
  - by eapply drawElements_healthy.
  - by eapply eraseElements_healthy.
  - by eapply reset_healthy.
  - by eapply undo_healthy.
  - by eapply redo_healthy.
  - destruct Hh as (Hs & Hb & Hok).
    pose proof (update_sound _ _ _ _ Hsort Hs E) as Hs'.
    destruct (update_frame _ _ _ _ Hsort E)
      as (Hw & Hh & _ & _ & _ & _ & Hu & Hre & Hm & _). simpl in *.
    split; [|exact Hm]. split; [exact Hs'|]. split.
    + unfold history_bounded. by rewrite Hu, Hre, Hm.
    + rewrite Hu, Hre. eapply Forall_impl; [exact Hok|].
      intros s0. by apply snapshot_ok_dims.
  - unfold setGravity, modify in E. simplify_eq.
    destruct Hh as ([[Hl Hrows] Hc] & Hb & Hok).
    exact (conj (conj (conj (conj Hl Hrows) Hc) (conj Hb Hok)) eq_refl).
  - unfold setSpeed, modify in E. simplify_eq.
    destruct Hh as ([[Hl Hrows] Hc] & Hb & Hok).
    exact (conj (conj (conj (conj Hl Hrows) Hc) (conj Hb Hok)) eq_refl).
Qed.

Lemma session_healthy w : session w -> healthy w /\ maxUndoSteps (engine w) = 10.
Proof.
  induction 1 as [width height r Hw Hh|w w' _ [IH Hm] Hop].
  - split; [|done]. split; [apply new_Engine_sound|].
    split; [unfold history_bounded; simpl; lia|apply Forall_nil_2].
  - destruct (healthy_operation w w' IH Hop) as [Hh' Hm']. split; [done|congruence].
Qed.

End SessionFacts.

(** ** The line of [getLine] *)

Section LineFacts.

Variables (x0 y0 x1 y1 dx dy sx sy : Z).

Hypothesis Hsx : sx = 1 \/ sx = -1.
Hypothesis Hsy : sy = 1 \/ sy = -1.
Hypothesis Hx1 : x1 = x0 + dx * sx.
Hypothesis Hy1 : y1 = y0 + dy * sy.
Hypothesis Hdx : 0 <= dx.
Hypothesis Hdy : 0 <= dy.
Hypothesis Hmajor : dy <= dx.

(** The error term after [a] steps along [x] and [b] steps along [y]. *)
Let errAt (a b : Z) : Z := dx - dy - a * dy + b * dx.

(** What holds of the loop state when [x] is the major axis. *)
Let J (a b : Z) : Prop :=
  - dy < 2 * errAt a b /\ (dx = dy -> errAt a b = 0)
  /\ 0 <= b <= dy /\ 0 <= a <= dx.

(** The points the loop adds from the state [(a, b)] on. *)
Let path_from (a b : Z) (path : list (Z * Z)) : Prop :=
  head path = Some (x0 + a * sx, y0 + b * sy)
  /\ last path = Some (x1, y1)
  /\ stepwise sx sy path
  /\ NoDup path
  /\ Forall (λ p, a <= (p.1 - x0) * sx <= dx /\ b <= (p.2 - y0) * sy <= dy) path.

Lemma getLine_loop_major (k : nat) :
  forall a b acc fuel,
    Z.of_nat k = dx - a -> J a b -> (k < fuel)%nat ->
    exists path,
      Utils.getLine_loop fuel x1 y1 dx dy sx sy
                         (x0 + a * sx) (y0 + b * sy) (errAt a b) acc
      = Some (acc ++ path)
      /\ length path = S k
      /\ path_from a b path.
Proof.
  induction k as [|k IH]; intros a b acc fuel Hk (HE & Heq & Hb & Ha) Hfuel;
    (destruct fuel as [|fuel]; [lia|]); cbn [Utils.getLine_loop].
  - assert (a = dx) by lia. subst a.
    assert (b = dy) by (unfold errAt in *; nia). subst b.
    rewrite <- Hx1, <- Hy1, !Z.eqb_refl. simpl.
    exists [(x1, y1)]. split; [done|]. split; [done|].
    unfold path_from. simpl. rewrite <- Hx1, <- Hy1.
    split; [done|]. split; [done|]. split; [done|].
    split; [apply NoDup_singleton|].
    apply Forall_singleton. simpl. rewrite Hx1, Hy1.
    split; [|].
    + replace ((x0 + dx * sx - x0) * sx) with (dx * (sx * sx)) by lia.
      destruct Hsx as [-> | ->]; lia.
    + replace ((y0 + dy * sy - y0) * sy) with (dy * (sy * sy)) by lia.
      destruct Hsy as [-> | ->]; lia.
  - assert (Hx : (x0 + a * sx =? x1) = false).
    { apply Z.eqb_neq. rewrite Hx1. destruct Hsx as [-> | ->]; lia. }
    rewrite Hx. cbn [andb].
    assert (Hxstep : (2 * errAt a b >? - dy) = true)
      by (rewrite Z.gtb_ltb; apply Z.ltb_lt; lia).
    rewrite Hxstep.
    destruct (Z.ltb_spec (2 * errAt a b) dx) as [Hy|Hy].
    + assert (Hb' : b < dy) by (unfold errAt in *; nia).
      destruct (IH (a + 1) (b + 1) (acc ++ [(x0 + a * sx, y0 + b * sy)]) fuel)
        as (path & E & Hlen & Hhead & Hlast & Hsteps & Hnd & Hbox);
        [lia| |lia|].
      { unfold J, errAt in *. split; [nia|]. split; [intros; nia|lia]. }
      replace (x0 + (a + 1) * sx) with (x0 + a * sx + sx) in E, Hhead by lia.
      replace (y0 + (b + 1) * sy) with (y0 + b * sy + sy) in E, Hhead by lia.
      replace (errAt (a + 1) (b + 1)) with (errAt a b - dy + dx) in E
        by (unfold errAt; lia).
      rewrite E, <- app_assoc. eexists. split; [reflexivity|].
      split; [simpl; by rewrite Hlen|].
      destruct path as [|q path]; [done|]. simpl in Hhead. simplify_eq.
      unfold path_from. split; [done|]. split; [done|].
      split.
      { split; [|done]. unfold step_toward. simpl.
        split; [by right|]. split; [by right|].
        intros Heq'. simplify_eq. destruct Hsx as [-> | ->]; lia. }
      split.
      { apply NoDup_cons. split; [|done].
        rewrite Forall_forall in Hbox. intros Hin.
        destruct (Hbox _ Hin) as [Hqa _]. simpl in Hqa.
        replace ((x0 + a * sx - x0) * sx) with (a * (sx * sx)) in Hqa by lia.
        destruct Hsx as [-> | ->]; lia. }
      apply Forall_cons. split.
      { simpl. replace ((x0 + a * sx - x0) * sx) with (a * (sx * sx)) by lia.
        replace ((y0 + b * sy - y0) * sy) with (b * (sy * sy)) by lia.
        destruct Hsx as [-> | ->], Hsy as [-> | ->]; lia. }
      eapply Forall_impl; [exact Hbox|]. simpl. intros p. lia.
    + destruct (IH (a + 1) b (acc ++ [(x0 + a * sx, y0 + b * sy)]) fuel)
        as (path & E & Hlen & Hhead & Hlast & Hsteps & Hnd & Hbox);
        [lia| |lia|].
      { unfold J, errAt in *. split; [nia|]. split; [intros; nia|lia]. }
      replace (x0 + (a + 1) * sx) with (x0 + a * sx + sx) in E, Hhead by lia.
      replace (errAt (a + 1) b) with (errAt a b - dy) in E
        by (unfold errAt; lia).
      rewrite E, <- app_assoc. eexists. split; [reflexivity|].
      split; [simpl; by rewrite Hlen|].
      destruct path as [|q path]; [done|]. simpl in Hhead. simplify_eq.
      unfold path_from. split; [done|]. split; [done|].
      split.
      { split; [|done]. unfold step_toward. simpl.
        split; [by right|]. split; [by left|].
        intros Heq'. simplify_eq. destruct Hsx as [-> | ->]; lia. }
      split.
      { apply NoDup_cons. split; [|done].
        rewrite Forall_forall in Hbox. intros Hin.
        destruct (Hbox _ Hin) as [Hqa _]. simpl in Hqa.
        replace ((x0 + a * sx - x0) * sx) with (a * (sx * sx)) in Hqa by lia.
        destruct Hsx as [-> | ->]; lia. }
      apply Forall_cons. split.
      { simpl. replace ((x0 + a * sx - x0) * sx) with (a * (sx * sx)) by lia.
        replace ((y0 + b * sy - y0) * sy) with (b * (sy * sy)) by lia.
        destruct Hsx as [-> | ->], Hsy as [-> | ->]; lia. }
      eapply Forall_impl; [exact Hbox|]. simpl. intros p. lia.
Qed.

End LineFacts.

Section LineSymmetry.

(** Exchanging the roles of the two axes. *)
Let swap (p : Z * Z) : Z * Z := (p.2, p.1).

Lemma getLine_loop_swap (fuel : nat) (x1 y1 dx dy sx sy : Z) :
  forall x0 y0 err acc,
    Utils.getLine_loop fuel y1 x1 dy dx sy sx y0 x0 (- err) (map swap acc)
    = map swap <$> Utils.getLine_loop fuel x1 y1 dx dy sx sy x0 y0 err acc.
Proof.
  induction fuel as [|fuel IH]; intros x0 y0 err acc; [done|].
  cbn [Utils.getLine_loop].
  rewrite (andb_comm (y0 =? y1)).
  destruct ((x0 =? x1) && (y0 =? y1)).
  - simpl. by rewrite map_app.
  - replace (2 * - err >? - dx) with (2 * err <? dx)
      by (rewrite Z.gtb_ltb; destruct (Z.ltb_spec (2 * err) dx),
            (Z.ltb_spec (- dx) (2 * - err)); lia).
    replace (2 * - err <? dy) with (2 * err >? - dy)
      by (rewrite Z.gtb_ltb; destruct (Z.ltb_spec (- dy) (2 * err)),
            (Z.ltb_spec (2 * - err) dy); lia).
    replace (map swap acc ++ [(y0, x0)]) with (map swap (acc ++ [(x0, y0)]))
      by (by rewrite map_app).
    destruct (2 * err <? dx), (2 * err >? - dy); rewrite <- IH; f_equal; lia.
Qed.

Lemma stepwise_swap sx sy (pts : list (Z * Z)) :
  stepwise sy sx pts -> stepwise sx sy (map swap pts).
Proof.
  induction pts as [|p [|q pts] IH]; [done..|].
  intros [(H1 & H2 & Hne) Hrest]. split; [|by apply IH].
  unfold step_toward, swap. simpl. split; [done|]. split; [done|].
  intros Heq. apply Hne. destruct p, q. simpl in *. by simplify_eq.
Qed.

Lemma swap_inj : Inj (=) (=) swap.
Proof. intros [a b] [c d] H. unfold swap in H. simpl in H. by simplify_eq. Qed.

(** The outcome of [getLine] between two distinct points. *)
Lemma getLine_runs fuel x0 y0 x1 y1 :
  let dx := Z.abs (x1 - x0) in
  let dy := Z.abs (y1 - y0) in
  let sx := if x0 <? x1 then 1 else -1 in
  let sy := if y0 <? y1 then 1 else -1 in
  (Z.to_nat (Z.max dx dy) < fuel)%nat ->
  exists pts,
    Utils.getLine fuel x0 y0 x1 y1 = Some pts
    /\ length pts = S (Z.to_nat (Z.max dx dy))
    /\ head pts = Some (x0, y0)
    /\ last pts = Some (x1, y1)
    /\ stepwise sx sy pts
    /\ NoDup pts
    /\ Forall (in_box x0 y0 x1 y1) pts.
Proof.
  intros dx dy sx sy Hfuel. unfold Utils.getLine. fold dx dy sx sy.
  assert (Hsx : sx = 1 \/ sx = -1) by (unfold sx; destruct (x0 <? x1); auto).
  assert (Hsy : sy = 1 \/ sy = -1) by (unfold sy; destruct (y0 <? y1); auto).
  assert (Hx1 : x1 = x0 + dx * sx)
    by (unfold dx, sx; destruct (Z.ltb_spec x0 x1); lia).
  assert (Hy1 : y1 = y0 + dy * sy)
    by (unfold dy, sy; destruct (Z.ltb_spec y0 y1); lia).
  assert (Hdx : 0 <= dx) by (unfold dx; lia).
  assert (Hdy : 0 <= dy) by (unfold dy; lia).
  assert (Hbox : forall p : Z * Z,
            0 <= (p.1 - x0) * sx <= dx /\ 0 <= (p.2 - y0) * sy <= dy ->
            in_box x0 y0 x1 y1 p).
  { intros p. unfold in_box. rewrite Hx1, Hy1.
    destruct Hsx as [-> | ->], Hsy as [-> | ->]; lia. }
  destruct (decide (dx = 0 /\ dy = 0)) as [[Hx0 Hy0]|Hne].
  - destruct fuel as [|fuel]; [lia|]. cbn [Utils.getLine_loop].
    assert (Ex : x0 = x1) by lia. assert (Ey : y0 = y1) by lia.
    rewrite (proj2 (Z.eqb_eq x0 x1) Ex), (proj2 (Z.eqb_eq y0 y1) Ey). simpl.
    exists [(x0, y0)]. split; [done|].
    split; [by rewrite Hx0, Hy0|]. split; [done|].
    split; [simpl; by rewrite Ex, Ey|]. split; [done|].
    split; [apply NoDup_singleton|].
    apply Forall_singleton. unfold in_box. simpl. lia.
  - destruct (Z.le_gt_cases dy dx) as [Hmajor|Hmajor].
    + destruct (getLine_loop_major x0 y0 x1 y1 dx dy sx sy Hsx Hsy Hx1 Hy1
                  Hdx Hdy Hmajor (Z.to_nat dx) 0 0 [] fuel)
        as (pts & E & Hlen & Hhead & Hlast & Hsteps & Hnd & Hall); [lia|lia|lia|].
      replace (x0 + 0 * sx) with x0 in E, Hhead by lia.
      replace (y0 + 0 * sy) with y0 in E, Hhead by lia.
      replace (dx - dy - 0 * dy + 0 * dx) with (dx - dy) in E by lia.
      simpl app in E.
      exists pts. split; [exact E|].
      split; [by rewrite Z.max_l|]. split; [done|]. split; [done|].
      split; [done|]. split; [done|].
      eapply Forall_impl; [exact Hall|]. intros p. by apply Hbox.
    + destruct (getLine_loop_major y0 x0 y1 x1 dy dx sy sx Hsy Hsx Hy1 Hx1
                  Hdy Hdx (Z.lt_le_incl _ _ Hmajor) (Z.to_nat dy) 0 0 [] fuel)
        as (path & E & Hlen & Hhead & Hlast & Hsteps & Hnd & Hall); [lia|lia|lia|].
      replace (x0 + 0 * sx) with x0 in E, Hhead by lia.
      replace (y0 + 0 * sy) with y0 in E, Hhead by lia.
      replace (dy - dx - 0 * dx + 0 * dy) with (dy - dx) in E by lia.
      simpl app in E.
      pose proof (getLine_loop_swap fuel x1 y1 dx dy sx sy x0 y0 (dx - dy) [])
        as Hswap.
      replace (- (dx - dy)) with (dy - dx) in Hswap by lia.
      simpl in Hswap. rewrite E in Hswap.
      destruct (Utils.getLine_loop fuel x1 y1 dx dy sx sy x0 y0 (dx - dy) [])
        as [pts|]; [|done].
      simpl in Hswap. injection Hswap as Hswap.
      assert (Hpts : pts = map swap path).
      { rewrite Hswap, map_map. rewrite <- (map_id pts) at 1.
        apply map_ext. by intros []. }
      exists pts. split; [done|]. subst pts. clear Hswap.
      split; [by rewrite length_map, Hlen, Z.max_r by lia|].
      split.
      { destruct path as [|p path]; [done|]. simpl in Hhead |- *.
        injection Hhead as ->. done. }
      split.
      { clear -Hlast. induction path as [|p [|q path] IH]; [done| |].
        - simpl in *. injection Hlast as ->. done.
        - apply IH. exact Hlast. }
      split; [by apply stepwise_swap|].
      split; [pose proof swap_inj; by apply (NoDup_fmap_2 swap)|].
      apply Forall_map. eapply Forall_impl; [exact Hall|].
      intros p [H1 H2]. apply Hbox. by split.
Qed.

End LineSymmetry.

(** ** Rectangles *)

Section RectangleFacts.

Lemma NoDup_range lo hi : NoDup (range lo hi).
Proof. apply NoDup_seqZ. Qed.

Lemma length_range_from lo hi : length (range lo hi) = Z.to_nat (hi - lo).
Proof. unfold range. by rewrite length_seqZ. Qed.

Lemma getRectangle_filled_rows x0 y0 x1 y1 :
  Utils.getRectangle x0 y0 x1 y1 true
  = by_rows (range (Z.min y0 y1) (Z.max y0 y1 + 1))
            (range (Z.min x0 x1) (Z.max x0 x1 + 1)).
Proof. reflexivity. Qed.

Lemma getRectangle_filled_facts x0 y0 x1 y1 :
  NoDup (Utils.getRectangle x0 y0 x1 y1 true)
  /\ length (Utils.getRectangle x0 y0 x1 y1 true)
     = Z.to_nat ((Z.abs (x1 - x0) + 1) * (Z.abs (y1 - y0) + 1))
  /\ forall p, p ∈ Utils.getRectangle x0 y0 x1 y1 true <-> in_box x0 y0 x1 y1 p.
Proof.
  rewrite getRectangle_filled_rows. split; [|split].
  - apply NoDup_by_rows; apply NoDup_range.
  - rewrite length_by_rows, !length_range_from.
    replace (Z.max y0 y1 + 1 - Z.min y0 y1) with (Z.abs (y1 - y0) + 1) by lia.
    replace (Z.max x0 x1 + 1 - Z.min x0 x1) with (Z.abs (x1 - x0) + 1) by lia.
    rewrite <- Z2Nat.inj_mul by lia. f_equal. lia.
  - intros [x y]. rewrite elem_of_by_rows, !elem_of_range.
    unfold in_box. simpl. lia.
Qed.

(** The cells on the border of the rectangle spanned by two corners. *)
Lemma elem_of_outline x0 y0 x1 y1 x y :
  (x, y) ∈ Utils.getRectangle x0 y0 x1 y1 false
  <-> in_box x0 y0 x1 y1 (x, y)
      /\ (x = Z.min x0 x1 \/ x = Z.max x0 x1
          \/ y = Z.min y0 y1 \/ y = Z.max y0 y1).
Proof.
  unfold Utils.getRectangle, in_box. cbv zeta. simpl fst. simpl snd.
  rewrite elem_of_app, !list_elem_of_In, !in_flat_map. split.
  - intros [(x' & Hx & Hin)|(y' & Hy & Hin)].
    + apply list_elem_of_In, elem_of_range in Hx.
      destruct Hin as [Hin|[Hin|[]]]; simplify_eq; lia.
    + apply list_elem_of_In, elem_of_range in Hy.
      destruct Hin as [Hin|[Hin|[]]]; simplify_eq; lia.
  - intros [[Hx Hy] Hb].
    destruct (decide (y = Z.min y0 y1 \/ y = Z.max y0 y1)) as [Hrow|Hcol].
    + left. exists x. rewrite <- list_elem_of_In, elem_of_range.
      split; [lia|]. simpl. destruct Hrow as [-> | ->]; auto.
    + right. exists y. rewrite <- list_elem_of_In, elem_of_range.
      split; [lia|]. simpl. destruct Hb as [-> | [-> | Hb]]; auto.
Qed.

Lemma length_outline x0 y0 x1 y1 :
  length (Utils.getRectangle x0 y0 x1 y1 false)
  = Z.to_nat (2 * (Z.abs (x1 - x0) + 1) + 2 * Z.max 0 (Z.abs (y1 - y0) - 1)).
Proof.
  unfold Utils.getRectangle. cbv zeta.
  assert (Hpairs : forall (f : Z -> list (Z * Z)) l,
            (forall v, length (f v) = 2%nat) ->
            length (flat_map f l) = (2 * length l)%nat).
  { intros f l Hf. induction l as [|v l IH]; [done|].
    simpl. rewrite length_app, Hf, IH. lia. }
  rewrite length_app, !Hpairs by done. rewrite !length_range_from. lia.
Qed.

End RectangleFacts.

(** ** The brush *)

Section BrushFacts.

(** The filled ellipse is the bounding box filtered by the membership
    test. *)
Lemma getEllipse_filled_filter x0 y0 radiusX radiusY :
  Utils.getEllipse_filled x0 y0 radiusX radiusY
  = filter (λ p, Utils.in_ellipse (p.1 - x0) (p.2 - y0) radiusX radiusY = true)
           (by_rows (range (y0 - radiusY) (y0 + radiusY + 1))
                    (range (x0 - radiusX) (x0 + radiusX + 1))).
Proof.
  unfold Utils.getEllipse_filled, by_rows.
  induction (range (y0 - radiusY) (y0 + radiusY + 1)) as [|y ys IH];
    [done|].
  cbn [flat_map]. rewrite filter_app, <- IH. f_equal. clear IH.
  induction (range (x0 - radiusX) (x0 + radiusX + 1)) as [|x xs IH];
    [done|].
  cbn [flat_map map]. rewrite filter_cons. simpl. rewrite <- IH.
  destruct (Utils.in_ellipse (x - x0) (y - y0) radiusX radiusY) eqn:E.
  - by rewrite decide_True.
  - by rewrite decide_False.
Qed.

(** On the offsets a brush of radius 1 to 50 scans, the test in binary64
    arithmetic agrees with the exact comparison of integers. *)
Lemma disc_table_holds :
  forallb
    (λ r, forallb
            (λ dy, forallb
                     (λ dx, Bool.eqb (Utils.in_ellipse dx dy r r)
                                     (dx * dx + dy * dy <=? r * r))
                     (range (- r) (r + 1)))
            (range (- r) (r + 1)))
    (range 1 51)
  = true.
Proof. vm_compute. reflexivity. Qed.

Lemma forallb_range (f : Z -> bool) lo hi :
  forallb f (range lo hi) = true -> forall v, lo <= v < hi -> f v = true.
Proof.
  intros H v Hv. rewrite forallb_forall in H. apply H.
  by apply list_elem_of_In, elem_of_range.
Qed.

Lemma in_ellipse_disc r dx dy :
  1 <= r <= 50 -> - r <= dx <= r -> - r <= dy <= r ->
  Utils.in_ellipse dx dy r r = (dx * dx + dy * dy <=? r * r).
Proof.
  intros Hr Hdx Hdy.
  pose proof (forallb_range _ _ _ disc_table_holds r ltac:(lia)) as H1.
  pose proof (forallb_range _ _ _ H1 dy ltac:(lia)) as H2.
  pose proof (forallb_range _ _ _ H2 dx ltac:(lia)) as H3.
  exact (Bool.eqb_prop _ _ H3).
Qed.

Lemma getBrushPoints_facts x0 y0 radius :
  1 <= radius <= 50 ->
  NoDup (Utils.getBrushPoints x0 y0 radius)
  /\ forall x y,
       (x, y) ∈ Utils.getBrushPoints x0 y0 radius
       <-> (x - x0) * (x - x0) + (y - y0) * (y - y0) <= radius * radius.
Proof.
  intros Hr. unfold Utils.getBrushPoints. cbv zeta.
  rewrite getEllipse_filled_filter. split.
  - apply NoDup_filter, NoDup_by_rows; apply NoDup_range.
  - intros x y. rewrite list_elem_of_filter, elem_of_by_rows, !elem_of_range.
    simpl. split.
    + intros [Hin [Hy Hx]]. rewrite in_ellipse_disc in Hin by lia.
      by apply Z.leb_le in Hin.
    + intros Hin.
      pose proof (Z.square_nonneg (x - x0)).
      pose proof (Z.square_nonneg (y - y0)).
      assert (Ha : (x - x0) * (x - x0) <= radius * radius) by lia.
      assert (Hb : (y - y0) * (y - y0) <= radius * radius) by lia.
      assert (- radius <= x - x0 <= radius) by nia.
      assert (- radius <= y - y0 <= radius) by nia.
      split; [|lia]. rewrite in_ellipse_disc by lia. by apply Z.leb_le.
Qed.

End BrushFacts.

(** ** Drawing and erasing *)

Section DrawFacts.

Implicit Types (e : Engine) (w : World).

(** The particle the factory makes carries the type and the place it was
    asked for. *)
Lemma factory_particle kind px py w p w' :
  Particles.createParticle kind px py w = Ok (Some p) w' ->
  type p = kind /\ x p = px /\ y p = py.
Proof.
  unfold Particles.createParticle.
  destruct (Particles.element kind) as [el|]; [|done].
  unfold bind, Utils.randomInt, Math_random, ret, bind.
  destruct (Particles.el_colorVariation el) as [v|];
    [destruct (0 <? v)%float|];
    destruct (String.eqb kind "fire" || String.eqb kind "spark");
    try (destruct (Particles.lifespan_bounds el _) as [[lo hi] w1|]; [|done]);
    intros E; by simplify_eq.
Qed.

(** [_saveUndoState] always returns on a sound world and leaves the grid,
    its size and the counter alone. *)
Lemma _saveUndoState_runs w :
  sound w ->
  exists w0,
    _saveUndoState w = Ok tt w0
    /\ sound w0
    /\ width (engine w0) = width (engine w)
    /\ height (engine w0) = height (engine w)
    /\ grid (engine w0) = grid (engine w)
    /\ particleCount (engine w0) = particleCount (engine w).
Proof.
  intros [[Hl Hrows] Hc]. destruct (_skipNextUndo (engine w)) eqn:Hskip.
  - rewrite _saveUndoState_skips by done. eexists. split; [reflexivity|].
    split; [exact (conj (conj Hl Hrows) Hc)|done].
  - rewrite _saveUndoState_records by done. eexists. split; [reflexivity|].
    split; [exact (conj (conj Hl Hrows) Hc)|done].
Qed.

(** Creating particles on cells that are inside the grid, free and all
    different: every one is created. *)
Lemma draw_fresh kind (points : list (Z * Z)) :
  is_Some (Particles.lookup Particles.ELEMENTS kind) ->
  NoDup points ->
  forall count w,
    sound w ->
    Forall (λ p, inside (engine w) p.1 p.2
                 /\ cell_at (grid (engine w)) p.1 p.2 = Null) points ->
    exists w',
      for_acc points count
        (λ count '(x, y),
           created ← createParticle x y kind;
           ret (if created then count + 1 else count)) w
      = Ok (count + Z.of_nat (length points)) w'
      /\ kept (engine w) w'
      /\ particleCount (engine w')
         = particleCount (engine w) + Z.of_nat (length points)
      /\ (forall px py, (px, py) ∈ points ->
            exists q, cell_at (grid (engine w')) px py = Obj q
                      /\ type q = kind /\ x q = px /\ y q = py)
      /\ (forall px py, (px, py) ∉ points ->
            cell_at (grid (engine w')) px py = cell_at (grid (engine w)) px py).
Proof.
  intros Hknown Hnd. induction Hnd as [|[px py] points Hnotin Hnd IH];
    intros count w Hs Hfree.
  - exists w. simpl. unfold ret. rewrite Z.add_0_r. split; [done|].
    split; [split; [done|apply frame_refl]|]. split; [lia|].
    split; [intros ? ? Hin; by apply elem_of_nil in Hin|done].
  - apply Forall_cons in Hfree as [[Hin Hnull] Hfree]. simpl in Hin, Hnull.
    pose proof Hs as [Hr Hc].
    assert (Ecreate : exists q r,
               createParticle px py kind w
               = Ok true (on_engine (mark px py)
                            (on_engine (counted 1)
                               (with_cell px py (Obj q) (mkWorld (engine w) r))))
               /\ type q = kind /\ x q = px /\ y q = py).
    { rewrite createParticle_inside by done. rewrite Hnull. simpl.
      destruct (factory_runs kind px py w) as (o & r & Hf & _ & Hsome).
      destruct (Hsome (element_known _ Hknown)) as [q ->]. rewrite Hf.
      exists q, r. split; [done|]. by eapply factory_particle. }
    destruct Ecreate as (q & r & Ecreate & Hq).
    set (w1 := on_engine (mark px py)
                 (on_engine (counted 1)
                    (with_cell px py (Obj q) (mkWorld (engine w) r)))) in *.
    pose proof (kept_createParticle (engine w) px py kind w true w1
                  (conj Hs (frame_refl _)) Ecreate) as [Hs1 Hf1].
    assert (Hcell1 : forall x' y', (x', y') ≠ (px, py) ->
              cell_at (grid (engine w1)) x' y' = cell_at (grid (engine w)) x' y').
    { intros x' y' Hne.
      apply (with_cell_at_other (mkWorld (engine w) r)); done. }
    destruct (IH (count + 1) w1 Hs1) as (w' & E & [Hs' Hf'] & Hn & Hdrawn & Hrest).
    { rewrite Forall_forall in Hfree. apply Forall_forall.
      intros [x' y'] Hin'. destruct (Hfree _ Hin') as [Hi' Hn'].
      simpl in *. split; [exact Hi'|].
      rewrite Hcell1; [done|]. intros [= -> ->]. done. }
    exists w'.
    replace (count + Z.of_nat (length ((px, py) :: points)))
      with (count + 1 + Z.of_nat (length points)) by (simpl length; lia).
    cbn [for_acc]. unfold bind at 1. unfold bind at 1.
    rewrite Ecreate. unfold ret at 1. split; [exact E|].
    split; [split; [done|by eapply frame_trans]|].
    split; [rewrite Hn; simpl; lia|]. split.
    + intros x' y' Hin'. apply elem_of_cons in Hin' as [[= -> ->]|Hin'].
      * exists q. split; [|done]. rewrite Hrest by done.
        apply (with_cell_at_same (mkWorld (engine w) r)); done.
      * by apply Hdrawn.
    + intros x' y' Hnotin'. apply not_elem_of_cons in Hnotin' as [Hne Hnotin'].
      rewrite Hrest by done. by apply Hcell1.
Qed.

(** Removing the particles of a list of cells: every listed cell inside the
    grid ends up empty, every other cell is as before. *)
Lemma erase_clears (points : list (Z * Z)) :
  forall count w,
    sound w ->
    exists n w',
      for_acc points count
        (λ count '(x, y),
           removed ← removeParticle x y;
           ret (if removed then count + 1 else count)) w = Ok n w'
      /\ kept (engine w) w'
      /\ (forall px py, (px, py) ∈ points -> inside (engine w) px py ->
            cell_at (grid (engine w')) px py = Null)
      /\ (forall px py, (px, py) ∉ points ->
            cell_at (grid (engine w')) px py = cell_at (grid (engine w)) px py).
Proof.
  induction points as [|[px py] points IH]; intros count w Hs.
  - exists count, w. simpl. unfold ret. split; [done|].
    split; [split; [done|apply frame_refl]|].
    split; [intros ? ? Hin; by apply elem_of_nil in Hin|done].
  - pose proof Hs as [Hr Hc].
    destruct (removeParticle_runs px py w Hs) as (b & w1 & E1).
    pose proof (kept_removeParticle (engine w) px py w b w1
                  (conj Hs (frame_refl _)) E1) as [Hs1 Hf1].
    assert (Hcells1 :
              (inside (engine w) px py -> cell_at (grid (engine w1)) px py = Null)
              /\ forall x' y', (x', y') ≠ (px, py) ->
                   cell_at (grid (engine w1)) x' y'
                   = cell_at (grid (engine w)) x' y').
    { destruct (outside (engine w) px py) eqn:Ho.
      - unfold removeParticle, bind, this in E1. rewrite Ho in E1.
        unfold ret in E1. simplify_eq. split; [|done].
        intros Hi. by rewrite (outside_false _ _ _ Hi) in Ho.
      - apply inside_or_outside in Ho.
        rewrite removeParticle_inside in E1 by done.
        pose proof (cell_at_defined _ _ _ Hr Ho) as Hdef.
        destruct (cell_at (grid (engine w)) px py) as [| |q] eqn:Hcell;
          [done| |]; simpl in E1; simplify_eq.
        + split; [done|done].
        + split.
          * intros _. by apply (with_cell_at_same w).
          * intros x' y' Hne. by apply (with_cell_at_other w). }
    destruct Hcells1 as [Hnull1 Hother1].
    destruct (IH (if b then count + 1 else count) w1 Hs1)
      as (n & w' & E & [Hs' Hf'] & Hcleared & Hrest).
    exists n, w'. cbn [for_acc]. unfold bind at 1. unfold bind at 1.
    rewrite E1. unfold ret at 1. split; [exact E|].
    split; [split; [done|by eapply frame_trans]|].
    assert (Hdims : forall x' y', inside (engine w) x' y' -> inside (engine w1) x' y').
    { intros x' y'. unfold inside.
      destruct Hf1 as (-> & -> & _). done. }
    split.
    + intros x' y' Hin' Hi'.
      destruct (decide ((x', y') ∈ points)) as [Hrestin|Hnotin].
      * apply Hcleared; [done|by apply Hdims].
      * apply elem_of_cons in Hin' as [[= -> ->]|Hin']; [|done].
        rewrite Hrest by done. by apply Hnull1.
    + intros x' y' Hnotin'. apply not_elem_of_cons in Hnotin' as [Hne Hnotin'].
      rewrite Hrest by done. by apply Hother1.
Qed.

End DrawFacts.

Section DrawCells.

Implicit Types (e : Engine) (w : World).

(** What one [createParticle] of a known element does to the cells. *)
Lemma createParticle_cells kind px py w :
  sound w ->
  is_Some (Particles.lookup Particles.ELEMENTS kind) ->
  exists b w1,
    createParticle px py kind w = Ok b w1
    /\ (forall x' y', (x', y') ≠ (px, py) ->
          cell_at (grid (engine w1)) x' y' = cell_at (grid (engine w)) x' y')
    /\ (inside (engine w) px py -> cell_at (grid (engine w)) px py = Null ->
          b = true
          /\ exists q, cell_at (grid (engine w1)) px py = Obj q
                       /\ type q = kind /\ x q = px /\ y q = py)
    /\ (cell_at (grid (engine w)) px py ≠ Null ->
          b = false
          /\ cell_at (grid (engine w1)) px py = cell_at (grid (engine w)) px py).
Proof.
  intros [Hr Hc] Hknown. destruct (outside (engine w) px py) eqn:Ho.
  - exists false, w. unfold createParticle, bind, this. rewrite Ho.
    split; [done|]. split; [done|]. split; [|done].
    intros Hi. by rewrite (outside_false _ _ _ Hi) in Ho.
  - apply inside_or_outside in Ho.
    rewrite createParticle_inside by done.
    pose proof (cell_at_defined _ _ _ Hr Ho) as Hdef.
    destruct (cell_at (grid (engine w)) px py) as [| |p] eqn:Hcell; [done| |].
    + simpl. destruct (factory_runs kind px py w) as (o & r & Hf & _ & Hsome).
      destruct (Hsome (element_known _ Hknown)) as [q ->]. rewrite Hf.
      eexists _, _. split; [reflexivity|]. split; [|split; [|done]].
      * intros x' y' Hne. by apply (with_cell_at_other (mkWorld (engine w) r)).
      * intros _ _. split; [done|]. exists q. split.
        -- by apply (with_cell_at_same (mkWorld (engine w) r)).
        -- by eapply factory_particle.
    + simpl. exists false, w. split; [done|]. split; [done|].
      split; [done|]. by rewrite Hcell.
Qed.


End DrawCells.

Section DrawTools.

Implicit Types (e : Engine) (w : World).

(** [drawElements] on cells that are inside the grid, free and all
    different. *)
Lemma drawElements_fresh kind (points : list (Z * Z)) w :
  sound w ->
  is_Some (Particles.lookup Particles.ELEMENTS kind) ->
  NoDup points ->
  Forall (λ p, inside (engine w) p.1 p.2
               /\ cell_at (grid (engine w)) p.1 p.2 = Null) points ->
  exists w',
    drawElements kind points w = Ok (Z.of_nat (length points)) w'
    /\ particleCount (engine w')
       = particleCount (engine w) + Z.of_nat (length points)
    /\ (forall px py, (px, py) ∈ points ->
          exists q, cell_at (grid (engine w')) px py = Obj q
                    /\ type q = kind /\ x q = px /\ y q = py)
    /\ (forall px py, (px, py) ∉ points ->
          cell_at (grid (engine w')) px py = cell_at (grid (engine w)) px py).
Proof.
  intros Hs Hknown Hnd Hfree.
  destruct (_saveUndoState_runs w Hs) as (w0 & E0 & Hs0 & Hw & Hh & Hg & Hn).
  destruct (draw_fresh kind points Hknown Hnd 0 w0 Hs0)
    as (w' & E & _ & Hcount & Hdrawn & Hrest).
  { eapply Forall_impl; [exact Hfree|]. intros p. unfold inside.
    by rewrite Hw, Hh, Hg. }
  exists w'. unfold drawElements. unfold bind at 1. rewrite E0.
  rewrite Z.add_0_l in E. split; [exact E|].
  split; [by rewrite Hcount, Hn|]. split; [exact Hdrawn|].
  intros px py Hnotin. rewrite Hrest by done. by rewrite Hg.
Qed.

Lemma in_box_inside e x1 y1 x2 y2 p :
  inside e x1 y1 -> inside e x2 y2 -> in_box x1 y1 x2 y2 p -> inside e p.1 p.2.
Proof. unfold inside, in_box. lia. Qed.

(** [eraseElements] on a sound world. *)
Lemma eraseElements_runs_clear points w :
  sound w ->
  exists n w',
    eraseElements points w = Ok n w'
    /\ particleCount (engine w') = particleCount (engine w) - n
    /\ 0 <= n <= Z.of_nat (length points)
    /\ (forall px py, (px, py) ∈ points -> inside (engine w) px py ->
          cell_at (grid (engine w')) px py = Null)
    /\ (forall px py, (px, py) ∉ points ->
          cell_at (grid (engine w')) px py = cell_at (grid (engine w)) px py).
Proof.
  intros Hs.
  destruct (_saveUndoState_runs w Hs) as (w0 & E0 & Hs0 & Hw & Hh & Hg & Hn).
  destruct (erase_loop points 0 w0 Hs0) as (n & w' & E & _ & Hcount & Hb).
  destruct (erase_clears points 0 w0 Hs0) as (n' & w'' & E' & _ & Hcleared & Hrest).
  rewrite E in E'. injection E' as <- <-.
  exists n, w'. unfold eraseElements. unfold bind at 1. rewrite E0.
  split; [exact E|]. split; [lia|]. split; [lia|]. split.
  - intros px py Hin Hi. apply Hcleared; [done|].
    unfold inside in *. by rewrite Hw, Hh.
  - intros px py H. rewrite Hrest by done. by rewrite Hg.
Qed.


End DrawTools.

(** ** The run-length encoding *)

Section EncodeFacts.

Implicit Types (s : Storage.Encoder) (ts : list (option string)).

(** The encoder runs over the cells in row-major order. *)
Lemma encode_concat (g : list (list Cell)) s :
  fold_left (λ s row, fold_left Storage.encode_cell row s) g s
  = fold_left Storage.encode_cell (concat g) s.
Proof.
  revert s. induction g as [|row g IH]; intros s; [done|].
  simpl. by rewrite fold_left_app, IH.
Qed.

Lemma expand_app (l1 l2 : list Storage.Run) :
  expand (l1 ++ l2) = expand l1 ++ expand l2.
Proof. unfold expand. by rewrite flat_map_app. Qed.

Lemma expand_singleton (t : option string) (n : Z) :
  expand [(t, n)] = replicate (Z.to_nat n) t.
Proof. unfold expand. simpl. by rewrite app_nil_r. Qed.

Lemma replicate_snoc {A} (n : nat) (v : A) :
  replicate (S n) v = replicate n v ++ [v].
Proof. induction n as [|n IH]; [done|]. simpl in *. by rewrite IH. Qed.

(** The state of the encoder after some cells: [a] are the particle types met
    so far, [k] the empty cells met since the last particle. *)
Let state_of s (a : list string) (k : nat) : Prop :=
  0 <= Storage.count s
  /\ match Storage.currentType s with
     | None =>
         expand (Storage.encoded s) = map Some a /\ Z.to_nat (Storage.count s) = k
     | Some t =>
         expand (Storage.encoded s) ++ replicate (Z.to_nat (Storage.count s)) (Some t)
         = map Some a
         /\ k = 0%nat /\ 0 < Storage.count s
     end.

Lemma encode_cell_empty s a k c :
  state_of s a k -> cell_type c = None ->
  state_of (Storage.encode_cell s c) a (S k).
Proof.
  intros [Hc Hs] Ht. unfold Storage.encode_cell.
  replace (match c with Obj p => Some (type p) | _ => None end)
    with (cell_type c) by done.
  rewrite Ht. destruct (Storage.currentType s) as [t|] eqn:Hcur.
  - rewrite bool_decide_false by done. destruct Hs as (Hs & -> & Hpos).
    split; [simpl; lia|]. simpl.
    rewrite expand_app, expand_singleton. done.
  - rewrite bool_decide_true by done. destruct Hs as (Hs & Hk).
    split; [simpl; lia|]. simpl. split; [done|lia].
Qed.

Lemma encode_cell_particle s a k c v :
  state_of s a k -> cell_type c = Some v ->
  state_of (Storage.encode_cell s c) (a ++ [v]) 0.
Proof.
  intros [Hc Hs] Ht. unfold Storage.encode_cell.
  replace (match c with Obj p => Some (type p) | _ => None end)
    with (cell_type c) by done.
  rewrite Ht. destruct (Storage.currentType s) as [t|] eqn:Hcur.
  - destruct Hs as (Hs & -> & Hpos).
    destruct (decide (Some v = Some t)) as [[= ->]|Hne].
    + rewrite bool_decide_true by done. split; [simpl; lia|]. simpl.
      split; [|split; [done|lia]].
      rewrite Z2Nat.inj_add, Nat.add_1_r, replicate_snoc by lia.
      by rewrite app_assoc, Hs, map_app.
    + rewrite bool_decide_false by done. split; [simpl; lia|]. simpl.
      split; [|split; [done|lia]].
      by rewrite expand_app, expand_singleton, Hs, map_app.
  - rewrite bool_decide_false by done. destruct Hs as (Hs & Hk).
    split; [simpl; lia|]. simpl. split; [|split; [done|lia]].
    by rewrite Hs, map_app.
Qed.

(** What the finished encoding expands to. *)
Lemma encode_finish s a k :
  state_of s a k ->
  expand (if Storage.count s >? 0
          then Storage.encoded s ++ [(Storage.currentType s, Storage.count s)]
          else Storage.encoded s)
  = map Some a ++ replicate k None.
Proof.
  intros [Hc Hs]. destruct (Storage.currentType s) as [t|] eqn:Hcur.
  - destruct Hs as (Hs & -> & Hpos).
    rewrite (proj2 (Z.gtb_lt _ _)) by lia.
    by rewrite expand_app, expand_singleton, Hs, app_nil_r.
  - destruct Hs as (Hs & <-).
    destruct (Z.gtb_spec (Storage.count s) 0).
    + by rewrite expand_app, expand_singleton, Hs.
    + replace (Storage.count s) with 0 by lia. simpl. by rewrite Hs, app_nil_r.
Qed.

(** The encoder after the cells of types [front ++ replicate k None], where
    [front] is empty or ends with a particle. *)
Lemma encode_cells_state (cells : list Cell) :
  forall s a k,
    state_of s a k ->
    exists a' k', state_of (fold_left Storage.encode_cell cells s) a' k'
                  /\ map Some a' = map Some a ++ named (map cell_type cells)
                  /\ (forall v, mjoin (last (map cell_type cells)) = Some v -> k' = 0%nat)
                  /\ (Forall (λ c, cell_type c = None) cells ->
                      k' = (k + length cells)%nat).
Proof.
  induction cells as [|c cells IH] using rev_ind; intros s a k Hs.
  - exists a, k. simpl. rewrite app_nil_r. split; [done|]. split; [done|].
    split; [done|]. intros _. lia.
  - destruct (IH s a k Hs) as (a1 & k1 & Hs1 & Ha1 & Hlast1 & Hnone1).
    rewrite fold_left_app. simpl.
    rewrite !map_app. simpl map. unfold named in *. rewrite filter_app.
    destruct (cell_type c) as [v|] eqn:Ht.
    + exists (a1 ++ [v]), 0%nat. split; [by eapply encode_cell_particle|].
      split.
      { rewrite map_app, Ha1, <- app_assoc. by f_equal. }
      split; [done|].
      intros Hall. apply Forall_app in Hall as [_ Hc].
      rewrite Forall_singleton in Hc. congruence.
    + exists a1, (S k1). split; [by eapply encode_cell_empty|].
      split.
      { rewrite Ha1. f_equal.
        rewrite filter_cons, decide_False by (by intros [? ?]).
        by rewrite filter_nil, app_nil_r. }
      split.
      { intros v. rewrite last_snoc. done. }
      intros Hall. apply Forall_app in Hall as [Hall _].
      rewrite (Hnone1 Hall), length_app. simpl. lia.
Qed.

End EncodeFacts.

(** The finished encoding keeps the particle types in order and the empty
    cells after the last particle. *)
Lemma _encodeGrid_expand (g : list (list Cell)) front k :
  types g = front ++ replicate k None ->
  front = [] \/ is_Some (mjoin (last front)) ->
  expand (Storage._encodeGrid g) = named front ++ replicate k None.
Proof.
  intros Hts Hfront. unfold Storage._encodeGrid. cbv zeta.
  rewrite encode_concat.
  unfold types in Hts.
  apply map_eq_app in Hts as (cells1 & cells2 & -> & H1 & H2).
  rewrite fold_left_app.
  assert (Hinit : 0 <= Storage.count (Storage.mkEncoder [] None 0)
                  /\ match Storage.currentType (Storage.mkEncoder [] None 0) with
                     | None =>
                         expand (Storage.encoded (Storage.mkEncoder [] None 0))
                         = map Some [] /\
                         Z.to_nat (Storage.count (Storage.mkEncoder [] None 0)) = 0%nat
                     | Some t =>
                         expand (Storage.encoded (Storage.mkEncoder [] None 0))
                         ++ replicate (Z.to_nat (Storage.count (Storage.mkEncoder [] None 0))) (Some t)
                         = map Some []
                         /\ 0%nat = 0%nat /\ 0 < Storage.count (Storage.mkEncoder [] None 0)
                     end) by (simpl; split; [lia|done]).
  destruct (encode_cells_state cells1 _ _ _ Hinit) as (a1 & k1 & Hs1 & Ha1 & Hlast1 & Hnone1).
  assert (k1 = 0%nat) as ->.
  { destruct Hfront as [->|[v Hv]].
    - apply map_eq_nil in H1 as ->. apply Hnone1. constructor.
    - apply (Hlast1 v). by rewrite H1. }
  destruct (encode_cells_state cells2 _ _ _ Hs1) as (a2 & k2 & Hs2 & Ha2 & _ & Hnone2).
  assert (Hall : Forall (λ c, cell_type c = None) cells2).
  { apply Forall_forall. intros c Hc.
    assert (Hin : cell_type c ∈ map cell_type cells2)
      by (apply list_elem_of_In, in_map, list_elem_of_In, Hc).
    rewrite H2 in Hin. by apply elem_of_replicate in Hin as [? _]. }
  rewrite (encode_finish _ _ _ Hs2), Ha2, Ha1, H1, H2, (Hnone2 Hall).
  simpl. rewrite <- (length_map cell_type cells2), H2, length_replicate.
  f_equal. unfold named.
  assert (Hno : filter (λ t : option string, is_Some t) (replicate k None) = []).
  { clear. induction k as [|k IH]; [done|]. simpl.
    rewrite filter_cons, decide_False by (by intros [? ?]). done. }
  by rewrite Hno, app_nil_r.
Qed.

(** Whatever the grid, the encoding holds its particles in order, followed
    only by empty cells. *)
Lemma _encodeGrid_named (g : list (list Cell)) :
  exists k, expand (Storage._encodeGrid g) = named (types g) ++ replicate k None.
Proof.
  unfold Storage._encodeGrid. cbv zeta. rewrite encode_concat.
  assert (Hinit : 0 <= Storage.count (Storage.mkEncoder [] None 0)
                  /\ match Storage.currentType (Storage.mkEncoder [] None 0) with
                     | None =>
                         expand (Storage.encoded (Storage.mkEncoder [] None 0))
                         = map Some [] /\
                         Z.to_nat (Storage.count (Storage.mkEncoder [] None 0)) = 0%nat
                     | Some t =>
                         expand (Storage.encoded (Storage.mkEncoder [] None 0))
                         ++ replicate (Z.to_nat (Storage.count (Storage.mkEncoder [] None 0))) (Some t)
                         = map Some []
                         /\ 0%nat = 0%nat /\ 0 < Storage.count (Storage.mkEncoder [] None 0)
                     end) by (simpl; split; [lia|done]).
  destruct (encode_cells_state (concat g) _ _ _ Hinit) as (a1 & k1 & Hs1 & Ha1 & _).
  exists k1. by rewrite (encode_finish _ _ _ Hs1), Ha1.
Qed.

(** ** The run-length decoding *)

Section DecodeFacts.

Variables width height : Z.
Hypothesis width_pos : 0 < width.
Hypothesis height_nonneg : 0 <= height.

Lemma entry_snoc_lt done t i :
  0 <= i < Z.of_nat (length done) -> entry (done ++ [t]) i = entry done i.
Proof.
  intros Hi. unfold entry. rewrite lookup_app_l by lia. done.
Qed.

Lemma entry_snoc_eq done t :
  entry (done ++ [t]) (Z.of_nat (length done)) = t.
Proof.
  unfold entry. rewrite Nat2Z.id, lookup_app_r, Nat.sub_diag by lia. done.
Qed.

Lemma entry_past done i :
  Z.of_nat (length done) <= i -> entry done i = None.
Proof.
  intros Hi. unfold entry. rewrite lookup_ge_None_2 by lia. done.
Qed.

Lemma cell_index x y index :
  0 <= x < width -> 0 <= y ->
  y * width + x = index <-> (index / width = y /\ index mod width = x).
Proof.
  intros Hx Hy. split.
  - intros <-. split.
    + symmetry. apply (Z.div_unique_pos _ _ y x); lia.
    + symmetry. apply (Z.mod_unique_pos _ _ y x); lia.
  - intros [<- <-]. pose proof (Z.div_mod index width). lia.
Qed.

Lemma laid_out_start :
  laid_out width height (replicate (Z.to_nat height) (replicate (Z.to_nat width) None), 0) [].
Proof.
  unfold laid_out.
  split; [done|]. split; [simpl; by rewrite length_replicate|].
  split.
  { simpl. apply Forall_forall. intros row Hrow.
    apply elem_of_replicate in Hrow as [-> _]. by rewrite length_replicate. }
  intros x y Hx Hy. simpl. unfold basic_at.
  rewrite lookup_replicate_2 by lia. rewrite lookup_replicate_2 by lia.
  by rewrite entry_past by (simpl; lia).
Qed.

Lemma decode_cell_laid_out s done t :
  laid_out width height s done ->
  laid_out width height (Storage.decode_cell width height t s) (done ++ [t]).
Proof.
  destruct s as [grid index]. unfold laid_out.
  intros (Hi & Hlen & Hrows & Hcells).
  simpl in Hi, Hlen, Hrows, Hcells. subst index.
  unfold Storage.decode_cell.
  rewrite Z.rem_mod_nonneg by lia.
  set (index := Z.of_nat (length done)).
  assert (Hx0 : 0 <= index mod width < width) by (apply Z.mod_pos_bound; lia).
  assert (Hy0 : 0 <= index / width) by (apply Z.div_pos; lia).
  rewrite (proj2 (Z.eqb_neq width 0)) by lia.
  rewrite (proj2 (Z.ltb_lt (index mod width) width)) by lia.
  rewrite andb_true_r. simpl negb. rewrite andb_true_l.
  split; [simpl; rewrite length_app; simpl; lia|].
  destruct (Z.ltb_spec (index / width) height) as [Hy|Hy]; simpl.
  - split; [by rewrite length_alter|].
    split.
    { apply Forall_alter; [done|]. intros row _ Hrow. by rewrite length_insert. }
    intros x y Hx Hyb. unfold basic_at.
    destruct (decide (y = index / width)) as [->|Hne].
    + destruct (lookup_lt_is_Some_2 grid (Z.to_nat (index / width))) as [row Hrow];
        [lia|].
      rewrite list_lookup_alter_eq, Hrow. simpl.
      assert (Hrl : length row = Z.to_nat width)
        by (eapply Forall_lookup in Hrows; [exact Hrows|exact Hrow]).
      destruct (decide (x = index mod width)) as [->|Hnx].
      * rewrite list_lookup_insert_eq by lia.
        replace (index / width * width + index mod width) with index
          by (pose proof (Z.div_mod index width); lia).
        unfold index. by rewrite entry_snoc_eq.
      * rewrite list_lookup_insert_ne by lia.
        specialize (Hcells x (index / width) Hx Hyb).
        unfold basic_at in Hcells. rewrite Hrow in Hcells. rewrite Hcells.
        f_equal. f_equal.
        assert (index / width * width + x <> index)
          by (pose proof (Z.div_mod index width); lia).
        destruct (Z.lt_ge_cases (index / width * width + x) index).
        -- by rewrite entry_snoc_lt by lia.
        -- rewrite !entry_past; [done|..]; unfold index in *; rewrite ?length_app; simpl; lia.
    + rewrite list_lookup_alter_ne by lia.
      specialize (Hcells x y Hx Hyb). unfold basic_at in Hcells. rewrite Hcells.
      f_equal. f_equal.
      assert (y * width + x <> index).
      { intros Heq. apply cell_index in Heq; lia. }
      destruct (Z.lt_ge_cases (y * width + x) index).
      -- by rewrite entry_snoc_lt by lia.
      -- rewrite !entry_past; [done|..]; unfold index in *; rewrite ?length_app; simpl; lia.
  - split; [done|]. split; [done|].
    intros x y Hx Hyb. rewrite (Hcells x y Hx Hyb). f_equal. f_equal.
    assert (y * width + x < index).
    { pose proof (Z.div_mod index width). nia. }
    by rewrite entry_snoc_lt by lia.
Qed.

Lemma decode_run_laid_out (n : nat) : forall (l : list Z) s done t,
  length l = n ->
  laid_out width height s done ->
  laid_out width height (fold_left (λ s _, Storage.decode_cell width height t s) l s)
           (done ++ replicate n t).
Proof.
  induction n as [|n IH]; intros l s done t Hl Hs.
  - destruct l; [|done]. simpl. by rewrite app_nil_r.
  - destruct l as [|j l]; [done|]. simpl.
    replace (done ++ t :: replicate n t) with ((done ++ [t]) ++ replicate n t)
      by (by rewrite <- app_assoc).
    apply IH; [by injection Hl|]. by apply decode_cell_laid_out.
Qed.

Lemma decode_runs_laid_out (runs : list Storage.Run) : forall s done,
  laid_out width height s done ->
  laid_out width height (fold_left
              (λ s '(type, count),
                 fold_left (λ s _, Storage.decode_cell width height type s)
                           (range 0 count) s)
              runs s)
           (done ++ expand runs).
Proof.
  induction runs as [|[t n] runs IH]; intros s done Hs.
  - simpl. by rewrite app_nil_r.
  - simpl. unfold expand. simpl. fold (expand runs). rewrite app_assoc.
    apply IH. apply decode_run_laid_out; [|done].
    rewrite length_range. done.
Qed.

Lemma decode_all_laid_out (runs : list Storage.Run) :
  laid_out width height
    (fold_left
       (λ s '(type, count),
          fold_left (λ s _, Storage.decode_cell width height type s)
                    (range 0 count) s)
       runs (replicate (Z.to_nat height) (replicate (Z.to_nat width) None), 0))
    (expand runs).
Proof using width_pos height_nonneg.
  apply (decode_runs_laid_out runs _ []), laid_out_start.
Qed.

End DecodeFacts.

(** The decoded grid has the asked size and holds the expanded runs row by
    row. *)
Lemma _decodeGrid_laid_out (runs : list Storage.Run) (width height : Z) :
  0 < width < 2 ^ 32 -> 0 <= height < 2 ^ 32 ->
  exists grid,
    Storage._decodeGrid runs width height = Some grid
    /\ length grid = Z.to_nat height
    /\ Forall (λ row, length row = Z.to_nat width) grid
    /\ forall x y, 0 <= x < width -> 0 <= y < height ->
         basic_at grid x y
         = Some (Storage.basic_of (entry (expand runs) (y * width + x))).
Proof.
  intros Hw Hh. unfold Storage._decodeGrid.
  rewrite (proj2 (Z.ltb_ge height 0)) by lia.
  rewrite (proj2 (Z.leb_gt (2 ^ 32) height)) by lia.
  rewrite (proj2 (Z.ltb_ge width 0)) by lia.
  rewrite (proj2 (Z.leb_gt (2 ^ 32) width)) by lia.
  rewrite andb_false_r. simpl orb. cbv iota zeta.
  eexists. split; [reflexivity|].
  pose proof (decode_all_laid_out width height (proj1 Hw) (proj1 Hh) runs)
    as (_ & H1 & H2 & H3).
  by repeat split.
Qed.

(** ** Decoding an encoding *)

Lemma entry_padded (ts : list (option string)) (k : nat) (i : Z) :
  0 <= i -> entry (ts ++ replicate k None) i = entry ts i.
Proof.
  intros Hi. unfold entry.
  destruct (decide (Z.to_nat i < length ts)%nat) as [Hlt|Hge].
  - by rewrite lookup_app_l.
  - rewrite lookup_app_r by lia. rewrite (lookup_ge_None_2 ts) by lia.
    destruct (replicate k None !! _) as [t|] eqn:Ht; [|done].
    by apply lookup_replicate in Ht as [-> _].
Qed.

(** Decoding what [_encodeGrid] made of a grid gives a grid whose cells, read
    row by row, are the particles of the encoded grid in their order. *)
Lemma decode_encode_packs (g : list (list Cell)) (width height : Z) :
  0 < width < 2 ^ 32 -> 0 <= height < 2 ^ 32 ->
  exists grid,
    Storage._decodeGrid (Storage._encodeGrid g) width height = Some grid
    /\ length grid = Z.to_nat height
    /\ Forall (λ row, length row = Z.to_nat width) grid
    /\ forall x y, 0 <= x < width -> 0 <= y < height ->
         basic_at grid x y
         = Some (Storage.basic_of (entry (named (types g)) (y * width + x))).
Proof.
  intros Hw Hh.
  destruct (_decodeGrid_laid_out (Storage._encodeGrid g) width height Hw Hh)
    as (grid & Hd & Hlen & Hrows & Hcells).
  destruct (_encodeGrid_named g) as [k Hk].
  exists grid. repeat split; try done.
  intros x y Hx Hy. rewrite (Hcells x y Hx Hy), Hk, entry_padded by nia. done.
Qed.

(** A cell of a grid whose rows have the same length, in the row-major
    list. *)
Lemma lookup_concat_row {A} (n : nat) (g : list (list A)) :
  Forall (λ row, length row = n) g ->
  forall (j i : nat) (row : list A),
    g !! j = Some row -> (i < n)%nat -> concat g !! (j * n + i)%nat = row !! i.
Proof.
  induction 1 as [|r g Hr Hg IH]; intros j i row Hj Hi; [done|].
  destruct j as [|j]; simpl in *.
  - injection Hj as ->. by rewrite lookup_app_l by lia.
  - rewrite lookup_app_r by lia.
    replace (n + j * n + i - length r)%nat with (j * n + i)%nat by lia.
    by apply IH.
Qed.

Lemma entry_types (g : list (list Cell)) (width height x y : Z) :
  length g = Z.to_nat height ->
  Forall (λ row, length row = Z.to_nat width) g ->
  0 <= x < width -> 0 <= y < height ->
  entry (types g) (y * width + x) = cell_type (cell_at g x y).
Proof.
  intros Hlen Hrows Hx Hy. unfold entry, types.
  destruct (lookup_lt_is_Some_2 g (Z.to_nat y)) as [row Hrow]; [lia|].
  assert (Hrl : length row = Z.to_nat width)
    by (eapply Forall_lookup in Hrows; [exact Hrows|exact Hrow]).
  destruct (lookup_lt_is_Some_2 row (Z.to_nat x)) as [c Hc]; [lia|].
  replace (Z.to_nat (y * width + x))
    with (Z.to_nat y * Z.to_nat width + Z.to_nat x)%nat by nia.
  rewrite lookup_map.
  rewrite (lookup_concat_row _ _ Hrows _ _ _ Hrow) by lia.
  rewrite Hc. simpl.
  rewrite <- (cell_at_lookup g (Z.to_nat y) (Z.to_nat x) row c Hrow Hc).
  by rewrite !Z2Nat.id by lia.
Qed.

(** A grid whose particles all come before its empty cells, and none with the
    empty string as type, survives the round trip. *)
Lemma decode_encode_packed (g : list (list Cell)) (width height : Z)
      (names : list string) (k : nat) :
  0 < width < 2 ^ 32 -> 0 <= height < 2 ^ 32 ->
  length g = Z.to_nat height ->
  Forall (λ row, length row = Z.to_nat width) g ->
  types g = map Some names ++ replicate k None ->
  EmptyString ∉ names ->
  exists grid,
    Storage._decodeGrid (Storage._encodeGrid g) width height = Some grid
    /\ length grid = Z.to_nat height
    /\ Forall (λ row, length row = Z.to_nat width) grid
    /\ forall x y, 0 <= x < width -> 0 <= y < height ->
         basic_at grid x y = Some (cell_type (cell_at g x y)).
Proof.
  intros Hw Hh Hlen Hrows Hts Hnames.
  destruct (decode_encode_packs g width height Hw Hh)
    as (grid & Hd & Hl & Hr & Hcells).
  exists grid. repeat split; try done.
  intros x y Hx Hy. rewrite (Hcells x y Hx Hy). f_equal.
  assert (Hnamed : named (map Some names) = map Some names).
  { clear. unfold named. induction names as [|n names IH]; [done|]. simpl.
    rewrite filter_cons, decide_True by (by eexists). by rewrite IH. }
  assert (Hnone : named (replicate k None) = []).
  { clear. unfold named. induction k as [|k IH]; [done|]. simpl.
    rewrite filter_cons, decide_False by (by intros [? ?]). done. }
  rewrite <- (entry_padded (named (types g)) k) by nia.
  rewrite Hts at 1. unfold named at 1. rewrite filter_app.
  fold (named (map Some names)). fold (named (replicate k None)).
  rewrite Hnamed, Hnone, app_nil_r, <- Hts.
  rewrite (entry_types g width height x y Hlen Hrows Hx Hy).
  destruct (cell_type (cell_at g x y)) as [n|] eqn:Hn; [|done].
  assert (Hin : Some n ∈ types g).
  { pose proof (entry_types g width height x y Hlen Hrows Hx Hy) as He.
    rewrite Hn in He. unfold entry in He.
    destruct (types g !! _) as [t|] eqn:Ht; [|done]. subst t.
    eapply list_elem_of_lookup_2, Ht. }
  rewrite Hts in Hin. apply elem_of_app in Hin as [Hin|Hin].
  - apply list_elem_of_In, in_map_iff in Hin as (n' & [= ->] & Hin).
    destruct n as [|a n]; [|done].
    exfalso. by apply Hnames, list_elem_of_In.
  - by apply elem_of_replicate in Hin as [? _].
Qed.

(** ** Conservation of the inert and the flowing elements *)

Section CensusFacts.

Implicit Types (e : Engine) (w : World).

Lemma census_row_insert t r i c c0 :
  r !! i = Some c0 ->
  census_row t (<[i := c]> r) = census_row t r - has_type t c0 + has_type t c.
Proof.
  revert i. induction r as [|a r IH]; intros [|i] H; simplify_eq/=; [lia|].
  rewrite (IH _ H). lia.
Qed.

Lemma census_insert t g i r r0 :
  g !! i = Some r0 ->
  census t (<[i := r]> g) = census t g - census_row t r0 + census_row t r.
Proof.
  revert i. induction g as [|a g IH]; intros [|i] H; simplify_eq/=; [lia|].
  rewrite (IH _ H). lia.
Qed.

Lemma census_put t e x y c :
  rectangular e -> inside e x y ->
  census t (put (grid e) x y c)
  = census t (grid e) - has_type t (cell_at (grid e) x y) + has_type t c.
Proof.
  intros Hr Hi. destruct (put_inside e x y c Hr Hi) as (r & Hlook & Hlen & ->).
  destruct Hi as [Hx Hy].
  destruct (lookup_lt_is_Some_2 r (Z.to_nat x)) as [c0 Hc0]; [lia|].
  rewrite (census_insert _ _ _ _ _ Hlook), (census_row_insert _ _ _ _ _ Hc0).
  unfold cell_at, grid_row, row_get.
  destruct (y <? 0) eqn:E1; [lia|]. destruct (x <? 0) eqn:E2; [lia|].
  rewrite Hlook, Hc0. simpl. lia.
Qed.

Lemma with_cell_census t w x y c :
  rectangular (engine w) -> inside (engine w) x y ->
  census t (grid (engine (with_cell x y c w)))
  = census t (grid (engine w))
    - has_type t (cell_at (grid (engine w)) x y) + has_type t c.
Proof. intros. by apply census_put. Qed.

Lemma has_type_same t p q : type q = type p -> has_type t (Obj q) = has_type t (Obj p).
Proof. unfold has_type. by intros ->. Qed.

Variable w0 : World.

Lemma conserved_engine w w' : engine w' = engine w -> conserved w0 w -> conserved w0 w'.
Proof. unfold conserved, sound, count_agrees. by intros ->. Qed.

Lemma conserved_marked w x y :
  conserved w0 w -> conserved w0 (on_engine (mark x y) w).
Proof.
  intros (Hs & Hh & Hn & Hc). split; [by apply mark_sound|]. by repeat split.
Qed.

(** A particle replaced by one of its own type. *)
Lemma conserved_retyped w x y p q :
  conserved w0 w -> inside (engine w) x y ->
  cell_at (grid (engine w)) x y = Obj p -> type q = type p ->
  conserved w0 (with_cell x y (Obj q) w).
Proof.
  intros (Hs & Hh & Hn & Hc) Hi Hp Hq. pose proof Hs as [Hr _].
  split; [apply with_cell_sound; [done..|by rewrite Hp]|].
  split; [|split; [done|]].
  - intros px py p' Hp'.
    destruct (decide ((px, py) = (x, y))) as [[= -> ->]|Hne].
    + rewrite with_cell_at_same in Hp' by done. simplify_eq.
      rewrite Hq. by eapply Hh.
    + rewrite with_cell_at_other in Hp' by done. by eapply Hh.
  - intros t. rewrite with_cell_census, Hp, (has_type_same t p q Hq), <- Hc by done.
    lia.
Qed.

Lemma conserved_this : preserves (conserved w0) this.
Proof. apply keeps_this. Qed.

Lemma conserved_grid_get x y : preserves (conserved w0) (grid_get x y).
Proof. apply keeps_grid_get. Qed.

Lemma conserved_Math_random : preserves (conserved w0) Math_random.
Proof. apply keeps_Math_random, conserved_engine. Qed.

Lemma conserved_grid_mutate x y f :
  (forall p, type (f p) = type p) ->
  preserves (conserved w0) (grid_mutate x y f).
Proof.
  intros Hf w a w' HK E. pose proof HK as ([Hr _] & _).
  unfold grid_mutate, grid_obj, bind in E.
  destruct (grid_get x y w) as [c w1|] eqn:Eg; [|done].
  pose proof (grid_get_same _ _ _ _ _ Eg) as ->.
  destruct c as [| |p]; try done. unfold ret in E.
  destruct (grid_get_obj_inside _ _ _ _ _ Hr Eg) as [Hin Hc].
  rewrite grid_set_inside in E by done. simplify_eq.
  by apply (conserved_retyped w x y p).
Qed.

Lemma conserved_flagged x y b :
  preserves (conserved w0) (grid_mutate x y (with_updated b)).
Proof. by apply conserved_grid_mutate. Qed.

Lemma conserved_markRegionActive x y :
  preserves (conserved w0) (_markRegionActive x y).
Proof.
  intros w a w' HK E. rewrite _markRegionActive_runs in E. simplify_eq.
  by apply conserved_marked.
Qed.

Lemma conserved_activeRegions (f : Engine -> ActiveSet) :
  preserves (conserved w0) (modify (λ e, with_activeRegions (f e) e)).
Proof.
  intros w a w' ([[Hl Hrows] Hca] & Hh & Hn & Hc) E. unfold modify in E.
  simplify_eq. exact (conj (conj (conj Hl Hrows) Hca) (conj Hh (conj Hn Hc))).
Qed.

Lemma conserved_updateCount (f : Engine -> Z) :
  preserves (conserved w0) (modify (λ e, with_updateCount (f e) e)).
Proof.
  intros w a w' ([[Hl Hrows] Hca] & Hh & Hn & Hc) E. unfold modify in E.
  simplify_eq. exact (conj (conj (conj Hl Hrows) Hca) (conj Hh (conj Hn Hc))).
Qed.

(** A move carries the particle, with its type, to an empty cell. *)
Lemma conserved_moveParticle fromX fromY toX toY :
  preserves (conserved w0) (moveParticle fromX fromY toX toY).
Proof.
  intros w a w' HK E. pose proof HK as (Hs & Hh & Hn & Hc).
  pose proof Hs as [Hr _].
  split; [by eapply moveParticle_sound|].
  destruct (outside (engine w) fromX fromY || outside (engine w) toX toY) eqn:Ho.
  { unfold moveParticle, bind at 1, this in E. rewrite Ho in E.
    unfold ret in E. by simplify_eq. }
  apply orb_false_elim in Ho as [H1 H2].
  apply inside_or_outside in H1, H2.
  rewrite moveParticle_inside in E by done.
  destruct (cell_at (grid (engine w)) fromX fromY) as [| |p] eqn:Hp;
    [by simplify_eq..|].
  destruct (cell_at (grid (engine w)) toX toY) as [| |q] eqn:Hq;
    [by simplify_eq| |by simplify_eq].
  simplify_eq.
  assert (Hne : (fromX, fromY) ≠ (toX, toY)) by (intros [= -> ->]; congruence).
  set (p' := with_updated true (with_pos toX toY p)).
  assert (Hr1 : rectangular (engine (with_cell toX toY (Obj p') w)))
    by (by apply with_cell_rectangular).
  split; [|split; [done|]].
  - intros px py p0. simpl.
    change (cell_at (grid (engine (with_cell fromX fromY Null
                                     (with_cell toX toY (Obj p') w)))) px py
            = Obj p0 -> type p0 ∈ inert_or_flowing).
    intros Hp0.
    destruct (decide ((px, py) = (fromX, fromY))) as [[= -> ->]|Hn1].
    { by rewrite with_cell_at_same in Hp0. }
    rewrite with_cell_at_other in Hp0 by done.
    destruct (decide ((px, py) = (toX, toY))) as [[= -> ->]|Hn2].
    + rewrite with_cell_at_same in Hp0 by done. simplify_eq.
      by apply (Hh fromX fromY p).
    + rewrite with_cell_at_other in Hp0 by done. by eapply Hh.
  - intros t. simpl.
    change (census t (grid (engine (with_cell fromX fromY Null
                                      (with_cell toX toY (Obj p') w))))
            = census t (grid (engine w0))).
    rewrite with_cell_census by done.
    rewrite with_cell_at_other by done.
    rewrite with_cell_census by done.
    rewrite Hp, Hq, <- Hc. unfold p'. simpl. lia.
Qed.

(** A swap exchanges two particles, each keeping its type. *)
Lemma conserved_swapParticles x1 y1 x2 y2 :
  preserves (conserved w0) (swapParticles x1 y1 x2 y2).
Proof.
  intros w a w' HK E. pose proof HK as (Hs & Hh & Hn & Hc).
  pose proof Hs as [Hr _].
  unfold swapParticles, bind at 1, this in E.
  destruct (outside (engine w) x1 y1 || outside (engine w) x2 y2) eqn:Ho.
  { unfold ret in E. by simplify_eq. }
  apply orb_false_elim in Ho as [H1 H2].
  apply inside_or_outside in H1, H2.
  unfold bind at 1 in E. rewrite grid_get_inside in E by done.
  unfold bind at 1 in E. rewrite grid_get_inside in E by done.
  pose proof (cell_at_defined _ _ _ Hr H1) as Hd1.
  pose proof (cell_at_defined _ _ _ Hr H2) as Hd2.
  destruct (cell_at (grid (engine w)) x1 y1) as [| |p1] eqn:Hc1;
    [done|simpl in E; unfold ret in E; by simplify_eq|].
  destruct (cell_at (grid (engine w)) x2 y2) as [| |p2] eqn:Hc2;
    [done|simpl in E; unfold ret in E; by simplify_eq|].
  simpl in E.
  unfold bind at 1 in E. rewrite grid_set_inside in E by done.
  assert (Hs1 : sound (with_cell x1 y1 (Obj p2) w))
    by (apply with_cell_sound; [done..|by rewrite Hc1]).
  unfold bind at 1 in E. rewrite grid_set_inside in E; [|apply Hs1|done].
  assert (Hat : cell_at (grid (engine (with_cell x1 y1 (Obj p2) w))) x2 y2 = Obj p2).
  { destruct (decide ((x2, y2) = (x1, y1))) as [[= -> ->]|Hne].
    - by rewrite with_cell_at_same.
    - by rewrite with_cell_at_other. }
  assert (HK2 : conserved w0 (with_cell x2 y2 (Obj p1) (with_cell x1 y1 (Obj p2) w))).
  { split.
    { apply with_cell_sound; [done..|by rewrite Hat]. }
    split; [|split; [done|]].
    - intros px py p0 Hp0.
      destruct (decide ((px, py) = (x2, y2))) as [[= -> ->]|Hn2].
      { rewrite with_cell_at_same in Hp0; [|apply Hs1|done]. simplify_eq.
        by apply (Hh x1 y1). }
      rewrite with_cell_at_other in Hp0; [|apply Hs1|done..].
      destruct (decide ((px, py) = (x1, y1))) as [[= -> ->]|Hn1].
      + rewrite with_cell_at_same in Hp0 by done. simplify_eq.
        by apply (Hh x2 y2).
      + rewrite with_cell_at_other in Hp0 by done. by eapply Hh.
    - intros t. rewrite with_cell_census; [|apply Hs1|done].
      rewrite Hat, with_cell_census, Hc1, <- Hc by done. lia. }
  assert (Hrest : preserves (conserved w0)
            (grid_mutate x1 y1 (λ p, with_updated true (with_pos x1 y1 p));;
             grid_mutate x2 y2 (λ p, with_updated true (with_pos x2 y2 p));;
             _markRegionActive x1 y1;;
             _markRegionActive x2 y2;;
             ret true)).
  { apply preserves_bind; [by apply conserved_grid_mutate|intros _].
    apply preserves_bind; [by apply conserved_grid_mutate|intros _].
    apply preserves_bind; [apply conserved_markRegionActive|intros _].
    apply preserves_bind; [apply conserved_markRegionActive|intros _].
    apply preserves_ret. }
  exact (Hrest _ _ _ HK2 E).
Qed.

End CensusFacts.

Section ConservedTick.

Implicit Types (e : Engine) (w : World).

Variable w0 : World.
Variable sort_at_random : list (Z * Z) -> M (list (Z * Z)).

#[local] Hint Resolve conserved_this conserved_grid_get conserved_Math_random
  conserved_flagged conserved_markRegionActive conserved_activeRegions
  conserved_updateCount conserved_moveParticle conserved_swapParticles : pres.

(** Among the inert and the flowing elements only water and oil react. *)
Lemma reaction_among_inert t1 t2 :
  t1 ∈ inert_or_flowing -> t2 ∈ inert_or_flowing ->
  Particles.lookup Interactions.REACTIONS (Interactions.key t1 t2)
  = if String.eqb t1 "water" && String.eqb t2 "oil"
    then Some Interactions.water_oil else None.
Proof.
  unfold inert_or_flowing. intros H1 H2.
  repeat match goal with
         | H : _ ∈ _ :: _ |- _ => apply elem_of_cons in H as [->|H]
         | H : _ ∈ [] |- _ => by apply elem_of_nil in H
         end; reflexivity.
Qed.

Lemma conserved_water_oil waterX waterY oilX oilY :
  preserves (conserved w0) (Interactions.water_oil waterX waterY oilX oilY).
Proof. unfold Interactions.water_oil. pres. Qed.

Lemma conserved_processInteraction x1 y1 x2 y2 :
  preserves (conserved w0) (Interactions.processInteraction x1 y1 x2 y2).
Proof.
  intros w a w' HK E. pose proof HK as ([Hr _] & Hh & _).
  unfold Interactions.processInteraction in E. unfold bind at 1 in E.
  destruct (grid_get x1 y1 w) as [c1 w1|] eqn:E1; [|done].
  pose proof (grid_get_same _ _ _ _ _ E1) as ->.
  destruct c1 as [| |p1]; [unfold ret in E; by simplify_eq..|].
  unfold bind at 1 in E.
  destruct (grid_get x2 y2 w) as [c2 w2|] eqn:E2; [|done].
  pose proof (grid_get_same _ _ _ _ _ E2) as ->.
  destruct c2 as [| |p2]; [unfold ret in E; by simplify_eq..|].
  destruct (grid_get_obj_inside _ _ _ _ _ Hr E1) as [_ Hc1].
  destruct (grid_get_obj_inside _ _ _ _ _ Hr E2) as [_ Hc2].
  pose proof (Hh _ _ _ Hc1) as Ht1. pose proof (Hh _ _ _ Hc2) as Ht2.
  cbv zeta in E.
  rewrite (reaction_among_inert _ _ Ht1 Ht2),
    (reaction_among_inert _ _ Ht2 Ht1) in E.
  destruct (String.eqb (type p1) "water" && String.eqb (type p2) "oil").
  { by eapply conserved_water_oil. }
  destruct (String.eqb (type p2) "water" && String.eqb (type p1) "oil").
  { by eapply conserved_water_oil. }
  unfold ret in E. by simplify_eq.
Qed.

#[local] Hint Resolve conserved_processInteraction : pres.

Lemma conserved_processParticleInteractions x y :
  preserves (conserved w0) (Interactions.processParticleInteractions x y).
Proof.
  unfold Interactions.processParticleInteractions, Interactions.interact. pres.
Qed.

(** The behaviours of the inert and the flowing elements only move
    particles. *)
Lemma conserved_behave t x y :
  t ∈ inert_or_flowing ->
  preserves (conserved w0) (behave sort_at_random t x y).
Proof.
  unfold inert_or_flowing. intros Ht.
  repeat match goal with
         | H : _ ∈ _ :: _ |- _ => apply elem_of_cons in H as [->|H]
         | H : _ ∈ [] |- _ => by apply elem_of_nil in H
         end.
  - change (preserves (conserved w0) (Behaviors.sand_update Particles.sand x y)).
    apply keeps_sand_update; [apply conserved_engine|apply conserved_moveParticle].
  - apply preserves_ret.
  - apply preserves_ret.
  - apply preserves_ret.
  - change (preserves (conserved w0) (Behaviors.water_update Particles.water x y)).
    apply keeps_water_update; [apply conserved_engine|apply conserved_moveParticle].
  - change (preserves (conserved w0) (Behaviors.water_update Particles.oil x y)).
    apply keeps_water_update; [apply conserved_engine|apply conserved_moveParticle].
Qed.

#[local] Hint Resolve conserved_processParticleInteractions conserved_behave : pres.

Lemma conserved_process elementType particle x y t :
  type particle ∈ inert_or_flowing ->
  preserves (conserved w0) (process sort_at_random elementType particle x y t).
Proof. intros Ht. unfold process. pres. Qed.

Lemma conserved_visit t c : preserves (conserved w0) (visit sort_at_random t c).
Proof.
  destruct c as [x y]. intros w a w' HK E. pose proof HK as ([Hr _] & Hh & _).
  unfold visit in E. unfold bind at 1 in E.
  destruct (grid_get x y w) as [c w1|] eqn:Eg; [|done].
  pose proof (grid_get_same _ _ _ _ _ Eg) as ->.
  destruct c as [| |particle]; [unfold ret in E; by simplify_eq..|].
  destruct (grid_get_obj_inside _ _ _ _ _ Hr Eg) as [_ Hc].
  destruct (updated particle); [unfold ret in E; by simplify_eq|].
  destruct (Particles.element (type particle)) as [el|];
    [|unfold ret in E; by simplify_eq].
  eapply conserved_process; [|exact HK|exact E]. by eapply Hh.
Qed.

Lemma conserved_reset_flags : preserves (conserved w0) reset_flags.
Proof. unfold reset_flags. pres. Qed.

Lemma conserved_updateOrder : preserves (conserved w0) updateOrder.
Proof. apply keeps_updateOrder, conserved_engine. Qed.

#[local] Hint Resolve conserved_visit conserved_reset_flags conserved_updateOrder : pres.

(** A tick over inert and flowing elements keeps every particle, with its
    type. *)
Lemma update_conserved : preserves (conserved w0) (update sort_at_random).
Proof. unfold update. pres. Qed.

End ConservedTick.

Lemma conserved_refl w :
  sound w -> only_holds inert_or_flowing (grid (engine w)) -> conserved w w.
Proof. intros Hs Hh. exact (conj Hs (conj Hh (conj eq_refl (λ _, eq_refl)))). Qed.

Lemma only_holds_Forall (kinds : list string) (g : list (list Cell)) :
  Forall (Forall (λ c, forall p, c = Obj p -> type p ∈ kinds)) g ->
  only_holds kinds g.
Proof.
  intros Hall px py p Hp. unfold cell_at, grid_row, row_get in Hp.
  destruct (py <? 0); [done|].
  destruct (g !! Z.to_nat py) as [r|] eqn:Er; [|done].
  destruct (px <? 0); [done|].
  destruct (r !! Z.to_nat px) as [c|] eqn:Ec; [|done]. simpl in Hp. subst c.
  rewrite Forall_lookup in Hall. specialize (Hall _ _ Er).
  rewrite Forall_lookup in Hall. by apply (Hall _ _ Ec).
Qed.

(** ** Falling *)

Section FallFacts.

Implicit Types (e : Engine) (w : World).

(** The world after the particle [p] has moved from [(x, y)] to the empty
    cell below. *)
Lemma move_down_outcome w x y p :
  rectangular (engine w) -> inside (engine w) x y -> y + 1 < height (engine w) ->
  cell_at (grid (engine w)) x y = Obj p ->
  cell_at (grid (engine w)) x (y + 1) = Null ->
  exists w',
    moveParticle x y x (y + 1) w = Ok true w'
    /\ cell_at (grid (engine w')) x y = Null
    /\ cell_at (grid (engine w')) x (y + 1)
       = Obj (with_updated true (with_pos x (y + 1) p))
    /\ (forall px py, (px, py) ≠ (x, y) -> (px, py) ≠ (x, y + 1) ->
          cell_at (grid (engine w')) px py = cell_at (grid (engine w)) px py)
    /\ particleCount (engine w') = particleCount (engine w)
    /\ rng w' = rng w.
Proof.
  intros Hr Hi Hy Hp Hq.
  assert (Hi2 : inside (engine w) x (y + 1)) by (destruct Hi; split; lia).
  rewrite moveParticle_inside, Hp, Hq by done.
  set (p' := with_updated true (with_pos x (y + 1) p)).
  assert (Hr1 : rectangular (engine (with_cell x (y + 1) (Obj p') w)))
    by (by apply with_cell_rectangular).
  eexists. split; [reflexivity|].
  change (cell_at (grid (engine (with_cell x y Null
                                   (with_cell x (y + 1) (Obj p') w)))) x y = Null
          /\ cell_at (grid (engine (with_cell x y Null
                                      (with_cell x (y + 1) (Obj p') w)))) x (y + 1)
             = Obj p'
          /\ (forall px py, (px, py) ≠ (x, y) -> (px, py) ≠ (x, y + 1) ->
                cell_at (grid (engine (with_cell x y Null
                                         (with_cell x (y + 1) (Obj p') w)))) px py
                = cell_at (grid (engine w)) px py)
          /\ particleCount (engine w) = particleCount (engine w)
          /\ rng w = rng w).
  split; [by rewrite with_cell_at_same|].
  split.
  { rewrite with_cell_at_other; [|done..|intros [= ?]; lia].
    by rewrite with_cell_at_same. }
  split; [|done].
  intros px py H1 H2. by rewrite !with_cell_at_other.
Qed.

Lemma sand_update_falls self w x y :
  rectangular (engine w) -> inside (engine w) x y -> y + 1 < height (engine w) ->
  cell_at (grid (engine w)) x (y + 1) = Null ->
  Behaviors.sand_update self x y w
  = (moveParticle x y x (y + 1);; ret true) w.
Proof.
  intros Hr Hi Hy Hq.
  assert (Hi2 : inside (engine w) x (y + 1)) by (destruct Hi; split; lia).
  unfold Behaviors.sand_update, bind at 1, this.
  destruct (Z.geb_spec y (height (engine w) - 1)); [lia|].
  unfold bind at 1. rewrite grid_get_inside, Hq by done. reflexivity.
Qed.

Lemma water_update_falls self w x y :
  rectangular (engine w) -> inside (engine w) x y -> y + 1 < height (engine w) ->
  cell_at (grid (engine w)) x (y + 1) = Null ->
  Behaviors.water_update self x y w
  = (moveParticle x y x (y + 1);; ret true) w.
Proof.
  intros Hr Hi Hy Hq.
  assert (Hi2 : inside (engine w) x (y + 1)) by (destruct Hi; split; lia).
  unfold Behaviors.water_update, bind at 1, this.
  destruct (Z.geb_spec y (height (engine w) - 1)); [lia|].
  unfold bind at 1. rewrite grid_get_inside, Hq by done. reflexivity.
Qed.

(** In the bottom row sand, water and oil stay where they are. *)
Lemma sand_update_rests self w x y :
  height (engine w) - 1 <= y -> Behaviors.sand_update self x y w = Ok false w.
Proof.
  intros Hy. unfold Behaviors.sand_update, bind, this.
  destruct (Z.geb_spec y (height (engine w) - 1)); [done|lia].
Qed.

Lemma water_update_rests self w x y :
  height (engine w) - 1 <= y -> Behaviors.water_update self x y w = Ok false w.
Proof.
  intros Hy. unfold Behaviors.water_update, bind, this.
  destruct (Z.geb_spec y (height (engine w) - 1)); [done|lia].
Qed.

End FallFacts.

(** ** The order of JavaScript numbers *)

Section FloatOrder.

Lemma SFcompare_swap (x y : spec_float) :
  SFcompare y x = option_map CompOpp (SFcompare x y).
Proof.
  destruct x as [sx|sx| |sx mx e1], y as [sy|sy| |sy my e2]; simpl;
    try reflexivity;
    try (by destruct sx); try (by destruct sy); try (by destruct sx, sy).
  rewrite (Z.compare_antisym e1 e2).
  change (PosDef.Pos.compare_cont Eq my mx) with (Pos.compare my mx).
  change (PosDef.Pos.compare_cont Eq mx my) with (Pos.compare mx my).
  rewrite (Pos.compare_antisym mx my).
  destruct sx, sy, (e1 ?= e2); simpl; try reflexivity;
    by rewrite CompOpp_involutive.
Qed.

Lemma SFcompare_refl (x : spec_float) :
  SFcompare x x = None \/ SFcompare x x = Some Eq.
Proof.
  destruct x as [sx|sx| |sx mx e1]; simpl; auto.
  - destruct sx; auto.
  - right. rewrite Z.compare_refl.
    change (PosDef.Pos.compare_cont Eq mx mx) with (Pos.compare mx mx).
    rewrite Pos.compare_refl. by destruct sx.
Qed.

Lemma SFcompare_Eq (x y z : spec_float) :
  SFcompare x y = Some Eq -> SFcompare z x = SFcompare z y.
Proof.
  destruct x as [sx|sx| |sx mx e1], y as [sy|sy| |sy my e2]; simpl;
    try done; try (by destruct sx); try (by destruct sy).
  - destruct sx, sy; try done.
  - intros H.
    assert (Heq : sx = sy /\ e1 = e2 /\ mx = my).
    { destruct sx, sy; try done; destruct (e1 ?= e2) eqn:He; try done;
        apply Z.compare_eq in He;
        change (PosDef.Pos.compare_cont Eq mx my) with (Pos.compare mx my) in H;
        destruct (Pos.compare mx my) eqn:Hm; try done;
        by apply Pos.compare_eq in Hm. }
    by destruct Heq as (-> & -> & ->).
Qed.

Lemma is_nan_compare (a b : float) :
  Js.is_nan a = false -> Js.is_nan b = false ->
  exists c, SFcompare (Prim2SF a) (Prim2SF b) = Some c.
Proof.
  unfold Js.is_nan. rewrite !FloatAxioms.eqb_spec. unfold SFeqb. intros Ha Hb.
  destruct (Prim2SF a) as [sa|sa| |sa ma ea], (Prim2SF b) as [sb|sb| |sb mb eb];
    simpl in *; try done; eauto.
Qed.

Lemma ltb_false_leb (a b : float) :
  Js.is_nan a = false -> Js.is_nan b = false ->
  PrimFloat.ltb a b = false -> PrimFloat.leb b a = true.
Proof.
  intros Ha Hb. destruct (is_nan_compare a b Ha Hb) as [c Hc].
  rewrite FloatAxioms.ltb_spec, FloatAxioms.leb_spec. unfold SFltb, SFleb.
  rewrite (SFcompare_swap (Prim2SF a) (Prim2SF b)), Hc. by destruct c.
Qed.

Lemma ltb_leb (a b : float) : PrimFloat.ltb a b = true -> PrimFloat.leb a b = true.
Proof.
  rewrite FloatAxioms.ltb_spec, FloatAxioms.leb_spec. unfold SFltb, SFleb.
  by destruct (SFcompare _ _) as [[]|].
Qed.

Lemma leb_refl (a : float) : Js.is_nan a = false -> PrimFloat.leb a a = true.
Proof.
  unfold Js.is_nan. rewrite FloatAxioms.eqb_spec, FloatAxioms.leb_spec. unfold SFeqb, SFleb.
  by destruct (SFcompare _ _) as [[]|].
Qed.

Lemma eqb_refl (a : float) : Js.is_nan a = false -> PrimFloat.eqb a a = true.
Proof. unfold Js.is_nan. by destruct (PrimFloat.eqb a a). Qed.

Lemma not_ltb_eqb (a b : float) :
  Js.is_nan a = false -> Js.is_nan b = false ->
  PrimFloat.ltb a b = false -> PrimFloat.ltb b a = false ->
  PrimFloat.eqb a b = true.
Proof.
  intros Ha Hb. destruct (is_nan_compare a b Ha Hb) as [c Hc].
  rewrite !FloatAxioms.ltb_spec, FloatAxioms.eqb_spec. unfold SFltb, SFeqb.
  rewrite (SFcompare_swap (Prim2SF a) (Prim2SF b)), Hc. by destruct c.
Qed.

Lemma leb_not_ltb (a b : float) :
  PrimFloat.leb a b = true -> PrimFloat.ltb b a = false.
Proof.
  rewrite FloatAxioms.ltb_spec, FloatAxioms.leb_spec. unfold SFltb, SFleb.
  rewrite (SFcompare_swap (Prim2SF a) (Prim2SF b)).
  by destruct (SFcompare _ _) as [[]|].
Qed.

Lemma eqb_sym (a b : float) : PrimFloat.eqb a b = PrimFloat.eqb b a.
Proof.
  rewrite !FloatAxioms.eqb_spec. unfold SFeqb.
  rewrite (SFcompare_swap (Prim2SF a) (Prim2SF b)).
  by destruct (SFcompare _ _) as [[]|].
Qed.

(** [Utils.clamp] of a number that is not [NaN], between bounds that are
    numbers in order: the result lies between the bounds. *)
Lemma clamp_bounds (value lo hi : float) :
  Js.is_nan lo = false -> Js.is_nan hi = false -> PrimFloat.leb lo hi = true ->
  Js.is_nan value = false ->
  Js.is_nan (Utils.clamp value lo hi) = false
  /\ PrimFloat.leb lo (Utils.clamp value lo hi) = true
  /\ PrimFloat.leb (Utils.clamp value lo hi) hi = true.
Proof.
  intros Hlo Hhi Hle Hv. unfold Utils.clamp.
  assert (Hmin : Js.is_nan (Js.min hi value) = false
                 /\ PrimFloat.leb (Js.min hi value) hi = true).
  { unfold Js.min. rewrite Hhi, Hv. simpl.
    destruct (PrimFloat.ltb hi value) eqn:E1; [by split; [|apply leb_refl]|].
    destruct (PrimFloat.ltb value hi) eqn:E2; [by split; [|apply ltb_leb]|].
    destruct (Js.is_neg_zero hi); [by split; [|apply leb_refl]|].
    split; [done|]. by apply ltb_false_leb. }
  destruct Hmin as [Hu Hu_hi]. revert Hu Hu_hi.
  generalize (Js.min hi value). intros u Hu Hu_hi.
  unfold Js.max. rewrite Hlo, Hu. simpl.
  destruct (PrimFloat.ltb lo u) eqn:E1;
    [repeat split; [done|by apply ltb_leb|done]|].
  destruct (PrimFloat.ltb u lo) eqn:E2;
    [repeat split; [done|by apply leb_refl|done]|].
  destruct (Js.is_neg_zero lo).
  - repeat split; [done| |done]. by apply ltb_false_leb.
  - repeat split; [done|by apply leb_refl|done].
Qed.

(** [NaN] goes through [Utils.clamp]. *)
Lemma clamp_nan (value lo hi : float) :
  Js.is_nan value = true -> Js.is_nan (Utils.clamp value lo hi) = true.
Proof.
  intros Hv. unfold Utils.clamp, Js.min, Js.max. rewrite Hv, orb_true_r.
  replace (Js.is_nan PrimFloat.nan) with true by reflexivity.
  by rewrite orb_true_r.
Qed.

(** A number between the bounds is returned as it is, up to the sign of a
    zero. *)
Lemma clamp_inside (value lo hi : float) :
  PrimFloat.leb lo value = true -> PrimFloat.leb value hi = true ->
  Js.is_nan lo = false -> Js.is_nan hi = false -> Js.is_nan value = false ->
  PrimFloat.eqb (Utils.clamp value lo hi) value = true.
Proof.
  intros H1 H2 Hlo Hhi Hv. unfold Utils.clamp.
  assert (Hmin : Js.is_nan (Js.min hi value) = false
                 /\ PrimFloat.eqb (Js.min hi value) value = true
                 /\ PrimFloat.leb lo (Js.min hi value) = true).
  { unfold Js.min. rewrite Hhi, Hv. simpl.
    rewrite (leb_not_ltb _ _ H2).
    destruct (PrimFloat.ltb value hi) eqn:E2;
      [repeat split; [done|by apply eqb_refl|done]|].
    assert (Heq : PrimFloat.eqb hi value = true).
    { apply not_ltb_eqb; try done. by apply leb_not_ltb. }
    destruct (Js.is_neg_zero hi).
    - repeat split; [done..|].
      revert H1 Heq. rewrite !FloatAxioms.leb_spec, FloatAxioms.eqb_spec.
      unfold SFleb, SFeqb. intros H1 Heq.
      destruct (SFcompare (Prim2SF hi) (Prim2SF value)) as [[]|] eqn:Hc;
        try done.
      by rewrite (SFcompare_Eq _ _ (Prim2SF lo) Hc).
    - repeat split; [done|by apply eqb_refl|done]. }
  destruct Hmin as (Hu & Heq & Hle). revert Hu Heq Hle.
  generalize (Js.min hi value). intros u Hu Heq Hle.
  unfold Js.max. rewrite Hlo, Hu. simpl.
  destruct (PrimFloat.ltb lo u) eqn:E1; [done|].
  rewrite (leb_not_ltb _ _ Hle).
  assert (Hlu : PrimFloat.eqb lo u = true).
  { apply not_ltb_eqb; try done. by apply leb_not_ltb. }
  destruct (Js.is_neg_zero lo); [done|].
  revert Hlu Heq. rewrite !FloatAxioms.eqb_spec. unfold SFeqb.
  intros Hlu Heq.
  destruct (SFcompare (Prim2SF u) (Prim2SF value)) as [[]|] eqn:Hc; try done.
  by rewrite <- (SFcompare_Eq _ _ (Prim2SF lo) Hc).
Qed.

End FloatOrder.

(** ** Ticks that cannot throw *)

Section Returning.

Context (I : World -> Prop).

Lemma returns_ret {A} (a : A) : returns I (ret a).
Proof. intros w H. by exists a, w. Qed.

Lemma returns_bind {A B} (m : M A) (k : A -> M B) :
  returns I m -> (forall a, returns I (k a)) -> returns I (bind m k).
Proof.
  intros Hm Hk w H. destruct (Hm w H) as (a & w1 & E & H1).
  destruct (Hk a w1 H1) as (b & w2 & E2 & H2).
  exists b, w2. unfold bind. by rewrite E.
Qed.

Lemma returns_for_each {A} (items : list A) body :
  (forall v, v ∈ items -> returns I (body v)) -> returns I (for_each items body).
Proof.
  induction items as [|v items IH]; intros Hb; simpl.
  - apply returns_ret.
  - apply returns_bind; [apply Hb, elem_of_cons; by left|].
    intros _. apply IH. intros v' Hv'. apply Hb, elem_of_cons. by right.
Qed.

Lemma returns_for_acc {A S} (items : list A) (body : S -> A -> M S) :
  (forall s v, v ∈ items -> returns I (body s v)) ->
  forall s, returns I (for_acc items s body).
Proof.
  induction items as [|v items IH]; intros Hb s; simpl.
  - apply returns_ret.
  - apply returns_bind; [apply Hb, elem_of_cons; by left|].
    intros s'. apply IH. intros s'' v' Hv'. apply Hb, elem_of_cons. by right.
Qed.

Lemma returns_for_return {A R} (items : list A) (body : A -> M (option R)) :
  (forall v, returns I (body v)) -> returns I (for_return items body).
Proof.
  intros Hb. induction items as [|v items IH]; simpl.
  - apply returns_ret.
  - apply returns_bind; [apply Hb|]. intros [r|]; [apply returns_ret|apply IH].
Qed.

Lemma returns_total {A} (m : M A) :
  (forall w, I w -> exists a w', m w = Ok a w') -> preserves I m -> returns I m.
Proof.
  intros Hruns Hkeeps w H. destruct (Hruns w H) as (a & w' & E).
  exists a, w'. split; [done|]. by eapply Hkeeps.
Qed.

Lemma returns_with_ret {A} (Q : A -> Prop) (a : A) :
  Q a -> returns_with I Q (ret a).
Proof. intros HQ w H. by exists a, w. Qed.

Lemma returns_with_bind {A B} (Q : B -> Prop) (m : M A) (k : A -> M B) :
  returns I m -> (forall a, returns_with I Q (k a)) -> returns_with I Q (bind m k).
Proof.
  intros Hm Hk w H. destruct (Hm w H) as (a & w1 & E & H1).
  destruct (Hk a w1 H1) as (b & w2 & E2 & H2 & HQ).
  exists b, w2. unfold bind. by rewrite E.
Qed.

Lemma returns_with_for_acc {A S} (Q : S -> Prop) (items : list A)
      (body : S -> A -> M S) :
  (forall s v, v ∈ items -> Q s -> returns_with I Q (body s v)) ->
  forall s, Q s -> returns_with I Q (for_acc items s body).
Proof.
  induction items as [|v items IH]; intros Hb s Hs; simpl.
  - by apply returns_with_ret.
  - intros w H.
    destruct (Hb s v (proj2 (elem_of_cons _ _ _) (or_introl eq_refl)) Hs w H)
      as (s1 & w1 & E1 & H1 & Hs1).
    destruct (IH (λ s' v' Hv', Hb s' v' (proj2 (elem_of_cons _ _ _) (or_intror Hv')))
                 s1 Hs1 w1 H1) as (s2 & w2 & E2 & H2 & Hs2).
    exists s2, w2. unfold bind. by rewrite E1.
Qed.

End Returning.

Ltac bools :=
  repeat match goal with
         | H : (_ && _) = true |- _ => apply andb_prop in H as [? ?]
         | H : (_ || _) = false |- _ => apply orb_false_elim in H as [? ?]
         | H : (_ >=? _) = _ |- _ => rewrite Z.geb_leb in H
         | H : (_ >? _) = _ |- _ => rewrite Z.gtb_ltb in H
         | H : (_ <? _) = true |- _ => apply Z.ltb_lt in H
         | H : (_ <? _) = false |- _ => apply Z.ltb_ge in H
         | H : (_ <=? _) = true |- _ => apply Z.leb_le in H
         | H : (_ <=? _) = false |- _ => apply Z.leb_gt in H
         end.

Section SteadyFacts.

Implicit Types (e : Engine) (w : World).

Variable w0 : World.

Lemma steady_engine w w' : engine w' = engine w -> steady w0 w -> steady w0 w'.
Proof.
  intros He (HK & Hf & Ha). split; [by apply (conserved_engine w0 w)|].
  unfold framed. by rewrite He.
Qed.

Lemma steady_dims w :
  steady w0 w ->
  rectangular (engine w)
  /\ width (engine w) = width (engine w0)
  /\ height (engine w) = height (engine w0).
Proof. intros (([Hr _] & _) & (Hw & Hh & _) & _). done. Qed.

(** [this] hands over an engine of the size the tick started with. *)
Lemma returns_this {B} (k : Engine -> M B) :
  (forall e, width e = width (engine w0) -> height e = height (engine w0) ->
             returns (steady w0) (k e)) ->
  returns (steady w0) (bind this k).
Proof.
  intros Hk w H. destruct (steady_dims w H) as (_ & Hw & Hh).
  destruct (Hk (engine w) Hw Hh w H) as (b & w' & E & H').
  by exists b, w'.
Qed.

Lemma returns_with_this {B} (Q : B -> Prop) (k : Engine -> M B) :
  (forall e, width e = width (engine w0) -> height e = height (engine w0) ->
             returns_with (steady w0) Q (k e)) ->
  returns_with (steady w0) Q (bind this k).
Proof.
  intros Hk w H. destruct (steady_dims w H) as (_ & Hw & Hh).
  destruct (Hk (engine w) Hw Hh w H) as (b & w' & E & H').
  by exists b, w'.
Qed.

Lemma returns_Math_random : returns (steady w0) Math_random.
Proof.
  intros w H. eexists _, _. split; [reflexivity|]. by apply (steady_engine w).
Qed.

Lemma returns_random_direction : returns (steady w0) random_direction.
Proof.
  unfold random_direction. apply returns_bind; [apply returns_Math_random|].
  intros r. apply returns_ret.
Qed.

(** Reading a cell of an existing row cannot throw. *)
Lemma returns_grid_get x y :
  0 <= y < height (engine w0) -> returns (steady w0) (grid_get x y).
Proof.
  intros Hy w H. destruct (steady_dims w H) as ([Hl _] & _ & Hh).
  unfold grid_get, grid_row. destruct (Z.ltb_spec y 0); [lia|].
  destruct (lookup_lt_is_Some_2 (grid (engine w)) (Z.to_nat y)) as [r Hr]; [lia|].
  rewrite Hr. by eexists _, _.
Qed.

(** The active regions stay inside the grid. *)
Lemma set_add_inside (P : Z * Z -> Prop) k s :
  P k -> Forall P s -> Forall P (set_add k s).
Proof.
  intros Hk Hs. unfold set_add. case_bool_decide; [done|].
  apply Forall_app. split; [done|]. by apply Forall_singleton.
Qed.

Lemma markRegion_inside width height x y s :
  0 <= x < width -> 0 <= y < height ->
  Forall (λ c, 0 <= c.1 < width /\ 0 <= c.2 < height) s ->
  Forall (λ c, 0 <= c.1 < width /\ 0 <= c.2 < height) (markRegion width height x y s).
Proof.
  intros Hx Hy Hs. unfold markRegion.
  assert (Hstart : Forall (λ c, 0 <= c.1 < width /\ 0 <= c.2 < height)
                     (set_add (x, y) s)) by (by apply set_add_inside).
  revert Hstart. generalize (set_add (x, y) s). generalize (offsets 1).
  intros l. induction l as [|[dx dy] l IH]; intros s' Hs'; simpl; [done|].
  apply IH. destruct (inBounds (x + dx) (y + dy) width height) eqn:Hin; [|done].
  apply set_add_inside; [|done]. unfold inBounds in Hin. bools. simpl. lia.
Qed.

Lemma marked_inside w x y :
  inside (engine w) x y -> active_inside (engine w) ->
  active_inside (engine (on_engine (mark x y) w)).
Proof.
  intros [Hx Hy] Ha. unfold active_inside in *. simpl.
  by apply (markRegion_inside (width (engine w)) (height (engine w))).
Qed.

Lemma active_moveParticle fromX fromY toX toY w b w' :
  rectangular (engine w) -> active_inside (engine w) ->
  moveParticle fromX fromY toX toY w = Ok b w' -> active_inside (engine w').
Proof.
  intros Hr Ha E.
  destruct (outside (engine w) fromX fromY || outside (engine w) toX toY) eqn:Ho.
  { unfold moveParticle, bind at 1, this in E. rewrite Ho in E.
    unfold ret in E. by simplify_eq. }
  apply orb_false_elim in Ho as [H1 H2].
  apply inside_or_outside in H1, H2.
  rewrite moveParticle_inside in E by done.
  destruct (cell_at (grid (engine w)) fromX fromY) as [| |p];
    [by simplify_eq..|].
  destruct (cell_at (grid (engine w)) toX toY) as [| |q];
    [by simplify_eq| |by simplify_eq].
  simplify_eq. apply marked_inside; [exact H2|].
  by apply (marked_inside (with_cell fromX fromY Null
                             (with_cell toX toY
                                (Obj (with_updated true (with_pos toX toY p))) w))).
Qed.

Lemma active_swapParticles x1 y1 x2 y2 w b w' :
  sound w -> active_inside (engine w) ->
  swapParticles x1 y1 x2 y2 w = Ok b w' -> active_inside (engine w').
Proof.
  intros Hs Ha E. pose proof Hs as [Hr Hc].
  unfold swapParticles, bind at 1, this in E.
  destruct (outside (engine w) x1 y1 || outside (engine w) x2 y2) eqn:Ho.
  { unfold ret in E. by simplify_eq. }
  apply orb_false_elim in Ho as [H1 H2].
  apply inside_or_outside in H1, H2.
  unfold bind at 1 in E. rewrite grid_get_inside in E by done.
  unfold bind at 1 in E. rewrite grid_get_inside in E by done.
  pose proof (cell_at_defined _ _ _ Hr H1) as Hd1.
  pose proof (cell_at_defined _ _ _ Hr H2) as Hd2.
  destruct (cell_at (grid (engine w)) x1 y1) as [| |p1] eqn:Hc1;
    [done|simpl in E; unfold ret in E; by simplify_eq|].
  destruct (cell_at (grid (engine w)) x2 y2) as [| |p2] eqn:Hc2;
    [done|simpl in E; unfold ret in E; by simplify_eq|].
  simpl in E.
  unfold bind at 1 in E. rewrite grid_set_inside in E by done.
  assert (Hs1 : sound (with_cell x1 y1 (Obj p2) w))
    by (apply with_cell_sound; [done..|by rewrite Hc1]).
  unfold bind at 1 in E. rewrite grid_set_inside in E; [|apply Hs1|done].
  assert (Hs2 : sound (with_cell x2 y2 (Obj p1) (with_cell x1 y1 (Obj p2) w))).
  { apply with_cell_sound; [done..|].
    apply with_cell_still_occupied; [done..|by rewrite Hc2]. }
  unfold bind at 1 in E.
  destruct (grid_mutate_sound
              (with_cell x2 y2 (Obj p1) (with_cell x1 y1 (Obj p2) w)) x1 y1
              (λ p, with_updated true (with_pos x1 y1 p)))
    as (q1 & Hm1 & Hs3); [done..| |].
  { apply with_cell_still_occupied; [apply Hs1|done|].
    by rewrite with_cell_at_same. }
  rewrite Hm1 in E. unfold bind at 1 in E.
  destruct (grid_mutate_sound
              (with_cell x1 y1 (Obj q1)
                 (with_cell x2 y2 (Obj p1) (with_cell x1 y1 (Obj p2) w))) x2 y2
              (λ p, with_updated true (with_pos x2 y2 p)))
    as (q2 & Hm2 & Hs4); [done..| |].
  { apply with_cell_still_occupied; [apply Hs2|done|].
    by rewrite with_cell_at_same; [|apply Hs1|]. }
  rewrite Hm2 in E.
  unfold bind at 1 in E. rewrite _markRegionActive_runs in E.
  unfold bind at 1 in E. rewrite _markRegionActive_runs in E.
  unfold ret in E. simplify_eq.
  apply marked_inside; [exact H2|].
  by apply (marked_inside
              (with_cell x2 y2 (Obj q2)
                 (with_cell x1 y1 (Obj q1)
                    (with_cell x2 y2 (Obj p1) (with_cell x1 y1 (Obj p2) w))))).
Qed.

Lemma steady_moveParticle fromX fromY toX toY :
  preserves (steady w0) (moveParticle fromX fromY toX toY).
Proof.
  intros w a w' (HK & Hf & Ha) E. split; [|split].
  - by eapply conserved_moveParticle.
  - by eapply (framed_moveParticle (engine w0)).
  - eapply active_moveParticle; [apply HK|exact Ha|exact E].
Qed.

Lemma steady_swapParticles x1 y1 x2 y2 :
  preserves (steady w0) (swapParticles x1 y1 x2 y2).
Proof.
  intros w a w' (HK & Hf & Ha) E. split; [|split].
  - by eapply conserved_swapParticles.
  - by eapply (framed_swapParticles (engine w0)).
  - eapply active_swapParticles; [apply HK|exact Ha|exact E].
Qed.

Lemma returns_moveParticle fromX fromY toX toY :
  returns (steady w0) (moveParticle fromX fromY toX toY).
Proof.
  apply returns_total; [|apply steady_moveParticle].
  intros w ((Hs & _) & _). by apply moveParticle_runs.
Qed.

Lemma returns_swapParticles x1 y1 x2 y2 :
  returns (steady w0) (swapParticles x1 y1 x2 y2).
Proof.
  apply returns_total; [|apply steady_swapParticles].
  intros w ((Hs & _) & _). by apply swapParticles_runs.
Qed.

(** A region can be dropped. *)
Lemma returns_drop_region x y :
  returns (steady w0)
    (modify (λ e, with_activeRegions (set_delete (x, y) (activeRegions e)) e)).
Proof.
  intros w (HK & Hf & Ha). eexists _, _. split; [reflexivity|]. split; [|split].
  - by eapply (conserved_activeRegions w0 _ w tt).
  - by eapply (framed_activeRegions (engine w0) _ w tt).
  - unfold active_inside in *. simpl. unfold set_delete.
    apply Forall_forall. intros c Hc. apply list_elem_of_filter in Hc as [_ Hc].
    rewrite Forall_forall in Ha. by apply Ha.
Qed.

(** Writing to a particle that is there cannot throw. *)
Lemma flag_runs w x y p b :
  steady w0 w -> inside (engine w) x y ->
  cell_at (grid (engine w)) x y = Obj p ->
  exists w', grid_mutate x y (with_updated b) w = Ok tt w' /\ steady w0 w'.
Proof.
  intros (HK & Hf & Ha) Hi Hp. pose proof HK as ([Hr _] & _).
  rewrite (grid_mutate_inside w x y _ p Hr Hi Hp).
  eexists. split; [reflexivity|]. split; [|split].
  - by apply (conserved_retyped w0 w x y p).
  - exact Hf.
  - exact Ha.
Qed.

End SteadyFacts.

Section SteadyTick.

Implicit Types (e : Engine) (w : World).

Variable w0 : World.
Variable sort_at_random : list (Z * Z) -> M (list (Z * Z)).

Lemma returns_column_free tx ty :
  0 <= ty < height (engine w0) -> returns (steady w0) (column_free tx ty).
Proof.
  intros Hy. unfold column_free. apply returns_this. intros e Hw Hh.
  destruct ((tx >=? 0) && (tx <? width e)); [|apply returns_ret].
  apply returns_bind; [by apply returns_grid_get|].
  intros c. apply returns_ret.
Qed.

Lemma returns_move_then fromX fromY toX toY :
  returns (steady w0) (moveParticle fromX fromY toX toY;; ret true).
Proof.
  apply returns_bind; [apply returns_moveParticle|]. intros _. apply returns_ret.
Qed.

Lemma returns_sand_diagonal self x y tx :
  0 <= y + 1 < height (engine w0) ->
  returns (steady w0) (Behaviors.sand_diagonal self x y tx).
Proof.
  intros Hy. unfold Behaviors.sand_diagonal.
  apply returns_bind; [by apply returns_column_free|].
  intros [|]; [|apply returns_ret].
  apply returns_bind; [apply returns_Math_random|]. intros r.
  destruct (Js.lt_prop r _); [apply returns_move_then|apply returns_ret].
Qed.

Lemma returns_sand_update self x y :
  0 <= y < height (engine w0) ->
  returns (steady w0) (Behaviors.sand_update self x y).
Proof.
  intros Hy. unfold Behaviors.sand_update. apply returns_this. intros e Hw Hh.
  destruct (y >=? height e - 1) eqn:Hlast; [apply returns_ret|]. bools.
  apply returns_bind; [apply returns_grid_get; lia|]. intros below.
  destruct (negb (truthy below)); [apply returns_move_then|].
  apply returns_bind; [apply returns_random_direction|]. intros direction.
  apply returns_bind; [apply returns_sand_diagonal; lia|].
  intros [|]; [apply returns_ret|].
  apply returns_bind; [apply returns_sand_diagonal; lia|].
  intros [|]; apply returns_ret.
Qed.

Lemma returns_water_update self x y :
  0 <= y < height (engine w0) ->
  returns (steady w0) (Behaviors.water_update self x y).
Proof.
  intros Hy. unfold Behaviors.water_update. apply returns_this. intros e Hw Hh.
  destruct (y >=? height e - 1) eqn:Hlast; [apply returns_ret|]. bools.
  apply returns_bind; [apply returns_grid_get; lia|]. intros below.
  destruct (negb (truthy below)); [apply returns_move_then|].
  apply returns_bind; [apply returns_random_direction|]. intros flowDirection.
  apply returns_bind; [apply returns_column_free; lia|].
  intros [|]; [apply returns_move_then|].
  apply returns_bind; [apply returns_column_free; lia|].
  intros [|]; [apply returns_move_then|].
  apply returns_bind; [apply returns_Math_random|]. intros r.
  destruct (Js.lt_prop r _); [|apply returns_ret].
  apply returns_bind; [apply returns_column_free; lia|].
  intros [|]; [apply returns_move_then|].
  apply returns_bind; [apply returns_column_free; lia|].
  intros [|]; [apply returns_move_then|apply returns_ret].
Qed.

Lemma returns_behave t x y :
  t ∈ inert_or_flowing -> 0 <= y < height (engine w0) ->
  returns (steady w0) (behave sort_at_random t x y).
Proof.
  unfold inert_or_flowing. intros Ht Hy.
  repeat match goal with
         | H : _ ∈ _ :: _ |- _ => apply elem_of_cons in H as [->|H]
         | H : _ ∈ [] |- _ => by apply elem_of_nil in H
         end.
  - by apply (returns_sand_update Particles.sand).
  - apply returns_ret.
  - apply returns_ret.
  - apply returns_ret.
  - by apply (returns_water_update Particles.water).
  - by apply (returns_water_update Particles.oil).
Qed.

Lemma returns_water_oil waterX waterY oilX oilY :
  returns (steady w0) (Interactions.water_oil waterX waterY oilX oilY).
Proof.
  unfold Interactions.water_oil. destruct (waterY <? oilY); [|apply returns_ret].
  apply returns_bind; [apply returns_swapParticles|]. intros _. apply returns_ret.
Qed.

Lemma returns_processInteraction x1 y1 x2 y2 :
  0 <= y1 < height (engine w0) -> 0 <= y2 < height (engine w0) ->
  returns (steady w0) (Interactions.processInteraction x1 y1 x2 y2).
Proof.
  intros Hy1 Hy2 w HT. pose proof HT as (([Hr _] & Hh & _) & _).
  destruct (returns_grid_get w0 x1 y1 Hy1 w HT) as (c1 & w1 & E1 & _).
  pose proof (grid_get_same _ _ _ _ _ E1) as ->.
  destruct (returns_grid_get w0 x2 y2 Hy2 w HT) as (c2 & w2 & E2 & _).
  pose proof (grid_get_same _ _ _ _ _ E2) as ->.
  unfold Interactions.processInteraction. unfold bind at 1. rewrite E1.
  destruct c1 as [| |p1]; [by exists false, w..|].
  unfold bind at 1. rewrite E2.
  destruct c2 as [| |p2]; [by exists false, w..|].
  destruct (grid_get_obj_inside _ _ _ _ _ Hr E1) as [_ Hc1].
  destruct (grid_get_obj_inside _ _ _ _ _ Hr E2) as [_ Hc2].
  pose proof (Hh _ _ _ Hc1) as Ht1. pose proof (Hh _ _ _ Hc2) as Ht2.
  cbv zeta.
  rewrite (reaction_among_inert _ _ Ht1 Ht2), (reaction_among_inert _ _ Ht2 Ht1).
  destruct (String.eqb (type p1) "water" && String.eqb (type p2) "oil").
  { by apply returns_water_oil. }
  destruct (String.eqb (type p2) "water" && String.eqb (type p1) "oil").
  { by apply returns_water_oil. }
  by exists false, w.
Qed.

Lemma returns_interact x y d :
  0 <= y < height (engine w0) ->
  returns (steady w0) (Interactions.interact x y d).
Proof.
  intros Hy. destruct d as [dx dy]. unfold Interactions.interact.
  destruct ((dx =? 0) && (dy =? 0)); [apply returns_ret|]. cbv zeta.
  apply returns_this. intros e Hw Hh.
  destruct (inBounds (x + dx) (y + dy) (width e) (height e)) eqn:Hin;
    [|apply returns_ret].
  unfold inBounds in Hin. bools.
  apply returns_bind; [apply returns_grid_get; lia|]. intros c.
  destruct (truthy c); [|apply returns_ret].
  apply returns_bind; [apply returns_processInteraction; lia|].
  intros [|]; apply returns_ret.
Qed.

Lemma returns_processParticleInteractions x y :
  0 <= y < height (engine w0) ->
  returns (steady w0) (Interactions.processParticleInteractions x y).
Proof.
  intros Hy. unfold Interactions.processParticleInteractions.
  apply returns_bind; [by apply returns_grid_get|]. intros c.
  destruct (negb (truthy c)); [apply returns_ret|].
  apply returns_bind.
  - apply returns_for_return. intros d. by apply returns_interact.
  - intros [b|]; apply returns_ret.
Qed.

(** A cell inside the grid can be visited, and the regions the tick has
    collected stay inside the grid. *)
Lemma returns_visit t x y :
  0 <= x < width (engine w0) -> 0 <= y < height (engine w0) ->
  regions_inside w0 t ->
  returns_with (steady w0) (regions_inside w0) (visit sort_at_random t (x, y)).
Proof.
  intros Hx Hy Ht w HT. destruct (steady_dims w0 w HT) as (Hr & Hw & Hh).
  pose proof HT as ((_ & Hholds & _) & _).
  assert (Hi : inside (engine w) x y) by (unfold inside; lia).
  unfold visit. unfold bind at 1. rewrite grid_get_inside by done.
  destruct (cell_at (grid (engine w)) x y) as [| |particle] eqn:Hp;
    [by exists t, w..|].
  destruct (updated particle); [by exists t, w|].
  destruct (Particles.element (type particle)) as [el|];
    [|by exists t, w].
  unfold process. unfold bind at 1.
  destruct (flag_runs w0 w x y particle true HT Hi Hp) as (w1 & -> & HT1).
  assert (Hmarked : forall e, width e = width (engine w0) ->
                              height e = height (engine w0) ->
            Forall (λ c, 0 <= c.1 < width (engine w0) /\ 0 <= c.2 < height (engine w0))
                   (markRegion (width e) (height e) x y (newActiveRegions t))).
  { intros e -> ->. by apply markRegion_inside. }
  revert w1 HT1. change (returns_with (steady w0) (regions_inside w0)
    (reacted ← Interactions.processParticleInteractions x y;
     if reacted then
       e ← this;
       ret (mkTick (markRegion (width e) (height e) x y (newActiveRegions t))
                   (updatedCount t + 1))
     else
       changed ← behave sort_at_random (type particle) x y;
       e ← this;
       (if Particles.el_static el && set_has (x, y) (activeRegions e)
        then if negb (bool_decide (Particles.el_state el = Some "special"))
             then modify (λ e, with_activeRegions
                                 (set_delete (x, y) (activeRegions e)) e)
             else skip
        else skip);;
       ret (mkTick (if changed
                    then markRegion (width e) (height e) x y (newActiveRegions t)
                    else newActiveRegions t)
                   (updatedCount t + 1)))).
  apply returns_with_bind; [by apply returns_processParticleInteractions|].
  intros [|].
  { apply returns_with_this. intros e He1 He2. apply returns_with_ret.
    by apply Hmarked. }
  apply returns_with_bind; [apply returns_behave; [by eapply Hholds|done]|].
  intros changed. apply returns_with_this. intros e He1 He2.
  apply returns_with_bind.
  - destruct (Particles.el_static el && set_has (x, y) (activeRegions e));
      [|apply returns_ret].
    destruct (negb (bool_decide (Particles.el_state el = Some "special")));
      [apply returns_drop_region|apply returns_ret].
  - intros _. apply returns_with_ret. unfold regions_inside. simpl.
    destruct changed; [by apply Hmarked|exact Ht].
Qed.

Lemma returns_reset_flags : returns (steady w0) reset_flags.
Proof.
  unfold reset_flags. apply returns_this. intros e Hw Hh.
  apply returns_for_each. intros y Hy. apply elem_of_range in Hy.
  apply returns_for_each. intros x Hx. apply elem_of_range in Hx.
  intros w HT. destruct (steady_dims w0 w HT) as (Hr & Hw' & Hh').
  assert (Hi : inside (engine w) x y) by (unfold inside; lia).
  unfold bind at 1. rewrite grid_get_inside by done.
  destruct (cell_at (grid (engine w)) x y) as [| |p] eqn:Hp;
    [by exists tt, w..|].
  simpl. destruct (flag_runs w0 w x y p false HT Hi Hp) as (w1 & -> & HT1).
  by exists tt, w1.
Qed.

End SteadyTick.

Section CalmTicks.

Implicit Types (e : Engine) (w : World).

Lemma elem_of_by_columns xs ys x y :
  (x, y) ∈ by_columns xs ys <-> x ∈ xs /\ y ∈ ys.
Proof.
  unfold by_columns. rewrite list_elem_of_In, in_flat_map. split.
  - intros (x' & Hx & Hin). apply in_map_iff in Hin as (y' & [= -> ->] & Hy).
    by rewrite !list_elem_of_In.
  - intros [Hx Hy]. exists x. rewrite <- list_elem_of_In. split; [done|].
    apply in_map_iff. exists y. by rewrite <- list_elem_of_In.
Qed.

Lemma elem_of_range_down lo hi v : v ∈ range_down lo hi <-> lo <= v < hi.
Proof. unfold range_down. by rewrite elem_of_reverse, elem_of_range. Qed.

(** With a direction for the gravity the visit order is computed without a
    random draw, and it names cells of the grid only. *)
Lemma updateOrder_inside w :
  directional (gravity (engine w)) -> active_inside (engine w) ->
  exists order,
    updateOrder w = Ok order w
    /\ Forall (λ c, inside (engine w) c.1 c.2) order.
Proof.
  intros Hdir Ha.
  assert (Hrows : forall ys xs,
            (forall y, y ∈ ys -> 0 <= y < height (engine w)) ->
            (forall x, x ∈ xs -> 0 <= x < width (engine w)) ->
            Forall (λ c, inside (engine w) c.1 c.2) (by_rows ys xs)).
  { intros ys xs Hys Hxs. apply Forall_forall. intros [x y] Hin.
    apply elem_of_by_rows in Hin as [Hy Hx]. split; simpl; auto. }
  assert (Hcols : forall xs ys,
            (forall x, x ∈ xs -> 0 <= x < width (engine w)) ->
            (forall y, y ∈ ys -> 0 <= y < height (engine w)) ->
            Forall (λ c, inside (engine w) c.1 c.2) (by_columns xs ys)).
  { intros xs ys Hxs Hys. apply Forall_forall. intros [x y] Hin.
    apply elem_of_by_columns in Hin as [Hx Hy]. split; simpl; auto. }
  assert (Hup : forall n v, v ∈ range 0 n -> 0 <= v < n)
    by (intros n v; by rewrite elem_of_range).
  assert (Hdown : forall n v, v ∈ range_down 0 n -> 0 <= v < n)
    by (intros n v; by rewrite elem_of_range_down).
  unfold updateOrder, bind, this.
  destruct Hdir as [Hg|[Hg|[Hg|Hg]]]; rewrite Hg; simpl.
  - unfold _getBottomToTopOrder, bind, this.
    destruct (active_only (engine w)); eexists; (split; [reflexivity|]); auto.
  - unfold _getTopToBottomOrder, bind, this.
    destruct (active_only (engine w)); eexists; (split; [reflexivity|]); auto.
  - unfold _getLeftToRightOrder, bind, this.
    destruct (active_only (engine w)); eexists; (split; [reflexivity|]); auto.
  - unfold _getRightToLeftOrder, bind, this.
    destruct (active_only (engine w)); eexists; (split; [reflexivity|]); auto.
Qed.

Lemma merged_inside (P : Z * Z -> Prop) (regions s : list (Z * Z)) :
  Forall P regions -> Forall P s ->
  Forall P (fold_left (λ s region, set_add region s) regions s).
Proof.
  revert s. induction regions as [|r regions IH]; intros s Hr Hs; simpl; [done|].
  inversion Hr; subst. apply IH; [done|]. by apply set_add_inside.
Qed.

Lemma conserved_trans w0 w1 w2 :
  conserved w0 w1 -> conserved w1 w2 -> conserved w0 w2.
Proof.
  intros (_ & _ & Hn1 & Hc1) (Hs & Hh & Hn2 & Hc2).
  split; [done|]. split; [done|]. split; [congruence|].
  intros t. by rewrite Hc2, Hc1.
Qed.

(** A tick of a calm world returns, keeps every particle with its type, and
    leaves a calm world. *)
Lemma update_calm sort_at_random w :
  calm w ->
  exists n w',
    update sort_at_random w = Ok n w' /\ calm w' /\ conserved w w'.
Proof.
  intros (Hs & Hh & Hdir & Ha).
  destruct (active (engine w)) eqn:Hactive.
  2: { exists 0, w. split; [|split; [done|by apply conserved_refl]].
       unfold update, bind, this. by rewrite Hactive. }
  assert (HT0 : steady w w).
  { split; [by apply conserved_refl|]. split; [apply frame_refl|done]. }
  destruct (returns_reset_flags w w HT0) as ([] & w1 & E1 & HT1).
  rewrite (update_running sort_at_random w w1 Hactive E1).
  pose proof HT1 as (HK1 & Hf1 & Ha1).
  pose proof Hf1 as (Hw1 & Hh1 & _ & Hg1 & _).
  destruct (updateOrder_inside w1) as (order & Eo & Hin); [by rewrite Hg1|done|].
  unfold bind at 1. rewrite Eo.
  destruct (returns_with_for_acc (steady w) (regions_inside w) order
              (visit sort_at_random)) with (s := mkTick [] 0) (w := w1)
    as (t & w2 & E2 & HT2 & Ht); [|constructor|exact HT1|].
  { intros s [x y] Hv Hs'. rewrite Forall_forall in Hin.
    destruct (Hin _ Hv) as [Hx Hy]. simpl in Hx, Hy.
    apply returns_visit; [lia..|done]. }
  unfold bind at 1. rewrite E2.
  pose proof HT2 as (HK2 & Hf2 & Ha2).
  pose proof Hf2 as (Hw2 & Hh2 & _ & Hg2 & _).
  eexists _, _. split; [reflexivity|].
  assert (HK3 : conserved w
            (mkWorld
               (with_updateCount
                  (updateCount
                     (with_activeRegions
                        (fold_left (λ s region, set_add region s)
                                   (newActiveRegions t) (activeRegions (engine w2)))
                        (engine w2)) + 1)
                  (with_activeRegions
                     (fold_left (λ s region, set_add region s)
                                (newActiveRegions t) (activeRegions (engine w2)))
                     (engine w2)))
               (rng w2))).
  { destruct HK2 as ([[Hl Hrows] Hca] & Hh2' & Hn2 & Hc2).
    exact (conj (conj (conj Hl Hrows) Hca) (conj Hh2' (conj Hn2 Hc2))). }
  split; [|exact HK3].
  destruct HK3 as (Hs3 & Hh3 & _).
  split; [exact Hs3|]. split; [exact Hh3|]. split.
  - simpl. by rewrite Hg2.
  - unfold active_inside. simpl. apply merged_inside; [|exact Ha2].
    unfold regions_inside in Ht. eapply Forall_impl; [exact Ht|].
    intros c Hc. unfold inside. simpl. by rewrite Hw2, Hh2.
Qed.

(** Any number of ticks of a calm world return. *)
Lemma ticks_calm sort_at_random (n : nat) :
  forall w, calm w ->
    exists w', ticks sort_at_random n w = Ok tt w' /\ calm w' /\ conserved w w'.
Proof.
  induction n as [|n IH]; intros w Hc.
  - exists w. split; [done|]. split; [done|].
    destruct Hc as (Hs & Hh & _). by apply conserved_refl.
  - destruct (update_calm sort_at_random w Hc) as (k & w1 & E1 & Hc1 & HK1).
    destruct (IH w1 Hc1) as (w2 & E2 & Hc2 & HK2).
    exists w2. split; [|split; [done|by eapply conserved_trans]].
    simpl. unfold bind. by rewrite E1.
Qed.

End CalmTicks.

(** ** The void *)

Section VoidFacts.

Implicit Types (e : Engine) (w : World).

Lemma cell_at_obj_inside e x y p :
  rectangular e -> cell_at (grid e) x y = Obj p -> inside e x y.
Proof.
  intros [Hl Hrows] Hc. unfold cell_at, grid_row in Hc.
  destruct (y <? 0) eqn:Ey; [done|]. apply Z.ltb_ge in Ey.
  destruct (grid e !! Z.to_nat y) as [r|] eqn:Er; [|done].
  pose proof (lookup_lt_Some _ _ _ Er) as Hy.
  rewrite Forall_lookup in Hrows. destruct (Hrows _ _ Er) as [Hw _].
  unfold row_get in Hc. destruct (x <? 0) eqn:Ex; [done|]. apply Z.ltb_ge in Ex.
  destruct (r !! Z.to_nat x) as [c|] eqn:Ec; [|done].
  pose proof (lookup_lt_Some _ _ _ Ec) as Hx. unfold inside. lia.
Qed.

Lemma inBounds_true e x y : inside e x y -> inBounds x y (width e) (height e) = true.
Proof.
  intros [Hx Hy]. unfold inBounds.
  rewrite !andb_true_iff, Z.geb_leb, Z.geb_leb, !Z.leb_le, !Z.ltb_lt. lia.
Qed.

Lemma inBounds_false e x y : ~ inside e x y -> inBounds x y (width e) (height e) = false.
Proof.
  intros Hn. destruct (inBounds x y (width e) (height e)) eqn:E; [|done].
  exfalso. apply Hn. unfold inBounds in E. bools. unfold inside. lia.
Qed.

Variables x y : Z.

(** The body of the loop of the void. *)
Let devour (deleted : bool) (d : Z * Z) : M bool :=
  let '(dx, dy) := d in
  if (dx =? 0) && (dy =? 0) then ret deleted else
  let nx := x + dx in
  let ny := y + dy in
  n ← neighbor_at nx ny;
  match n with
  | None => ret deleted
  | Some target =>
      if String.eqb (type target) "void" || is_source (type target)
      then ret deleted
      else removeParticle nx ny;; ret true
  end.

Lemma devour_step deleted dx dy w :
  sound w ->
  exists b w' k,
    devour deleted (dx, dy) w = Ok b w'
    /\ sound w' /\ frame (engine w) (engine w') /\ rng w' = rng w
    /\ 0 <= k
    /\ particleCount (engine w') = particleCount (engine w) - k
    /\ b = deleted || (0 <? k)
    /\ ((dx, dy) ≠ (0, 0) ->
        devoured (cell_at (grid (engine w)) (x + dx) (y + dy)) = true ->
        cell_at (grid (engine w')) (x + dx) (y + dy) = Null)
    /\ ((dx, dy) = (0, 0)
        \/ devoured (cell_at (grid (engine w)) (x + dx) (y + dy)) = false ->
        cell_at (grid (engine w')) (x + dx) (y + dy)
        = cell_at (grid (engine w)) (x + dx) (y + dy))
    /\ (forall px py, (px, py) ≠ (x + dx, y + dy) ->
          cell_at (grid (engine w')) px py = cell_at (grid (engine w)) px py).
Proof.
  intros Hs. pose proof Hs as [Hr Hc].
  assert (Hsame :
            (dx, dy) = (0, 0)
            \/ devoured (cell_at (grid (engine w)) (x + dx) (y + dy)) = false ->
            exists (b : bool) w' k,
              Ok deleted w = Ok b w'
              /\ sound w' /\ frame (engine w) (engine w') /\ rng w' = rng w
              /\ 0 <= k
              /\ particleCount (engine w') = particleCount (engine w) - k
              /\ b = deleted || (0 <? k)
              /\ ((dx, dy) ≠ (0, 0) ->
                  devoured (cell_at (grid (engine w)) (x + dx) (y + dy)) = true ->
                  cell_at (grid (engine w')) (x + dx) (y + dy) = Null)
              /\ ((dx, dy) = (0, 0)
                  \/ devoured (cell_at (grid (engine w)) (x + dx) (y + dy)) = false ->
                  cell_at (grid (engine w')) (x + dx) (y + dy)
                  = cell_at (grid (engine w)) (x + dx) (y + dy))
              /\ (forall px py, (px, py) ≠ (x + dx, y + dy) ->
                    cell_at (grid (engine w')) px py
                    = cell_at (grid (engine w)) px py)).
  { intros Hcase. exists deleted, w, 0. split; [done|]. split; [done|].
    split; [apply frame_refl|]. split; [done|]. split; [lia|].
    split; [lia|]. split; [by rewrite orb_false_r|].
    split; [|done]. intros Hne Hd. destruct Hcase as [?|Hd']; [done|congruence]. }
  unfold devour.
  destruct ((dx =? 0) && (dy =? 0)) eqn:Hzero.
  { apply andb_prop in Hzero as [Hx0 Hy0].
    apply Z.eqb_eq in Hx0, Hy0. subst dx dy. apply Hsame. by left. }
  assert (Hne : (dx, dy) ≠ (0, 0)).
  { intros [= -> ->]. by rewrite !Z.eqb_refl in Hzero. }
  cbv zeta. unfold neighbor_at, bind at 1, bind at 1, this.
  destruct (decide (inside (engine w) (x + dx) (y + dy))) as [Hi|Hno].
  2: { rewrite (inBounds_false _ _ _ Hno). unfold ret. apply Hsame. right.
       destruct (cell_at (grid (engine w)) (x + dx) (y + dy)) as [| |p] eqn:Hp;
         [done..|].
       exfalso. apply Hno. by eapply cell_at_obj_inside. }
  rewrite (inBounds_true _ _ _ Hi). unfold bind at 1.
  rewrite grid_get_inside by done. unfold ret at 1.
  destruct (cell_at (grid (engine w)) (x + dx) (y + dy)) as [| |target] eqn:Hp.
  - apply Hsame. by right.
  - apply Hsame. by right.
  - simpl devoured in *.
    destruct (String.eqb (type target) "void" || is_source (type target)) eqn:Himmune.
    + apply Hsame. by right.
    + unfold bind. rewrite removeParticle_inside, Hp by done. simpl.
      exists true, (on_engine (mark (x + dx) (y + dy))
                      (on_engine (counted (-1))
                         (with_cell (x + dx) (y + dy) Null w))), 1.
      split; [done|].
      assert (E : removeParticle (x + dx) (y + dy) w
                  = Ok true (on_engine (mark (x + dx) (y + dy))
                               (on_engine (counted (-1))
                                  (with_cell (x + dx) (y + dy) Null w))))
        by (by rewrite removeParticle_inside, Hp).
      split; [by eapply removeParticle_sound|].
      split; [by repeat split|]. split; [done|]. split; [lia|].
      split; [simpl; lia|]. split; [by rewrite orb_true_r|].
      split; [intros _ _; by apply (with_cell_at_same w)|].
      split; [by intros [?|?]|].
      intros px py Hpq. by apply (with_cell_at_other w).
Qed.

Lemma devour_loop (l : list (Z * Z)) :
  forall deleted w,
    sound w ->
    exists b w' k,
      for_acc l deleted devour w = Ok b w'
      /\ sound w' /\ frame (engine w) (engine w') /\ rng w' = rng w
      /\ 0 <= k
      /\ particleCount (engine w') = particleCount (engine w) - k
      /\ b = deleted || (0 <? k)
      /\ (forall px py, (px - x, py - y) ∈ l -> (px, py) ≠ (x, y) ->
            devoured (cell_at (grid (engine w)) px py) = true ->
            cell_at (grid (engine w')) px py = Null)
      /\ (forall px py,
            (px - x, py - y) ∉ l \/ (px, py) = (x, y)
            \/ devoured (cell_at (grid (engine w)) px py) = false ->
            cell_at (grid (engine w')) px py = cell_at (grid (engine w)) px py).
Proof.
  induction l as [|[dx dy] l IH]; intros deleted w Hs.
  - exists deleted, w, 0. simpl. unfold ret. split; [done|]. split; [done|].
    split; [apply frame_refl|]. split; [done|]. split; [lia|]. split; [lia|].
    split; [by rewrite orb_false_r|].
    split; [intros ? ? Hin; by apply elem_of_nil in Hin|done].
  - destruct (devour_step deleted dx dy w Hs)
      as (b1 & w1 & k1 & E1 & Hs1 & Hf1 & Hr1 & Hk1 & Hn1 & Hb1 & Hnull1 & Hkeep1 & Hother1).
    destruct (IH b1 w1 Hs1)
      as (b & w' & k & E & Hs' & Hf' & Hr' & Hk & Hn & Hb & Hnull & Hkeep).
    exists b, w', (k1 + k). cbn [for_acc]. unfold bind. rewrite E1.
    split; [exact E|]. split; [done|]. split; [by eapply frame_trans|].
    split; [congruence|]. split; [lia|]. split; [lia|].
    split.
    { rewrite Hb, Hb1, <- orb_assoc. f_equal.
      destruct (Z.ltb_spec 0 k1), (Z.ltb_spec 0 k), (Z.ltb_spec 0 (k1 + k));
        simpl; try done; lia. }
    split.
    + intros px py Hin Hne Hd.
      destruct (decide ((px, py) = (x + dx, y + dy))) as [[= -> ->]|Hpq].
      * rewrite Hkeep.
        -- apply Hnull1; [|done]. intros [= -> ->]. apply Hne. f_equal; lia.
        -- right. right. rewrite Hnull1; [done| |done].
           intros [= -> ->]. apply Hne. f_equal; lia.
      * apply Hnull; [|done|by rewrite Hother1].
        apply elem_of_cons in Hin as [[= Hx Hy]|Hin]; [|done].
        exfalso. apply Hpq. f_equal; lia.
    + intros px py Hcase.
      assert (H1 : cell_at (grid (engine w1)) px py = cell_at (grid (engine w)) px py).
      { destruct (decide ((px, py) = (x + dx, y + dy))) as [[= -> ->]|Hpq];
          [|by apply Hother1].
        apply Hkeep1. destruct Hcase as [Hnotin|[Heq|Hd]].
        - exfalso. apply Hnotin. apply elem_of_cons. left. f_equal; lia.
        - left. injection Heq as Hx Hy. f_equal; lia.
        - by right. }
      rewrite <- H1. apply Hkeep. destruct Hcase as [Hnotin|[Heq|Hd]].
      * left. by apply not_elem_of_cons in Hnotin as [_ ?].
      * by right; left.
      * right. right. by rewrite H1.
Qed.

End VoidFacts.

Lemma elem_of_offsets r dx dy :
  (dx, dy) ∈ offsets r <-> - r <= dx <= r /\ - r <= dy <= r.
Proof.
  change (offsets r) with (by_rows (range (- r) (r + 1)) (range (- r) (r + 1))).
  rewrite elem_of_by_rows, !elem_of_range. lia.
Qed.

(** The void deletes the particles around it, voids and sources apart. *)
Lemma void_update_outcome x y w :
  sound w ->
  exists b w' k,
    Behaviors.void_update Particles.void x y w = Ok b w'
    /\ sound w' /\ frame (engine w) (engine w') /\ rng w' = rng w
    /\ 0 <= k
    /\ particleCount (engine w') = particleCount (engine w) - k
    /\ b = (0 <? k)
    /\ (forall px py, adjacent x y px py ->
          devoured (cell_at (grid (engine w)) px py) = true ->
          cell_at (grid (engine w')) px py = Null)
    /\ (forall px py,
          ~ adjacent x y px py
          \/ devoured (cell_at (grid (engine w)) px py) = false ->
          cell_at (grid (engine w')) px py = cell_at (grid (engine w)) px py).
Proof.
  intros Hs.
  destruct (devour_loop x y (offsets 1) false w Hs)
    as (b & w' & k & E & Hs' & Hf & Hr & Hk & Hn & Hb & Hnull & Hkeep).
  exists b, w', k. split; [exact E|].
  split; [exact Hs'|]. split; [exact Hf|]. split; [exact Hr|].
  split; [exact Hk|]. split; [exact Hn|]. split; [exact Hb|]. split.
  - intros px py (Hne & Hx & Hy) Hd. apply Hnull; [|done..].
    apply elem_of_offsets. lia.
  - intros px py [Hna|Hd]; apply Hkeep; [|by right; right].
    destruct (decide ((px, py) = (x, y))) as [Heq|Hne]; [by right; left|].
    left. intros Hin. apply elem_of_offsets in Hin. apply Hna.
    split; [done|]. lia.
Qed.

(** ** Colours *)

Section ColourFacts.

Implicit Types (e : Engine) (w : World).

(** Every element of the table has a colour. *)
Lemma element_has_colour (t : string) (el : Particles.Element) :
  Particles.lookup Particles.ELEMENTS t = Some el ->
  exists colour, Particles.lookup Particles.COLORS t = Some colour.
Proof.
  unfold Particles.ELEMENTS, Particles.COLORS. cbn [Particles.lookup].
  repeat (destruct (String.eqb _ t); [by eauto|]). done.
Qed.

Lemma clamp_channel (v : float) : channel_ok (Utils.clamp v 0 255).
Proof.
  destruct (Js.is_nan v) eqn:Hv.
  - left. by apply clamp_nan.
  - right. by destruct (clamp_bounds v 0 255) as (_ & H1 & H2).
Qed.

Lemma randomInt_engine lo hi w n w' :
  Utils.randomInt lo hi w = Ok n w' -> engine w' = engine w.
Proof.
  unfold Utils.randomInt, bind, Math_random, ret. by intros; simplify_eq.
Qed.

(** The colour of a cell inside the grid. *)
Lemma getPixelColor_outcome x y w :
  rectangular (engine w) -> inside (engine w) x y ->
  exists c w',
    getPixelColor x y w = Ok c w'
    /\ engine w' = engine w
    /\ (cell_at (grid (engine w)) x y = Null -> c = None /\ w' = w)
    /\ (forall p, cell_at (grid (engine w)) x y = Obj p ->
          is_Some (Particles.lookup Particles.ELEMENTS (type p)) ->
          exists r g b,
            c = Some (r, g, b)
            /\ (Js.falsy (colorVariation p) = false ->
                w' = w /\ channel_ok r /\ channel_ok g /\ channel_ok b)).
Proof.
  intros Hr Hi. unfold getPixelColor, bind at 1.
  rewrite grid_get_inside by done.
  pose proof (cell_at_defined _ _ _ Hr Hi) as Hdef.
  destruct (cell_at (grid (engine w)) x y) as [| |p] eqn:Hp; [done| |].
  { exists None, w. split; [done|]. split; [done|]. split; [done|]. done. }
  destruct (Particles.element (type p)) as [el|] eqn:Hel.
  2: { exists None, w. split; [done|]. split; [done|]. split; [done|].
       intros q [= <-] Hsome. apply element_known in Hsome.
       rewrite Hel in Hsome. by destruct Hsome. }
  cbv zeta.
  destruct (rgb_of (Utils.hexToRgb _)) as [[r0 g0] b0].
  assert (Hdone : forall (c : Rgb) w',
            (Js.falsy (colorVariation p) = false ->
             w' = w /\ channel_ok c.1.1 /\ channel_ok c.1.2 /\ channel_ok c.2) ->
            engine w' = engine w ->
            exists c0 w0,
              Ok (Some c) w' = Ok c0 w0
              /\ engine w0 = engine w
              /\ (Obj p = Null -> c0 = None /\ w0 = w)
              /\ (forall q, Obj p = Obj q ->
                    is_Some (Particles.lookup Particles.ELEMENTS (type q)) ->
                    exists r g b,
                      c0 = Some (r, g, b)
                      /\ (Js.falsy (colorVariation q) = false ->
                          w0 = w /\ channel_ok r /\ channel_ok g /\ channel_ok b))).
  { intros [[r g] b] w' Hch He. exists (Some (r, g, b)), w'.
    split; [done|]. split; [done|]. split; [done|].
    intros q [= <-] _. by exists r, g, b. }
  destruct (Js.falsy (colorVariation p)) eqn:Hcv; cbn [negb]; cbv beta iota.
  2: { unfold ret. apply Hdone; [|done]. intros _. split; [done|].
       simpl. by repeat split; apply clamp_channel. }
  destruct (String.eqb (type p) "fire").
  { destruct (negb (Js.falsy (life p))); [|unfold ret; by apply Hdone].
    unfold bind at 1.
    change (Particles.lifespan_bounds Particles.fire w)
      with (Ok (40%float, 100%float) w).
    cbv beta iota.
    destruct (0.7 <? num (life p) / 100)%float;
      [|destruct (0.3 <? num (life p) / 100)%float];
      unfold bind, Utils.randomInt, bind, Math_random, ret;
      by apply Hdone. }
  destruct (String.eqb (type p) "wood"
            && negb (Interactions.burning_falsy (burning p)));
    [unfold ret; by apply Hdone|].
  destruct (String.eqb (type p) "metal" && negb (Js.falsy (corrosion p)));
    unfold ret; by apply Hdone.
Qed.

End ColourFacts.

(** ** The sources *)

Section SourceFacts.

Implicit Types (e : Engine) (w : World).

Lemma empty_at_outcome nx ny w :
  rectangular (engine w) ->
  exists free,
    empty_at nx ny w = Ok free w
    /\ (free = true <->
        inside (engine w) nx ny /\ cell_at (grid (engine w)) nx ny = Null).
Proof.
  intros Hr. unfold empty_at, bind at 1, this.
  destruct (decide (inside (engine w) nx ny)) as [Hi|Hno].
  - rewrite (inBounds_true _ _ _ Hi). unfold bind.
    rewrite grid_get_inside by done.
    pose proof (cell_at_defined _ _ _ Hr Hi) as Hdef.
    eexists. split; [reflexivity|].
    destruct (cell_at (grid (engine w)) nx ny) as [| |p]; simpl.
    + done.
    + by split.
    + split; [done|]. by intros [_ ?].
  - rewrite (inBounds_false _ _ _ Hno). exists false. split; [done|].
    split; [done|]. by intros [? _].
Qed.

Variables (x y : Z) (kind : string).
Hypothesis kind_known : is_Some (Particles.lookup Particles.ELEMENTS kind).

(** The loop of a source over the directions it was handed. *)
Lemma emit_loop (l : list (Z * Z)) :
  forall w,
    sound w ->
    exists r w',
      for_return l
        (λ '(dx, dy),
           free ← empty_at (x + dx) (y + dy);
           if free then createParticle (x + dx) (y + dy) kind;; ret (Some true)
           else ret None) w = Ok r w'
      /\ sound w'
      /\ (r = None /\ w' = w
          \/ r = Some true
             /\ particleCount (engine w') = particleCount (engine w) + 1
             /\ exists dx dy q,
                  (dx, dy) ∈ l
                  /\ inside (engine w) (x + dx) (y + dy)
                  /\ cell_at (grid (engine w)) (x + dx) (y + dy) = Null
                  /\ cell_at (grid (engine w')) (x + dx) (y + dy) = Obj q
                  /\ type q = kind
                  /\ same_cells_but w w' (Some (x + dx, y + dy))).
Proof.
  induction l as [|[dx dy] l IH]; intros w Hs.
  - exists None, w. split; [done|]. split; [done|]. by left.
  - pose proof Hs as [Hr _]. cbn [for_return]. unfold bind at 1, bind at 1.
    destruct (empty_at_outcome (x + dx) (y + dy) w Hr) as (free & -> & Hfree).
    destruct free.
    + destruct (proj1 Hfree eq_refl) as [Hi Hnull].
      destruct (createParticle_cells kind (x + dx) (y + dy) w Hs kind_known)
        as (b & w1 & E1 & Hother & Hnew & _).
      destruct (Hnew Hi Hnull) as (-> & q & Hq & Ht & _).
      unfold bind at 1. rewrite E1. unfold ret.
      exists (Some true), w1. split; [done|].
      split; [by eapply createParticle_sound|]. right. split; [done|].
      split; [by rewrite (createParticle_count _ _ _ _ _ _ Hs E1)|].
      exists dx, dy, q. split; [apply elem_of_cons; by left|].
      repeat (split; [done|]).
      intros px py Hne. apply Hother. congruence.
    + unfold ret at 1. cbv beta iota.
      destruct (IH w Hs) as (r & w' & E & Hs' & Hcase).
      exists r, w'. split; [exact E|]. split; [done|].
      destruct Hcase as [?|(-> & Hn & dx' & dy' & q & Hin & Hrest)]; [by left|].
      right. split; [done|]. split; [done|].
      exists dx', dy', q. split; [apply elem_of_cons; by right|done].
Qed.

End SourceFacts.

(** A source emits at most one particle, into an empty cell beside it. *)
Lemma source_update_outcome sort_at_random self kind x y w :
  sorts sort_at_random -> sound w ->
  is_Some (Particles.lookup Particles.ELEMENTS kind) ->
  Particles.el_emitType self = Some kind ->
  exists b w',
    Behaviors.source_update sort_at_random self x y w = Ok b w'
    /\ sound w'
    /\ particleCount (engine w')
       = particleCount (engine w) + (if b then 1 else 0)
    /\ (if b
        then exists nx ny q,
               beside x y nx ny
               /\ inside (engine w) nx ny
               /\ cell_at (grid (engine w)) nx ny = Null
               /\ cell_at (grid (engine w')) nx ny = Obj q
               /\ type q = kind
               /\ same_cells_but w w' (Some (nx, ny))
        else same_cells_but w w' None).
Proof.
  intros Hsort Hs Hknown Hemit.
  unfold Behaviors.source_update, bind at 1, Math_random.
  set (w1 := mkWorld (engine w)
                     (mkRng (source (rng w)) (S (calls (rng w))))).
  assert (Hs1 : sound w1) by exact Hs.
  destruct (Js.lt_prop _ _).
  2: { exists false, w1. split; [done|]. split; [done|]. split; [simpl; lia|].
       by intros px py _. }
  unfold bind at 1.
  destruct (Hsort [(0, 1); (1, 0); (0, -1); (-1, 0)] w1)
    as (directions & w2 & -> & He2 & Hperm).
  assert (Hs2 : sound w2).
  { unfold sound, count_agrees. rewrite He2. exact Hs1. }
  rewrite Hemit. simpl default. unfold bind at 1.
  destruct (emit_loop x y kind Hknown directions w2 Hs2)
    as (r & w' & -> & Hs' & Hcase).
  destruct Hcase as [[-> ->]|(-> & Hn & dx & dy & q & Hin & Hi & Hnull & Hq & Ht & Hsame)].
  - exists false, w2. split; [done|]. split; [done|].
    split; [rewrite He2; simpl; lia|].
    intros px py _. by rewrite He2.
  - exists true, w'. split; [done|]. split; [done|].
    split; [rewrite Hn, He2; simpl; lia|].
    exists (x + dx), (y + dy), q. rewrite He2 in Hi, Hnull.
    split.
    { rewrite Hperm in Hin. unfold beside.
      repeat (apply elem_of_cons in Hin as [[= -> ->]|Hin]; [lia|]).
      by apply elem_of_nil in Hin. }
    repeat (split; [done|]).
    intros px py Hne. rewrite (Hsame px py Hne). by rewrite He2.
Qed.

(** ** Water and fire *)

Section WaterFireFacts.

Implicit Types (e : Engine) (w : World).

(** A particle changed into one of a known element. *)
Lemma changeParticleType_cells w x y p newType :
  sound w -> inside (engine w) x y ->
  cell_at (grid (engine w)) x y = Obj p ->
  is_Some (Particles.lookup Particles.ELEMENTS newType) ->
  exists w' q,
    changeParticleType x y newType w = Ok true w'
    /\ sound w'
    /\ frame (engine w) (engine w')
    /\ cell_at (grid (engine w')) x y = Obj q /\ type q = newType
    /\ (forall px py, (px, py) ≠ (x, y) ->
          cell_at (grid (engine w')) px py = cell_at (grid (engine w)) px py)
    /\ particleCount (engine w') = particleCount (engine w).
Proof.
  intros Hs Hi Hp Hknown. pose proof Hs as [Hr Hc].
  assert (E := changeParticleType_inside w x y newType Hr Hi).
  rewrite Hp in E. simpl in E.
  destruct (factory_runs newType x y w) as (o & r & Hf & _ & Hsome).
  destruct (Hsome (element_known _ Hknown)) as [q ->]. rewrite Hf in E.
  exists (on_engine (mark x y)
            (with_cell x y (Obj (with_updated true q)) (mkWorld (engine w) r))),
         (with_updated true q).
  split; [exact E|].
  split; [by eapply changeParticleType_sound|].
  split; [by repeat split|].
  split; [by apply (with_cell_at_same (mkWorld (engine w) r))|].
  split; [by destruct (factory_particle _ _ _ _ _ _ Hf) as [? _]|].
  split; [|done].
  intros px py Hne. by apply (with_cell_at_other (mkWorld (engine w) r)).
Qed.

(** A particle removed. *)
Lemma removeParticle_cells w x y p :
  sound w -> inside (engine w) x y ->
  cell_at (grid (engine w)) x y = Obj p ->
  exists w',
    removeParticle x y w = Ok true w'
    /\ sound w'
    /\ cell_at (grid (engine w')) x y = Null
    /\ (forall px py, (px, py) ≠ (x, y) ->
          cell_at (grid (engine w')) px py = cell_at (grid (engine w)) px py)
    /\ particleCount (engine w') = particleCount (engine w) - 1.
Proof.
  intros Hs Hi Hp. pose proof Hs as [Hr Hc].
  assert (E := removeParticle_inside w x y Hr Hi). rewrite Hp in E. simpl in E.
  eexists. split; [exact E|].
  split; [by eapply removeParticle_sound|].
  split; [by apply (with_cell_at_same w)|].
  split; [|simpl; lia].
  intros px py Hne. by apply (with_cell_at_other w).
Qed.

(** The reaction of water and fire. *)
Lemma water_fire_outcome w waterX waterY fireX fireY pw pf :
  sound w ->
  inside (engine w) waterX waterY -> inside (engine w) fireX fireY ->
  cell_at (grid (engine w)) waterX waterY = Obj pw -> type pw = "water"%string ->
  cell_at (grid (engine w)) fireX fireY = Obj pf -> type pf = "fire"%string ->
  exists w' q,
    Interactions.water_fire waterX waterY fireX fireY w = Ok true w'
    /\ sound w'
    /\ cell_at (grid (engine w')) fireX fireY = Null
    /\ cell_at (grid (engine w')) waterX waterY = Obj q
    /\ type q = (if (source (rng w) (calls (rng w)) <? 0.7)%float
                 then "steam" else "water")%string
    /\ (forall px py, (px, py) ≠ (waterX, waterY) -> (px, py) ≠ (fireX, fireY) ->
          cell_at (grid (engine w')) px py = cell_at (grid (engine w)) px py)
    /\ particleCount (engine w') = particleCount (engine w) - 1.
Proof.
  intros Hs Hiw Hif Hw Htw Hf Htf.
  assert (Hne : (fireX, fireY) ≠ (waterX, waterY)).
  { intros [= -> ->]. rewrite Hw in Hf. injection Hf as ->. congruence. }
  unfold Interactions.water_fire, bind at 1, Math_random.
  set (w1 := mkWorld (engine w) (mkRng (source (rng w)) (S (calls (rng w))))).
  assert (Hs1 : sound w1) by exact Hs.
  destruct (source (rng w) (calls (rng w)) <? 0.7)%float.
  - destruct (changeParticleType_cells w1 waterX waterY pw "steam" Hs1 Hiw Hw)
      as (w2 & q & E2 & Hs2 & Hfr2 & Hq & Htq & Hother2 & Hn2); [by eexists|].
    unfold bind at 1. unfold bind at 1. rewrite E2. unfold skip, ret at 1.
    assert (Hif2 : inside (engine w2) fireX fireY).
    { destruct Hfr2 as (Hw2 & Hh2 & _). unfold inside. rewrite Hw2, Hh2. exact Hif. }
    destruct (removeParticle_cells w2 fireX fireY pf Hs2 Hif2)
      as (w3 & E3 & Hs3 & Hnull & Hother3 & Hn3); [by rewrite Hother2|].
    unfold bind at 1. rewrite E3. exists w3, q. split; [done|].
    split; [done|]. split; [done|].
    split; [rewrite Hother3 by congruence; exact Hq|]. split; [done|].
    split; [|rewrite Hn3, Hn2; done].
    intros px py H1 H2. rewrite Hother3 by done. by rewrite Hother2.
  - unfold bind at 1. unfold skip, ret at 1. cbv beta iota.
    destruct (removeParticle_cells w1 fireX fireY pf Hs1 Hif Hf)
      as (w3 & E3 & Hs3 & Hnull & Hother3 & Hn3).
    unfold bind at 1. rewrite E3. exists w3, pw. split; [done|].
    split; [done|]. split; [done|].
    split; [rewrite Hother3 by congruence; exact Hw|]. split; [done|].
    split; [|exact Hn3].
    intros px py H1 H2. by rewrite Hother3.
Qed.

(** Whichever of the two cells is named first, the same reaction runs with
    the water first. *)
Lemma processInteraction_water_fire w waterX waterY fireX fireY pw pf :
  rectangular (engine w) ->
  inside (engine w) waterX waterY -> inside (engine w) fireX fireY ->
  cell_at (grid (engine w)) waterX waterY = Obj pw -> type pw = "water"%string ->
  cell_at (grid (engine w)) fireX fireY = Obj pf -> type pf = "fire"%string ->
  Interactions.processInteraction waterX waterY fireX fireY w
  = Interactions.water_fire waterX waterY fireX fireY w
  /\ Interactions.processInteraction fireX fireY waterX waterY w
     = Interactions.water_fire waterX waterY fireX fireY w.
Proof.
  intros Hr Hiw Hif Hw Htw Hf Htf. unfold Interactions.processInteraction.
  split.
  - unfold bind at 1. rewrite grid_get_inside, Hw by done.
    unfold bind at 1. rewrite grid_get_inside, Hf by done.
    cbv zeta. by rewrite Htw, Htf.
  - unfold bind at 1. rewrite grid_get_inside, Hf by done.
    unfold bind at 1. rewrite grid_get_inside, Hw by done.
    cbv zeta. by rewrite Htw, Htf.
Qed.

End WaterFireFacts.

(** X1. A tick keeps the engine invariant: when [update] returns, the grid is
    still the [height] by [width] rectangle of cells and [particleCount]
    still equals the number of cells that hold a particle, whatever
    reactions and behaviours ran, provided the host's sort leaves the engine
    object alone. *)
Theorem update_keeps_count sort_at_random w n w' :
  engine_only sort_at_random ->
  sound w ->
  update sort_at_random w = Ok n w' ->
  sound w'.
Proof. apply update_sound. Qed.

Lemma update_keeps_count_witness :
  engine_only Sample.keep_order
  /\ sound Sample.acid_two_metals
  /\ update Sample.keep_order Sample.acid_two_metals = Ok 3 Sample.ticked
  /\ sound Sample.ticked.
Proof.
  assert (Hsort : engine_only Sample.keep_order).
  { intros l w l' w' E. unfold Sample.keep_order, ret in E. by simplify_eq. }
  assert (Hs : sound Sample.acid_two_metals).
  { split; [|reflexivity]. split; [reflexivity|].
    simpl. repeat constructor; discriminate. }
  assert (E : update Sample.keep_order Sample.acid_two_metals = Ok 3 Sample.ticked)
    by (vm_compute; reflexivity).
  split; [exact Hsort|]. split; [exact Hs|]. split; [exact E|].
  exact (update_keeps_count _ _ _ _ Hsort Hs E).
Defined.

(** X2. A tick changes nothing but the simulation: the size of the grid, the
    running flag, the gravity, the speed, both history stacks, their bound
    and the skip flag are as before, and the tick counter has grown by
    exactly one when the engine is running (by nothing when it is paused). *)
Theorem update_leaves_settings_and_history sort_at_random w n w' :
  engine_only sort_at_random ->
  update sort_at_random w = Ok n w' ->
  width (engine w') = width (engine w)
  /\ height (engine w') = height (engine w)
  /\ active (engine w') = active (engine w)
  /\ gravity (engine w') = gravity (engine w)
  /\ speed (engine w') = speed (engine w)
  /\ undoStack (engine w') = undoStack (engine w)
  /\ redoStack (engine w') = redoStack (engine w)
  /\ maxUndoSteps (engine w') = maxUndoSteps (engine w)
  /\ _skipNextUndo (engine w') = _skipNextUndo (engine w)
  /\ updateCount (engine w')
     = updateCount (engine w) + (if active (engine w) then 1 else 0).
Proof.
  intros Hsort E.
  destruct (update_frame _ _ _ _ Hsort E)
    as (Hw & Hh & Ha & Hg & Hsp & Hc & Hu & Hre & Hm & Hsk).
  by repeat (split; [done|]).
Qed.

Lemma update_leaves_settings_and_history_witness :
  engine_only Sample.keep_order
  /\ update Sample.keep_order Sample.acid_two_metals = Ok 3 Sample.ticked
  /\ undoStack (engine Sample.ticked) = undoStack (engine Sample.acid_two_metals)
  /\ updateCount (engine Sample.ticked) = 1.
Proof.
  assert (Hsort : engine_only Sample.keep_order).
  { intros l w l' w' E. unfold Sample.keep_order, ret in E. by simplify_eq. }
  assert (E : update Sample.keep_order Sample.acid_two_metals = Ok 3 Sample.ticked)
    by (vm_compute; reflexivity).
  pose proof (update_leaves_settings_and_history _ _ _ _ Hsort E)
    as (_ & _ & _ & _ & _ & Hu & _ & _ & _ & Hc).
  split; [exact Hsort|]. split; [exact E|]. split; [exact Hu|exact Hc].
Defined.

(** X3. Undo brings back what an edit changed.  On a world that satisfies the
    engine invariant, with the skip flag down and room for at least one undo
    step, [drawElements] and [eraseElements] return, and a following [undo]
    returns true and restores the counter and, cell by cell, the particles
    that were there before the edit (as far as a snapshot keeps them). *)
Theorem undo_restores_edit w :
  sound w -> _skipNextUndo (engine w) = false -> 1 <= maxUndoSteps (engine w) ->
  (forall type points,
     exists n w1 w2,
       drawElements type points w = Ok n w1
       /\ undo w1 = Ok true w2 /\ brought_back w w2)
  /\ (forall points,
        exists n w1 w2,
          eraseElements points w = Ok n w1
          /\ undo w1 = Ok true w2 /\ brought_back w w2).
Proof.
  intros Hs Hskip Hlimit.
  destruct (_saveUndoState_saves w Hs Hskip Hlimit)
    as (rest & w0 & Esave & Hs0 & Hw & Hh & _ & _ & _ & _ & Hstack & _).
  split.
  - intros type points.
    destruct (draw_loop type points 0 w0 Hs0) as (n & w1 & Eloop & Hk & _).
    destruct (undo_after_save w rest w0 w1 Hs Hstack Hw Hh Hk)
      as (w2 & Eundo & _ & _ & _ & Hn & Hcells).
    exists n, w1, w2. split; [|by split].
    unfold drawElements, bind. by rewrite Esave.
  - intros points.
    destruct (erase_loop points 0 w0 Hs0) as (n & w1 & Eloop & Hk & _).
    destruct (undo_after_save w rest w0 w1 Hs Hstack Hw Hh Hk)
      as (w2 & Eundo & _ & _ & _ & Hn & Hcells).
    exists n, w1, w2. split; [|by split].
    unfold eraseElements, bind. by rewrite Esave.
Qed.

Lemma undo_restores_edit_witness :
  sound Sample.fresh
  /\ drawElements "wall" [(0, 0)] Sample.fresh = Ok 1 Sample.drawn
  /\ undo Sample.drawn = Ok true Sample.undone
  /\ brought_back Sample.fresh Sample.undone.
Proof.
  assert (Hs : sound Sample.fresh) by apply new_Engine_sound.
  assert (Hskip : _skipNextUndo (engine Sample.fresh) = false) by reflexivity.
  assert (Hlimit : 1 <= maxUndoSteps (engine Sample.fresh)) by (simpl; lia).
  destruct (proj1 (undo_restores_edit Sample.fresh Hs Hskip Hlimit) "wall" [(0, 0)])
    as (n & w1 & w2 & E1 & E2 & Hb).
  assert (D1 : drawElements "wall" [(0, 0)] Sample.fresh = Ok 1 Sample.drawn)
    by (vm_compute; reflexivity).
  assert (D2 : undo Sample.drawn = Ok true Sample.undone)
    by (vm_compute; reflexivity).
  rewrite D1 in E1. injection E1 as <- <-.
  rewrite D2 in E2. injection E2 as <-.
  split; [exact Hs|]. split; [exact D1|]. split; [exact D2|exact Hb].
Defined.

(** X4. Redo takes back an undo.  When the snapshot on top of the undo stack
    was taken of a grid of the engine's size, [undo] followed by [redo]
    returns true twice and leaves the counter, both history stacks and, cell
    by cell, the particles as they were before the undo. *)
Theorem redo_takes_back_undo w rest g n :
  rectangular (engine w) ->
  rectangular (with_grid g (engine w)) ->
  undoStack (engine w) = rest ++ [snapshot_of (engine w) g n] ->
  exists w1 w2,
    undo w = Ok true w1
    /\ redo w1 = Ok true w2
    /\ brought_back w w2
    /\ undoStack (engine w2) = undoStack (engine w)
    /\ redoStack (engine w2) = redoStack (engine w).
Proof.
  intros Hr Hg Hstack.
  destruct (undo_runs w rest g n Hr Hg Hstack)
    as (w1 & E1 & Hr1 & Hw1 & Hh1 & _ & Hu1 & Hre1 & Hn1 & Hcells1).
  destruct (redo_runs w1 (redoStack (engine w)) (grid (engine w))
              (particleCount (engine w)))
    as (w2 & E2 & Hr2 & Hw2 & Hh2 & _ & Hre2 & Hu2 & Hn2 & Hcells2).
  - exact Hr1.
  - apply (rectangular_dims (engine w)); [done..|exact Hr].
  - rewrite Hre1. f_equal. f_equal. symmetry. by apply snapshot_of_dims.
  - exists w1, w2. split; [exact E1|]. split; [exact E2|]. split; [split|split].
    + exact Hn2.
    + intros x y Hi. apply Hcells2. unfold inside in *. by rewrite Hw1, Hh1.
    + rewrite Hu2, Hu1, Hstack. f_equal. f_equal.
      unfold snapshot_of. rewrite Hw1, Hh1, Hn1. f_equal.
      apply snapshot_list_ext. intros x y Hx Hy.
      rewrite Hcells1 by done. apply snap_of_round_trip.
    + exact Hre2.
Qed.

Lemma redo_takes_back_undo_witness :
  rectangular (engine Sample.drawn)
  /\ undo Sample.drawn = Ok true Sample.undone
  /\ redo Sample.undone = Ok true Sample.redone
  /\ brought_back Sample.drawn Sample.redone
  /\ undoStack (engine Sample.redone) = undoStack (engine Sample.drawn).
Proof.
  assert (Hr : rectangular (engine Sample.drawn)).
  { split; [reflexivity|]. vm_compute. repeat constructor; discriminate. }
  assert (Hg : rectangular (with_grid [[Null; Null]] (engine Sample.drawn))).
  { split; [reflexivity|]. simpl. repeat constructor; discriminate. }
  assert (Hstack : undoStack (engine Sample.drawn)
                   = [] ++ [snapshot_of (engine Sample.drawn) [[Null; Null]] 0])
    by (vm_compute; reflexivity).
  destruct (redo_takes_back_undo Sample.drawn [] [[Null; Null]] 0 Hr Hg Hstack)
    as (w1 & w2 & E1 & E2 & Hb & Hu & _).
  assert (D1 : undo Sample.drawn = Ok true Sample.undone)
    by (vm_compute; reflexivity).
  assert (D2 : redo Sample.undone = Ok true Sample.redone)
    by (vm_compute; reflexivity).
  rewrite D1 in E1. injection E1 as <-.
  rewrite D2 in E2. injection E2 as <-.
  split; [exact Hr|]. split; [exact D1|]. split; [exact D2|].
  split; [exact Hb|exact Hu].
Defined.

(** A session: a new engine, a wall drawn, the stroke undone and redone. *)
Lemma session_redone : session Sample.redone.
Proof.
  apply (session_step Sample.undone).
  - apply (session_step Sample.drawn).
    + apply (session_step Sample.fresh).
      * apply session_new; lia.
      * apply (op_drawElements _ _ "wall" [(0, 0)] 1). vm_compute. reflexivity.
    + apply (op_undo _ _ true). vm_compute. reflexivity.
  - apply (op_redo _ _ true). vm_compute. reflexivity.
Qed.

(** X5. The counter is exact throughout a session.  In every world reached
    from a new engine by the public operations (the grid primitives,
    [drawElements], [eraseElements], [reset], [undo], [redo], [update],
    [setGravity], [setSpeed], in any order and number), the grid is the
    [height] by [width] rectangle and [particleCount] equals the number of
    cells that hold a particle. *)
Theorem session_counts_particles w :
  session w -> rectangular (engine w) /\ count_agrees w.
Proof. intros H. by destruct (session_healthy w H) as [[Hs _] _]. Qed.

Lemma session_counts_particles_witness :
  session Sample.redone
  /\ rectangular (engine Sample.redone) /\ count_agrees Sample.redone.
Proof.
  split; [exact session_redone|].
  exact (session_counts_particles Sample.redone session_redone).
Defined.

(** X6. The history stays bounded throughout a session: the undo stack and
    the redo stack together never hold more than the ten snapshots
    [maxUndoSteps] allows. *)
Theorem session_history_bounded w :
  session w ->
  maxUndoSteps (engine w) = 10
  /\ (length (undoStack (engine w)) + length (redoStack (engine w)) <= 10)%nat.
Proof.
  intros H. destruct (session_healthy w H) as [(_ & Hb & _) Hm].
  split; [exact Hm|]. unfold history_bounded in Hb. lia.
Qed.

Lemma session_history_bounded_witness :
  session Sample.redone
  /\ maxUndoSteps (engine Sample.redone) = 10
  /\ (length (undoStack (engine Sample.redone))
      + length (redoStack (engine Sample.redone)) <= 10)%nat.
Proof.
  split; [exact session_redone|].
  exact (session_history_bounded Sample.redone session_redone).
Defined.

(** X7. [getLine] between two integer points of magnitude at most 2^50
    (where the arithmetic of the loop is exact) always finishes, and after
    exactly max(|x1 - x0|, |y1 - y0|) + 1 iterations: with that much fuel or
    more the loop returns a list of that length that starts at the first
    point and ends at the second, whose consecutive points are one step apart
    toward the end point (along x, along y or along both), that lists no
    point twice and never leaves the rectangle spanned by the two points. *)
Theorem getLine_walks fuel x0 y0 x1 y1 :
  small_integer x0 -> small_integer y0 ->
  small_integer x1 -> small_integer y1 ->
  (Z.to_nat (Z.max (Z.abs (x1 - x0)) (Z.abs (y1 - y0))) < fuel)%nat ->
  exists pts,
    Utils.getLine fuel x0 y0 x1 y1 = Some pts
    /\ length pts = S (Z.to_nat (Z.max (Z.abs (x1 - x0)) (Z.abs (y1 - y0))))
    /\ head pts = Some (x0, y0)
    /\ last pts = Some (x1, y1)
    /\ stepwise (if x0 <? x1 then 1 else -1) (if y0 <? y1 then 1 else -1) pts
    /\ NoDup pts
    /\ Forall (in_box x0 y0 x1 y1) pts.
Proof. intros _ _ _ _. apply getLine_runs. Qed.

Lemma getLine_walks_witness :
  (small_integer 0 /\ small_integer 5 /\ small_integer 2)
  /\ (Z.to_nat (Z.max (Z.abs (5 - 0)) (Z.abs (2 - 0))) < 10)%nat
  /\ exists pts,
       Utils.getLine 10 0 0 5 2 = Some pts
       /\ length pts = 6%nat
       /\ head pts = Some (0, 0)
       /\ last pts = Some (5, 2)
       /\ stepwise 1 1 pts
       /\ NoDup pts
       /\ Forall (in_box 0 0 5 2) pts.
Proof.
  assert (H0 : small_integer 0) by (unfold small_integer; lia).
  assert (H5 : small_integer 5) by (unfold small_integer; lia).
  assert (H2 : small_integer 2) by (unfold small_integer; lia).
  assert (H : (Z.to_nat (Z.max (Z.abs (5 - 0)) (Z.abs (2 - 0))) < 10)%nat)
    by (simpl; lia).
  split; [exact (conj H0 (conj H5 H2))|].
  split; [exact H|]. exact (getLine_walks 10 0 0 5 2 H0 H0 H5 H2 H).
Defined.

(** X8. For integer corners of magnitude at most 2^50 (where the loop
    counters are exact), the filled rectangle of [getRectangle] lists every
    cell of the rectangle spanned by the two corners, in whatever order the
    corners are given, each cell once:
    (|x1 - x0| + 1) * (|y1 - y0| + 1) points. *)
Theorem getRectangle_filled_covers x0 y0 x1 y1 :
  small_integer x0 -> small_integer y0 ->
  small_integer x1 -> small_integer y1 ->
  NoDup (Utils.getRectangle x0 y0 x1 y1 true)
  /\ length (Utils.getRectangle x0 y0 x1 y1 true)
     = Z.to_nat ((Z.abs (x1 - x0) + 1) * (Z.abs (y1 - y0) + 1))
  /\ forall p, p ∈ Utils.getRectangle x0 y0 x1 y1 true <-> in_box x0 y0 x1 y1 p.
Proof. intros _ _ _ _. apply getRectangle_filled_facts. Qed.

Lemma getRectangle_filled_covers_witness :
  (small_integer 4 /\ small_integer 2 /\ small_integer 3)
  /\ Utils.getRectangle 4 2 3 3 true = [(3, 2); (4, 2); (3, 3); (4, 3)]
  /\ NoDup (Utils.getRectangle 4 2 3 3 true)
  /\ length (Utils.getRectangle 4 2 3 3 true) = 4%nat
  /\ forall p, p ∈ Utils.getRectangle 4 2 3 3 true <-> in_box 4 2 3 3 p.
Proof.
  assert (H4 : small_integer 4) by (unfold small_integer; lia).
  assert (H2 : small_integer 2) by (unfold small_integer; lia).
  assert (H3 : small_integer 3) by (unfold small_integer; lia).
  split; [exact (conj H4 (conj H2 H3))|].
  split; [vm_compute; reflexivity|].
  exact (getRectangle_filled_covers 4 2 3 3 H4 H2 H3 H3).
Defined.

(** X9. For integer corners of magnitude at most 2^50 (where the loop
    counters are exact), the outline of [getRectangle] lists exactly the
    cells on the border of the rectangle spanned by the two corners, in a
    list of 2 * (|x1 - x0| + 1) + 2 * max(0, |y1 - y0| - 1) entries: a
    rectangle one cell high has each of its cells listed twice. *)
Theorem getRectangle_outline_border x0 y0 x1 y1 :
  small_integer x0 -> small_integer y0 ->
  small_integer x1 -> small_integer y1 ->
  (forall x y,
     (x, y) ∈ Utils.getRectangle x0 y0 x1 y1 false
     <-> in_box x0 y0 x1 y1 (x, y)
         /\ (x = Z.min x0 x1 \/ x = Z.max x0 x1
             \/ y = Z.min y0 y1 \/ y = Z.max y0 y1))
  /\ length (Utils.getRectangle x0 y0 x1 y1 false)
     = Z.to_nat (2 * (Z.abs (x1 - x0) + 1) + 2 * Z.max 0 (Z.abs (y1 - y0) - 1)).
Proof. intros _ _ _ _. split; [apply elem_of_outline|apply length_outline]. Qed.

Lemma getRectangle_outline_border_witness :
  (small_integer 1 /\ small_integer 5 /\ small_integer 2)
  /\ Utils.getRectangle 1 5 2 5 false = [(1, 5); (1, 5); (2, 5); (2, 5)]
  /\ (forall x y,
        (x, y) ∈ Utils.getRectangle 1 5 2 5 false
        <-> in_box 1 5 2 5 (x, y)
            /\ (x = Z.min 1 2 \/ x = Z.max 1 2
                \/ y = Z.min 5 5 \/ y = Z.max 5 5))
  /\ length (Utils.getRectangle 1 5 2 5 false) = 4%nat.
Proof.
  assert (H1 : small_integer 1) by (unfold small_integer; lia).
  assert (H5 : small_integer 5) by (unfold small_integer; lia).
  assert (H2 : small_integer 2) by (unfold small_integer; lia).
  split; [exact (conj H1 (conj H5 H2))|].
  split; [vm_compute; reflexivity|].
  exact (getRectangle_outline_border 1 5 2 5 H1 H5 H2 H5).
Defined.

(** X10. For every radius from 1 to 50 (the range of the brush-size slider)
    and every integer centre of magnitude at most 2^50 (where the loop
    counters are exact), [getBrushPoints] lists exactly the cells of the
    disc [(x - x0)^2 + (y - y0)^2 <= radius^2], each once: the test
    evaluated in binary64 arithmetic never disagrees with the exact one. *)
Theorem getBrushPoints_disc x0 y0 radius :
  small_integer x0 -> small_integer y0 ->
  1 <= radius <= 50 ->
  NoDup (Utils.getBrushPoints x0 y0 radius)
  /\ forall x y,
       (x, y) ∈ Utils.getBrushPoints x0 y0 radius
       <-> (x - x0) * (x - x0) + (y - y0) * (y - y0) <= radius * radius.
Proof. intros _ _. apply getBrushPoints_facts. Qed.

Lemma getBrushPoints_disc_witness :
  (small_integer 3 /\ small_integer 4)
  /\ 1 <= 1 <= 50
  /\ Utils.getBrushPoints 3 4 1 = [(3, 3); (2, 4); (3, 4); (4, 4); (3, 5)]
  /\ NoDup (Utils.getBrushPoints 3 4 1)
  /\ forall x y,
       (x, y) ∈ Utils.getBrushPoints 3 4 1
       <-> (x - 3) * (x - 3) + (y - 4) * (y - 4) <= 1 * 1.
Proof.
  assert (H3 : small_integer 3) by (unfold small_integer; lia).
  assert (H4 : small_integer 4) by (unfold small_integer; lia).
  assert (H : 1 <= 1 <= 50) by lia.
  split; [exact (conj H3 H4)|].
  split; [exact H|]. split; [vm_compute; reflexivity|].
  exact (getBrushPoints_disc 3 4 1 H3 H4 H).
Defined.





(** X13. A line drawn across free cells.  With both end points inside the
    grid, every cell of the rectangle they span empty, and fuel for the loop
    of [getLine], [drawLine] with a known element returns
    max(|x2 - x1|, |y2 - y1|) + 1, the counter grows by as much, and both end
    points hold a particle of the element. *)
Theorem drawLine_on_free_cells fuel kind x1 y1 x2 y2 w :
  sound w ->
  is_Some (Particles.lookup Particles.ELEMENTS kind) ->
  inside (engine w) x1 y1 -> inside (engine w) x2 y2 ->
  (forall px py, in_box x1 y1 x2 y2 (px, py) ->
     cell_at (grid (engine w)) px py = Null) ->
  (Z.to_nat (Z.max (Z.abs (x2 - x1)) (Z.abs (y2 - y1))) < fuel)%nat ->
  exists run w',
    drawLine fuel kind x1 y1 x2 y2 = Some run
    /\ run w = Ok (Z.max (Z.abs (x2 - x1)) (Z.abs (y2 - y1)) + 1) w'
    /\ particleCount (engine w')
       = particleCount (engine w) + Z.max (Z.abs (x2 - x1)) (Z.abs (y2 - y1)) + 1
    /\ (exists q, cell_at (grid (engine w')) x1 y1 = Obj q /\ type q = kind)
    /\ (exists q, cell_at (grid (engine w')) x2 y2 = Obj q /\ type q = kind).
Proof.
  intros Hs Hknown Hi1 Hi2 Hfree Hfuel.
  destruct (getLine_runs fuel x1 y1 x2 y2 Hfuel)
    as (pts & E & Hlen & Hhead & Hlast & _ & Hnd & Hbox).
  destruct (drawElements_fresh kind pts w Hs Hknown Hnd)
    as (w' & Edraw & Hcount & Hdrawn & _).
  { eapply Forall_impl; [exact Hbox|]. intros [px py] Hp. split.
    - by apply (in_box_inside _ x1 y1 x2 y2).
    - by apply Hfree. }
  exists (drawElements kind pts), w'. unfold drawLine. rewrite E.
  split; [done|]. rewrite Hlen in Edraw, Hcount.
  rewrite Nat2Z.inj_succ, Z2Nat.id in Edraw, Hcount by lia.
  split; [by rewrite <- Z.add_1_r in Edraw|]. split; [lia|].
  assert (Hin1 : (x1, y1) ∈ pts).
  { destruct pts as [|p pts]; [done|]. simpl in Hhead. injection Hhead as ->.
    apply elem_of_cons. by left. }
  assert (Hin2 : (x2, y2) ∈ pts).
  { apply last_Some in Hlast as [l' ->]. apply elem_of_app. right.
    apply elem_of_cons. by left. }
  destruct (Hdrawn _ _ Hin1) as (q1 & Hq1 & Ht1 & _).
  destruct (Hdrawn _ _ Hin2) as (q2 & Hq2 & Ht2 & _).
  split; [by exists q1|by exists q2].
Qed.

Lemma drawLine_on_free_cells_witness :
  sound (mkWorld (new_Engine 6 3) (Sample.oracle []))
  /\ exists run w',
       drawLine 10 "wall" 0 0 5 2 = Some run
       /\ run (mkWorld (new_Engine 6 3) (Sample.oracle [])) = Ok 6 w'
       /\ particleCount (engine w') = 6.
Proof.
  assert (Hs : sound (mkWorld (new_Engine 6 3) (Sample.oracle [])))
    by apply new_Engine_sound.
  split; [exact Hs|].
  destruct (drawLine_on_free_cells 10 "wall" 0 0 5 2
              (mkWorld (new_Engine 6 3) (Sample.oracle [])) Hs)
    as (run & w' & E & Erun & Hn & _).
  - by eexists.
  - unfold inside. simpl. lia.
  - unfold inside. simpl. lia.
  - intros px py [Hx Hy]. simpl in Hx, Hy.
    apply cell_at_createGrid; lia.
  - simpl. lia.
  - exists run, w'. split; [exact E|]. split; [exact Erun|]. exact Hn.
Defined.

(** X14. A filled rectangle drawn across free cells.  With both corners
    inside the grid and every cell of the rectangle empty,
    [drawRectangle(type, x1, y1, x2, y2, true)] with a known element returns
    (|x2 - x1| + 1) * (|y2 - y1| + 1), the counter grows by as much, every
    cell of the rectangle holds a particle of the element and every cell
    outside it is as before. *)
Theorem drawRectangle_on_free_cells kind x1 y1 x2 y2 w :
  sound w ->
  is_Some (Particles.lookup Particles.ELEMENTS kind) ->
  inside (engine w) x1 y1 -> inside (engine w) x2 y2 ->
  (forall px py, in_box x1 y1 x2 y2 (px, py) ->
     cell_at (grid (engine w)) px py = Null) ->
  exists w',
    drawRectangle kind x1 y1 x2 y2 true w
    = Ok ((Z.abs (x2 - x1) + 1) * (Z.abs (y2 - y1) + 1)) w'
    /\ particleCount (engine w')
       = particleCount (engine w) + (Z.abs (x2 - x1) + 1) * (Z.abs (y2 - y1) + 1)
    /\ (forall px py, in_box x1 y1 x2 y2 (px, py) ->
          exists q, cell_at (grid (engine w')) px py = Obj q /\ type q = kind)
    /\ (forall px py, ~ in_box x1 y1 x2 y2 (px, py) ->
          cell_at (grid (engine w')) px py = cell_at (grid (engine w)) px py).
Proof.
  intros Hs Hknown Hi1 Hi2 Hfree.
  destruct (getRectangle_filled_facts x1 y1 x2 y2) as (Hnd & Hlen & Hin).
  destruct (drawElements_fresh kind (Utils.getRectangle x1 y1 x2 y2 true) w
              Hs Hknown Hnd)
    as (w' & Edraw & Hcount & Hdrawn & Hrest).
  { apply Forall_forall. intros [px py] Hp. apply Hin in Hp. split.
    - by apply (in_box_inside _ x1 y1 x2 y2).
    - by apply Hfree. }
  exists w'. unfold drawRectangle. cbv zeta.
  rewrite Hlen, Z2Nat.id in Edraw, Hcount
    by (apply Z.mul_nonneg_nonneg; lia).
  split; [exact Edraw|]. split; [exact Hcount|]. split.
  - intros px py Hp. destruct (Hdrawn px py) as (q & Hq & Ht & _);
      [by apply Hin|by exists q].
  - intros px py Hp. apply Hrest. by rewrite Hin.
Qed.

Lemma drawRectangle_on_free_cells_witness :
  sound (mkWorld (new_Engine 6 3) (Sample.oracle []))
  /\ exists w',
       drawRectangle "wall" 4 2 1 1 true (mkWorld (new_Engine 6 3) (Sample.oracle []))
       = Ok 8 w'
       /\ particleCount (engine w') = 8.
Proof.
  assert (Hs : sound (mkWorld (new_Engine 6 3) (Sample.oracle [])))
    by apply new_Engine_sound.
  split; [exact Hs|].
  destruct (drawRectangle_on_free_cells "wall" 4 2 1 1
              (mkWorld (new_Engine 6 3) (Sample.oracle [])) Hs)
    as (w' & E & Hn & _).
  - by eexists.
  - unfold inside. simpl. lia.
  - unfold inside. simpl. lia.
  - intros px py [Hx Hy]. simpl in Hx, Hy.
    apply cell_at_createGrid; lia.
  - exists w'. split; [exact E|exact Hn].
Defined.

(** X15. The eraser clears a disc.  For a radius from 1 to 50 and an
    integer centre of magnitude at most 2^50 (where the loop counters of the
    brush are exact), [drawBrush] with the type ['eraser'] empties every
    cell of the grid within the distance [radius] of the centre, leaves
    every cell farther away as it was, and lowers the counter by the number
    it returns. *)
Theorem eraser_clears_disc x0 y0 radius w :
  sound w ->
  small_integer x0 -> small_integer y0 ->
  1 <= radius <= 50 ->
  exists n w',
    drawBrush "eraser" x0 y0 radius w = Ok n w'
    /\ particleCount (engine w') = particleCount (engine w) - n
    /\ (forall px py,
          inside (engine w) px py ->
          (px - x0) * (px - x0) + (py - y0) * (py - y0) <= radius * radius ->
          cell_at (grid (engine w')) px py = Null)
    /\ (forall px py,
          radius * radius < (px - x0) * (px - x0) + (py - y0) * (py - y0) ->
          cell_at (grid (engine w')) px py = cell_at (grid (engine w)) px py).
Proof.
  intros Hs _ _ Hr.
  destruct (getBrushPoints_facts x0 y0 radius Hr) as [_ Hin].
  destruct (eraseElements_runs_clear (Utils.getBrushPoints x0 y0 radius) w Hs)
    as (n & w' & E & Hn & _ & Hcleared & Hrest).
  exists n, w'. split; [exact E|]. split; [exact Hn|]. split.
  - intros px py Hi Hd. apply Hcleared; [by apply Hin|done].
  - intros px py Hd. apply Hrest. rewrite Hin. lia.
Qed.

Lemma eraser_clears_disc_witness :
  sound Sample.acid_two_metals
  /\ small_integer 1
  /\ 1 <= 1 <= 50
  /\ exists n w',
       drawBrush "eraser" 1 1 1 Sample.acid_two_metals = Ok n w'
       /\ cell_at (grid (engine w')) 1 1 = Null
       /\ cell_at (grid (engine w')) 0 0 = Obj (Sample.plain "metal" 0 0).
Proof.
  assert (Hs : sound Sample.acid_two_metals).
  { split; [|reflexivity]. split; [reflexivity|].
    simpl. repeat constructor; discriminate. }
  assert (H1 : small_integer 1) by (unfold small_integer; lia).
  assert (Hr : 1 <= 1 <= 50) by lia.
  split; [exact Hs|]. split; [exact H1|]. split; [exact Hr|].
  destruct (eraser_clears_disc 1 1 1 Sample.acid_two_metals Hs H1 H1 Hr)
    as (n & w' & E & _ & Hcleared & Hrest).
  exists n, w'. split; [exact E|]. split.
  - apply Hcleared; [unfold inside; simpl; lia|lia].
  - rewrite Hrest; [reflexivity|lia].
Defined.

(** X16. [_encodeGrid] keeps the types of the particles in row-major order
    and the empty cells that follow the last particle, and nothing else: the
    runs it returns expand to the particle types of the grid followed by one
    null for each trailing empty cell, so the empty cells that come before a
    particle are not recorded. *)
Theorem _encodeGrid_drops_gaps (g : list (list Cell))
        (front : list (option string)) (k : nat) :
  types g = front ++ replicate k None ->
  front = [] \/ is_Some (mjoin (last front)) ->
  expand (Storage._encodeGrid g) = named front ++ replicate k None.
Proof. apply _encodeGrid_expand. Qed.

Lemma _encodeGrid_drops_gaps_witness :
  types [[Null; Obj (Sample.plain "sand" 1 0)];
         [Obj (Sample.plain "wall" 0 1); Null]]
  = [None; Some "sand"; Some "wall"] ++ replicate 1 None
  /\ Storage._encodeGrid [[Null; Obj (Sample.plain "sand" 1 0)];
                          [Obj (Sample.plain "wall" 0 1); Null]]
     = [(Some "sand", 1); (Some "wall", 1); (None, 1)]
  /\ expand (Storage._encodeGrid [[Null; Obj (Sample.plain "sand" 1 0)];
                                  [Obj (Sample.plain "wall" 0 1); Null]])
     = named [None; Some "sand"; Some "wall"] ++ replicate 1 None.
Proof.
  assert (H : types [[Null; Obj (Sample.plain "sand" 1 0)];
                     [Obj (Sample.plain "wall" 0 1); Null]]
              = [None; Some "sand"; Some "wall"] ++ replicate 1 None)
    by reflexivity.
  split; [exact H|]. split; [reflexivity|].
  apply (_encodeGrid_drops_gaps _ _ 1 H). right. by eexists.
Defined.

(** X17. For a width from 1 to 2^32 - 1 and a height from 0 to 2^32 - 1,
    [_decodeGrid] returns a grid of [height] rows of [width] cells that holds
    the expanded runs row by row: cell [(x, y)] is the entry number
    [y * width + x], a run with an empty or null type giving null; the cells
    past the end of the runs are null and the entries past the end of the grid
    are ignored. *)
Theorem _decodeGrid_lays_out_runs (runs : list Storage.Run) (width height : Z) :
  0 < width < 2 ^ 32 -> 0 <= height < 2 ^ 32 ->
  exists grid,
    Storage._decodeGrid runs width height = Some grid
    /\ length grid = Z.to_nat height
    /\ Forall (λ row, length row = Z.to_nat width) grid
    /\ forall x y, 0 <= x < width -> 0 <= y < height ->
         basic_at grid x y
         = Some (Storage.basic_of (entry (expand runs) (y * width + x))).
Proof. apply _decodeGrid_laid_out. Qed.

Lemma _decodeGrid_lays_out_runs_witness :
  0 < 2 < 2 ^ 32 /\ 0 <= 2 < 2 ^ 32
  /\ Storage._decodeGrid [(Some "sand", 3)] 2 2
     = Some [[Some "sand"; Some "sand"]; [Some "sand"; None]]
  /\ exists grid,
       Storage._decodeGrid [(Some "sand", 3)] 2 2 = Some grid
       /\ length grid = Z.to_nat 2
       /\ Forall (λ row, length row = Z.to_nat 2) grid
       /\ forall x y, 0 <= x < 2 -> 0 <= y < 2 ->
            basic_at grid x y
            = Some (Storage.basic_of (entry (expand [(Some "sand", 3)]) (y * 2 + x))).
Proof.
  assert (Hw : 0 < 2 < 2 ^ 32) by (split; reflexivity).
  assert (Hh : 0 <= 2 < 2 ^ 32) by (split; [discriminate|reflexivity]).
  split; [exact Hw|]. split; [exact Hh|]. split; [reflexivity|].
  exact (_decodeGrid_lays_out_runs [(Some "sand", 3)] 2 2 Hw Hh).
Defined.

(** X18. Decoding what [_encodeGrid] made of a grid does not give the grid
    back in general: the decoded grid has its particles packed to the front.
    Read row by row, its cell number [i] holds the type of the [i]-th particle
    of the encoded grid, and null once the particles are used up. *)
Theorem decode_encode_packs_particles (g : list (list Cell)) (width height : Z) :
  0 < width < 2 ^ 32 -> 0 <= height < 2 ^ 32 ->
  exists grid,
    Storage._decodeGrid (Storage._encodeGrid g) width height = Some grid
    /\ length grid = Z.to_nat height
    /\ Forall (λ row, length row = Z.to_nat width) grid
    /\ forall x y, 0 <= x < width -> 0 <= y < height ->
         basic_at grid x y
         = Some (Storage.basic_of (entry (named (types g)) (y * width + x))).
Proof. apply decode_encode_packs. Qed.

Lemma decode_encode_packs_particles_witness :
  0 < 2 < 2 ^ 32 /\ 0 <= 1 < 2 ^ 32
  /\ Storage._decodeGrid
       (Storage._encodeGrid [[Null; Obj (Sample.plain "sand" 1 0)]]) 2 1
     = Some [[Some "sand"; None]]
  /\ exists grid,
       Storage._decodeGrid
         (Storage._encodeGrid [[Null; Obj (Sample.plain "sand" 1 0)]]) 2 1
       = Some grid
       /\ length grid = Z.to_nat 1
       /\ Forall (λ row, length row = Z.to_nat 2) grid
       /\ forall x y, 0 <= x < 2 -> 0 <= y < 1 ->
            basic_at grid x y
            = Some (Storage.basic_of
                      (entry (named (types [[Null; Obj (Sample.plain "sand" 1 0)]]))
                             (y * 2 + x))).
Proof.
  assert (Hw : 0 < 2 < 2 ^ 32) by (split; reflexivity).
  assert (Hh : 0 <= 1 < 2 ^ 32) by (split; [discriminate|reflexivity]).
  split; [exact Hw|]. split; [exact Hh|]. split; [reflexivity|].
  exact (decode_encode_packs_particles
           [[Null; Obj (Sample.plain "sand" 1 0)]] 2 1 Hw Hh).
Defined.

(** X19. The round trip through [_encodeGrid] and [_decodeGrid] gives back
    the type of every cell when, read row by row, all particles of the grid
    come before all of its empty cells and no particle has the empty string
    as type: decoding the encoding at the size of the grid then yields, in
    each cell, the type of the particle that was there, or null. *)
Theorem decode_encode_round_trip (g : list (list Cell)) (width height : Z)
        (names : list string) (k : nat) :
  0 < width < 2 ^ 32 -> 0 <= height < 2 ^ 32 ->
  length g = Z.to_nat height ->
  Forall (λ row, length row = Z.to_nat width) g ->
  types g = map Some names ++ replicate k None ->
  EmptyString ∉ names ->
  exists grid,
    Storage._decodeGrid (Storage._encodeGrid g) width height = Some grid
    /\ length grid = Z.to_nat height
    /\ Forall (λ row, length row = Z.to_nat width) grid
    /\ forall x y, 0 <= x < width -> 0 <= y < height ->
         basic_at grid x y = Some (cell_type (cell_at g x y)).
Proof. apply decode_encode_packed. Qed.

Lemma decode_encode_round_trip_witness :
  exists grid,
    Storage._decodeGrid
      (Storage._encodeGrid [[Obj (Sample.plain "sand" 0 0);
                             Obj (Sample.plain "wall" 1 0)];
                            [Obj (Sample.plain "wall" 0 1); Null]]) 2 2
    = Some grid
    /\ length grid = Z.to_nat 2
    /\ Forall (λ row, length row = Z.to_nat 2) grid
    /\ forall x y, 0 <= x < 2 -> 0 <= y < 2 ->
         basic_at grid x y
         = Some (cell_type (cell_at [[Obj (Sample.plain "sand" 0 0);
                                      Obj (Sample.plain "wall" 1 0)];
                                     [Obj (Sample.plain "wall" 0 1); Null]] x y)).
Proof.
  apply (decode_encode_round_trip _ 2 2 ["sand"; "wall"; "wall"] 1)%string.
  - split; reflexivity.
  - split; [discriminate|reflexivity].
  - reflexivity.
  - repeat constructor.
  - reflexivity.
  - rewrite !not_elem_of_cons. repeat split; try discriminate.
    apply not_elem_of_nil.
Defined.

(** X20. Sand, wall, wood, metal, water and oil are conserved.  On an engine
    that satisfies the invariant and whose grid holds only particles of
    these six elements, a tick of [update] neither creates, removes nor
    changes the type of a particle: afterwards the grid still holds only
    these elements, [particleCount] is as before, and so is the number of
    particles of every type. *)
Theorem update_conserves_inert_elements sort_at_random w n w' :
  sound w ->
  only_holds inert_or_flowing (grid (engine w)) ->
  update sort_at_random w = Ok n w' ->
  only_holds inert_or_flowing (grid (engine w'))
  /\ particleCount (engine w') = particleCount (engine w)
  /\ forall t, census t (grid (engine w')) = census t (grid (engine w)).
Proof.
  intros Hs Hh E.
  destruct (update_conserved w sort_at_random w n w' (conserved_refl w Hs Hh) E)
    as (_ & Hh' & Hn & Hc).
  by repeat split.
Qed.

Lemma update_conserves_inert_elements_witness :
  update Sample.keep_order Sample.sand_water_oil = Ok 4 Sample.settled
  /\ grid (engine Sample.settled)
     = [ [Null; Obj (mkParticle "oil" 1 0 (Some 0%float) (Some 0%float) true
                                None None None None)];
         [Obj (mkParticle "sand" 0 1 (Some 0%float) (Some 0%float) true
                          None None None None);
          Obj (mkParticle "water" 1 1 (Some 0%float) (Some 0%float) true
                          None None None None)];
         [Obj (mkParticle "wall" 0 2 (Some 0%float) (Some 0%float) true
                          None None None None);
          Obj (mkParticle "wall" 1 2 (Some 0%float) (Some 0%float) true
                          None None None None)] ]
  /\ only_holds inert_or_flowing (grid (engine Sample.settled))
  /\ particleCount (engine Sample.settled) = 5
  /\ forall t, census t (grid (engine Sample.settled))
               = census t (grid (engine Sample.sand_water_oil)).
Proof.
  assert (Hs : sound Sample.sand_water_oil).
  { split; [|reflexivity]. split; [reflexivity|].
    simpl. repeat constructor; discriminate. }
  assert (Hh : only_holds inert_or_flowing (grid (engine Sample.sand_water_oil))).
  { apply only_holds_Forall. simpl. unfold inert_or_flowing.
    repeat (first [apply Forall_nil_2 | apply Forall_cons_2]);
      intros p Hp; simplify_eq; simpl; rewrite !elem_of_cons; auto 10. }
  assert (E : update Sample.keep_order Sample.sand_water_oil = Ok 4 Sample.settled)
    by (vm_compute; reflexivity).
  split; [exact E|]. split; [vm_compute; reflexivity|].
  exact (update_conserves_inert_elements _ _ _ _ Hs Hh E).
Defined.

(** X21. Reset clears the grid and can be undone.  On a world that satisfies
    the engine invariant, with the skip flag down and room for at least one
    undo step, [reset] returns and leaves every cell of the grid empty, the
    counter at 0 and no active region; a following [undo] returns true and
    restores the counter and, cell by cell, the particles that were there
    before the reset (as far as a snapshot keeps them). *)
Theorem reset_clears_and_undo_restores w :
  sound w -> _skipNextUndo (engine w) = false -> 1 <= maxUndoSteps (engine w) ->
  exists w1 w2,
    reset w = Ok tt w1
    /\ (forall px py, inside (engine w) px py ->
          cell_at (grid (engine w1)) px py = Null)
    /\ particleCount (engine w1) = 0
    /\ activeRegions (engine w1) = []
    /\ undo w1 = Ok true w2
    /\ brought_back w w2.
Proof.
  intros Hs Hskip Hlimit.
  destruct (_saveUndoState_saves w Hs Hskip Hlimit)
    as (rest & w0 & Esave & Hs0 & Hw & Hh & _ & _ & _ & _ & Hstack & _).
  set (w1 := mkWorld
               (with_activeRegions []
                  (with_particleCount 0
                     (with_grid (_createGrid (width (engine w0)) (height (engine w0)))
                                (engine w0))))
               (rng w0)).
  assert (Hk : kept (engine w0) w1).
  { split; [|by repeat split]. split.
    - apply (rectangular_createGrid (engine w0)).
    - unfold count_agrees. simpl. by rewrite count_cells_createGrid. }
  destruct (undo_after_save w rest w0 w1 Hs Hstack Hw Hh Hk)
    as (w2 & Eundo & _ & _ & _ & Hn & Hcells).
  exists w1, w2. split.
  { unfold reset, bind. rewrite Esave. reflexivity. }
  split.
  { intros px py [Hx Hy]. simpl. apply cell_at_createGrid; lia. }
  split; [reflexivity|]. split; [reflexivity|]. split; [exact Eundo|].
  by split.
Qed.

Lemma reset_clears_and_undo_restores_witness :
  exists w1 w2,
    reset Sample.drawn_once = Ok tt w1
    /\ (forall px py, inside (engine Sample.drawn_once) px py ->
          cell_at (grid (engine w1)) px py = Null)
    /\ particleCount (engine w1) = 0
    /\ activeRegions (engine w1) = []
    /\ undo w1 = Ok true w2
    /\ brought_back Sample.drawn_once w2.
Proof.
  apply reset_clears_and_undo_restores.
  - split; [|reflexivity]. split; [reflexivity|].
    simpl. repeat constructor; discriminate.
  - reflexivity.
  - simpl. lia.
Defined.

(** X22. Sand, water and oil fall toward the last row, whatever the gravity
    direction of the engine is set to.  When the behaviour of such a particle
    runs at a cell above the last row and the cell below is empty, it returns
    true without a random draw: the cell is empty afterwards, the cell below
    holds the particle with its new coordinates and the [updated] flag set,
    every other cell and the counter are as before.  In the last row the
    behaviour returns false and changes nothing. *)
Theorem heavy_elements_fall_down sort_at_random w x y p :
  rectangular (engine w) ->
  inside (engine w) x y ->
  cell_at (grid (engine w)) x y = Obj p ->
  type p ∈ ["sand"; "water"; "oil"]%string ->
  (y + 1 < height (engine w) ->
   cell_at (grid (engine w)) x (y + 1) = Null ->
   exists w',
     behave sort_at_random (type p) x y w = Ok true w'
     /\ cell_at (grid (engine w')) x y = Null
     /\ cell_at (grid (engine w')) x (y + 1)
        = Obj (with_updated true (with_pos x (y + 1) p))
     /\ (forall px py, (px, py) ≠ (x, y) -> (px, py) ≠ (x, y + 1) ->
           cell_at (grid (engine w')) px py = cell_at (grid (engine w)) px py)
     /\ particleCount (engine w') = particleCount (engine w)
     /\ rng w' = rng w)
  /\ (y = height (engine w) - 1 ->
      behave sort_at_random (type p) x y w = Ok false w).
Proof.
  intros Hr Hi Hp Ht. split.
  - intros Hy Hq.
    destruct (move_down_outcome w x y p Hr Hi Hy Hp Hq) as (w' & E & Hrest).
    exists w'. split; [|exact Hrest].
    assert (Hrun : (moveParticle x y x (y + 1);; ret true) w = Ok true w')
      by (unfold bind; by rewrite E).
    rewrite <- Hrun.
    repeat match goal with
           | H : _ ∈ _ :: _ |- _ => apply elem_of_cons in H as [->|H]
           | H : _ ∈ [] |- _ => by apply elem_of_nil in H
           end.
    + by apply (sand_update_falls Particles.sand).
    + by apply (water_update_falls Particles.water).
    + by apply (water_update_falls Particles.oil).
  - intros Hy.
    repeat match goal with
           | H : _ ∈ _ :: _ |- _ => apply elem_of_cons in H as [->|H]
           | H : _ ∈ [] |- _ => by apply elem_of_nil in H
           end.
    + apply (sand_update_rests Particles.sand). lia.
    + apply (water_update_rests Particles.water). lia.
    + apply (water_update_rests Particles.oil). lia.
Qed.

Lemma heavy_elements_fall_down_witness :
  exists w',
    behave Sample.keep_order "sand" 0 0 Sample.sand_water_oil = Ok true w'
    /\ cell_at (grid (engine w')) 0 0 = Null
    /\ cell_at (grid (engine w')) 0 (0 + 1)
       = Obj (with_updated true (with_pos 0 (0 + 1) (Sample.plain "sand" 0 0)))
    /\ (forall px py, (px, py) ≠ (0, 0) -> (px, py) ≠ (0, 0 + 1) ->
          cell_at (grid (engine w')) px py
          = cell_at (grid (engine Sample.sand_water_oil)) px py)
    /\ particleCount (engine w') = particleCount (engine Sample.sand_water_oil)
    /\ rng w' = rng Sample.sand_water_oil.
Proof.
  assert (Hr : rectangular (engine Sample.sand_water_oil)).
  { split; [reflexivity|]. simpl. repeat constructor; discriminate. }
  assert (Hi : inside (engine Sample.sand_water_oil) 0 0) by (split; simpl; lia).
  assert (Hp : cell_at (grid (engine Sample.sand_water_oil)) 0 0
               = Obj (Sample.plain "sand" 0 0)) by reflexivity.
  assert (Ht : type (Sample.plain "sand" 0 0) ∈ ["sand"; "water"; "oil"]%string)
    by (apply elem_of_cons; by left).
  apply (proj1 (heavy_elements_fall_down Sample.keep_order Sample.sand_water_oil
                  0 0 (Sample.plain "sand" 0 0) Hr Hi Hp Ht)).
  - simpl. lia.
  - reflexivity.
Defined.

(** X23. A world of sand, wall, wood, metal, water and oil can be ticked for
    ever.  When the engine invariant holds, the grid holds only particles of
    these six elements, the gravity is one of the four directions and every
    active region is a cell of the grid, any number of calls of [update] in a
    row return, none throws, whatever the random draws and the host's sort;
    the world they leave satisfies the same conditions and holds the same
    number of particles of every type. *)
Theorem ticks_never_throw sort_at_random (n : nat) w :
  sound w ->
  only_holds inert_or_flowing (grid (engine w)) ->
  directional (gravity (engine w)) ->
  active_inside (engine w) ->
  exists w',
    ticks sort_at_random n w = Ok tt w'
    /\ sound w'
    /\ only_holds inert_or_flowing (grid (engine w'))
    /\ directional (gravity (engine w'))
    /\ active_inside (engine w')
    /\ particleCount (engine w') = particleCount (engine w)
    /\ forall t, census t (grid (engine w')) = census t (grid (engine w)).
Proof.
  intros Hs Hh Hdir Ha.
  destruct (ticks_calm sort_at_random n w (conj Hs (conj Hh (conj Hdir Ha))))
    as (w' & E & (Hs' & Hh' & Hdir' & Ha') & (_ & _ & Hn & Hc)).
  exists w'. by repeat (split; [done|]).
Qed.

Lemma ticks_never_throw_witness :
  exists w',
    ticks Sample.keep_order 3 Sample.sand_water_oil = Ok tt w'
    /\ sound w'
    /\ only_holds inert_or_flowing (grid (engine w'))
    /\ directional (gravity (engine w'))
    /\ active_inside (engine w')
    /\ particleCount (engine w') = particleCount (engine Sample.sand_water_oil)
    /\ forall t, census t (grid (engine w'))
                 = census t (grid (engine Sample.sand_water_oil)).
Proof.
  apply ticks_never_throw.
  - split; [|reflexivity]. split; [reflexivity|].
    simpl. repeat constructor; discriminate.
  - apply only_holds_Forall. simpl. unfold inert_or_flowing.
    repeat (first [apply Forall_nil_2 | apply Forall_cons_2]);
      intros p Hp; simplify_eq; simpl; rewrite !elem_of_cons; auto 10.
  - by left.
  - constructor.
Defined.

(** X24. [setSpeed] keeps the speed between 1 and 10.  It always returns and
    changes the speed only.  A speed that is not a number is stored as [NaN];
    any other is stored as a number from 1 to 10, and it is stored as it is
    (up to the sign of a zero) when it lies between 1 and 10. *)
Theorem setSpeed_clamps (s : float) (w : World) :
  exists w',
    setSpeed s w = Ok tt w'
    /\ engine w' = with_speed (speed (engine w')) (engine w)
    /\ rng w' = rng w
    /\ (if Js.is_nan s then Js.is_nan (speed (engine w')) = true
        else Js.is_nan (speed (engine w')) = false
             /\ PrimFloat.leb 1 (speed (engine w')) = true
             /\ PrimFloat.leb (speed (engine w')) 10 = true
             /\ (PrimFloat.leb 1 s && PrimFloat.leb s 10 = true ->
                 PrimFloat.eqb (speed (engine w')) s = true)).
Proof.
  eexists. split; [reflexivity|]. split; [reflexivity|]. split; [reflexivity|].
  simpl. destruct (Js.is_nan s) eqn:Hs.
  - by apply clamp_nan.
  - destruct (clamp_bounds s 1 10) as (H1 & H2 & H3); try reflexivity; [done|].
    split; [done|]. split; [done|]. split; [done|].
    intros Hin. apply andb_prop in Hin as [Hlo Hhi].
    by apply clamp_inside.
Qed.

(** X25. The void deletes what is around it, walls included.  On a world that
    satisfies the engine invariant the behaviour of the void at [(x, y)]
    returns, without a random draw: each of the eight cells around [(x, y)]
    that held a particle other than a void or a source is empty afterwards,
    every other cell is as before, the counter has dropped by the number
    [k] of deleted particles, and the result is true exactly when [k] is
    positive. *)
Theorem void_deletes_neighbours sort_at_random x y w :
  sound w ->
  exists b w' k,
    behave sort_at_random "void" x y w = Ok b w'
    /\ sound w' /\ rng w' = rng w
    /\ 0 <= k
    /\ particleCount (engine w') = particleCount (engine w) - k
    /\ b = (0 <? k)
    /\ (forall px py, adjacent x y px py ->
          devoured (cell_at (grid (engine w)) px py) = true ->
          cell_at (grid (engine w')) px py = Null)
    /\ (forall px py,
          ~ adjacent x y px py
          \/ devoured (cell_at (grid (engine w)) px py) = false ->
          cell_at (grid (engine w')) px py = cell_at (grid (engine w)) px py).
Proof.
  intros Hs.
  destruct (void_update_outcome x y w Hs)
    as (b & w' & k & E & Hs' & _ & Hr & Hk & Hn & Hb & Hnull & Hkeep).
  exists b, w', k. split; [exact E|]. split; [exact Hs'|]. split; [exact Hr|].
  split; [exact Hk|]. split; [exact Hn|]. split; [exact Hb|].
  split; [exact Hnull|exact Hkeep].
Qed.

Lemma void_deletes_neighbours_witness :
  behave Sample.keep_order "void" 1 1 Sample.around_void
  = Ok true Sample.devoured_around
  /\ map (map cell_type) (grid (engine Sample.devoured_around))
     = [ [None; Some "source-water"; None];
         [None; Some "void"; Some "void"];
         [None; None; None] ]%string
  /\ exists b w' k,
       behave Sample.keep_order "void" 1 1 Sample.around_void = Ok b w'
       /\ sound w' /\ rng w' = rng Sample.around_void
       /\ 0 <= k
       /\ particleCount (engine w') = particleCount (engine Sample.around_void) - k
       /\ b = (0 <? k)
       /\ (forall px py, adjacent 1 1 px py ->
             devoured (cell_at (grid (engine Sample.around_void)) px py) = true ->
             cell_at (grid (engine w')) px py = Null)
       /\ (forall px py,
             ~ adjacent 1 1 px py
             \/ devoured (cell_at (grid (engine Sample.around_void)) px py) = false ->
             cell_at (grid (engine w')) px py
             = cell_at (grid (engine Sample.around_void)) px py).
Proof.
  split; [vm_compute; reflexivity|]. split; [vm_compute; reflexivity|].
  apply void_deletes_neighbours.
  split; [|reflexivity]. split; [reflexivity|].
  simpl. repeat constructor; discriminate.
Defined.

(** X26. A brush without a radius has no points.  For a radius of zero the
    only candidate is the centre, and its test [0 / 0 + 0 / 0 <= 1] compares
    [NaN] and fails; for a negative radius the loops of [getEllipse] do not
    run.  So [getBrushPoints] returns the empty list for every integer
    centre of magnitude at most 2^50 (where the loop counters are exact). *)
Theorem getBrushPoints_radius_zero x y radius :
  small_integer x -> small_integer y ->
  radius <= 0 -> Utils.getBrushPoints x y radius = [].
Proof.
  intros _ _ Hr. unfold Utils.getBrushPoints. cbv zeta.
  unfold Utils.getEllipse_filled, range.
  destruct (decide (radius = 0)) as [->|Hne].
  - replace (y + 0 + 1 - (y - 0)) with 1 by lia.
    replace (x + 0 + 1 - (x - 0)) with 1 by lia.
    change (seqZ (y - 0) 1) with [y - 0]. change (seqZ (x - 0) 1) with [x - 0].
    cbn [flat_map]. rewrite !app_nil_r, !Z.sub_0_r, !Z.sub_diag.
    reflexivity.
  - replace (seqZ (y - radius) (y + radius + 1 - (y - radius))) with (@nil Z);
      [done|].
    unfold seqZ. by destruct (y + radius + 1 - (y - radius)) eqn:E; try lia.
Qed.

Lemma getBrushPoints_radius_zero_witness :
  (small_integer 3 /\ small_integer 4)
  /\ 0 <= 0 /\ Utils.getBrushPoints 3 4 0 = [].
Proof.
  assert (H3 : small_integer 3) by (unfold small_integer; lia).
  assert (H4 : small_integer 4) by (unfold small_integer; lia).
  assert (H : 0 <= 0) by lia.
  split; [exact (conj H3 H4)|].
  split; [exact H|]. exact (getBrushPoints_radius_zero 3 4 0 H3 H4 H).
Defined.

(** X27. The colour of a cell.  For a cell inside a rectangular grid
    [getPixelColor] returns and leaves the engine as it is.  It returns null
    for an empty cell.  For a particle of an element of the table it returns
    three channels; when the particle carries a colour variation other than
    zero, no random number is drawn and each channel is clamped: it is a
    number from 0 to 255 (or [NaN], if the arithmetic on the variation gave
    [NaN]). *)
Theorem getPixelColor_clamps x y w :
  rectangular (engine w) -> inside (engine w) x y ->
  exists c w',
    getPixelColor x y w = Ok c w'
    /\ engine w' = engine w
    /\ (cell_at (grid (engine w)) x y = Null -> c = None /\ w' = w)
    /\ (forall p, cell_at (grid (engine w)) x y = Obj p ->
          is_Some (Particles.lookup Particles.ELEMENTS (type p)) ->
          exists r g b,
            c = Some (r, g, b)
            /\ (Js.falsy (colorVariation p) = false ->
                w' = w /\ channel_ok r /\ channel_ok g /\ channel_ok b)).
Proof. apply getPixelColor_outcome. Qed.

Lemma getPixelColor_clamps_witness :
  getPixelColor 0 0 Sample.light_sand
  = Ok (Some (244, 221, 123)%float) Sample.light_sand
  /\ exists c w',
       getPixelColor 0 0 Sample.light_sand = Ok c w'
       /\ engine w' = engine Sample.light_sand
       /\ (cell_at (grid (engine Sample.light_sand)) 0 0 = Null ->
           c = None /\ w' = Sample.light_sand)
       /\ (forall p, cell_at (grid (engine Sample.light_sand)) 0 0 = Obj p ->
             is_Some (Particles.lookup Particles.ELEMENTS (type p)) ->
             exists r g b,
               c = Some (r, g, b)
               /\ (Js.falsy (colorVariation p) = false ->
                   w' = Sample.light_sand
                   /\ channel_ok r /\ channel_ok g /\ channel_ok b)).
Proof.
  split; [vm_compute; reflexivity|].
  apply getPixelColor_clamps.
  - split; [reflexivity|]. simpl. repeat constructor; discriminate.
  - split; simpl; lia.
Defined.

(** X28. A source emits at most one particle, and never over another.  On a
    world that satisfies the engine invariant, with a host sort that returns
    a rearrangement of its array, the behaviour of a water source or a sand
    source at [(x, y)] returns, and the invariant still holds.  When the
    result is true, exactly one particle of the emitted element has
    appeared, in one of the four cells beside [(x, y)], which was inside the
    grid and empty; the counter has grown by one and every other cell is as
    before.  When the result is false, every cell and the counter are as
    before. *)
Theorem source_emits_into_empty_cell sort_at_random kind emitted x y w :
  sorts sort_at_random -> sound w ->
  (kind, emitted) ∈ [("source-water", "water"); ("source-sand", "sand")]%string ->
  exists b w',
    behave sort_at_random kind x y w = Ok b w'
    /\ sound w'
    /\ particleCount (engine w')
       = particleCount (engine w) + (if b then 1 else 0)
    /\ (if b
        then exists nx ny q,
               beside x y nx ny
               /\ inside (engine w) nx ny
               /\ cell_at (grid (engine w)) nx ny = Null
               /\ cell_at (grid (engine w')) nx ny = Obj q
               /\ type q = emitted
               /\ same_cells_but w w' (Some (nx, ny))
        else same_cells_but w w' None).
Proof.
  intros Hsort Hs Hkind.
  apply elem_of_cons in Hkind as [[= -> ->]|Hkind].
  - by apply (source_update_outcome sort_at_random Particles.source_water "water").
  - apply elem_of_cons in Hkind as [[= -> ->]|Hkind];
      [|by apply elem_of_nil in Hkind].
    by apply (source_update_outcome sort_at_random Particles.source_sand "sand").
Qed.

Lemma source_emits_into_empty_cell_witness :
  behave Sample.keep_order "source-water" 0 0 Sample.spring
  = Ok true Sample.spring_flowing
  /\ map (map cell_type) (grid (engine Sample.spring_flowing))
     = [ [Some "source-water"; None]; [Some "water"; None] ]%string
  /\ exists b w',
       behave Sample.keep_order "source-water" 0 0 Sample.spring = Ok b w'
       /\ sound w'
       /\ particleCount (engine w')
          = particleCount (engine Sample.spring) + (if b then 1 else 0)
       /\ (if b
           then exists nx ny q,
                  beside 0 0 nx ny
                  /\ inside (engine Sample.spring) nx ny
                  /\ cell_at (grid (engine Sample.spring)) nx ny = Null
                  /\ cell_at (grid (engine w')) nx ny = Obj q
                  /\ type q = "water"%string
                  /\ same_cells_but Sample.spring w' (Some (nx, ny))
           else same_cells_but Sample.spring w' None).
Proof.
  split; [vm_compute; reflexivity|]. split; [vm_compute; reflexivity|].
  apply (source_emits_into_empty_cell Sample.keep_order "source-water" "water").
  - intros l w. exists l, w. by repeat split.
  - split; [|reflexivity]. split; [reflexivity|].
    simpl. repeat constructor; discriminate.
  - apply elem_of_cons. by left.
Defined.

(** X29. Water puts fire out.  On a world that satisfies the engine
    invariant, for a water particle and a fire particle in cells of the
    grid, [processInteraction] runs the same reaction whichever of the two
    cells is named first, and returns true: the cell of the fire is empty
    afterwards, the cell of the water holds steam when the random draw is
    below 0.7 and water otherwise, every other cell is as before and the
    counter has dropped by one. *)
Theorem water_puts_fire_out w waterX waterY fireX fireY pw pf :
  sound w ->
  inside (engine w) waterX waterY -> inside (engine w) fireX fireY ->
  cell_at (grid (engine w)) waterX waterY = Obj pw -> type pw = "water"%string ->
  cell_at (grid (engine w)) fireX fireY = Obj pf -> type pf = "fire"%string ->
  exists w' q,
    Interactions.processInteraction waterX waterY fireX fireY w = Ok true w'
    /\ Interactions.processInteraction fireX fireY waterX waterY w = Ok true w'
    /\ sound w'
    /\ cell_at (grid (engine w')) fireX fireY = Null
    /\ cell_at (grid (engine w')) waterX waterY = Obj q
    /\ type q = (if (source (rng w) (calls (rng w)) <? 0.7)%float
                 then "steam" else "water")%string
    /\ (forall px py, (px, py) ≠ (waterX, waterY) -> (px, py) ≠ (fireX, fireY) ->
          cell_at (grid (engine w')) px py = cell_at (grid (engine w)) px py)
    /\ particleCount (engine w') = particleCount (engine w) - 1.
Proof.
  intros Hs Hiw Hif Hw Htw Hf Htf.
  destruct (water_fire_outcome w waterX waterY fireX fireY pw pf
              Hs Hiw Hif Hw Htw Hf Htf) as (w' & q & E & Hrest).
  destruct (processInteraction_water_fire w waterX waterY fireX fireY pw pf
              (proj1 Hs) Hiw Hif Hw Htw Hf Htf) as [E1 E2].
  exists w', q. rewrite E1, E2. split; [exact E|]. split; [exact E|exact Hrest].
Qed.

Lemma water_puts_fire_out_witness :
  exists w' q,
    Interactions.processInteraction 0 0 1 0 Sample.water_by_fire = Ok true w'
    /\ Interactions.processInteraction 1 0 0 0 Sample.water_by_fire = Ok true w'
    /\ sound w'
    /\ cell_at (grid (engine w')) 1 0 = Null
    /\ cell_at (grid (engine w')) 0 0 = Obj q
    /\ type q = (if (source (rng Sample.water_by_fire)
                            (calls (rng Sample.water_by_fire)) <? 0.7)%float
                 then "steam" else "water")%string
    /\ (forall px py, (px, py) ≠ (0, 0) -> (px, py) ≠ (1, 0) ->
          cell_at (grid (engine w')) px py
          = cell_at (grid (engine Sample.water_by_fire)) px py)
    /\ particleCount (engine w') = particleCount (engine Sample.water_by_fire) - 1.
Proof.
  eapply (water_puts_fire_out Sample.water_by_fire 0 0 1 0).
  - split; [|reflexivity]. split; [reflexivity|].
    simpl. repeat constructor; discriminate.
  - split; simpl; lia.
  - split; simpl; lia.
  - reflexivity.
  - reflexivity.
  - reflexivity.
  - reflexivity.
Defined.

(** X30. [hexToRgb] gives channels a canvas accepts: for every string,
    matching the pattern or not, each of the three numbers it returns is an
    integer from 0 to 255. *)
Theorem hexToRgb_channels (hex : string) :
  0 <= (Utils.hexToRgb hex).1.1 <= 255
  /\ 0 <= (Utils.hexToRgb hex).1.2 <= 255
  /\ 0 <= (Utils.hexToRgb hex).2 <= 255.
Proof.
  assert (Hdigit : forall c d, Utils.hex_digit c = Some d -> 0 <= d <= 15).
  { intros c d. unfold Utils.hex_digit.
    repeat match goal with
           | |- context [if ?b then _ else _] => destruct b eqn:?
           end; intros; simplify_eq; bools; lia. }
  assert (Hpair : forall a b v, Utils.hex_pair a b = Some v -> 0 <= v <= 255).
  { intros a b v. unfold Utils.hex_pair.
    destruct (Utils.hex_digit a) as [h|] eqn:Ha; [|done].
    destruct (Utils.hex_digit b) as [l|] eqn:Hb; [|done].
    intros [= <-]. apply Hdigit in Ha, Hb. lia. }
  unfold Utils.hexToRgb.
  generalize (match hex with
              | String "#"%char rest => rest
              | _ => hex
              end).
  intros digits.
  destruct digits as [|r1 digits]; [simpl; lia|].
  destruct digits as [|r2 digits]; [simpl; lia|].
  destruct digits as [|g1 digits]; [simpl; lia|].
  destruct digits as [|g2 digits]; [simpl; lia|].
  destruct digits as [|b1 digits]; [simpl; lia|].
  destruct digits as [|b2 digits]; [simpl; lia|].
  destruct digits; [|simpl; lia].
  destruct (Utils.hex_pair r1 r2) as [r|] eqn:Hr; [|simpl; lia].
  destruct (Utils.hex_pair g1 g2) as [g|] eqn:Hg; [|simpl; lia].
  destruct (Utils.hex_pair b1 b2) as [b|] eqn:Hb; [|simpl; lia].
  simpl. apply Hpair in Hr, Hg, Hb. lia.
Qed.
